(** * Transcript-driven audio segmentation: a shallow embedding

    The verified program is the browser-side pipeline of [src/version2.py]
    (the JavaScript carried by the page template [AUDIOCLIP_STUDIO_PAGE]):
    [safeFilename], [parseTranscriptFile], [hhmmssToSeconds], [srtToSeconds],
    [simpleToSeconds], [floatTo16BitPCM], [encodeWAV], [extractSegments] and
    [makeZip].  The template is an ordinary (non-raw) Python string, so every
    doubled backslash of the file is a single backslash of the script; the
    regular expressions quoted below are the ones the browser sees.

    The transcript service of the same file (Python, also in [src/app.py]):
    [extract_video_id], [extract_api_key], [select_track] and [format_text],
    whose output the pipeline reads back.

    Conventions of the model.
    - A JavaScript string is the list of its UTF-16 code units ([N]).
    - A JavaScript Number is a [num]: a rational, the two infinities, or
      NaN; the two zeros are identified.  The operations [num_add],
      [num_mul], ... give exact results.  Module [Binary64] rounds them to
      the nearest binary64 value, as the browser does, and embeds again, on
      the rounded operations, the functions whose result depends on the
      rounding: the conversions of the parser, the synthesis of the last
      end, the sample indices and the duration of the extractor.
    - A [DataView] over an [ArrayBuffer] is the list of its bytes ([Z] in
      [0, 256)), updated in place by index. *)

From Stdlib Require Import Strings.String Strings.Ascii.
From Stdlib Require Import ZArith NArith QArith Qround Qabs Qpower Lia Lqa.
From Stdlib Require Import Bool.
From Stdlib Require DecimalN.
From stdpp Require Import base list gmap.

Set Warnings "-comment-terminator-in-string".

(* ===================================================================== *)
(** * Strings                                                             *)
(* ===================================================================== *)

Module JsString.

(** A string is a sequence of 16-bit code units. *)
Abbreviation jsstr := (list N).

(** [js "abc"] is the string literal ['abc'] (Latin-1 literals only). *)
Definition js (s : string) : jsstr :=
  map N_of_ascii (list_ascii_of_string s).

(** Regular-expression classes, without the [u] flag (code-unit wise). *)
Definition in_range (lo hi c : N) : bool := ((lo <=? c) && (c <=? hi))%N.

(** [\d] *)
Definition is_digit (c : N) : bool := in_range 48 57 c.

(** [\w] = [[A-Za-z0-9_]] *)
Definition is_word (c : N) : bool :=
  in_range 97 122 c || in_range 65 90 c || is_digit c || (c =? 95)%N.

(** LineTerminator: LF, CR, LS, PS. *)
Definition is_line_terminator (c : N) : bool :=
  ((c =? 10) || (c =? 13) || (c =? 8232) || (c =? 8233))%N.

(** [\s] = WhiteSpace + LineTerminator: TAB, VT, FF, SP, NBSP, ZWNBSP, the
    Zs category, and the line terminators. *)
Definition is_space (c : N) : bool :=
  in_range 9 13 c || ((c =? 32) || (c =? 160) || (c =? 5760))%N
  || in_range 8192 8202 c
  || ((c =? 8232) || (c =? 8233) || (c =? 8239) || (c =? 8287)
      || (c =? 12288) || (c =? 65279))%N.

(** [.] without the [s] flag. *)
Definition is_dot (c : N) : bool := negb (is_line_terminator c).

Fixpoint drop_while {A} (p : A -> bool) (l : list A) : list A :=
  match l with
  | x :: l' => if p x then drop_while p l' else l
  | [] => []
  end.

(** [String.prototype.trim]: strips WhiteSpace and LineTerminator at both
    ends. *)
Definition trimStart (s : jsstr) : jsstr := drop_while is_space s.
Definition trimEnd (s : jsstr) : jsstr := reverse (drop_while is_space (reverse s)).
Definition trim (s : jsstr) : jsstr := trimEnd (trimStart s).

(** [s.split(c)] for a one-character separator [c]. *)
Fixpoint split_char_go (c : N) (s cur : jsstr) : list jsstr :=
  match s with
  | [] => [reverse cur]
  | x :: s' =>
      if (x =? c)%N then reverse cur :: split_char_go c s' []
      else split_char_go c s' (x :: cur)
  end.
Definition split_char (c : N) (s : jsstr) : list jsstr := split_char_go c s [].

(** [text.split(/\r?\n/)]: the separator is LF, or CR immediately followed
    by LF; a lone CR stays in its line. *)
Fixpoint split_lines_go (s cur : jsstr) : list jsstr :=
  match s with
  | [] => [reverse cur]
  | 13%N :: (10%N :: s') as t =>
      match t with
      | _ :: s'' => reverse cur :: split_lines_go s'' []
      | [] => [reverse cur]
      end
  | 10%N :: s' => reverse cur :: split_lines_go s' []
  | x :: s' => split_lines_go s' (x :: cur)
  end.
Definition split_lines (s : jsstr) : list jsstr := split_lines_go s [].

(** [s.slice(0, n)] for a non-negative literal [n]. *)
Definition slice0 (n : nat) (s : jsstr) : jsstr := take n s.

(** [String(n)] for a non-negative integer: its decimal digits. *)
Fixpoint uint_digits (d : Decimal.uint) : jsstr :=
  match d with
  | Decimal.Nil => []
  | Decimal.D0 d => 48%N :: uint_digits d
  | Decimal.D1 d => 49%N :: uint_digits d
  | Decimal.D2 d => 50%N :: uint_digits d
  | Decimal.D3 d => 51%N :: uint_digits d
  | Decimal.D4 d => 52%N :: uint_digits d
  | Decimal.D5 d => 53%N :: uint_digits d
  | Decimal.D6 d => 54%N :: uint_digits d
  | Decimal.D7 d => 55%N :: uint_digits d
  | Decimal.D8 d => 56%N :: uint_digits d
  | Decimal.D9 d => 57%N :: uint_digits d
  end.
Definition String_of_N (n : N) : jsstr := uint_digits (N.to_uint n).

(** [s.padStart(n, '0')] *)
Definition padStart0 (n : nat) (s : jsstr) : jsstr :=
  replicate (n - length s) 48%N ++ s.

End JsString.
Export JsString.

(* ===================================================================== *)
(** * Numbers                                                             *)
(* ===================================================================== *)

Module JsNumber.

(** A Number: finite (exact rational), [+Infinity], [-Infinity] or [NaN]. *)
Inductive num : Type :=
| Fin (q : Q)
| PInf
| NInf
| NaN.

Definition of_Z (z : Z) : num := Fin (inject_Z z).
Definition of_nat (n : nat) : num := of_Z (Z.of_nat n).

(** The infinity of a given sign; [0 * Infinity] and the like are NaN. *)
Definition inf_of (s : comparison) : num :=
  match s with Gt => PInf | Lt => NInf | Eq => NaN end.

(** The sign of a rational: [Gt] when positive, [Lt] when negative. *)
Definition Qsign (q : Q) : comparison := (Qnum q ?= 0)%Z.
Definition flip (s : comparison) : comparison := CompOpp s.

(** [a + b] *)
Definition num_add (a b : num) : num :=
  match a, b with
  | NaN, _ | _, NaN => NaN
  | PInf, NInf | NInf, PInf => NaN
  | PInf, _ | _, PInf => PInf
  | NInf, _ | _, NInf => NInf
  | Fin x, Fin y => Fin (Qred (x + y))
  end.

(** [-a] *)
Definition num_neg (a : num) : num :=
  match a with
  | Fin x => Fin (Qred (- x))
  | PInf => NInf
  | NInf => PInf
  | NaN => NaN
  end.

(** [a - b] *)
Definition num_sub (a b : num) : num := num_add a (num_neg b).

(** [a * b] *)
Definition num_mul (a b : num) : num :=
  match a, b with
  | NaN, _ | _, NaN => NaN
  | Fin x, Fin y => Fin (Qred (x * y))
  | Fin x, PInf | PInf, Fin x => inf_of (Qsign x)
  | Fin x, NInf | NInf, Fin x => inf_of (flip (Qsign x))
  | PInf, PInf | NInf, NInf => PInf
  | PInf, NInf | NInf, PInf => NInf
  end.

(** [a / b]; a finite non-zero value over zero is an infinity of the sign
    of the numerator (the divisor is the positive zero in this model). *)
Definition num_div (a b : num) : num :=
  match a, b with
  | NaN, _ | _, NaN => NaN
  | Fin x, Fin y =>
      if Qeq_bool y 0 then inf_of (Qsign x) else Fin (Qred (x / y))
  | Fin _, (PInf | NInf) => Fin 0
  | PInf, Fin y => if Qle_bool 0 y then PInf else NInf
  | NInf, Fin y => if Qle_bool 0 y then NInf else PInf
  | (PInf | NInf), (PInf | NInf) => NaN
  end.

(** [a < b] and [a <= b]: false as soon as one side is NaN. *)
Definition num_lt (a b : num) : bool :=
  match a, b with
  | NaN, _ | _, NaN => false
  | _, NInf | PInf, _ => false
  | NInf, _ | _, PInf => true
  | Fin x, Fin y => negb (Qle_bool y x)
  end.

Definition num_le (a b : num) : bool :=
  match a, b with
  | NaN, _ | _, NaN => false
  | NInf, _ | _, PInf => true
  | _, NInf | PInf, _ => false
  | Fin x, Fin y => Qle_bool x y
  end.

(** [Math.max(a, b)], [Math.min(a, b)]: NaN if either argument is. *)
Definition Math_max (a b : num) : num :=
  match a, b with
  | NaN, _ | _, NaN => NaN
  | _, _ => if num_lt a b then b else a
  end.

Definition Math_min (a b : num) : num :=
  match a, b with
  | NaN, _ | _, NaN => NaN
  | _, _ => if num_lt b a then b else a
  end.

(** [Math.floor(a)] *)
Definition Math_floor (a : num) : num :=
  match a with
  | Fin x => of_Z (Qfloor x)
  | _ => a
  end.

(** Truncation toward zero of a rational (the integer part). *)
Definition Qtrunc (q : Q) : Z := Z.quot (Qnum q) (Zpos (Qden q)).

(** ToIntegerOrInfinity followed by the modulo of ToInt16, ToUint16,
    ToUint32 and ToUint8: NaN and the infinities give 0. *)
Definition to_int_mod (m : Z) (a : num) : Z :=
  match a with
  | Fin x => (Qtrunc x) mod m
  | _ => 0
  end%Z.

Definition ToUint8 (a : num) : Z := to_int_mod 256 a.
Definition ToUint16 (a : num) : Z := to_int_mod 65536 a.
Definition ToUint32 (a : num) : Z := to_int_mod 4294967296 a.
Definition ToInt16 (a : num) : Z :=
  let m := ToUint16 a in if (32768 <=? m)%Z then (m - 65536)%Z else m.

(** The index arithmetic of [slice(start, end)] on an array of length
    [len]: ToIntegerOrInfinity, then a negative index counts from the end,
    and the result is clamped to [0, len]. *)
Definition relative_index (len : nat) (a : num) : nat :=
  match a with
  | NaN | NInf => 0%nat
  | PInf => len
  | Fin x =>
      let t := Qtrunc x in
      if (t <? 0)%Z then Z.to_nat (Z.max (Z.of_nat len + t) 0)
      else Z.to_nat (Z.min t (Z.of_nat len))
  end.

(** [a.slice(start, end)] on an array (or typed array). *)
Definition slice {A} (l : list A) (s e : num) : list A :=
  let k := relative_index (length l) s in
  let final := relative_index (length l) e in
  take (final - k) (drop k l).

End JsNumber.
Export JsNumber.

(* ===================================================================== *)
(** * [Number(string)]                                                    *)
(* ===================================================================== *)

Module StringToNumber.

(** The longest prefix of [s] whose characters satisfy [p], and the rest. *)
Fixpoint span (p : N -> bool) (s : jsstr) : jsstr * jsstr :=
  match s with
  | x :: s' =>
      if p x then let '(a, b) := span p s' in (x :: a, b) else ([], s)
  | [] => ([], [])
  end.

Definition digit_value (c : N) : Z :=
  if is_digit c then Z.of_N c - 48
  else if in_range 97 102 c then Z.of_N c - 87
  else Z.of_N c - 55.

(** The value of a digit string in a base, most significant digit first. *)
Definition digits_value (base : Z) (s : jsstr) : Z :=
  fold_left (fun acc c => acc * base + digit_value c)%Z s 0%Z.

Definition is_hex_digit (c : N) : bool :=
  is_digit c || in_range 97 102 c || in_range 65 70 c.
Definition is_octal_digit (c : N) : bool := in_range 48 55 c.
Definition is_binary_digit (c : N) : bool := in_range 48 49 c.

(** ExponentPart (optional): [e] or [E], an optional sign, digits. *)
Definition exponent_part (s : jsstr) : option Z :=
  match s with
  | [] => Some 0%Z
  | c :: r =>
      if ((c =? 101) || (c =? 69))%N then
        let '(sg, ds) :=
          match r with
          | c' :: r' =>
              if (c' =? 43)%N then (1%Z, r')
              else if (c' =? 45)%N then ((-1)%Z, r')
              else (1%Z, r)
          | [] => (1%Z, r)
          end in
        match ds with
        | [] => None
        | _ => if forallb is_digit ds then Some (sg * digits_value 10 ds)%Z
               else None
        end
      else None
  end.

(** StrUnsignedDecimalLiteral other than [Infinity]: digits with an optional
    fraction, or a fraction alone, then an optional exponent. *)
Definition unsigned_decimal (s : jsstr) : option Q :=
  let '(ip, r1) := span is_digit s in
  let '(fp, r2) :=
    match r1 with
    | c :: r => if (c =? 46)%N then span is_digit r else ([], r1)
    | [] => ([], r1)
    end in
  match ip, fp with
  | [], [] => None
  | _, _ =>
      match exponent_part r2 with
      | Some e =>
          Some (Qred ((inject_Z (digits_value 10 ip)
                       + inject_Z (digits_value 10 fp)
                         / inject_Z (10 ^ Z.of_nat (length fp)))
                      * Qpower 10 e))
      | None => None
      end
  end.

(** NonDecimalIntegerLiteral: [0x], [0o], [0b] (either case), unsigned. *)
Definition non_decimal (s : jsstr) : option Q :=
  match s with
  | z :: p :: ds =>
      let lit (base : Z) (ok : N -> bool) :=
        match ds with
        | [] => None
        | _ => if forallb ok ds then Some (inject_Z (digits_value base ds))
               else None
        end in
      if negb (z =? 48)%N then None
      else if ((p =? 120) || (p =? 88))%N then lit 16%Z is_hex_digit
      else if ((p =? 111) || (p =? 79))%N then lit 8%Z is_octal_digit
      else if ((p =? 98) || (p =? 66))%N then lit 2%Z is_binary_digit
      else None
  | _ => None
  end.

(** [Number(s)] (StringToNumber): surrounding white space is ignored, the
    empty string is 0, and anything that is not a numeric literal is NaN. *)
Definition Number (s : jsstr) : num :=
  match trim s with
  | [] => Fin 0
  | t =>
      match non_decimal t with
      | Some q => Fin q
      | None =>
          let '(negative, body) :=
            match t with
            | c :: r =>
                if (c =? 43)%N then (false, r)
                else if (c =? 45)%N then (true, r)
                else (false, t)
            | [] => (false, t)
            end in
          if bool_decide (body = js "Infinity") then
            (if negative then NInf else PInf)
          else
            match unsigned_decimal body with
            | Some q => if negative then num_neg (Fin q) else Fin q
            | None => NaN
            end
      end
  end.

End StringToNumber.
Export StringToNumber.

(* ===================================================================== *)
(** * Regular expressions                                                 *)
(* ===================================================================== *)

Module Regex.

(** The fragment of the pattern language the program uses: character
    classes, concatenation, ordered alternation, greedy repetition and
    capture groups.  [^] and [$] only occur at the two ends of a pattern
    and are part of [exec] below. *)
Inductive regex : Type :=
| Eps
| Chr (p : N -> bool)
| Seq (r1 r2 : regex)
| Alt (r1 r2 : regex)
| Star (r : regex)
| Group (i : nat) (r : regex).

Abbreviation captures := (gmap nat jsstr).

(** The backtracking matcher, in continuation-passing style: [k] is what
    remains to be matched after [r].  Alternatives are tried left to right
    and a repetition takes one more iteration before it tries to stop
    (greedy); an iteration that consumes nothing is rejected, so the input
    length bounds the number of iterations. *)
Fixpoint rmatch {A} (r : regex) (s : jsstr) (c : captures)
    (k : jsstr -> captures -> option A) : option A :=
  match r with
  | Eps => k s c
  | Chr p =>
      match s with
      | x :: s' => if p x then k s' c else None
      | [] => None
      end
  | Seq r1 r2 => rmatch r1 s c (fun s' c' => rmatch r2 s' c' k)
  | Alt r1 r2 =>
      match rmatch r1 s c k with
      | Some x => Some x
      | None => rmatch r2 s c k
      end
  | Star r' =>
      (fix loop (fuel : nat) (s : jsstr) (c : captures) : option A :=
         match fuel with
         | O => k s c
         | S fuel' =>
             match rmatch r' s c
                     (fun s' c' =>
                        if (length s' <? length s)%nat then loop fuel' s' c'
                        else None) with
             | Some x => Some x
             | None => k s c
             end
         end) (length s) s c
  | Group i r' =>
      rmatch r' s c
        (fun s' c' => k s' (<[i := take (length s - length s') s]> c'))
  end.

(** [s.match(/^r$/)]: the whole string must match; the result maps each
    group number to the text it captured. *)
Definition exec (r : regex) (s : jsstr) : option captures :=
  rmatch r s ∅ (fun s' c => match s' with [] => Some c | _ => None end).

(** [m[i]] *)
Definition group (m : captures) (i : nat) : jsstr := default [] (m !! i).

(** Derived forms. *)
Definition lit (a : ascii) : regex := Chr (N.eqb (N_of_ascii a)).
Arguments lit a%_char.
Definition plus (r : regex) : regex := Seq r (Star r).
Definition opt (r : regex) : regex := Alt r Eps.
Definition seqs (rs : list regex) : regex := foldr Seq Eps rs.

(** [r{n}] *)
Fixpoint times (n : nat) (r : regex) : regex :=
  match n with O => Eps | S n' => Seq r (times n' r) end.
(** [r{0,n}], greedy *)
Fixpoint upto (n : nat) (r : regex) : regex :=
  match n with O => Eps | S n' => opt (Seq r (upto n' r)) end.
(** [r{lo,hi}] *)
Definition rep (lo hi : nat) (r : regex) : regex :=
  Seq (times lo r) (upto (hi - lo) r).

Definition digit : regex := Chr is_digit.
Definition space : regex := Chr is_space.
Definition dot : regex := Chr is_dot.

End Regex.
Export Regex.

(* ===================================================================== *)
(** * Timestamp Parser and Segment Synthesizer ([parseTranscriptFile])    *)
(* ===================================================================== *)

Module Parser.

(** The objects pushed on [timestamped] and returned as segments: [end_]
    is [None] when the object has no [end] property ([undefined]). *)
Record entry : Type := mkEntry {
  start : num;
  end_ : option num;
  text : jsstr
}.

(** [hhmmssToSeconds]: [t.split(':').map(Number)], destructured as
    [[hh, mm, ss]]; a missing component is [undefined], NaN in arithmetic. *)
Definition hhmmssToSeconds (t : jsstr) : num :=
  let parts := map Number (split_char 58 t) in
  let hh := nth 0 parts NaN in
  let mm := nth 1 parts NaN in
  let ss := nth 2 parts NaN in
  num_add (num_add (num_mul hh (of_Z 3600)) (num_mul mm (of_Z 60))) ss.

(** [srtToSeconds]: [[time, ms] = t.split(',')]. *)
Definition srtToSeconds (t : jsstr) : num :=
  let parts := split_char 44 t in
  let time := nth 0 parts [] in
  let ms := match parts with _ :: ms :: _ => Number ms | _ => NaN end in
  num_add (hhmmssToSeconds time) (num_div ms (of_Z 1000)).

(** [simpleToSeconds]: [[m, s] = t.split(':').map(Number)]. *)
Definition simpleToSeconds (t : jsstr) : num :=
  let parts := map Number (split_char 58 t) in
  let m := nth 0 parts NaN in
  let s := nth 1 parts NaN in
  num_add (num_mul m (of_Z 60)) s.

(** Pieces shared by the patterns. *)
Definition d2 : regex := times 2 digit.                 (* "\d{2}" *)
Definition hms : regex :=                               (* "\d{2}:\d{2}:\d{2}" *)
  seqs [d2; lit ":"; d2; lit ":"; d2].
Definition hms_ms : regex :=                            (* "...,\d{3}" *)
  seqs [hms; lit ","; times 3 digit].
Definition m_ss : regex :=                              (* "\d{1,2}:\d{2}" *)
  seqs [rep 1 2 digit; lit ":"; d2].
Definition number : regex :=                            (* "\d+\.?\d*" *)
  seqs [plus digit; opt (lit "."); Star digit].
Definition rest : regex := plus dot.                    (* ".+" *)

(** "/^\[(\d{2}:\d{2}:\d{2})\s*-\s*(\d{2}:\d{2}:\d{2})\]\s*(.+)$/" *)
Definition re_bracket_range : regex :=
  seqs [lit "["; Group 1 hms; Star space; lit "-"; Star space; Group 2 hms;
        lit "]"; Star space; Group 3 rest].

(** "/^(\d{2}:\d{2}:\d{2},\d{3})\s*-->\s*(\d{2}:\d{2}:\d{2},\d{3})$/" *)
Definition re_srt : regex :=
  seqs [Group 1 hms_ms; Star space; lit "-"; lit "-"; lit ">"; Star space;
        Group 2 hms_ms].

(** "/^(\d{1,2}:\d{2})\s*-\s*(\d{1,2}:\d{2})\s*(.+)$/" *)
Definition re_simple_range : regex :=
  seqs [Group 1 m_ss; Star space; lit "-"; Star space; Group 2 m_ss;
        Star space; Group 3 rest].

(** "/^(\d+\.?\d*)\s*-\s*(\d+\.?\d*)\s*(.+)$/" *)
Definition re_number_range : regex :=
  seqs [Group 1 number; Star space; lit "-"; Star space; Group 2 number;
        Star space; Group 3 rest].

(** "/^\[(\d{1,2}:\d{2})\]\s*(.+)$/" *)
Definition re_bracket_start : regex :=
  seqs [lit "["; Group 1 m_ss; lit "]"; Star space; Group 2 rest].

(** "/^\((\d{1,2}:\d{2})\)\s*(.+)$/" *)
Definition re_paren_start : regex :=
  seqs [lit "("; Group 1 m_ss; lit ")"; Star space; Group 2 rest].

(** "/^(\d{1,2}:\d{2})\s+(.+)$/" *)
Definition re_simple_start : regex :=
  seqs [Group 1 m_ss; plus space; Group 2 rest].

(** "/^(\d+\.?\d*)\s+(.+)$/" *)
Definition re_number_start : regex :=
  seqs [Group 1 number; plus space; Group 2 rest].

(** One iteration of the [for] loop over [lines], on line [line] with
    [next_line] the element after it, if any: the entries the iteration
    pushes on [timestamped].  Every branch ends in [continue], so the loop
    always goes on with the element that follows [line]. *)
Definition parse_line (line : jsstr) (next_line : option jsstr) : list entry :=
  match line with
  | [] => []                                            (* if (!line) continue *)
  | _ =>
  match exec re_bracket_range line with
  | Some m =>
      [mkEntry (hhmmssToSeconds (group m 1)) (Some (hhmmssToSeconds (group m 2)))
               (trim (group m 3))]
  | None =>
  match exec re_srt line with
  | Some m =>
      let next := match next_line with Some l => trim l | None => [] end in
      match next with
      | [] => []
      | _ => [mkEntry (srtToSeconds (group m 1)) (Some (srtToSeconds (group m 2)))
                      next]
      end
  | None =>
  match exec re_simple_range line with
  | Some m =>
      [mkEntry (simpleToSeconds (group m 1)) (Some (simpleToSeconds (group m 2)))
               (trim (group m 3))]
  | None =>
  match exec re_number_range line with
  | Some m =>
      [mkEntry (Number (group m 1)) (Some (Number (group m 2)))
               (trim (group m 3))]
  | None =>
  match exec re_bracket_start line with
  | Some m => [mkEntry (simpleToSeconds (group m 1)) None (trim (group m 2))]
  | None =>
  match exec re_paren_start line with
  | Some m => [mkEntry (simpleToSeconds (group m 1)) None (trim (group m 2))]
  | None =>
  match exec re_simple_start line with
  | Some m => [mkEntry (simpleToSeconds (group m 1)) None (trim (group m 2))]
  | None =>
  match exec re_number_start line with
  | Some m => [mkEntry (Number (group m 1)) None (trim (group m 2))]
  | None => []
  end end end end end end end end
  end.

(** The [for (let i = 0; i < lines.length; i++)] loop: [lines] is the part
    of the array from index [i] on, so [lines[i + 1]] is the head of its
    tail. *)
Fixpoint parse_lines (lines : list jsstr) (timestamped : list entry)
    : list entry :=
  match lines with
  | [] => timestamped
  | line :: lines' =>
      parse_lines lines' (timestamped ++ parse_line line (head lines'))
  end.

(** The Timestamp Parser: the first half of [parseTranscriptFile]. *)
Definition parseEntries (t : jsstr) : list entry :=
  parse_lines (map trim (split_lines t)) [].

(** The synthesis loop: [cur = {...timestamped[i]}] with [cur.end] set to
    the next entry's [start], or to [cur.start + 3.0] for the last one. *)
Fixpoint synthesize_ends (timestamped : list entry) : list entry :=
  match timestamped with
  | [] => []
  | cur :: later =>
      mkEntry (start cur)
              (Some (match later with
                     | nxt :: _ => start nxt
                     | [] => num_add (start cur) (of_Z 3)
                     end))
              (text cur)
      :: synthesize_ends later
  end.

(** The Segment Synthesizer: the second half of [parseTranscriptFile]. *)
Definition synthesize (timestamped : list entry) : list entry :=
  match timestamped with
  | first :: _ =>
      match end_ first with
      | None => synthesize_ends timestamped
      | Some _ => timestamped
      end
  | [] => timestamped
  end.

Definition parseTranscriptFile (t : jsstr) : list entry :=
  synthesize (parseEntries t).

End Parser.
Export Parser.

(* ===================================================================== *)
(** * Container Encoder ([floatTo16BitPCM], [encodeWAV])                  *)
(* ===================================================================== *)

Module DataView.

(** The bytes of the underlying [ArrayBuffer]. *)
Abbreviation bytes := (list Z).

(** [new ArrayBuffer(n)]: zero-filled. *)
Definition ArrayBuffer (n : nat) : bytes := replicate n 0%Z.

(** Writing [n] bytes at [off]: a [RangeError] ([None]) unless
    [off + n <= byteLength]. *)
Definition in_bounds (view : bytes) (off n : nat) : bool :=
  (off + n <=? length view)%nat.

(** The [n] low-order bytes of [v], least significant first. *)
Fixpoint le_bytes (n : nat) (v : Z) : list Z :=
  match n with
  | O => []
  | S n' => (v mod 256)%Z :: le_bytes n' (v / 256)%Z
  end.

(** The unsigned value of little-endian bytes. *)
Fixpoint le_value (bs : list Z) : Z :=
  match bs with
  | [] => 0%Z
  | b :: bs' => (b + 256 * le_value bs')%Z
  end.

(** Overwrite the bytes at [off, off + length bs). *)
Fixpoint write_at (view : bytes) (off : nat) (bs : list Z) : bytes :=
  match bs with
  | [] => view
  | b :: bs' => write_at (<[off := b]> view) (S off) bs'
  end.

Definition store (view : bytes) (off : nat) (bs : list Z) : option bytes :=
  if in_bounds view off (length bs) then Some (write_at view off bs) else None.

(** [view.setUint8(off, v)] *)
Definition setUint8 (view : bytes) (off : nat) (v : num) : option bytes :=
  store view off (le_bytes 1 (ToUint8 v)).

(** [view.setUint16(off, v, true)] *)
Definition setUint16 (view : bytes) (off : nat) (v : num) : option bytes :=
  store view off (le_bytes 2 (ToUint16 v)).

(** [view.setUint32(off, v, true)] *)
Definition setUint32 (view : bytes) (off : nat) (v : num) : option bytes :=
  store view off (le_bytes 4 (ToUint32 v)).

(** [view.setInt16(off, v, true)]: the two's-complement bytes of
    [ToInt16(v)]. *)
Definition setInt16 (view : bytes) (off : nat) (v : num) : option bytes :=
  store view off (le_bytes 2 (ToInt16 v)).

(** [view.getInt16(off, true)] *)
Definition getInt16 (view : bytes) (off : nat) : option Z :=
  if in_bounds view off 2 then
    let u := le_value (take 2 (drop off view)) in
    Some (if (32768 <=? u)%Z then (u - 65536)%Z else u)
  else None.

End DataView.
Export DataView.

Module Wav.

(** A monadic [for] loop over the values of the loop variable. *)
Fixpoint for_each {A S} (body : S -> A -> option S) (l : list A) (s : S)
    : option S :=
  match l with
  | [] => Some s
  | x :: l' => s' ← body s x; for_each body l' s'
  end.

(** The loop body of [floatTo16BitPCM] on one sample:
    [s = Math.max(-1, Math.min(1, x))], then the value handed to
    [setInt16] is [s < 0 ? s * 0x8000 : s * 0x7FFF]. *)
Definition clamp (x : num) : num := Math_max (of_Z (-1)) (Math_min (of_Z 1) x).

Definition scaled (x : num) : num :=
  let s := clamp x in
  if num_lt s (of_Z 0) then num_mul s (of_Z 32768) else num_mul s (of_Z 32767).

(** The 16-bit value [setInt16] stores for the sample [x]. *)
Definition pcm16 (x : num) : Z := ToInt16 (scaled x).

(** [floatTo16BitPCM]: the state of the loop is [(out, offset)]. *)
Definition floatTo16BitPCM (float32Array : list num) : option bytes :=
  fst <$>
    for_each
      (fun '(out, offset) x =>
         out' ← setInt16 out offset (scaled x);
         Some (out', (offset + 2)%nat))
      float32Array
      (ArrayBuffer (length float32Array * 2), 0%nat).

(** The state the closures [writeString], [writeUint32] and [writeUint16]
    of [encodeWAV] share: the view and the running [offset]. *)
Record writer : Type := mkWriter { view : bytes; offset : nat }.

(** [for (i = 0; i < s.length; i++) view.setUint8(offset + i, s.charCodeAt(i))],
    then [offset += s.length]. *)
Definition writeString (s : jsstr) (w : writer) : option writer :=
  v ← for_each
         (fun v '(i, c) => setUint8 v (offset w + i) (of_Z (Z.of_N c)))
         (imap (fun i c => (i, c)) s) (view w);
  Some (mkWriter v (offset w + length s)).

Definition writeUint32 (x : num) (w : writer) : option writer :=
  v ← setUint32 (view w) (offset w) x; Some (mkWriter v (offset w + 4)).

Definition writeUint16 (x : num) (w : writer) : option writer :=
  v ← setUint16 (view w) (offset w) x; Some (mkWriter v (offset w + 2)).

(** [encodeWAV(samples, sampleRate)]; the result is the content of the
    [Blob]. *)
Definition encodeWAV (samples : list num) (sampleRate : num) : option bytes :=
  let bytesPerSample := 2%nat in
  let numChannels := 1%nat in
  let blockAlign := (numChannels * bytesPerSample)%nat in
  let byteRate := num_mul sampleRate (of_nat blockAlign) in
  let dataLen := (length samples * bytesPerSample)%nat in
  let w0 := mkWriter (ArrayBuffer (44 + dataLen)) 0 in
  w ← writeString (js "RIFF") w0;
  w ← writeUint32 (of_nat (36 + dataLen)) w;
  w ← writeString (js "WAVE") w;
  w ← writeString (js "fmt ") w;
  w ← writeUint32 (of_nat 16) w;
  w ← writeUint16 (of_nat 1) w;
  w ← writeUint16 (of_nat numChannels) w;
  w ← writeUint32 sampleRate w;
  w ← writeUint32 byteRate w;
  w ← writeUint16 (of_nat blockAlign) w;
  w ← writeUint16 (of_nat 16) w;
  w ← writeString (js "data") w;
  w ← writeUint32 (of_nat dataLen) w;
  pcm ← floatTo16BitPCM samples;
  (* for (let i = 0; i < dataLen; i += 2): i = 0, 2, ..., dataLen - 2 *)
  for_each
    (fun v i => x ← getInt16 pcm i; setInt16 v (44 + i) (of_Z x))
    ((fun k => 2 * k)%nat <$> seq 0 (length samples))
    (view w).

End Wav.
Export Wav.

(* ===================================================================== *)
(** * Segment Extractor ([safeFilename], [extractSegments])               *)
(* ===================================================================== *)

Module Extractor.

(** The first class of [safeFilename], removed outright: the characters
    less-than, greater-than, colon, double quote, slash, backslash, bar,
    question mark, star, and the control characters U+0000 to U+001F. *)
Definition is_forbidden (c : N) : bool :=
  ((c =? 60) || (c =? 62) || (c =? 58) || (c =? 34) || (c =? 47)
   || (c =? 92) || (c =? 124) || (c =? 63) || (c =? 42))%N
  || in_range 0 31 c.

(** The class "[\w\s\-_.]": what the second replacement keeps. *)
Definition is_kept (c : N) : bool :=
  is_word c || is_space c || ((c =? 45) || (c =? 95) || (c =? 46))%N.

(** The class "[\-\s_]": the separators the third replacement collapses. *)
Definition is_separator (c : N) : bool :=
  ((c =? 45) || (c =? 95))%N || is_space c.

(** The class "[_\.]": what the fourth replacement trims at both ends. *)
Definition is_edge (c : N) : bool := ((c =? 95) || (c =? 46))%N.

(** ".replace(/[\-\s_]+/g, '_')": every maximal run of separators becomes
    one underscore; [in_run] tells that the previous character was a
    separator (whose underscore is already emitted). *)
Fixpoint collapse (in_run : bool) (s : jsstr) : jsstr :=
  match s with
  | [] => []
  | c :: s' =>
      if is_separator c then
        if in_run then collapse true s' else 95%N :: collapse true s'
      else c :: collapse false s'
  end.

(** ".replace(/^[_\.]+|[_\.]+$/g, '')": the first alternative can only
    match at index 0 and the second only up to the end, so the leading run
    and the trailing run are removed. *)
Definition strip_edges (s : jsstr) : jsstr :=
  reverse (drop_while is_edge (reverse (drop_while is_edge s))).

(** [safeFilename]; [normalize] is [String.prototype.normalize('NFKD')],
    whose decomposition tables belong to the platform. *)
Definition safeFilename (normalize : jsstr -> jsstr) (t : jsstr) : jsstr :=
  let s := List.filter (fun c => negb (is_forbidden c)) (normalize t) in
  let s := map (fun c => if is_kept c then c else 95%N) s in
  let s := collapse false s in
  let s := strip_edges s in
  let s := if (length s <? 2)%nat then js "audio_segment" else s in
  slice0 25 s.

(** The objects pushed on [out]; [end_time] copies [seg.end], which may be
    [undefined]. *)
Record clip : Type := mkClip {
  filename : jsstr;
  blob : bytes;
  clip_text : jsstr;
  start_time : num;
  end_time : option num;
  duration : num
}.

(** ToNumber of a property that may be [undefined]. *)
Definition to_num (v : option num) : num :=
  match v with Some n => n | None => NaN end.

(** [startIndex] and [endIndex] of a segment, as the loop computes them. *)
Definition start_index (sr : num) (seg : entry) : num :=
  Math_max (of_Z 0) (Math_floor (num_mul (start seg) sr)).
Definition end_index (len : nat) (sr : num) (seg : entry) : num :=
  Math_min (of_nat len) (Math_floor (num_mul (to_num (end_ seg)) sr)).

(** "segment_${String(i + 1).padStart(3, '0')}_${safeFilename(...)}.wav" *)
Definition clip_filename (normalize : jsstr -> jsstr) (i : nat) (seg : entry)
    : jsstr :=
  js "segment_" ++ padStart0 3 (String_of_N (N.of_nat (i + 1))) ++ js "_"
  ++ safeFilename normalize (slice0 30 (text seg)) ++ js ".wav".

(** "Skipped invalid timing for segment ${i + 1}" *)
Definition skip_message (i : nat) : jsstr :=
  js "Skipped invalid timing for segment " ++ String_of_N (N.of_nat (i + 1)).

(** The loop of [extractSegments] from index [i] on, with [segments] the
    elements not yet visited; the state is the array [out] and the lines
    handed to [log].  [None] stands for an exception. *)
Fixpoint extract_loop (normalize : jsstr -> jsstr) (y : list num) (sr : num)
    (segments : list entry) (i : nat) (out : list clip) (logged : list jsstr)
    : option (list clip * list jsstr) :=
  match segments with
  | [] => Some (out, logged)
  | seg :: segments' =>
      let st := start_index sr seg in
      let en := end_index (length y) sr seg in
      if num_le en st then
        extract_loop normalize y sr segments' (S i) out
                     (logged ++ [skip_message i])
      else
        let cut := slice y st en in
        b ← encodeWAV cut sr;
        extract_loop normalize y sr segments' (S i)
          (out ++ [mkClip (clip_filename normalize i seg) b (text seg)
                          (start seg) (end_ seg)
                          (num_sub (to_num (end_ seg)) (start seg))])
          logged
  end.

Definition extractSegments (normalize : jsstr -> jsstr) (y : list num)
    (sr : num) (segments : list entry) : option (list clip * list jsstr) :=
  extract_loop normalize y sr segments 0 [] [].

End Extractor.
Export Extractor.

(* ===================================================================== *)
(** * Archive Builder ([makeZip])                                         *)
(* ===================================================================== *)

Module Archive.

(** What a [JSZip] object holds under a name. *)
Inductive content : Type :=
| Binary (b : bytes)
| Text (s : jsstr).

(** The files of a [JSZip] object; [zip.file(name, data)] adds the file or
    replaces the one of that name. *)
Definition zip_file (name : jsstr) (data : content)
    (zip : gmap jsstr content) : gmap jsstr content :=
  <[name := data]> zip.

Definition nl : jsstr := [10%N].

(** [x.toFixed(fd)] on a finite [x] below 10^21 in magnitude:
    the integer [n] nearest to [x * 10^fd] (the larger one on a tie),
    written with [fd] digits after the point. *)
Definition fixed_digits (fd : nat) (a : Q) : jsstr :=
  let n := Qfloor (a * inject_Z (10 ^ Z.of_nat fd) + (1 # 2)) in
  let m := String_of_N (Z.to_N n) in
  match fd with
  | O => m
  | _ =>
      let m := padStart0 (fd + 1) m in
      let k := (length m - fd)%nat in
      take k m ++ js "." ++ drop k m
  end.

(** [Number.prototype.toFixed]; [toString] is Number::toString, used as it
    is for magnitudes of 10^21 and more (exponent notation, whose digits
    depend on the binary64 value). *)
Definition toFixed (toString : Q -> jsstr) (fd : nat) (x : num) : jsstr :=
  match x with
  | NaN => js "NaN"
  | PInf => js "Infinity"
  | NInf => js "-Infinity"
  | Fin q =>
      if Qle_bool (inject_Z (10 ^ 21)) (Qabs q) then toString q
      else if Qle_bool 0 q then fixed_digits fd q
      else js "-" ++ fixed_digits fd (- q)
  end.

(** The text appended to [meta] for the file [f] at index [idx]; reading
    [toFixed] off an [undefined] [end_time] throws. *)
Definition manifest_entry (toString : Q -> jsstr) (idx : nat) (f : clip)
    : option jsstr :=
  e ← end_time f;
  Some (js "Segment " ++ String_of_N (N.of_nat (idx + 1)) ++ js ": "
        ++ filename f ++ nl
        ++ js "  Text: " ++ clip_text f ++ nl
        ++ js "  Start: " ++ toFixed toString 2 (start_time f) ++ js "s" ++ nl
        ++ js "  End: " ++ toFixed toString 2 e ++ js "s" ++ nl
        ++ js "  Duration: " ++ toFixed toString 2 (duration f) ++ js "s"
        ++ nl ++ nl).

Definition manifest_header : jsstr :=
  js "Audio Segmentation Results" ++ nl ++ replicate 50 61%N ++ nl ++ nl.

(** [files.forEach((f, idx) => ...)]: the state is the zip and [meta]. *)
Fixpoint add_files (toString : Q -> jsstr) (files : list clip) (idx : nat)
    (zip : gmap jsstr content) (meta : jsstr)
    : option (gmap jsstr content * jsstr) :=
  match files with
  | [] => Some (zip, meta)
  | f :: files' =>
      let zip := zip_file (filename f) (Binary (blob f)) zip in
      e ← manifest_entry toString idx f;
      add_files toString files' (S idx) zip (meta ++ e)
  end.

(** [makeZip]: the files of the archive handed to [generateAsync]. *)
Definition makeZip (toString : Q -> jsstr) (files : list clip)
    : option (gmap jsstr content) :=
  '(zip, meta) ← add_files toString files 0 ∅ manifest_header;
  Some (zip_file (js "metadata.txt") (Text meta) zip).

End Archive.
Export Archive.

(* ===================================================================== *)
(** * The data model of the specification                                 *)
(* ===================================================================== *)

Module Spec.

(** A Segment of the data model: both times are numbers of seconds. *)
Record Segment : Type := mkSegment {
  seg_start : Q;
  seg_end : Q;
  seg_text : jsstr
}.

(** The object that carries a Segment through the program. *)
Definition entry_of (s : Segment) : entry :=
  mkEntry (Fin (seg_start s)) (Some (Fin (seg_end s))) (seg_text s).

(** The Segment invariant [end > start >= 0], read on a program object;
    an object without [end] does not satisfy it. *)
Definition segment_ok (seg : entry) : bool :=
  num_le (of_Z 0) (start seg)
  && match end_ seg with
     | Some e => num_lt (start seg) e
     | None => false
     end.

(** The synthesis rule in the words of the specification: the end of entry
    [i] is the start of entry [i + 1], and [start + 3.0] for the last. *)
Definition synthesized (ts : list entry) : list entry :=
  imap (fun i cur =>
          mkEntry (start cur)
                  (Some (match ts !! S i with
                         | Some nxt => start nxt
                         | None => num_add (start cur) (of_Z 3)
                         end))
                  (text cur)) ts.

(** [clamp(s, -1, 1)] *)
Definition Qclamp (q : Q) : Q :=
  if Qle_bool q (-1) then -1 else if Qle_bool 1 q then 1 else q.

(** [s < 0 ? 32768 : 32767] *)
Definition pcm_factor (q : Q) : Q := if Qle_bool 0 q then 32767 else 32768.

(** The conversion as the specification words it: the scaled clamped
    value rounded to the nearest integer. *)
Definition pcm_round (q : Q) : Z := Qfloor (Qclamp q * pcm_factor q + (1 # 2)).

(** The same value with its fraction dropped instead. *)
Definition pcm_trunc (q : Q) : Z := Qtrunc (Qclamp q * pcm_factor q).

(** The PCM data of a sample sequence: two little-endian bytes per sample. *)
Definition pcm_data (samples : list num) : bytes :=
  flat_map (fun x => le_bytes 2 (pcm16 x)) samples.

(** The 44-byte header in the words of the specification, given the four
    fields that vary: the RIFF chunk size, the sample rate, the byte rate
    and the size of the data sub-chunk (32-bit fields are stored modulo
    2^32). *)
Definition header_bytes (riff sr br dl : num) : bytes :=
  map Z.of_N (js "RIFF") ++ le_bytes 4 (ToUint32 riff)
  ++ map Z.of_N (js "WAVE")
  ++ map Z.of_N (js "fmt ") ++ le_bytes 4 16      (* sub-chunk size 16 *)
  ++ le_bytes 2 1                                 (* format tag 1 = PCM *)
  ++ le_bytes 2 1                                 (* channel count 1 *)
  ++ le_bytes 4 (ToUint32 sr)                     (* sample rate *)
  ++ le_bytes 4 (ToUint32 br)                     (* byte rate *)
  ++ le_bytes 2 2                                 (* block align 2 *)
  ++ le_bytes 2 16                                (* bits per sample 16 *)
  ++ map Z.of_N (js "data") ++ le_bytes 4 (ToUint32 dl).

(** Chunk size [36 + dataLen], byte rate [sampleRate * 2]. *)
Definition wav_header (dataLen : nat) (sampleRate : num) : bytes :=
  header_bytes (of_nat (36 + dataLen)) sampleRate
               (num_mul sampleRate (of_Z 2)) (of_nat dataLen).

(** Modelled from the spec: the compliant WAV decoder.  The repository has
    no decoder of its own (containers go to the platform), so this one
    follows section 4.5: it checks the tags and the fixed fields of the
    header (PCM, one channel, 16 bits), takes the sample rate and the size
    of the data sub-chunk from their fields, and reads the data as
    little-endian signed 16-bit integers. *)
Definition field (b : bytes) (off n : nat) : Z := le_value (take n (drop off b)).

Definition tag (b : bytes) (off : nat) (s : string) : bool :=
  bool_decide (take 4 (drop off b) = map Z.of_N (js s)).

Fixpoint int16s (b : bytes) : list Z :=
  match b with
  | lo :: hi :: b' =>
      (let u := lo + 256 * hi in if 32768 <=? u then u - 65536 else u)%Z
      :: int16s b'
  | _ => []
  end.

Definition decodeWAV (b : bytes) : option (Z * list Z) :=
  if tag b 0 "RIFF" && tag b 8 "WAVE" && tag b 12 "fmt "
     && (field b 16 4 =? 16)%Z && (field b 20 2 =? 1)%Z
     && (field b 22 2 =? 1)%Z && (field b 34 2 =? 16)%Z && tag b 36 "data"
  then
    let dataLen := Z.to_nat (field b 40 4) in
    if (44 + dataLen <=? length b)%nat
    then Some (field b 24 4, int16s (take dataLen (drop 44 b)))
    else None
  else None.

(** Modelled from the spec: the decoder hands the samples on as floats in
    [-1, 1), a 16-bit integer [v] standing for [v / 32768] (the scaling of
    the platform decoder that feeds the pipeline). *)
Definition int16_to_float (v : Z) : num := Fin (Qred (inject_Z v / 32768)).

(** The index range of a segment in the words of the specification:
    [max(0, floor(start * sampleRate))] and
    [min(bufferLength, floor(end * sampleRate))]. *)
Definition startIndex (sr : Z) (s : Segment) : Z :=
  Z.max 0 (Qfloor (seg_start s * inject_Z sr)).
Definition endIndex (len : nat) (sr : Z) (s : Segment) : Z :=
  Z.min (Z.of_nat len) (Qfloor (seg_end s * inject_Z sr)).

(** The samples at the indices [a, b) of the buffer. *)
Definition sample_range {A} (y : list A) (a b : Z) : list A :=
  take (Z.to_nat b - Z.to_nat a) (drop (Z.to_nat a) y).

(** What the specification prescribes for segment number [i] (from 0):
    nothing when [endIndex <= startIndex], and otherwise one clip, whose
    container holds the samples of the index range. *)
Definition clips_of (normalize : jsstr -> jsstr) (y : list num) (sr : Z)
    (i : nat) (s : Segment) : list clip :=
  let a := startIndex sr s in
  let b := endIndex (length y) sr s in
  if (b <=? a)%Z then []
  else [mkClip (clip_filename normalize i (entry_of s))
               (wav_header (length (sample_range y a b) * 2) (of_Z sr)
                ++ pcm_data (sample_range y a b))
               (seg_text s) (Fin (seg_start s)) (Some (Fin (seg_end s)))
               (num_sub (Fin (seg_end s)) (Fin (seg_start s)))].

(** The line logged for segment number [i]: one when it is skipped. *)
Definition skips_of (len : nat) (sr : Z) (i : nat) (s : Segment)
    : list jsstr :=
  if (endIndex len sr s <=? startIndex sr s)%Z then [skip_message i] else [].

(** The clips and the log lines of a segment sequence numbered from [i]. *)
Fixpoint clips_from (normalize : jsstr -> jsstr) (y : list num) (sr : Z)
    (i : nat) (segs : list Segment) : list clip :=
  match segs with
  | [] => []
  | s :: segs' =>
      clips_of normalize y sr i s ++ clips_from normalize y sr (S i) segs'
  end.

Fixpoint skips_from (len : nat) (sr : Z) (i : nat) (segs : list Segment)
    : list jsstr :=
  match segs with
  | [] => []
  | s :: segs' => skips_of len sr i s ++ skips_from len sr (S i) segs'
  end.

(** A Clip of the data model. *)
Record Clip : Type := mkClipData {
  c_filename : jsstr;
  c_bytes : bytes;
  c_start : Q;
  c_end : Q;
  c_duration : Q;
  c_text : jsstr
}.

(** The object that carries a Clip through the program. *)
Definition clip_obj (c : Clip) : clip :=
  mkClip (c_filename c) (c_bytes c) (c_text c) (Fin (c_start c))
         (Some (Fin (c_end c))) (Fin (c_duration c)).

(** The manifest entry of clip number [n] (from 1) in the words of the
    specification. *)
Definition entry_text (toString : Q -> jsstr) (n : nat) (c : Clip) : jsstr :=
  js "Segment " ++ String_of_N (N.of_nat n) ++ js ": " ++ c_filename c
  ++ [10%N]
  ++ js "  Text: " ++ c_text c ++ [10%N]
  ++ js "  Start: " ++ toFixed toString 2 (Fin (c_start c)) ++ js "s" ++ [10%N]
  ++ js "  End: " ++ toFixed toString 2 (Fin (c_end c)) ++ js "s" ++ [10%N]
  ++ js "  Duration: " ++ toFixed toString 2 (Fin (c_duration c)) ++ js "s"
  ++ [10%N; 10%N].

(** The entries of a clip sequence numbered from [n], in order. *)
Fixpoint entries_from (toString : Q -> jsstr) (n : nat) (clips : list Clip)
    : jsstr :=
  match clips with
  | [] => []
  | c :: clips' => entry_text toString n c ++ entries_from toString (S n) clips'
  end.

(** [s] is [q] written with exactly two digits after the point: a minus
    sign when [q] is negative, then the digits of the integer nearest to
    [|q| * 100] (the larger one on a tie), the point before the last two. *)
Definition two_decimals (q : Q) (s : jsstr) : Prop :=
  exists int_part d1 d2,
    s = (if Qle_bool 0 q then [] else js "-") ++ int_part ++ js "."
        ++ [d1; d2]
    /\ int_part <> []
    /\ forallb is_digit (int_part ++ [d1; d2]) = true
    /\ digits_value 10 (int_part ++ [d1; d2])
       = Qfloor (Qabs q * 100 + (1 # 2)).

(** A stand-in for Number::toString where no magnitude reaches 10^21 and
    the function is never consulted. *)
Definition no_exponent (q : Q) : jsstr := [].

(** The files of the archive once the clips are added, in order. *)
Definition add_clips (zip : gmap jsstr content) (clips : list Clip)
    : gmap jsstr content :=
  foldl (fun z c => zip_file (c_filename c) (Binary (c_bytes c)) z) zip clips.

(** The manifest entry of the clip object [f], number [n] (from 1), in
    the words of the specification; the object has an end. *)
Definition object_entry_text (toString : Q -> jsstr) (n : nat) (f : clip)
    : jsstr :=
  js "Segment " ++ String_of_N (N.of_nat n) ++ js ": " ++ filename f
  ++ [10%N]
  ++ js "  Text: " ++ clip_text f ++ [10%N]
  ++ js "  Start: " ++ toFixed toString 2 (start_time f) ++ js "s" ++ [10%N]
  ++ js "  End: " ++ toFixed toString 2 (to_num (end_time f)) ++ js "s"
  ++ [10%N]
  ++ js "  Duration: " ++ toFixed toString 2 (duration f) ++ js "s"
  ++ [10%N; 10%N].

(** The entries of a sequence of clip objects numbered from [n], in
    order. *)
Fixpoint object_entries (toString : Q -> jsstr) (n : nat)
    (files : list clip) : jsstr :=
  match files with
  | [] => []
  | f :: files' =>
      object_entry_text toString n f ++ object_entries toString (S n) files'
  end.

(** The files of the archive once the clip objects are added, in order. *)
Definition add_objects (zip : gmap jsstr content) (files : list clip)
    : gmap jsstr content :=
  foldl (fun z f => zip_file (filename f) (Binary (blob f)) z) zip files.

(** The number a clip file name carries after "segment_". *)
Definition filename_index (f : jsstr) : Z :=
  digits_value 10 (fst (span is_digit (drop 8 f))).

(** The characters a sanitized file name is made of: "[A-Za-z0-9_.]". *)
Definition is_name_char (c : N) : bool := is_word c || (c =? 46)%N.

Definition is_ascii (c : N) : bool := (c <? 128)%N.

(** No separator other than a single underscore: the strings the third
    replacement of [safeFilename] leaves alone.  [prev_sep] tells that the
    previous character was a separator. *)
Fixpoint tidy (prev_sep : bool) (s : jsstr) : bool :=
  match s with
  | [] => true
  | c :: s' =>
      if is_separator c then (c =? 95)%N && negb prev_sep && tidy true s'
      else tidy false s'
  end.

(** The name [safeFilename] has made before it cuts it at 25
    characters. *)
Definition untruncated (normalize : jsstr -> jsstr) (t : jsstr) : jsstr :=
  let s := List.filter (fun c => negb (is_forbidden c)) (normalize t) in
  let s := map (fun c => if is_kept c then c else 95%N) s in
  let s := collapse false s in
  let s := strip_edges s in
  if (length s <? 2)%nat then js "audio_segment" else s.

(** The last character is neither an underscore nor a period. *)
Definition ends_clean (s : jsstr) : bool :=
  match last s with
  | Some c => negb (is_edge c)
  | None => true
  end.

(** The shape of every result of [safeFilename]. *)
Definition sanitized_shape (o : jsstr) : Prop :=
  forallb is_name_char o = true
  /\ tidy false o = true
  /\ (forall c, head o = Some c -> is_edge c = false)
  /\ (2 <= length o <= 25)%nat.

(** The NFKD decomposition of the code units up to U+00FF (Unicode
    Character Database); used to instantiate [normalize] on Latin-1 text,
    where it is the platform's normalization. *)
Definition nfkd_latin1_char (c : N) : jsstr :=
  if is_ascii c then [c] else
  (match c with
  | 160 => [32] | 168 => [32; 776] | 170 => [97] | 175 => [32; 772]
  | 178 => [50] | 179 => [51] | 180 => [32; 769] | 181 => [956]
  | 184 => [32; 807] | 185 => [49] | 186 => [111] | 188 => [49; 8260; 52]
  | 189 => [49; 8260; 50] | 190 => [51; 8260; 52] | 192 => [65; 768]
  | 193 => [65; 769] | 194 => [65; 770] | 195 => [65; 771]
  | 196 => [65; 776] | 197 => [65; 778] | 199 => [67; 807]
  | 200 => [69; 768] | 201 => [69; 769] | 202 => [69; 770]
  | 203 => [69; 776] | 204 => [73; 768] | 205 => [73; 769]
  | 206 => [73; 770] | 207 => [73; 776] | 209 => [78; 771]
  | 210 => [79; 768] | 211 => [79; 769] | 212 => [79; 770]
  | 213 => [79; 771] | 214 => [79; 776] | 217 => [85; 768]
  | 218 => [85; 769] | 219 => [85; 770] | 220 => [85; 776]
  | 221 => [89; 769] | 224 => [97; 768] | 225 => [97; 769]
  | 226 => [97; 770] | 227 => [97; 771] | 228 => [97; 776]
  | 229 => [97; 778] | 231 => [99; 807] | 232 => [101; 768]
  | 233 => [101; 769] | 234 => [101; 770] | 235 => [101; 776]
  | 236 => [105; 768] | 237 => [105; 769] | 238 => [105; 770]
  | 239 => [105; 776] | 241 => [110; 771] | 242 => [111; 768]
  | 243 => [111; 769] | 244 => [111; 770] | 245 => [111; 771]
  | 246 => [111; 776] | 249 => [117; 768] | 250 => [117; 769]
  | 251 => [117; 770] | 252 => [117; 776] | 253 => [121; 769]
  | 255 => [121; 776]
  | _ => [c]
  end)%N.

Definition nfkd_latin1 (s : jsstr) : jsstr := flat_map nfkd_latin1_char s.

(** Two lines of a transcript, separated by a line feed. *)
Definition line2 (a b : string) : jsstr := js a ++ [10%N] ++ js b.

End Spec.
Export Spec.

(* ===================================================================== *)
(** * The language of a pattern                                           *)
(* ===================================================================== *)

Module RegexSemantics.

(** [matches r w]: the word [w] belongs to the language of [r]. *)
Inductive matches : regex -> jsstr -> Prop :=
| matches_eps : matches Eps []
| matches_chr p c : p c = true -> matches (Chr p) [c]
| matches_seq r1 r2 w1 w2 :
    matches r1 w1 -> matches r2 w2 -> matches (Seq r1 r2) (w1 ++ w2)
| matches_alt_l r1 r2 w : matches r1 w -> matches (Alt r1 r2) w
| matches_alt_r r1 r2 w : matches r2 w -> matches (Alt r1 r2) w
| matches_star_nil r : matches (Star r) []
| matches_star_cons r w1 w2 :
    matches r w1 -> matches (Star r) w2 -> matches (Star r) (w1 ++ w2)
| matches_group i r w : matches r w -> matches (Group i r) w.

(** Every group [i] of [r] only captures words that satisfy [P i]. *)
Fixpoint groups_sound (P : nat -> jsstr -> Prop) (r : regex) : Prop :=
  match r with
  | Eps | Chr _ => True
  | Seq r1 r2 | Alt r1 r2 => groups_sound P r1 /\ groups_sound P r2
  | Star r' => groups_sound P r'
  | Group i r' => (forall w, matches r' w -> P i w) /\ groups_sound P r'
  end.

(** The groups that have captured something whenever [r] has matched. *)
Fixpoint defined_groups (r : regex) : list nat :=
  match r with
  | Eps | Chr _ | Alt _ _ | Star _ => []
  | Seq r1 r2 => defined_groups r1 ++ defined_groups r2
  | Group i r' => i :: defined_groups r'
  end.

(** Every capture satisfies its predicate. *)
Definition captures_sat (P : nat -> jsstr -> Prop) (c : captures) : Prop :=
  forall i w, c !! i = Some w -> P i w.

(** What a successful run of [rmatch r] on [s] with captures [c] and
    continuation [k] tells: a prefix [w] of [s] in the language of [r] was
    consumed, and [k] succeeded on the rest with captures [c'] that keep
    what [c] had, define the groups of [r], and satisfy [P]. *)
Definition run_sound {A} (P : nat -> jsstr -> Prop) (r : regex) (s : jsstr)
    (c : captures) (k : jsstr -> captures -> option A) (x : A) : Prop :=
  exists w s' c',
    s = w ++ s' /\ matches r w /\ k s' c' = Some x
    /\ (forall i, is_Some (c !! i) -> is_Some (c' !! i))
    /\ (forall i, i ∈ defined_groups r -> is_Some (c' !! i))
    /\ (captures_sat P c -> captures_sat P c').

(** A finite number that is not negative. *)
Definition finite_nonneg (x : num) : Prop :=
  exists q : Q, x = Fin q /\ (0 <= q)%Q.

(** A non-empty string of decimal digits. *)
Definition digit_string (w : jsstr) : Prop :=
  w <> [] /\ forallb is_digit w = true.

(** What may follow the integer digits of a number token: nothing, or a
    point and more digits. *)
Definition literal_tail (tail : jsstr) : Prop :=
  tail = [] \/ exists fp, tail = 46%N :: fp /\ forallb is_digit fp = true.

(** The value of the decimal numeral made of the digits [ip] and of the
    tail [tail]: integer part plus fraction digits over a power of ten. *)
Definition literal_value (ip tail : jsstr) : Q :=
  inject_Z (digits_value 10 ip)
  + inject_Z (digits_value 10 (drop 1 tail))
    / inject_Z (10 ^ Z.of_nat (length (drop 1 tail))).

(** A Number that is not negative: a finite one, or [+Infinity]. *)
Definition nonneg_number (x : num) : Prop := x = PInf \/ finite_nonneg x.

(** The times of an entry are Numbers that are not negative. *)
Definition entry_times_ok (e : entry) : Prop :=
  nonneg_number (start e)
  /\ match end_ e with Some x => nonneg_number x | None => True end.

(** The first [n] groups of a pattern are time tokens that [conv] turns
    into Numbers that are not negative. *)
Definition time_groups (conv : jsstr -> num) (n : nat)
    : nat -> jsstr -> Prop :=
  fun i w => (i <= n)%nat -> nonneg_number (conv w).

End RegexSemantics.
Export RegexSemantics.

(* ===================================================================== *)
(** * Binary64 arithmetic                                                 *)
(* ===================================================================== *)

(** The Numbers of the browser are IEEE 754 binary64 values: the result of
    an operation is its exact result rounded to the nearest value with 53
    significant bits (ties to the even one), an infinity beyond the range.
    The functions of the program whose result depends on that rounding
    (the times of the parser, the sample indices of the extractor) are
    taken again here on this arithmetic. *)

Module Binary64.

(** The integer nearest to [q], the even one on a tie. *)
Definition round_half_even (q : Q) : Z :=
  let f := Qfloor q in
  match (q - inject_Z f ?= 1 # 2)%Q with
  | Lt => f
  | Gt => (f + 1)%Z
  | Eq => if Z.even f then f else (f + 1)%Z
  end.

(** [floor(log2(q))] for a positive [q]. *)
Definition ilog2 (q : Q) : Z :=
  let e := (Z.log2 (Qnum q) - Z.log2 (Zpos (Qden q)))%Z in
  if Qle_bool (2 ^ e) q then e else (e - 1)%Z.

(** The exponent of the unit in the last place at a positive [q]: 53
    significant bits down to the least normal exponent, -1022, and the
    fixed spacing 2^-1074 of the subnormal values below. *)
Definition ulp_exponent (q : Q) : Z := (Z.max (ilog2 q) (-1022) - 52)%Z.

(** The multiple of the unit in the last place nearest to a positive
    [q]. *)
Definition nearest (q : Q) : Q :=
  let e := ulp_exponent q in inject_Z (round_half_even (q / 2 ^ e)) * 2 ^ e.

(** Rounding of a positive rational: from 2^1024 on, the infinity. *)
Definition round_pos (q : Q) : num :=
  let v := nearest q in
  if Qle_bool (2 ^ 1024) v then PInf else Fin (Qred v).

(** The Number nearest to a rational. *)
Definition round64 (q : Q) : num :=
  match Qsign q with
  | Eq => Fin 0
  | Gt => round_pos q
  | Lt => num_neg (round_pos (- q))
  end.

(** Rounding of an exact result. *)
Definition rounded (x : num) : num :=
  match x with
  | Fin q => round64 q
  | _ => x
  end.

(** [a + b], [a - b], [a * b], [a / b] *)
Definition add (a b : num) : num := rounded (num_add a b).
Definition sub (a b : num) : num := rounded (num_sub a b).
Definition mul (a b : num) : num := rounded (num_mul a b).
Definition div (a b : num) : num := rounded (num_div a b).

(** [Number(s)]: the Number nearest to the value of the literal. *)
Definition Number (s : jsstr) : num := rounded (StringToNumber.Number s).

(** [hhmmssToSeconds] *)
Definition hhmmssToSeconds (t : jsstr) : num :=
  let parts := map Number (split_char 58 t) in
  let hh := nth 0 parts NaN in
  let mm := nth 1 parts NaN in
  let ss := nth 2 parts NaN in
  add (add (mul hh (of_Z 3600)) (mul mm (of_Z 60))) ss.

(** [srtToSeconds] *)
Definition srtToSeconds (t : jsstr) : num :=
  let parts := split_char 44 t in
  let time := nth 0 parts [] in
  let ms := match parts with _ :: ms :: _ => Number ms | _ => NaN end in
  add (hhmmssToSeconds time) (div ms (of_Z 1000)).

(** [simpleToSeconds] *)
Definition simpleToSeconds (t : jsstr) : num :=
  let parts := map Number (split_char 58 t) in
  let m := nth 0 parts NaN in
  let s := nth 1 parts NaN in
  add (mul m (of_Z 60)) s.

(** One iteration of the loop of [parseTranscriptFile] over [lines]. *)
Definition parse_line (line : jsstr) (next_line : option jsstr) : list entry :=
  match line with
  | [] => []                                            (* if (!line) continue *)
  | _ =>
  match exec re_bracket_range line with
  | Some m =>
      [mkEntry (hhmmssToSeconds (group m 1)) (Some (hhmmssToSeconds (group m 2)))
               (trim (group m 3))]
  | None =>
  match exec re_srt line with
  | Some m =>
      let next := match next_line with Some l => trim l | None => [] end in
      match next with
      | [] => []
      | _ => [mkEntry (srtToSeconds (group m 1)) (Some (srtToSeconds (group m 2)))
                      next]
      end
  | None =>
  match exec re_simple_range line with
  | Some m =>
      [mkEntry (simpleToSeconds (group m 1)) (Some (simpleToSeconds (group m 2)))
               (trim (group m 3))]
  | None =>
  match exec re_number_range line with
  | Some m =>
      [mkEntry (Number (group m 1)) (Some (Number (group m 2)))
               (trim (group m 3))]
  | None =>
  match exec re_bracket_start line with
  | Some m => [mkEntry (simpleToSeconds (group m 1)) None (trim (group m 2))]
  | None =>
  match exec re_paren_start line with
  | Some m => [mkEntry (simpleToSeconds (group m 1)) None (trim (group m 2))]
  | None =>
  match exec re_simple_start line with
  | Some m => [mkEntry (simpleToSeconds (group m 1)) None (trim (group m 2))]
  | None =>
  match exec re_number_start line with
  | Some m => [mkEntry (Number (group m 1)) None (trim (group m 2))]
  | None => []
  end end end end end end end end
  end.

Fixpoint parse_lines (lines : list jsstr) (timestamped : list entry)
    : list entry :=
  match lines with
  | [] => timestamped
  | line :: lines' =>
      parse_lines lines' (timestamped ++ parse_line line (head lines'))
  end.

(** The Timestamp Parser. *)
Definition parseEntries (t : jsstr) : list entry :=
  parse_lines (map trim (split_lines t)) [].

(** The synthesis loop: the last end is [cur.start + 3.0]. *)
Fixpoint synthesize_ends (timestamped : list entry) : list entry :=
  match timestamped with
  | [] => []
  | cur :: later =>
      mkEntry (start cur)
              (Some (match later with
                     | nxt :: _ => start nxt
                     | [] => add (start cur) (of_Z 3)
                     end))
              (text cur)
      :: synthesize_ends later
  end.

(** The Segment Synthesizer. *)
Definition synthesize (timestamped : list entry) : list entry :=
  match timestamped with
  | first :: _ =>
      match end_ first with
      | None => synthesize_ends timestamped
      | Some _ => timestamped
      end
  | [] => timestamped
  end.

Definition parseTranscriptFile (t : jsstr) : list entry :=
  synthesize (parseEntries t).

(** [startIndex] and [endIndex] of a segment. *)
Definition start_index (sr : num) (seg : entry) : num :=
  Math_max (of_Z 0) (Math_floor (mul (start seg) sr)).
Definition end_index (len : nat) (sr : num) (seg : entry) : num :=
  Math_min (of_nat len) (Math_floor (mul (to_num (end_ seg)) sr)).

(** The loop of [extractSegments]; [duration] is [seg.end - seg.start]. *)
Fixpoint extract_loop (normalize : jsstr -> jsstr) (y : list num) (sr : num)
    (segments : list entry) (i : nat) (out : list clip) (logged : list jsstr)
    : option (list clip * list jsstr) :=
  match segments with
  | [] => Some (out, logged)
  | seg :: segments' =>
      let st := start_index sr seg in
      let en := end_index (length y) sr seg in
      if num_le en st then
        extract_loop normalize y sr segments' (S i) out
                     (logged ++ [skip_message i])
      else
        let cut := slice y st en in
        b ← encodeWAV cut sr;
        extract_loop normalize y sr segments' (S i)
          (out ++ [mkClip (clip_filename normalize i seg) b (text seg)
                          (start seg) (end_ seg)
                          (sub (to_num (end_ seg)) (start seg))])
          logged
  end.

Definition extractSegments (normalize : jsstr -> jsstr) (y : list num)
    (sr : num) (segments : list entry) : option (list clip * list jsstr) :=
  extract_loop normalize y sr segments 0 [] [].

End Binary64.

(* ===================================================================== *)
(** * The index rule on Numbers                                           *)
(* ===================================================================== *)

(** The rule of the specification for one Segment, with the products taken
    as the program takes them, in binary64 arithmetic. *)

Module SegmentRule.

(** [floor(t * sampleRate)] *)
Definition sample_index (t : Q) (sr : Z) : num :=
  Math_floor (Binary64.mul (Fin t) (of_Z sr)).

(** [max(0, floor(start * sampleRate))] and
    [min(bufferLength, floor(end * sampleRate))]. *)
Definition startIndex (sr : Z) (s : Segment) : num :=
  Math_max (of_Z 0) (sample_index (seg_start s) sr).
Definition endIndex (len : nat) (sr : Z) (s : Segment) : num :=
  Math_min (of_nat len) (sample_index (seg_end s) sr).

(** [endIndex <= startIndex] *)
Definition is_empty (len : nat) (sr : Z) (s : Segment) : bool :=
  num_le (endIndex len sr s) (startIndex sr s).

(** The clip of segment number [i] (from 0) whose container holds the
    samples [cut]; its duration is [end - start]. *)
Definition clip_of (normalize : jsstr -> jsstr) (sr : Z) (i : nat)
    (s : Segment) (cut : list num) : clip :=
  mkClip (clip_filename normalize i (entry_of s))
         (wav_header (length cut * 2) (of_Z sr) ++ pcm_data cut)
         (seg_text s) (Fin (seg_start s)) (Some (Fin (seg_end s)))
         (Binary64.sub (Fin (seg_end s)) (Fin (seg_start s))).

(** What the rule prescribes for segment number [i]: nothing when
    [endIndex <= startIndex], and otherwise one clip, of the samples
    between the two indices. *)
Definition clips_of (normalize : jsstr -> jsstr) (y : list num) (sr : Z)
    (i : nat) (s : Segment) : list clip :=
  if is_empty (length y) sr s then []
  else [clip_of normalize sr i s
          (slice y (startIndex sr s) (endIndex (length y) sr s))].

(** The line logged for segment number [i]: one when it is skipped. *)
Definition skips_of (len : nat) (sr : Z) (i : nat) (s : Segment)
    : list jsstr :=
  if is_empty len sr s then [skip_message i] else [].

(** The clips and the log lines of a segment sequence numbered from [i]. *)
Fixpoint clips_from (normalize : jsstr -> jsstr) (y : list num) (sr : Z)
    (i : nat) (segs : list Segment) : list clip :=
  match segs with
  | [] => []
  | s :: segs' =>
      clips_of normalize y sr i s ++ clips_from normalize y sr (S i) segs'
  end.

Fixpoint skips_from (len : nat) (sr : Z) (i : nat) (segs : list Segment)
    : list jsstr :=
  match segs with
  | [] => []
  | s :: segs' => skips_of len sr i s ++ skips_from len sr (S i) segs'
  end.

End SegmentRule.

(* ===================================================================== *)
(** * Auxiliary notions for the extraction loop                           *)
(* ===================================================================== *)

Module ExtractorNotions.

(** The test of the loop of [extractSegments] on the object [seg]:
    [end <= start] on the two indices. *)
Definition is_skipped (y : list num) (sr : num) (seg : entry) : bool :=
  num_le (end_index (length y) sr seg) (start_index sr seg).

(** The object the loop pushes on [out] for [seg] at index [i] when the
    test fails: the container of [y.slice(start, end)] under the file name
    of the index. *)
Definition pushed_clip (normalize : jsstr -> jsstr) (y : list num) (sr : num)
    (i : nat) (seg : entry) : clip :=
  let cut := slice y (start_index sr seg) (end_index (length y) sr seg) in
  mkClip (clip_filename normalize i seg)
         (wav_header (length cut * 2) sr ++ pcm_data cut)
         (text seg) (start seg) (end_ seg)
         (num_sub (to_num (end_ seg)) (start seg)).

End ExtractorNotions.
Export ExtractorNotions.

(* ===================================================================== *)
(** * The transcript service ([extract_video_id], [extract_api_key],
      [select_track], [format_text])                                      *)
(* ===================================================================== *)

(** The server side of [src/version2.py] is Python.  A [str] is the list
    of its code points, a [float] is a [num] (the same binary64 values as
    a JavaScript Number, under the same conventions), an [int] is a [Z],
    and [None] as a result stands for Python's [None] or, where said, for
    a raised exception. *)

Module PyString.

Abbreviation pystr := (list N).

(** [py "abc"] is the literal ['abc']. *)
Definition py (s : string) : pystr := map N_of_ascii (list_ascii_of_string s).

(** [sep.join(lines)] *)
Fixpoint join (sep : pystr) (lines : list pystr) : pystr :=
  match lines with
  | [] => []
  | [l] => l
  | l :: lines' => l ++ sep ++ join sep lines'
  end.

(** The class "\s" of [re] on a [str] pattern: the code points for which
    [str.isspace] holds. *)
Definition py_space (c : N) : bool :=
  in_range 9 13 c || in_range 28 32 c
  || ((c =? 133) || (c =? 160) || (c =? 5760))%N
  || in_range 8192 8202 c
  || ((c =? 8232) || (c =? 8233) || (c =? 8239) || (c =? 8287)
      || (c =? 12288))%N.

(** The code units of a [str] once it has reached the browser (as JSON or
    as a UTF-8 file): a code point above U+FFFF becomes a surrogate
    pair. *)
Definition utf16_char (c : N) : jsstr :=
  if (c <? 65536)%N then [c]
  else [(55296 + (c - 65536) / 1024)%N; (56320 + (c - 65536) mod 1024)%N].

Definition utf16 (s : pystr) : jsstr := flat_map utf16_char s.

End PyString.
Export PyString.

Module PyRe.

(** [re.search(r, s)]: the match at the leftmost position of [s] where [r]
    matches (the matcher is the backtracking one of section Regular
    expressions); [None] when there is no such position. *)
Fixpoint search (r : regex) (s : pystr) : option captures :=
  match rmatch r s ∅ (fun _ c => Some c) with
  | Some m => Some m
  | None =>
      match s with
      | [] => None
      | _ :: s' => search r s'
      end
  end.

(** Where "$" matches without [re.MULTILINE]: at the end of the string and
    just before a line feed that ends the string. *)
Definition at_end (s : pystr) : bool :=
  match s with
  | [] => true
  | [c] => (c =? 10)%N
  | _ => false
  end.

(** [re.match(r_, s)] for a pattern [r_] that is [r] followed by "$". *)
Definition match_to_end (r : regex) (s : pystr) : option captures :=
  rmatch r s ∅ (fun s' c => if at_end s' then Some c else None).

(** A literal string as a pattern. *)
Definition lits (s : string) : regex := seqs (map lit (list_ascii_of_string s)).

End PyRe.
Export PyRe.

Module VideoId.

(** The class "[0-9A-Za-z_-]" (also written "[A-Za-z0-9_\-]"). *)
Definition is_id_char (c : N) : bool :=
  is_digit c || in_range 65 90 c || in_range 97 122 c
  || ((c =? 95) || (c =? 45))%N.

Definition id_char : regex := Chr is_id_char.

(** "(?:v=|\/)([0-9A-Za-z_-]{11})" *)
Definition re_watch : regex :=
  Seq (Alt (lits "v=") (lit "/")) (Group 1 (times 11 id_char)).

(** "youtu\.be\/([0-9A-Za-z_-]{11})" *)
Definition re_short : regex :=
  Seq (lits "youtu.be/") (Group 1 (times 11 id_char)).

(** "^[0-9A-Za-z_-]{11}$" *)
Definition re_bare : regex := times 11 id_char.

(** The loop [for p in patterns: m = re.search(p, url); if m: return
    m.group(1)]; [None] when the loop ends without returning. *)
Fixpoint first_match (patterns : list regex) (url : pystr) : option pystr :=
  match patterns with
  | [] => None
  | p :: patterns' =>
      match search p url with
      | Some m => Some (group m 1)
      | None => first_match patterns' url
      end
  end.

(** [extract_video_id(url)]; the result [None] is Python's [None]. *)
Definition extract_video_id (url : pystr) : option pystr :=
  match first_match [re_watch; re_short] url with
  | Some v => Some v
  | None =>
      match match_to_end re_bare url with
      | Some _ => Some url
      | None => None
      end
  end.

(** The double quote. *)
Definition quote : regex := Chr (N.eqb 34).

(** The pattern of an API key under the name [name]: the quoted name, a
    colon, "\s*", and the quoted key "([A-Za-z0-9_\-]+)". *)
Definition re_key (name : string) : regex :=
  seqs [quote; lits name; quote; lit ":"; Star (Chr py_space); quote;
        Group 1 (plus id_char); quote].

(** [extract_api_key(html)]; [None] stands for the [RuntimeError]. *)
Definition extract_api_key (html : pystr) : option pystr :=
  first_match [re_key "INNERTUBE_API_KEY"; re_key "innertubeApiKey"] html.

End VideoId.
Export VideoId.

Module Tracks.

(** The values [resp.json()] is made of. *)
#[warnings="-register-all"]
Inductive pyval : Type :=
| PNone
| PBool (b : bool)
| PInt (z : Z)
| PFloat (x : num)
| PStr (s : pystr)
| PList (l : list pyval)
| PDict (d : gmap pystr pyval).

(** A caption track: a [dict]. *)
Abbreviation track := (gmap pystr pyval).

(** [t.get(key)]: [None] when the key is missing. *)
Definition get (t : track) (key : string) : pyval := default PNone (t !! py key).

(** [v == s] for a [str] [s]: only a [str] equals a [str]. *)
Definition eq_str (v : pyval) (s : pystr) : bool :=
  match v with
  | PStr s' => bool_decide (s' = s)
  | _ => false
  end.

(** The tests of the two loops of [select_track]. *)
Definition is_manual (code : pystr) (t : track) : bool :=
  eq_str (get t "languageCode") code && negb (eq_str (get t "kind") (py "asr")).
Definition is_asr (code : pystr) (t : track) : bool :=
  eq_str (get t "languageCode") code && eq_str (get t "kind") (py "asr").

(** [for code in langs: for t in tracks: if test(code, t): return t];
    [None] when the loops end without returning. *)
Fixpoint first_track (test : pystr -> track -> bool) (langs : list pystr)
    (tracks : list track) : option track :=
  match langs with
  | [] => None
  | code :: langs' =>
      match List.find (test code) tracks with
      | Some t => Some t
      | None => first_track test langs' tracks
      end
  end.

(** [select_track(tracks, langs)] on a list of dicts; the result [None] is
    Python's [None]. *)
Definition select_track (tracks : list track) (langs : list pystr)
    : option track :=
  match tracks with
  | [] => None                                      (* if not tracks *)
  | t0 :: _ =>
      match first_track is_manual langs tracks with
      | Some t => Some t
      | None =>
          match first_track is_asr langs tracks with
          | Some t => Some t
          | None => Some t0                         (* return tracks[0] *)
          end
      end
  end.

(** The default value of [langs]. *)
Definition default_langs : list pystr := [py "en"].

(** The two kinds of track of a language, with the keys the function
    reads: an automatic one and a manual one (no "kind"). *)
Definition asr_track (code : string) : track :=
  {[ py "languageCode" := PStr (py code); py "kind" := PStr (py "asr") ]}.
Definition manual_track (code : string) : track :=
  {[ py "languageCode" := PStr (py code) ]}.

End Tracks.
Export Tracks.

Module Formatter.

(** The dicts [parse_transcript] builds. *)
Record snippet : Type := mkSnippet {
  snip_text : pystr;
  snip_start : num;
  snip_duration : num
}.

(** [int(x)] on a float: the integer part; [None] stands for the
    [OverflowError] on an infinity and the [ValueError] on NaN. *)
Definition int (x : num) : option Z :=
  match x with
  | Fin q => Some (Qtrunc q)
  | _ => None
  end.

(** The decimal digits of a natural number. *)
Definition digits (z : Z) : pystr := String_of_N (Z.to_N z).

(** [format(z, "02d")]: at least two characters, zero-padded after the
    sign. *)
Definition format_02d (z : Z) : pystr :=
  if (z <? 0)%Z then py "-" ++ padStart0 1 (digits (- z))
  else padStart0 2 (digits z).

(** The line appended for a snippet: "[{m:02d}:{sec:02d}] {text}" with
    [m, sec = divmod(int(start), 60)]. *)
Definition format_line (s : snippet) : option pystr :=
  z ← int (snip_start s);
  let m := (z / 60)%Z in
  let sec := (z mod 60)%Z in
  Some (py "[" ++ format_02d m ++ py ":" ++ format_02d sec ++ py "] "
        ++ snip_text s).

(** The loop of [format_text]: snippets with an empty text are passed
    over. *)
Fixpoint format_lines (snippets : list snippet) (lines : list pystr)
    : option (list pystr) :=
  match snippets with
  | [] => Some lines
  | s :: snippets' =>
      match snip_text s with
      | [] => format_lines snippets' lines
      | _ => l ← format_line s; format_lines snippets' (lines ++ [l])
      end
  end.

(** [format_text(snippets)] *)
Definition format_text (snippets : list snippet) : option pystr :=
  lines ← format_lines snippets []; Some (join [10%N] lines).

End Formatter.
Export Formatter.

(* ===================================================================== *)
(** * From the transcript service to the parser                           *)
(* ===================================================================== *)

(** The text [format_text] returns reaches [parseTranscriptFile] when the
    transcript downloaded as a text file is uploaded for segmentation. *)

Module Transfer.

(** The whole second a snippet starts at: [int(start)]. *)
Definition whole_second (s : snippet) : Z :=
  match snip_start s with
  | Fin q => Qtrunc q
  | _ => 0%Z
  end.

(** A snippet whose line the parser reads back: it starts before the
    hundredth minute, and its text, as the browser sees it, is not empty,
    holds no line terminator and neither begins nor ends in white
    space. *)
Definition transferable (s : snippet) : Prop :=
  (exists q, snip_start s = Fin q /\ (0 <= q)%Q /\ (q < 6000)%Q)
  /\ snip_text s <> []
  /\ forallb is_dot (utf16 (snip_text s)) = true
  /\ (forall c, head (utf16 (snip_text s)) = Some c -> is_space c = false)
  /\ (forall c, last (utf16 (snip_text s)) = Some c -> is_space c = false).

(** The entry the parser is expected to make of a snippet. *)
Definition snippet_entry (s : snippet) : entry :=
  mkEntry (of_Z (whole_second s)) None (utf16 (snip_text s)).

(** The line "[ab:cd] text" as code units. *)
Definition bracket_line (a b c d : N) (text : jsstr) : jsstr :=
  N_of_ascii "[" :: a :: b :: N_of_ascii ":" :: c :: d :: N_of_ascii "]"
  :: N_of_ascii " " :: text.

(** The line [l] of the snippet [s], as the loop of the parser meets it:
    trimming leaves it alone, it holds no line terminator, and the loop
    makes the entry of [s] of it, whatever line follows. *)
Definition read_back (s : snippet) (l : jsstr) : Prop :=
  trim l = l /\ forallb is_dot l = true
  /\ forall next_line, parse_line l next_line = [snippet_entry s].

(** A snippet whose line the parser drops: it starts at the hundredth
    minute or later, or before 0, and its text, as the browser sees it,
    is not empty and holds no line terminator. *)
Definition late (s : snippet) : Prop :=
  (exists z, int (snip_start s) = Some z /\ (z < 0 \/ 6000 <= z)%Z)
  /\ snip_text s <> []
  /\ forallb is_dot (utf16 (snip_text s)) = true.

(** The entries the parser is expected to make of the line of a snippet:
    one for a start in the first hundred minutes, none otherwise. *)
Definition read_entries (s : snippet) : list entry :=
  match int (snip_start s) with
  | Some z => if ((0 <=? z) && (z <? 6000))%Z then [snippet_entry s] else []
  | None => []
  end.

End Transfer.
Export Transfer.

(* ===================================================================== *)
(** * Subtitle files                                                      *)
(* ===================================================================== *)

Module SubRip.

(** A time "hh:mm:ss,fff" of a subtitle file, by its nine digits. *)
Record stamp : Type := mkStamp {
  h1 : N; h2 : N; m1 : N; m2 : N; s1 : N; s2 : N; f1 : N; f2 : N; f3 : N
}.

Definition stamp_ok (t : stamp) : Prop :=
  forallb is_digit [h1 t; h2 t; m1 t; m2 t; s1 t; s2 t; f1 t; f2 t; f3 t]
  = true.

Definition stamp_text (t : stamp) : jsstr :=
  [h1 t; h2 t; N_of_ascii ":"; m1 t; m2 t; N_of_ascii ":"; s1 t; s2 t;
   N_of_ascii ","; f1 t; f2 t; f3 t].

(** The seconds the time stands for. *)
Definition stamp_seconds (t : stamp) : Q :=
  Qred (inject_Z (digits_value 10 [h1 t; h2 t] * 3600
                  + digits_value 10 [m1 t; m2 t] * 60
                  + digits_value 10 [s1 t; s2 t])
        + inject_Z (digits_value 10 [f1 t; f2 t; f3 t]) / 1000).

(** A block of a subtitle file: a counter, the two times, and the lines of
    the caption (one at least). *)
Record block : Type := mkBlock {
  counter : jsstr;
  appears : stamp;
  disappears : stamp;
  caption : jsstr;
  more_lines : list jsstr
}.

(** "hh:mm:ss,fff --> hh:mm:ss,fff" *)
Definition timing_line (b : block) : jsstr :=
  stamp_text (appears b) ++ js " --> " ++ stamp_text (disappears b).

(** The lines of a block, the blank line that ends it included. *)
Definition block_lines (b : block) : list jsstr :=
  [counter b; timing_line b; caption b] ++ more_lines b ++ [[]].

(** The file: every line followed by a line feed. *)
Definition srt_text (blocks : list block) : jsstr :=
  flat_map (fun l => l ++ [10%N]) (flat_map block_lines blocks).

(** A line of caption without a digit: not empty, no line terminator, no
    white space at its ends. *)
Definition plain_line (l : jsstr) : Prop :=
  l <> [] /\ Forall (fun c => is_digit c = false) l
  /\ forallb is_dot l = true
  /\ (forall c, head l = Some c -> is_space c = false)
  /\ (forall c, last l = Some c -> is_space c = false).

Definition well_formed (b : block) : Prop :=
  digit_string (counter b) /\ stamp_ok (appears b) /\ stamp_ok (disappears b)
  /\ plain_line (caption b) /\ Forall plain_line (more_lines b).

(** The Number the program makes of the time: the seconds of "hh:mm:ss"
    plus the thousandths divided by 1000, two rounded operations. *)
Definition stamp_number (t : stamp) : num :=
  Binary64.add
    (of_Z (digits_value 10 [h1 t; h2 t] * 3600
           + digits_value 10 [m1 t; m2 t] * 60
           + digits_value 10 [s1 t; s2 t]))
    (Binary64.div (of_Z (digits_value 10 [f1 t; f2 t; f3 t])) (of_Z 1000)).

(** The entry of a block: its two times and the first line of its
    caption. *)
Definition block_entry (b : block) : entry :=
  mkEntry (stamp_number (appears b)) (Some (stamp_number (disappears b)))
          (caption b).

End SubRip.
Export SubRip.

(* ===================================================================== *)
(** * Transcripts of ranges                                               *)
(* ===================================================================== *)

Module RangeLines.

(** A time "hh:mm:ss", by its six digits. *)
Record clock : Type := mkClock {
  k1 : N; k2 : N; k3 : N; k4 : N; k5 : N; k6 : N
}.

Definition clock_ok (t : clock) : Prop :=
  forallb is_digit [k1 t; k2 t; k3 t; k4 t; k5 t; k6 t] = true.

Definition clock_text (t : clock) : jsstr :=
  [k1 t; k2 t; N_of_ascii ":"; k3 t; k4 t; N_of_ascii ":"; k5 t; k6 t].

(** The seconds the time stands for. *)
Definition clock_seconds (t : clock) : Z :=
  digits_value 10 [k1 t; k2 t] * 3600 + digits_value 10 [k3 t; k4 t] * 60
  + digits_value 10 [k5 t; k6 t].

(** A line "[hh:mm:ss - hh:mm:ss] text" and what it says. *)
Record range : Type := mkRange {
  r_from : clock;
  r_to : clock;
  r_text : jsstr
}.

Definition range_line (r : range) : jsstr :=
  js "[" ++ clock_text (r_from r) ++ js " - " ++ clock_text (r_to r)
  ++ js "] " ++ r_text r.

(** The text is not empty, holds no line terminator, and has no white
    space at its ends. *)
Definition range_ok (r : range) : Prop :=
  clock_ok (r_from r) /\ clock_ok (r_to r)
  /\ r_text r <> [] /\ forallb is_dot (r_text r) = true
  /\ (forall c, head (r_text r) = Some c -> is_space c = false)
  /\ (forall c, last (r_text r) = Some c -> is_space c = false).

Definition range_entry (r : range) : entry :=
  mkEntry (of_Z (clock_seconds (r_from r)))
          (Some (of_Z (clock_seconds (r_to r)))) (r_text r).

(** The file: every line followed by a line feed. *)
Definition range_text (ranges : list range) : jsstr :=
  flat_map (fun l => l ++ [10%N]) (map range_line ranges).

End RangeLines.
Export RangeLines.

(* ===================================================================== *)
(** * The lines of the layouts                                            *)
(* ===================================================================== *)

Module Layouts.

(** The text of a line: not empty, without a line terminator and without
    white space at its ends. *)
Definition clean_text (text : jsstr) : Prop :=
  text <> [] /\ forallb is_dot text = true
  /\ (forall c, head text = Some c -> is_space c = false)
  /\ (forall c, last text = Some c -> is_space c = false).

(** The text does not open with a hyphen, which after a time would make
    the line look like a range. *)
Definition no_hyphen (text : jsstr) : Prop :=
  head text <> Some (N_of_ascii "-").

(** The characters of the time tokens: the digits, the point and the
    colon. *)
Definition token_char (c : N) : bool :=
  is_digit c || (c =? 46)%N || (c =? 58)%N.

(** A time "m:ss" or "mm:ss": the one or two digits of the minutes and
    the two digits of the seconds. *)
Record minsec : Type := mkMinsec { minutes : jsstr; sec1 : N; sec2 : N }.

Definition minsec_ok (t : minsec) : Prop :=
  (length (minutes t) = 1 \/ length (minutes t) = 2)%nat
  /\ forallb is_digit (minutes t) = true
  /\ is_digit (sec1 t) = true /\ is_digit (sec2 t) = true.

Definition minsec_text (t : minsec) : jsstr :=
  minutes t ++ [N_of_ascii ":"; sec1 t; sec2 t].

(** The seconds the time stands for. *)
Definition minsec_seconds (t : minsec) : Z :=
  digits_value 10 (minutes t) * 60 + digits_value 10 [sec1 t; sec2 t].

(** A numeral "ddd", "ddd." or "ddd.ddd": the digits before the point,
    and the point with the digits after it, if any. *)
Record numeral : Type := mkNumeral { whole : jsstr; fraction : jsstr }.

Definition numeral_ok (n : numeral) : Prop :=
  digit_string (whole n) /\ literal_tail (fraction n).

Definition numeral_text (n : numeral) : jsstr := whole n ++ fraction n.

(** The Number of the numeral: the one nearest to its decimal value. *)
Definition numeral_number (n : numeral) : num :=
  Binary64.round64 (literal_value (whole n) (fraction n)).

(** "hh:mm:ss,fff --> hh:mm:ss,fff", the text on the line after it. *)
Definition subtitle_lines (a d : stamp) (text : jsstr) : jsstr :=
  stamp_text a ++ js " --> " ++ stamp_text d ++ [10%N] ++ text.

(** "m:ss - m:ss text" *)
Definition minsec_range_line (a b : minsec) (text : jsstr) : jsstr :=
  minsec_text a ++ js " - " ++ minsec_text b ++ js " " ++ text.

(** "number - number text" *)
Definition numeral_range_line (a b : numeral) (text : jsstr) : jsstr :=
  numeral_text a ++ js " - " ++ numeral_text b ++ js " " ++ text.

(** "[m:ss] text", "(m:ss) text" and "m:ss text" *)
Definition bracketed_line (a : minsec) (text : jsstr) : jsstr :=
  js "[" ++ minsec_text a ++ js "] " ++ text.
Definition parenthesized_line (a : minsec) (text : jsstr) : jsstr :=
  js "(" ++ minsec_text a ++ js ") " ++ text.
Definition minsec_line (a : minsec) (text : jsstr) : jsstr :=
  minsec_text a ++ js " " ++ text.

(** "number text" *)
Definition numeral_line (a : numeral) (text : jsstr) : jsstr :=
  numeral_text a ++ js " " ++ text.

End Layouts.
Export Layouts.

(* ===================================================================== *)
(** * Segment Synthesizer                                                 *)
(* ===================================================================== *)

Section Synthesizer.

Lemma synthesize_ends_imap (pre ts : list entry) :
  synthesize_ends ts =
  imap (fun i cur =>
          mkEntry (start cur)
                  (Some (match (pre ++ ts) !! S (length pre + i) with
                         | Some nxt => start nxt
                         | None => num_add (start cur) (of_Z 3)
                         end))
                  (text cur)) ts.
Proof.
  revert pre. induction ts as [|cur later IH]; intros pre; [reflexivity|].
  cbn [synthesize_ends imap]. f_equal.
  - rewrite Nat.add_0_r.
    replace (S (length pre)) with (length (pre ++ [cur]))
      by (rewrite length_app; cbn; lia).
    rewrite (cons_middle cur pre later), app_assoc.
    rewrite lookup_app_r by lia. rewrite Nat.sub_diag.
    destruct later; reflexivity.
  - rewrite (IH (pre ++ [cur])). apply imap_ext. intros i x _. cbn.
    rewrite <- app_assoc. cbn. rewrite length_app. cbn.
    replace (length pre + 1 + i) with (length pre + S i) by lia. reflexivity.
Qed.

Lemma synthesize_ends_synthesized (ts : list entry) :
  synthesize_ends ts = synthesized ts.
Proof. apply (synthesize_ends_imap [] ts). Qed.

Lemma synthesize_length (ts : list entry) :
  length (synthesize ts) = length ts.
Proof.
  unfold synthesize. destruct ts as [|first rest]; [reflexivity|].
  destruct (end_ first); [reflexivity|].
  rewrite synthesize_ends_synthesized. unfold synthesized.
  apply length_imap.
Qed.


End Synthesizer.

(* ===================================================================== *)
(** * Timestamp Parser                                                    *)
(* ===================================================================== *)

Section TimestampParser.

(** C4, on the code: the text line of a two-line subtitle block is read as
    the text of the block, and the loop then visits it again as a line of
    its own.  Here it is matched by the bare-number layout and gives a
    second entry. *)
Theorem srt_text_line_parsed_twice :
  parseEntries (line2 "00:00:01,000 --> 00:00:04,000" "2 apples")
  = [mkEntry (of_Z 1) (Some (of_Z 4)) (js "2 apples");
     mkEntry (of_Z 2) None (js "apples")].
Proof. vm_compute. reflexivity. Qed.

(** The block itself gives one entry with both times when its text line
    matches no layout. *)
Lemma srt_block_plain_text :
  parseEntries (line2 "00:00:01,000 --> 00:00:04,000" "two apples")
  = [mkEntry (of_Z 1) (Some (of_Z 4)) (js "two apples")].
Proof. vm_compute. reflexivity. Qed.

End TimestampParser.

(* ===================================================================== *)
(** * File names                                                          *)
(* ===================================================================== *)

Section ListTrimming.

Context {A : Type} (p : A -> bool).

Lemma drop_while_head (s : list A) (c : A) :
  head (drop_while p s) = Some c -> p c = false.
Proof.
  induction s as [|x s IH]; cbn; [discriminate|].
  destruct (p x) eqn:E; [exact IH|]. cbn. intros [= <-]. exact E.
Qed.

Lemma drop_while_id (s : list A) :
  (forall c, head s = Some c -> p c = false) -> drop_while p s = s.
Proof.
  destruct s as [|x s]; [reflexivity|]. intros H. cbn.
  rewrite (H x eq_refl). reflexivity.
Qed.

Lemma drop_while_drop (s : list A) : exists n, drop_while p s = drop n s.
Proof.
  induction s as [|x s [n IH]]; [exists 0%nat; reflexivity|]. cbn.
  destruct (p x); [exists (S n); exact IH | exists 0%nat; reflexivity].
Qed.

Lemma rstrip_snoc (s : list A) (c : A) :
  reverse (drop_while p (reverse (s ++ [c])))
  = if p c then reverse (drop_while p (reverse s)) else s ++ [c].
Proof.
  rewrite reverse_snoc. cbn [drop_while]. destruct (p c); [reflexivity|].
  rewrite reverse_cons, reverse_involutive. reflexivity.
Qed.

Lemma rstrip_take (s : list A) :
  exists n, (n <= length s)%nat /\ reverse (drop_while p (reverse s)) = take n s.
Proof.
  induction s as [|c s [n [Hn IH]]] using rev_ind.
  - exists 0%nat. split; [cbn; lia | reflexivity].
  - rewrite rstrip_snoc. destruct (p c).
    + exists n. rewrite length_app. split; [lia|].
      rewrite take_app_le by lia. exact IH.
    + exists (length (s ++ [c])). split; [lia|]. rewrite take_ge by lia.
      reflexivity.
Qed.

Lemma rstrip_last (s : list A) (c : A) :
  last (reverse (drop_while p (reverse s))) = Some c -> p c = false.
Proof.
  induction s as [|x s IH] using rev_ind; [discriminate|].
  rewrite rstrip_snoc. destruct (p x) eqn:E; [exact IH|].
  rewrite last_snoc. intros [= <-]. exact E.
Qed.

Lemma rstrip_id (s : list A) :
  (forall c, last s = Some c -> p c = false) ->
  reverse (drop_while p (reverse s)) = s.
Proof.
  destruct s as [|x s _] using rev_ind; [reflexivity|]. intros H.
  rewrite rstrip_snoc, (H x (last_snoc _ _)). reflexivity.
Qed.

Lemma rstrip_shorter (s : list A) (c : A) :
  last s = Some c -> p c = true ->
  (length (reverse (drop_while p (reverse s))) < length s)%nat.
Proof.
  intros Hl Hc. apply last_Some in Hl as [s' ->].
  rewrite rstrip_snoc, Hc. destruct (rstrip_take s') as [n [Hn ->]].
  rewrite length_take, length_app. cbn. lia.
Qed.

Lemma forallb_take (s : list A) (n : nat) :
  forallb p s = true -> forallb p (take n s) = true.
Proof.
  revert n. induction s as [|x s IH]; intros [|n]; cbn; try reflexivity.
  rewrite !andb_true_iff. intros [? ?]. auto.
Qed.

Lemma forallb_drop (s : list A) (n : nat) :
  forallb p s = true -> forallb p (drop n s) = true.
Proof.
  revert n. induction s as [|x s IH]; intros [|n]; cbn; try reflexivity.
  - intros H. exact H.
  - rewrite andb_true_iff. intros [? ?]. auto.
Qed.

End ListTrimming.

(** Boolean tests on code units as propositions, for [lia]. *)
Ltac bool_to_prop :=
  repeat rewrite ?orb_true_iff, ?andb_true_iff, ?orb_false_iff,
    ?andb_false_iff, ?negb_true_iff, ?negb_false_iff, ?N.leb_le, ?N.eqb_eq,
    ?N.ltb_lt, ?N.leb_gt, ?N.eqb_neq, ?N.ltb_ge in *.

Section CharacterClasses.

Lemma kept_not_separator (c : N) :
  is_kept c = true -> is_separator c = false -> is_name_char c = true.
Proof.
  unfold is_kept, is_separator, is_name_char.
  destruct (is_word c), (is_space c), (c =? 45)%N, (c =? 95)%N, (c =? 46)%N;
    cbn; congruence.
Qed.

Lemma name_char_ascii (c : N) : is_name_char c = true -> is_ascii c = true.
Proof.
  unfold is_name_char, is_word, is_digit, in_range, is_ascii.
  bool_to_prop. lia.
Qed.

Lemma name_char_not_forbidden (c : N) :
  is_name_char c = true -> is_forbidden c = false.
Proof.
  unfold is_name_char, is_word, is_digit, is_forbidden, in_range.
  bool_to_prop. lia.
Qed.

Lemma name_char_kept (c : N) : is_name_char c = true -> is_kept c = true.
Proof.
  unfold is_name_char, is_kept. destruct (is_word c); cbn; [reflexivity|].
  intros ->. destruct (is_space c), (c =? 45)%N, (c =? 95)%N; reflexivity.
Qed.

Lemma name_char_separator (c : N) :
  is_name_char c = true -> is_separator c = true -> c = 95%N.
Proof.
  unfold is_name_char, is_word, is_digit, is_separator, is_space, in_range.
  bool_to_prop. lia.
Qed.

End CharacterClasses.

Section Collapse.

Lemma tidy_collapse (s : jsstr) (b : bool) : tidy b (collapse b s) = true.
Proof.
  revert b. induction s as [|c s IH]; intros b; [reflexivity|].
  cbn [collapse]. destruct (is_separator c) eqn:E.
  - destruct b; [apply IH|]. cbn [tidy].
    replace (is_separator 95) with true by reflexivity.
    rewrite IH. reflexivity.
  - cbn [tidy]. rewrite E. apply IH.
Qed.

Lemma collapse_tidy (s : jsstr) (b : bool) :
  tidy b s = true -> collapse b s = s.
Proof.
  revert b. induction s as [|c s IH]; intros b; [reflexivity|].
  cbn [collapse tidy]. destruct (is_separator c) eqn:E.
  - rewrite !andb_true_iff, negb_true_iff, N.eqb_eq.
    intros [[-> ->] H]. rewrite (IH true H). reflexivity.
  - intros H. rewrite (IH false H). reflexivity.
Qed.

Lemma tidy_weaken (s : jsstr) : tidy true s = true -> tidy false s = true.
Proof.
  destruct s as [|c s]; [reflexivity|]. cbn [tidy].
  destruct (is_separator c); [|auto].
  rewrite andb_false_r. discriminate.
Qed.

Lemma tidy_drop (s : jsstr) (b : bool) (n : nat) :
  tidy b s = true -> tidy false (drop n s) = true.
Proof.
  revert b n. induction s as [|c s IH]; intros b n; [destruct n; reflexivity|].
  destruct n as [|n].
  - cbn [drop]. destruct b; [apply tidy_weaken | auto].
  - cbn [drop tidy]. destruct (is_separator c).
    + rewrite !andb_true_iff. intros [_ H]. exact (IH true n H).
    + apply IH.
Qed.

Lemma tidy_take (s : jsstr) (b : bool) (n : nat) :
  tidy b s = true -> tidy b (take n s) = true.
Proof.
  revert b n. induction s as [|c s IH]; intros b n; [destruct n; reflexivity|].
  destruct n as [|n]; [reflexivity|].
  cbn [take tidy]. destruct (is_separator c).
  - rewrite !andb_true_iff. intros [H1 H2]. split; [exact H1 | auto].
  - apply IH.
Qed.

Lemma collapse_name_chars (s : jsstr) (b : bool) :
  forallb is_kept s = true -> forallb is_name_char (collapse b s) = true.
Proof.
  revert b. induction s as [|c s IH]; intros b; [reflexivity|].
  cbn [forallb collapse]. rewrite andb_true_iff. intros [Hc Hs].
  destruct (is_separator c) eqn:E.
  - destruct b; [exact (IH true Hs)|]. cbn [forallb].
    rewrite (IH true Hs). reflexivity.
  - cbn [forallb]. rewrite (kept_not_separator c Hc E). exact (IH false Hs).
Qed.

Lemma replaced_kept (s : jsstr) :
  forallb is_kept (map (fun c => if is_kept c then c else 95%N) s) = true.
Proof.
  induction s as [|c s IH]; [reflexivity|]. cbn [map forallb].
  rewrite IH, andb_true_r. destruct (is_kept c) eqn:E; [exact E | reflexivity].
Qed.

End Collapse.

Section SafeFilename.

Variable normalize : jsstr -> jsstr.
Hypothesis normalize_ascii :
  forall s, forallb is_ascii s = true -> normalize s = s.

Lemma head_take {A} (s : list A) (n : nat) (c : A) :
  head (take n s) = Some c -> head s = Some c.
Proof. destruct n, s; cbn; congruence. Qed.

Lemma safeFilename_shape (normalize' : jsstr -> jsstr) (t : jsstr) :
  sanitized_shape (safeFilename normalize' t).
Proof.
  unfold safeFilename, strip_edges, slice0.
  set (s3 := map _ (List.filter _ _)).
  pose proof (collapse_name_chars s3 false (replaced_kept _)) as Hc.
  pose proof (tidy_collapse s3 false) as Ht.
  set (s4 := collapse false s3) in *.
  pose proof (drop_while_head is_edge s4) as Hh.
  destruct (drop_while_drop is_edge s4) as [n Hn].
  destruct (rstrip_take is_edge (drop_while is_edge s4)) as [m [_ Hm]].
  rewrite Hm. clear Hm.
  destruct (length (take m (drop_while is_edge s4)) <? 2)%nat eqn:E.
  - repeat split; cbn; try lia. intros c [= <-]. reflexivity.
  - apply Nat.ltb_ge in E. repeat split.
    + apply forallb_take, forallb_take. rewrite Hn. apply forallb_drop, Hc.
    + apply tidy_take, tidy_take. rewrite Hn. apply (tidy_drop _ false), Ht.
    + intros c H. apply Hh. eapply head_take, head_take, H.
    + rewrite length_take. lia.
    + rewrite length_take. lia.
Qed.

Lemma name_chars_untouched (s : jsstr) :
  forallb is_name_char s = true ->
  map (fun c => if is_kept c then c else 95%N)
      (List.filter (fun c => negb (is_forbidden c)) s) = s.
Proof.
  induction s as [|c s IH]; [reflexivity|]. cbn [forallb List.filter].
  rewrite andb_true_iff. intros [Hc Hs].
  rewrite (name_char_not_forbidden c Hc). cbn [negb map].
  rewrite (name_char_kept c Hc), (IH Hs). reflexivity.
Qed.

Lemma name_chars_ascii (s : jsstr) :
  forallb is_name_char s = true -> forallb is_ascii s = true.
Proof.
  induction s as [|c s IH]; [reflexivity|]. cbn [forallb].
  rewrite !andb_true_iff. intros [Hc Hs]. split; [|auto].
  apply name_char_ascii, Hc.
Qed.

(** On a sanitized name, [safeFilename] only trims the end (and falls back
    to the fixed token if fewer than two characters remain). *)
Lemma safeFilename_on_sanitized (o : jsstr) :
  sanitized_shape o ->
  safeFilename normalize o
  = let s := reverse (drop_while is_edge (reverse o)) in
    slice0 25 (if (length s <? 2)%nat then js "audio_segment" else s).
Proof.
  intros (Hc & Ht & Hh & Hl). unfold safeFilename, strip_edges.
  rewrite (normalize_ascii o (name_chars_ascii o Hc)).
  rewrite (name_chars_untouched o Hc), (collapse_tidy o false Ht).
  rewrite (drop_while_id is_edge o Hh). reflexivity.
Qed.

Lemma safeFilename_fixed (o : jsstr) :
  sanitized_shape o -> ends_clean o = true -> safeFilename normalize o = o.
Proof.
  intros Hs He. rewrite (safeFilename_on_sanitized o Hs).
  destruct Hs as (_ & _ & _ & Hl). cbv zeta.
  rewrite rstrip_id.
  - replace (length o <? 2)%nat with false
      by (symmetry; apply Nat.ltb_ge; lia).
    unfold slice0. apply take_ge. lia.
  - intros c Hc. unfold ends_clean in He. rewrite Hc in He.
    apply negb_true_iff, He.
Qed.

Lemma safeFilename_moves (o : jsstr) :
  sanitized_shape o -> ends_clean o = false -> safeFilename normalize o <> o.
Proof.
  intros Hs He. rewrite (safeFilename_on_sanitized o Hs). cbv zeta.
  unfold ends_clean in He. destruct (last o) as [c|] eqn:Hl; [|discriminate].
  apply negb_false_iff in He.
  pose proof (rstrip_shorter is_edge o c Hl He) as Hlt.
  destruct (length _ <? 2)%nat.
  - intros Heq. rewrite <- Heq in Hl. vm_compute in Hl.
    injection Hl as <-. discriminate He.
  - intros Heq. apply (f_equal length) in Heq. unfold slice0 in Heq.
    rewrite length_take in Heq. lia.
Qed.

End SafeFilename.

Lemma nfkd_latin1_ascii (s : jsstr) :
  forallb is_ascii s = true -> nfkd_latin1 s = s.
Proof.
  induction s as [|c s IH]; [reflexivity|]. cbn [forallb].
  rewrite andb_true_iff. intros [Hc Hs]. unfold nfkd_latin1 in *.
  cbn [flat_map]. unfold nfkd_latin1_char at 1. rewrite Hc, (IH Hs).
  reflexivity.
Qed.

(** C10 fails: the 26 characters "aaaaaaaaaaaaaaaaaaaaaaaa_b" are cut to
    24 letters and the underscore, which a second pass trims away. *)
Lemma safeFilename_not_idempotent :
  safeFilename nfkd_latin1 (js "aaaaaaaaaaaaaaaaaaaaaaaa_b")
  = js "aaaaaaaaaaaaaaaaaaaaaaaa_"
  /\ safeFilename nfkd_latin1 (js "aaaaaaaaaaaaaaaaaaaaaaaa_")
     = js "aaaaaaaaaaaaaaaaaaaaaaaa".
Proof. split; vm_compute; reflexivity. Qed.

(** The same input under any normalization that leaves ASCII text alone. *)
Lemma safeFilename_not_idempotent_any (normalize : jsstr -> jsstr) :
  (forall s, forallb is_ascii s = true -> normalize s = s) ->
  safeFilename normalize
    (safeFilename normalize (js "aaaaaaaaaaaaaaaaaaaaaaaa_b"))
  <> safeFilename normalize (js "aaaaaaaaaaaaaaaaaaaaaaaa_b").
Proof.
  intros H.
  assert (safeFilename normalize (js "aaaaaaaaaaaaaaaaaaaaaaaa_b")
          = js "aaaaaaaaaaaaaaaaaaaaaaaa_") as ->.
  { unfold safeFilename.
    rewrite (H (js "aaaaaaaaaaaaaaaaaaaaaaaa_b") eq_refl).
    vm_compute. reflexivity. }
  assert (safeFilename normalize (js "aaaaaaaaaaaaaaaaaaaaaaaa_")
          = js "aaaaaaaaaaaaaaaaaaaaaaaa") as ->.
  { unfold safeFilename.
    rewrite (H (js "aaaaaaaaaaaaaaaaaaaaaaaa_") eq_refl).
    vm_compute. reflexivity. }
  vm_compute. discriminate.
Qed.

(* ===================================================================== *)
(** * Container Encoder                                                   *)
(* ===================================================================== *)

Section Integers.

Lemma Qtrunc_floor_ceiling (q : Q) :
  Qtrunc q = if Qle_bool 0 q then Qfloor q else Qceiling q.
Proof.
  destruct q as [n d]. unfold Qtrunc, Qceiling, Qfloor, Qle_bool, Qopp. cbn.
  rewrite Z.mul_1_r, Z.mul_0_l. destruct (Z.leb_spec 0 n).
  - apply Z.quot_div_nonneg; lia.
  - rewrite <- (Z.opp_involutive n) at 1. rewrite Z.quot_opp_l by lia.
    f_equal. apply Z.quot_div_nonneg; lia.
Qed.

Lemma Qle_bool_comp (a q q' : Q) : q == q' -> Qle_bool a q = Qle_bool a q'.
Proof.
  intros H. destruct (Qle_bool a q) eqn:E, (Qle_bool a q') eqn:E';
    try reflexivity.
  - apply Qle_bool_iff in E. rewrite H in E. apply Qle_bool_iff in E.
    congruence.
  - apply Qle_bool_iff in E'. rewrite <- H in E'. apply Qle_bool_iff in E'.
    congruence.
Qed.

Lemma Qtrunc_comp (q q' : Q) : q == q' -> Qtrunc q = Qtrunc q'.
Proof.
  intros H. rewrite !Qtrunc_floor_ceiling, (Qle_bool_comp 0 q q' H).
  destruct (Qle_bool 0 q'); rewrite H; reflexivity.
Qed.

Lemma Qtrunc_Z (z : Z) : Qtrunc (inject_Z z) = z.
Proof. unfold Qtrunc. cbn. apply Z.quot_1_r. Qed.

Lemma Qtrunc_bounds (a b : Z) (q : Q) :
  (a <= 0 <= b)%Z -> (inject_Z a <= q <= inject_Z b)%Q ->
  (a <= Qtrunc q <= b)%Z.
Proof.
  intros Hab [Ha Hb]. rewrite Qtrunc_floor_ceiling.
  destruct (Qle_bool 0 q) eqn:E.
  - apply Qle_bool_iff in E. split.
    + transitivity 0%Z; [lia|]. rewrite <- (Qfloor_Z 0).
      apply Qfloor_resp_le, E.
    + rewrite <- (Qfloor_Z b). apply Qfloor_resp_le, Hb.
  - assert (q <= 0)%Q as E'.
    { apply Qnot_lt_le. intros H. apply Qlt_le_weak, Qle_bool_iff in H.
      congruence. }
    split.
    + rewrite <- (Qceiling_Z a). apply Qceiling_resp_le, Ha.
    + transitivity 0%Z; [|lia]. rewrite <- (Qceiling_Z 0).
      apply Qceiling_resp_le, E'.
Qed.

Lemma int16_wrap (z : Z) :
  (-32768 <= z <= 32767)%Z ->
  (let m := z mod 65536 in if 32768 <=? m then m - 65536 else m)%Z = z.
Proof.
  intros H. cbv zeta. destruct (Z.leb_spec 32768 (z mod 65536)) as [E|E];
    Z.to_euclidean_division_equations; lia.
Qed.

Lemma ToInt16_in_range (q : Q) :
  (-32768 <= Qtrunc q <= 32767)%Z -> ToInt16 (Fin q) = Qtrunc q.
Proof. intros H. apply (int16_wrap _ H). Qed.

Lemma ToInt16_range (x : num) : (-32768 <= ToInt16 x <= 32767)%Z.
Proof.
  unfold ToInt16, ToUint16, to_int_mod. destruct x as [q| | |]; cbn; try lia.
  destruct (Z.leb_spec 32768 (Qtrunc q mod 65536));
    Z.to_euclidean_division_equations; lia.
Qed.

Lemma ToInt16_of_Z (z : Z) :
  (-32768 <= z <= 32767)%Z -> ToInt16 (of_Z z) = z.
Proof.
  intros H. unfold of_Z. rewrite ToInt16_in_range; rewrite Qtrunc_Z; auto.
Qed.

(** Two little-endian bytes read back as a signed 16-bit integer. *)
Lemma getInt16_le_bytes (z : Z) (tail : bytes) :
  (-32768 <= z <= 32767)%Z ->
  getInt16 (le_bytes 2 z ++ tail) 0 = Some z.
Proof.
  intros H. unfold getInt16, in_bounds. cbn. f_equal.
  replace (le_value (take 0 tail)) with 0%Z by (destruct tail; reflexivity).
  destruct (Z.leb_spec 32768 (z mod 256 + 256 * ((z / 256) mod 256 + 256 * 0)));
    Z.to_euclidean_division_equations; lia.
Qed.

End Integers.

(** Boolean comparisons of rationals as propositions, for [lra]. *)
Ltac qbool :=
  repeat match goal with
  | H : Qle_bool _ _ = true |- _ => apply Qle_bool_iff in H
  | H : Qle_bool ?a ?b = false |- _ =>
      assert (b < a)%Q
        by (apply Qnot_le_lt; intros ?%Qle_bool_iff; congruence);
      clear H
  end.

Section Quantizer.

Lemma clamp_Fin (q : Q) : clamp (Fin q) = Fin (Qclamp q).
Proof.
  unfold clamp, Qclamp, Math_max, Math_min, of_Z, num_lt.
  change (inject_Z 1) with 1%Q. change (inject_Z (-1)) with (-1)%Q.
  destruct (Qle_bool 1 q) eqn:E1; cbn [negb].
  - destruct (Qle_bool q (-1)) eqn:E2; [qbool; lra | reflexivity].
  - destruct (Qle_bool q (-1)); reflexivity.
Qed.

Lemma Qclamp_range (q : Q) : (-1 <= Qclamp q <= 1)%Q.
Proof.
  unfold Qclamp. destruct (Qle_bool q (-1)) eqn:E1; [lra|].
  destruct (Qle_bool 1 q) eqn:E2; [lra|]. qbool. lra.
Qed.

Lemma Qclamp_sign (q : Q) : Qle_bool 0 (Qclamp q) = Qle_bool 0 q.
Proof.
  unfold Qclamp. destruct (Qle_bool q (-1)) eqn:E1.
  - destruct (Qle_bool 0 q) eqn:E2; [qbool; lra | reflexivity].
  - destruct (Qle_bool 1 q) eqn:E2; [|reflexivity].
    destruct (Qle_bool 0 q) eqn:E3; [reflexivity | qbool; lra].
Qed.

Lemma scaled_Fin (q : Q) :
  scaled (Fin q) = Fin (Qred (Qclamp q * pcm_factor q)).
Proof.
  unfold scaled. rewrite clamp_Fin. unfold num_lt, of_Z, pcm_factor.
  change (inject_Z 0) with 0%Q. rewrite Qclamp_sign.
  destruct (Qle_bool 0 q); reflexivity.
Qed.

Lemma scaled_range (q : Q) :
  (inject_Z (-32768) <= Qclamp q * pcm_factor q <= inject_Z 32767)%Q.
Proof.
  pose proof (Qclamp_range q) as H. pose proof (Qclamp_sign q) as Hs.
  unfold pcm_factor. change (inject_Z (-32768)) with (-32768)%Q.
  change (inject_Z 32767) with 32767%Q.
  destruct (Qle_bool 0 q); qbool; lra.
Qed.

(** The value stored for a finite sample is the scaled clamped value with
    its fraction dropped. *)
Lemma pcm16_Fin (q : Q) : pcm16 (Fin q) = pcm_trunc q.
Proof.
  unfold pcm16, pcm_trunc. rewrite scaled_Fin.
  rewrite ToInt16_in_range; rewrite (Qtrunc_comp _ _ (Qred_correct _));
    [reflexivity|].
  apply Qtrunc_bounds; [lia | apply scaled_range].
Qed.

Lemma pcm16_range (x : num) : (-32768 <= pcm16 x <= 32767)%Z.
Proof. apply ToInt16_range. Qed.

End Quantizer.

Section DataViewFacts.

Lemma length_le_bytes (n : nat) (v : Z) : length (le_bytes n v) = n.
Proof. revert v. induction n as [|n IH]; intros v; cbn; [|rewrite IH]; reflexivity. Qed.

Lemma write_at_app (pre old post new : bytes) :
  length old = length new ->
  write_at (pre ++ old ++ post) (length pre) new = pre ++ new ++ post.
Proof.
  revert pre old. induction new as [|b new IH]; intros pre old H.
  - destruct old; [reflexivity | discriminate].
  - destruct old as [|o old]; [discriminate|]. cbn [write_at].
    rewrite insert_app_r_alt by lia. rewrite Nat.sub_diag.
    change (<[0%nat:=b]> ((o :: old) ++ post)) with (b :: old ++ post).
    replace (S (length pre)) with (length (pre ++ [b]))
      by (rewrite length_app; cbn; lia).
    rewrite (cons_middle b pre (old ++ post)), app_assoc.
    rewrite IH by (cbn in H; lia).
    rewrite <- app_assoc. reflexivity.
Qed.

Lemma store_app (pre old post new : bytes) :
  length old = length new ->
  store (pre ++ old ++ post) (length pre) new = Some (pre ++ new ++ post).
Proof.
  intros H. unfold store, in_bounds. rewrite !length_app.
  replace (_ <=? _)%nat with true by (symmetry; apply Nat.leb_le; lia).
  rewrite write_at_app by exact H. reflexivity.
Qed.

Lemma getInt16_at (pre tail : bytes) (z : Z) :
  (-32768 <= z <= 32767)%Z ->
  getInt16 (pre ++ le_bytes 2 z ++ tail) (length pre) = Some z.
Proof.
  intros H. pose proof (getInt16_le_bytes z tail H) as E.
  unfold getInt16, in_bounds in *. rewrite drop_app_length.
  rewrite !length_app, length_le_bytes in *. cbn [drop] in E.
  replace (length pre + 2 <=? length pre + (2 + length tail))%nat with true
    by (symmetry; apply Nat.leb_le; lia).
  exact E.
Qed.

Lemma setInt16_app (pre old post : bytes) (v : num) :
  length old = 2%nat ->
  setInt16 (pre ++ old ++ post) (length pre) v
  = Some (pre ++ le_bytes 2 (ToInt16 v) ++ post).
Proof. intros H. apply store_app. rewrite H. reflexivity. Qed.

End DataViewFacts.

Section Encoder.

Lemma pcm_data_app (l1 l2 : list num) :
  pcm_data (l1 ++ l2) = pcm_data l1 ++ pcm_data l2.
Proof. apply flat_map_app. Qed.

Lemma length_pcm_data (l : list num) : length (pcm_data l) = (length l * 2)%nat.
Proof.
  induction l as [|x l IH]; [reflexivity|]. unfold pcm_data in *.
  cbn [flat_map]. rewrite length_app, length_le_bytes, IH. cbn. lia.
Qed.

Lemma floatTo16BitPCM_loop (done : bytes) (l : list num) :
  for_each
    (fun '(out, offset) x =>
       out' ← setInt16 out offset (scaled x);
       Some (out', (offset + 2)%nat))
    l (done ++ ArrayBuffer (length l * 2), length done)
  = Some (done ++ pcm_data l, (length done + length l * 2)%nat).
Proof.
  revert done. induction l as [|x l IH]; intros done.
  - cbn. rewrite Nat.add_0_r. reflexivity.
  - cbn [for_each length].
    change (ArrayBuffer (S (length l) * 2))
      with ([0; 0]%Z ++ ArrayBuffer (length l * 2)).
    rewrite setInt16_app by reflexivity. cbn [mbind option_bind].
    pose proof (IH (done ++ le_bytes 2 (ToInt16 (scaled x)))) as IH'.
    rewrite <- !app_assoc, length_app, length_le_bytes in IH'.
    rewrite IH'. f_equal. f_equal. cbn. lia.
Qed.

(** The closed form of [floatTo16BitPCM]: no write is out of range, and
    the buffer holds two bytes per sample, in order. *)
Lemma floatTo16BitPCM_data (samples : list num) :
  floatTo16BitPCM samples = Some (pcm_data samples).
Proof.
  unfold floatTo16BitPCM.
  pose proof (floatTo16BitPCM_loop [] samples) as H.
  cbn [app length Nat.add] in H. rewrite H. reflexivity.
Qed.

End Encoder.

Section Header.

(** The thirteen header writes of [encodeWAV] on a fresh buffer: none is
    out of range, and they leave the header of the specification in the
    first 44 bytes, the rest of the buffer untouched. *)
Lemma write_header {B} (T : bytes) (riff sr br dl : num)
    (k : writer -> option B) :
  (w ← writeString (js "RIFF") (mkWriter (ArrayBuffer 44 ++ T) 0);
   w ← writeUint32 riff w;
   w ← writeString (js "WAVE") w;
   w ← writeString (js "fmt ") w;
   w ← writeUint32 (of_nat 16) w;
   w ← writeUint16 (of_nat 1) w;
   w ← writeUint16 (of_nat 1) w;
   w ← writeUint32 sr w;
   w ← writeUint32 br w;
   w ← writeUint16 (of_nat 2) w;
   w ← writeUint16 (of_nat 16) w;
   w ← writeString (js "data") w;
   w ← writeUint32 dl w;
   k w)
  = k (mkWriter (header_bytes riff sr br dl ++ T) 44).
Proof. reflexivity. Qed.

Lemma length_header_bytes (riff sr br dl : num) :
  length (header_bytes riff sr br dl) = 44%nat.
Proof. reflexivity. Qed.

Lemma copy_loop (hdr : bytes) (done rest : list num) :
  length hdr = 44%nat ->
  for_each
    (fun v i =>
       x ← getInt16 (pcm_data (done ++ rest)) i; setInt16 v (44 + i) (of_Z x))
    ((fun k => 2 * k)%nat <$> seq (length done) (length rest))
    (hdr ++ pcm_data done ++ ArrayBuffer (length rest * 2))
  = Some (hdr ++ pcm_data (done ++ rest)).
Proof.
  intros Hh. revert done. induction rest as [|x rest IH]; intros done.
  - cbn. rewrite !app_nil_r. reflexivity.
  - cbn [length seq fmap list_fmap for_each].
    rewrite (pcm_data_app done (x :: rest)).
    change (pcm_data (x :: rest))
      with (le_bytes 2 (pcm16 x) ++ pcm_data rest).
    replace (2 * length done)%nat with (length (pcm_data done))
      by (rewrite length_pcm_data; lia).
    rewrite getInt16_at by apply pcm16_range. cbn [mbind option_bind].
    change (ArrayBuffer (S (length rest) * 2))
      with ([0; 0]%Z ++ ArrayBuffer (length rest * 2)).
    replace (44 + length (pcm_data done))%nat
      with (length (hdr ++ pcm_data done))
      by (rewrite length_app; lia).
    rewrite (app_assoc hdr), setInt16_app by reflexivity.
    rewrite ToInt16_of_Z by apply pcm16_range.
    cbn [mbind option_bind].
    pose proof (IH (done ++ [x])) as IH'.
    rewrite length_app, Nat.add_1_r, <- (app_assoc done [x] rest) in IH'.
    cbn [app] in IH'.
    rewrite (pcm_data_app done [x]), (pcm_data_app done (x :: rest)) in IH'.
    change (pcm_data [x]) with (le_bytes 2 (pcm16 x) ++ []) in IH'.
    change (pcm_data (x :: rest))
      with (le_bytes 2 (pcm16 x) ++ pcm_data rest) in IH'.
    rewrite app_nil_r, <- !app_assoc in IH'. rewrite <- !app_assoc.
    exact IH'.
Qed.

(** The byte layout of [encodeWAV]: it never throws, and the blob is the
    header of the specification followed by the PCM data. *)
Lemma encodeWAV_layout (samples : list num) (sampleRate : num) :
  encodeWAV samples sampleRate
  = Some (wav_header (length samples * 2) sampleRate ++ pcm_data samples).
Proof.
  unfold encodeWAV. cbv zeta.
  change (ArrayBuffer (44 + length samples * 2))
    with (ArrayBuffer 44 ++ ArrayBuffer (length samples * 2)).
  rewrite write_header. rewrite floatTo16BitPCM_data.
  cbn [mbind option_bind view].
  pose proof (copy_loop (wav_header (length samples * 2) sampleRate)
                        [] samples eq_refl) as H.
  cbn [app length pcm_data flat_map] in H. exact H.
Qed.

End Header.

Section RoundTrip.

Lemma int16s_pcm_data (samples : list num) :
  int16s (pcm_data samples) = map pcm16 samples.
Proof.
  induction samples as [|x l IH]; [reflexivity|].
  change (pcm_data (x :: l)) with (le_bytes 2 (pcm16 x) ++ pcm_data l).
  cbn [le_bytes app int16s map]. rewrite IH. f_equal.
  pose proof (pcm16_range x).
  destruct (Z.leb_spec 32768 (pcm16 x mod 256 + 256 * ((pcm16 x / 256) mod 256)));
    Z.to_euclidean_division_equations; lia.
Qed.

Lemma le_value_le_bytes4 (v : Z) :
  (0 <= v < 4294967296)%Z -> le_value (le_bytes 4 v) = v.
Proof. intros H. cbn. Z.to_euclidean_division_equations. lia. Qed.

Lemma ToUint32_range (x : num) : (0 <= ToUint32 x < 4294967296)%Z.
Proof.
  unfold ToUint32, to_int_mod. destruct x; try lia.
  apply Z.mod_pos_bound. lia.
Qed.

Lemma ToUint32_of_nat (n : nat) :
  (Z.of_nat n < 4294967296)%Z -> ToUint32 (of_nat n) = Z.of_nat n.
Proof.
  intros H. unfold ToUint32, to_int_mod, of_nat, of_Z.
  rewrite Qtrunc_Z. apply Z.mod_small. lia.
Qed.

(** Decoding what [encodeWAV] produced gives back the sample rate field and
    the quantized samples. *)
Lemma decode_encoded (samples : list num) (sampleRate : num) :
  (Z.of_nat (length samples * 2) < 4294967296)%Z ->
  decodeWAV (wav_header (length samples * 2) sampleRate ++ pcm_data samples)
  = Some (ToUint32 sampleRate, map pcm16 samples).
Proof.
  intros Hlen. unfold decodeWAV.
  set (b := wav_header _ _ ++ _).
  replace (tag b 0 "RIFF" && tag b 8 "WAVE" && tag b 12 "fmt "
           && (field b 16 4 =? 16)%Z && (field b 20 2 =? 1)%Z
           && (field b 22 2 =? 1)%Z && (field b 34 2 =? 16)%Z
           && tag b 36 "data") with true by reflexivity.
  assert (field b 40 4 = Z.of_nat (length samples * 2)) as ->.
  { transitivity (le_value (le_bytes 4 (ToUint32 (of_nat (length samples * 2))))).
    - reflexivity.
    - rewrite le_value_le_bytes4 by apply ToUint32_range.
      apply ToUint32_of_nat, Hlen. }
  assert (field b 24 4 = ToUint32 sampleRate) as ->.
  { transitivity (le_value (le_bytes 4 (ToUint32 sampleRate)));
      [reflexivity | apply le_value_le_bytes4, ToUint32_range]. }
  cbv zeta. rewrite Nat2Z.id.
  assert (drop 44 b = pcm_data samples) as -> by reflexivity.
  assert (length b = (44 + length samples * 2)%nat) as ->.
  { unfold b. rewrite length_app, length_pcm_data. reflexivity. }
  rewrite Nat.leb_refl, take_ge by (rewrite length_pcm_data; lia).
  rewrite int16s_pcm_data. reflexivity.
Qed.

End RoundTrip.

Section SecondPass.

Lemma inject_Z_bounds (a v b : Z) :
  (a <= v <= b)%Z -> (inject_Z a <= inject_Z v <= inject_Z b)%Q.
Proof. intros [? ?]. split; rewrite <- Zle_Qle; assumption. Qed.

(** Quantizing a decoded sample again: a positive value comes back one
    step lower, any other value unchanged. *)
Lemma requantize (v : Z) :
  (-32768 <= v <= 32767)%Z ->
  pcm16 (int16_to_float v) = if (0 <? v)%Z then (v - 1)%Z else v.
Proof.
  intros Hv. unfold int16_to_float. rewrite pcm16_Fin. unfold pcm_trunc.
  set (q := Qred (inject_Z v / 32768)).
  assert (q == inject_Z v / 32768)%Q as Hq by apply Qred_correct.
  assert (inject_Z v == q * 32768)%Q as Hq' by (rewrite Hq; field).
  pose proof (inject_Z_bounds _ _ _ Hv) as Hb.
  change (inject_Z (-32768)) with (-32768)%Q in Hb.
  change (inject_Z 32767) with 32767%Q in Hb.
  assert (Qclamp q == q)%Q as Hc.
  { unfold Qclamp. destruct (Qle_bool q (-1)) eqn:E1; [qbool; lra|].
    destruct (Qle_bool 1 q) eqn:E2; [qbool; lra | reflexivity]. }
  unfold pcm_factor. destruct (Qle_bool 0 q) eqn:E0.
  - assert (0 <= v)%Z as Hv0.
    { rewrite Zle_Qle. change (inject_Z 0) with 0%Q. qbool. lra. }
    rewrite (Qtrunc_comp _ (inject_Z (v * 32767) / inject_Z 32768)).
    + rewrite Qtrunc_floor_ceiling.
      replace (Qle_bool 0 _) with true.
      * rewrite <- Zdiv_Qdiv. destruct (Z.ltb_spec 0 v);
          Z.to_euclidean_division_equations; lia.
      * symmetry. apply Qle_bool_iff. apply Qle_shift_div_l; [reflexivity|].
        rewrite Qmult_0_l. change 0%Q with (inject_Z 0).
        rewrite <- Zle_Qle. lia.
    + rewrite Hc, Hq, inject_Z_mult. change (inject_Z 32767) with 32767%Q.
      change (inject_Z 32768) with 32768%Q. field.
  - assert (v < 0)%Z as Hv0.
    { rewrite Zlt_Qlt. change (inject_Z 0) with 0%Q. qbool. lra. }
    rewrite (Qtrunc_comp _ (inject_Z v)).
    + rewrite Qtrunc_Z. destruct (Z.ltb_spec 0 v); [lia | reflexivity].
    + rewrite Hc, Hq. field.
Qed.

End SecondPass.

Section ContainerEncoderClaims.

(** C1 fails: one quarter scales to 8191.75, which is stored as 8191 (bytes
    FF 1F), while the nearest integer is 8192. *)
Lemma quantizer_does_not_round :
  pcm16 (Fin (1 # 4)) = 8191%Z
  /\ pcm_round (1 # 4) = 8192%Z
  /\ floatTo16BitPCM [Fin (1 # 4)] = Some [255; 31]%Z.
Proof. repeat split; vm_compute; reflexivity. Qed.

(** C1, as amended.  Every sample is stored as two little-endian bytes of
    a signed 16-bit value, and for a finite sample that value is the scaled
    clamped value with its fraction dropped (rounded toward zero, not to
    the nearest integer); the infinities are clamped and NaN is stored
    as 0. *)
Theorem floatTo16BitPCM_truncates (samples : list num) :
  floatTo16BitPCM samples = Some (pcm_data samples)
  /\ (forall q : Q, pcm16 (Fin q) = pcm_trunc q)
  /\ pcm16 PInf = 32767%Z /\ pcm16 NInf = (-32768)%Z /\ pcm16 NaN = 0%Z
  /\ (forall (x : num) (tail : bytes),
         getInt16 (le_bytes 2 (pcm16 x) ++ tail) 0 = Some (pcm16 x)).
Proof.
  split; [apply floatTo16BitPCM_data|].
  split; [apply pcm16_Fin|].
  repeat (split; [reflexivity|]).
  intros x tail. apply getInt16_le_bytes, pcm16_range.
Qed.

(** C2 fails on its second half: one half is stored as 16383; decoded as
    16383/32768 and encoded again it is stored as 16382. *)
Lemma second_round_trip_differs :
  (encodeWAV [Fin (1 # 2)] (of_Z 16000) ≫= decodeWAV)
  = Some (16000%Z, [16383%Z])
  /\ (encodeWAV (map int16_to_float [16383%Z]) (of_Z 16000) ≫= decodeWAV)
     = Some (16000%Z, [16382%Z])
  /\ pcm_data [Fin (1 # 2)] = [255; 63]%Z
  /\ pcm_data (map int16_to_float [16383%Z]) = [254; 63]%Z.
Proof. repeat split; vm_compute; reflexivity. Qed.

(** C2, as amended.  Decoding the container gives back the sample rate and
    exactly the quantized samples (for PCM data that fits the 32-bit size
    field); when the decoded samples, scaled by 1/32768, are encoded again,
    every positive sample comes back one step lower and every other sample
    unchanged, so the PCM data is the same only where no sample is
    positive. *)
Theorem wav_round_trip (samples : list num) (sampleRate : num) :
  (Z.of_nat (length samples * 2) < 4294967296)%Z ->
  (encodeWAV samples sampleRate ≫= decodeWAV)
  = Some (ToUint32 sampleRate, map pcm16 samples)
  /\ map pcm16 (map int16_to_float (map pcm16 samples))
     = map (fun v => if (0 <? v)%Z then (v - 1)%Z else v) (map pcm16 samples).
Proof.
  intros Hlen. split.
  - rewrite encodeWAV_layout. cbn [mbind option_bind].
    apply decode_encoded, Hlen.
  - rewrite !map_map. apply map_ext. intros x.
    apply requantize, pcm16_range.
Qed.

Lemma wav_round_trip_witness :
  (encodeWAV [Fin (1 # 2); Fin (-1 # 4)] (of_Z 16000) ≫= decodeWAV)
  = Some (ToUint32 (of_Z 16000), map pcm16 [Fin (1 # 2); Fin (-1 # 4)])
  /\ map pcm16 (map int16_to_float (map pcm16 [Fin (1 # 2); Fin (-1 # 4)]))
     = map (fun v => if (0 <? v)%Z then (v - 1)%Z else v)
           (map pcm16 [Fin (1 # 2); Fin (-1 # 4)]).
Proof.
  apply (wav_round_trip [Fin (1 # 2); Fin (-1 # 4)] (of_Z 16000)).
  vm_compute. reflexivity.
Defined.

End ContainerEncoderClaims.

(* ===================================================================== *)
(** * Segment Extractor                                                   *)
(* ===================================================================== *)

Section SegmentExtractor.

Lemma Qle_bool_inject_Z (a b : Z) :
  Qle_bool (inject_Z a) (inject_Z b) = (a <=? b)%Z.
Proof. unfold Qle_bool. cbn. rewrite !Z.mul_1_r. reflexivity. Qed.

Lemma Math_floor_mul (q : Q) (sr : Z) :
  Math_floor (num_mul (Fin q) (of_Z sr)) = of_Z (Qfloor (q * inject_Z sr)).
Proof.
  cbn. unfold of_Z. rewrite (Qfloor_comp _ _ (Qred_correct _)). reflexivity.
Qed.

Lemma Math_max_of_Z (a b : Z) :
  Math_max (of_Z a) (of_Z b) = of_Z (Z.max a b).
Proof.
  unfold Math_max, of_Z, num_lt. rewrite Qle_bool_inject_Z.
  destruct (Z.leb_spec b a); cbn [negb]; f_equal; f_equal; lia.
Qed.

Lemma Math_min_of_Z (a b : Z) :
  Math_min (of_Z a) (of_Z b) = of_Z (Z.min a b).
Proof.
  unfold Math_min, of_Z, num_lt. rewrite Qle_bool_inject_Z.
  destruct (Z.leb_spec a b); cbn [negb]; f_equal; f_equal; lia.
Qed.

Lemma start_index_spec (sr : Z) (s : Segment) :
  start_index (of_Z sr) (entry_of s) = of_Z (startIndex sr s).
Proof.
  unfold start_index, startIndex, entry_of. cbn [start].
  rewrite (Math_floor_mul (seg_start s) sr). apply Math_max_of_Z.
Qed.

Lemma end_index_spec (len : nat) (sr : Z) (s : Segment) :
  end_index len (of_Z sr) (entry_of s) = of_Z (endIndex len sr s).
Proof.
  unfold end_index, endIndex, entry_of, to_num. cbn [end_].
  rewrite (Math_floor_mul (seg_end s) sr). apply Math_min_of_Z.
Qed.

Lemma relative_index_of_Z (len : nat) (a : Z) :
  (0 <= a <= Z.of_nat len)%Z -> relative_index len (of_Z a) = Z.to_nat a.
Proof.
  intros H. unfold relative_index, of_Z. rewrite Qtrunc_Z.
  destruct (Z.ltb_spec a 0); [lia|]. f_equal. lia.
Qed.

(** [y.slice(a, b)] at integer indices within the buffer. *)
Lemma slice_range {A} (y : list A) (a b : Z) :
  (0 <= a <= Z.of_nat (length y))%Z -> (0 <= b <= Z.of_nat (length y))%Z ->
  slice y (of_Z a) (of_Z b) = sample_range y a b.
Proof.
  intros Ha Hb. unfold slice, sample_range.
  rewrite !relative_index_of_Z by assumption. reflexivity.
Qed.

Lemma extract_loop_spec (normalize : jsstr -> jsstr) (y : list num) (sr : Z)
    (segs : list Segment) (i : nat) (out : list clip) (logged : list jsstr) :
  extract_loop normalize y (of_Z sr) (map entry_of segs) i out logged
  = Some (out ++ clips_from normalize y sr i segs,
          logged ++ skips_from (length y) sr i segs).
Proof.
  revert i out logged. induction segs as [|s segs IH]; intros i out logged.
  - cbn. rewrite !app_nil_r. reflexivity.
  - cbn [map extract_loop clips_from skips_from].
    rewrite start_index_spec, end_index_spec. unfold clips_of, skips_of.
    unfold num_le, of_Z at 1 2. rewrite Qle_bool_inject_Z.
    destruct (Z.leb_spec (endIndex (length y) sr s) (startIndex sr s)) as [E|E].
    + rewrite IH. cbn [app]. rewrite <- app_assoc. reflexivity.
    + rewrite slice_range by (unfold startIndex, endIndex in *; lia).
      rewrite encodeWAV_layout. cbn [mbind option_bind].
      rewrite IH. cbn [app entry_of start end_ text to_num].
      rewrite <- app_assoc. reflexivity.
Qed.

Lemma extractSegments_clips (normalize : jsstr -> jsstr) (y : list num)
    (sr : Z) (segs : list Segment) :
  extractSegments normalize y (of_Z sr) (map entry_of segs)
  = Some (clips_from normalize y sr 0 segs, skips_from (length y) sr 0 segs).
Proof. apply (extract_loop_spec normalize y sr segs 0 [] []). Qed.

End SegmentExtractor.

(* ===================================================================== *)
(** * End to end                                                          *)
(* ===================================================================== *)

Section Silence.

Lemma map_replicate {A B} (f : A -> B) (n : nat) (x : A) :
  map f (replicate n x) = replicate n (f x).
Proof. induction n as [|n IH]; cbn; [|rewrite IH]; reflexivity. Qed.

Lemma pcm_data_silence (n : nat) :
  pcm_data (replicate n (Fin 0)) = replicate (n * 2) 0%Z.
Proof. induction n as [|n IH]; cbn; [|rewrite <- IH]; reflexivity. Qed.

Lemma sample_range_replicate {A} (x : A) (n : nat) (a b : Z) :
  (0 <= a <= b)%Z -> (b <= Z.of_nat n)%Z ->
  sample_range (replicate n x) a b = replicate (Z.to_nat (b - a)) x.
Proof.
  intros Ha Hb. unfold sample_range.
  rewrite drop_replicate, take_replicate. f_equal. lia.
Qed.

Lemma field_app_l (hdr rest : bytes) (off n : nat) :
  (off + n <= length hdr)%nat -> field (hdr ++ rest) off n = field hdr off n.
Proof.
  intros H. unfold field. rewrite drop_app_le by lia.
  rewrite take_app_le by (rewrite length_drop; lia). reflexivity.
Qed.

Lemma length_wav_header (n : nat) (sr : num) : length (wav_header n sr) = 44%nat.
Proof. reflexivity. Qed.

End Silence.

Section EndToEnd.

Variable normalize : jsstr -> jsstr.
Hypothesis normalize_ascii :
  forall s, forallb is_ascii s = true -> normalize s = s.

(** C8.  The transcript "[00:00:05 - 00:00:08] hello world" and twenty
    seconds of silence at 16000 Hz (320000 zero samples) give exactly one
    clip, named segment_001_hello_world.wav, of duration 3; its container
    is 44 + 96000 bytes long, its RIFF size field is 36 + 96000, its data
    size field is 96000, its data is 96000 zero bytes, and it decodes to
    48000 zero samples at 16000 Hz.  Nothing is skipped. *)
Theorem end_to_end_scenario :
  exists b : bytes,
    extractSegments normalize (replicate (Z.to_nat 320000) (Fin 0))
      (of_Z 16000)
      (parseTranscriptFile (js "[00:00:05 - 00:00:08] hello world"))
    = Some ([mkClip (js "segment_001_hello_world.wav") b (js "hello world")
                    (of_Z 5) (Some (of_Z 8)) (of_Z 3)], [])
    /\ length b = Z.to_nat (44 + 96000)
    /\ field b 4 4 = (36 + 96000)%Z
    /\ field b 40 4 = 96000%Z
    /\ drop 44 b = replicate (Z.to_nat (3 * 16000 * 2)) 0%Z
    /\ decodeWAV b = Some (16000%Z, replicate (Z.to_nat 48000) 0%Z).
Proof.
  set (silence := replicate (Z.to_nat 48000) (Fin 0)).
  exists (wav_header (length silence * 2) (of_Z 16000) ++ pcm_data silence).
  split.
  - set (seg := mkSegment 5 8 (js "hello world")).
    assert (parseTranscriptFile (js "[00:00:05 - 00:00:08] hello world")
            = map entry_of [seg]) as -> by (vm_compute; reflexivity).
    rewrite extractSegments_clips. cbn [clips_from skips_from].
    unfold clips_of, skips_of. rewrite length_replicate.
    replace (startIndex 16000 seg) with 80000%Z by (vm_compute; reflexivity).
    replace (endIndex (Z.to_nat 320000) 16000 seg) with 128000%Z
      by (vm_compute; reflexivity).
    rewrite sample_range_replicate by lia.
    change (128000 <=? 80000)%Z with false. cbv iota.
    change (Z.to_nat (128000 - 80000)) with (Z.to_nat 48000). fold silence.
    assert (clip_filename normalize 0 (entry_of seg)
            = js "segment_001_hello_world.wav") as ->.
    { unfold clip_filename, safeFilename.
      rewrite (normalize_ascii (slice0 30 (text (entry_of seg))) eq_refl).
      vm_compute. reflexivity. }
    reflexivity.
  - assert (length silence * 2 = Z.to_nat 96000)%nat as Hl
      by (unfold silence; rewrite length_replicate; lia).
    split; [|split; [|split; [|split]]].
    + rewrite length_app, length_wav_header, length_pcm_data, Hl. lia.
    + rewrite field_app_l by (rewrite length_wav_header; lia).
      rewrite Hl. vm_compute. reflexivity.
    + rewrite field_app_l by (rewrite length_wav_header; lia).
      rewrite Hl. vm_compute. reflexivity.
    + rewrite drop_app_length' by (rewrite length_wav_header; reflexivity).
      unfold silence. rewrite pcm_data_silence. f_equal; lia.
    + rewrite decode_encoded by (rewrite Hl; lia). unfold silence.
      rewrite map_replicate. reflexivity.
Qed.

End EndToEnd.

Lemma end_to_end_scenario_witness :
  exists b : bytes,
    extractSegments nfkd_latin1 (replicate (Z.to_nat 320000) (Fin 0))
      (of_Z 16000)
      (parseTranscriptFile (js "[00:00:05 - 00:00:08] hello world"))
    = Some ([mkClip (js "segment_001_hello_world.wav") b (js "hello world")
                    (of_Z 5) (Some (of_Z 8)) (of_Z 3)], [])
    /\ length b = Z.to_nat (44 + 96000)
    /\ field b 4 4 = (36 + 96000)%Z
    /\ field b 40 4 = 96000%Z
    /\ drop 44 b = replicate (Z.to_nat (3 * 16000 * 2)) 0%Z
    /\ decodeWAV b = Some (16000%Z, replicate (Z.to_nat 48000) 0%Z).
Proof. exact (end_to_end_scenario nfkd_latin1 nfkd_latin1_ascii). Defined.

(* ===================================================================== *)
(** * Archive Builder                                                     *)
(* ===================================================================== *)

Section Decimal.

Lemma uint_digits_are_digits (d : Decimal.uint) :
  forallb is_digit (uint_digits d) = true.
Proof. induction d; cbn; auto. Qed.

Lemma of_uint_acc_value (d : Decimal.uint) (acc : positive) :
  Z.pos (Pos.of_uint_acc d acc)
  = fold_left (fun a c => a * 10 + digit_value c)%Z (uint_digits d) (Z.pos acc).
Proof.
  revert acc. induction d; intros acc; cbn [Pos.of_uint_acc uint_digits fold_left];
    try reflexivity; rewrite IHd; f_equal; cbn; lia.
Qed.

Lemma of_uint_value (d : Decimal.uint) :
  Z.of_N (Pos.of_uint d) = digits_value 10 (uint_digits d).
Proof.
  unfold digits_value.
  induction d; cbn [Pos.of_uint uint_digits fold_left]; try reflexivity;
    try (exact IHd); cbn [Z.of_N]; rewrite of_uint_acc_value; reflexivity.
Qed.

(** [String(n)] reads back as [n]. *)
Lemma String_of_N_value (n : N) : digits_value 10 (String_of_N n) = Z.of_N n.
Proof.
  unfold String_of_N. rewrite <- of_uint_value.
  change (Pos.of_uint (N.to_uint n)) with (N.of_uint (N.to_uint n)).
  rewrite DecimalN.Unsigned.of_to. reflexivity.
Qed.

Lemma digits_value_zeros (k : nat) (s : jsstr) :
  digits_value 10 (replicate k 48%N ++ s) = digits_value 10 s.
Proof. induction k as [|k IH]; [reflexivity | exact IH]. Qed.

Lemma padStart0_value (k : nat) (s : jsstr) :
  digits_value 10 (padStart0 k s) = digits_value 10 s.
Proof. apply digits_value_zeros. Qed.

Lemma padStart0_digits (k : nat) (s : jsstr) :
  forallb is_digit s = true -> forallb is_digit (padStart0 k s) = true.
Proof.
  intros H. unfold padStart0. rewrite forallb_app, H, andb_true_r.
  induction (k - length s)%nat as [|m IH]; [reflexivity | exact IH].
Qed.

Lemma padStart0_length (k : nat) (s : jsstr) :
  (k <= length (padStart0 k s))%nat.
Proof. unfold padStart0. rewrite length_app, length_replicate. lia. Qed.

End Decimal.

Section ArchiveBuilder.

Variable toString : Q -> jsstr.

Lemma add_files_spec (clips : list Clip) (idx : nat)
    (zip : gmap jsstr content) (meta : jsstr) :
  add_files toString (map clip_obj clips) idx zip meta
  = Some (add_clips zip clips, meta ++ entries_from toString (S idx) clips).
Proof.
  revert idx zip meta. induction clips as [|c clips IH]; intros idx zip meta.
  - cbn. rewrite app_nil_r. reflexivity.
  - cbn [map add_files entries_from].
    assert (manifest_entry toString idx (clip_obj c)
            = Some (entry_text toString (S idx) c)) as ->.
    { unfold manifest_entry, entry_text. rewrite Nat.add_1_r. reflexivity. }
    cbn [mbind option_bind]. rewrite IH, <- app_assoc. reflexivity.
Qed.

Lemma lookup_add_clips_other (clips : list Clip) (zip : gmap jsstr content)
    (name : jsstr) :
  name ∉ map c_filename clips -> add_clips zip clips !! name = zip !! name.
Proof.
  revert zip. induction clips as [|c clips IH]; intros zip H; [reflexivity|].
  cbn [map] in H. apply not_elem_of_cons in H as [Hne Hnot].
  cbn [add_clips foldl]. unfold add_clips in IH. rewrite IH by exact Hnot.
  unfold zip_file. rewrite lookup_insert_ne by congruence. reflexivity.
Qed.

Lemma lookup_add_clips (clips : list Clip) (zip : gmap jsstr content)
    (c : Clip) :
  NoDup (map c_filename clips) -> c ∈ clips ->
  add_clips zip clips !! c_filename c = Some (Binary (c_bytes c)).
Proof.
  revert zip. induction clips as [|c' clips IH]; intros zip Hnd Hin.
  - apply elem_of_nil in Hin as [].
  - cbn [map] in Hnd. apply NoDup_cons in Hnd as [Hnot Hnd].
    apply elem_of_cons in Hin as [->|Hin].
    + change (add_clips zip (c' :: clips))
        with (add_clips (zip_file (c_filename c') (Binary (c_bytes c')) zip) clips).
      rewrite lookup_add_clips_other by exact Hnot.
      apply lookup_insert_eq.
    + apply IH; assumption.
Qed.

Lemma fixed_digits_two (a : Q) :
  (0 <= a)%Q ->
  exists int_part d1 d2,
    fixed_digits 2 a = int_part ++ js "." ++ [d1; d2]
    /\ int_part <> []
    /\ forallb is_digit (int_part ++ [d1; d2]) = true
    /\ digits_value 10 (int_part ++ [d1; d2]) = Qfloor (a * 100 + (1 # 2)).
Proof.
  intros Ha. unfold fixed_digits.
  change (inject_Z (10 ^ Z.of_nat 2)) with 100%Q.
  set (n := Qfloor (a * 100 + (1 # 2))).
  assert (0 <= n)%Z as Hn.
  { unfold n. rewrite <- (Qfloor_Z 0). apply Qfloor_resp_le.
    change (inject_Z 0) with 0%Q. lra. }
  set (m := padStart0 (2 + 1) (String_of_N (Z.to_N n))).
  pose proof (padStart0_length (2 + 1) (String_of_N (Z.to_N n))) as Hlen.
  assert (forallb is_digit m = true) as Hdig
    by apply padStart0_digits, uint_digits_are_digits.
  assert (digits_value 10 m = n) as Hval.
  { unfold m. rewrite padStart0_value, String_of_N_value. lia. }
  fold m in Hlen. set (k := (length m - 2)%nat).
  pose proof (take_drop k m) as Hm.
  assert (length (drop k m) = 2%nat) as Hd
    by (rewrite length_drop; unfold k; lia).
  destruct (drop k m) as [|d1 [|d2 [|]]]; try discriminate Hd.
  exists (take k m), d1, d2. rewrite Hm. repeat split; try assumption.
  intros Hnil. apply (f_equal length) in Hnil. rewrite length_take in Hnil.
  unfold k in Hnil. cbn [length] in Hnil. lia.
Qed.

(** Below 10^21 in magnitude, [toFixed(2)] writes two decimals. *)
Lemma toFixed_two_decimals (q : Q) :
  (Qabs q < inject_Z (10 ^ 21))%Q ->
  two_decimals q (toFixed toString 2 (Fin q)).
Proof.
  intros Hq. unfold toFixed, two_decimals.
  replace (Qle_bool (inject_Z (10 ^ 21)) (Qabs q)) with false.
  2:{ symmetry. destruct (Qle_bool _ _) eqn:E; [|reflexivity].
      apply Qle_bool_iff in E. lra. }
  destruct (Qle_bool 0 q) eqn:E.
  - apply Qle_bool_iff in E.
    destruct (fixed_digits_two q E) as (ip & d1 & d2 & H1 & H2 & H3 & H4).
    exists ip, d1, d2. rewrite H1, H4, Qabs_pos by exact E. auto.
  - assert (q < 0)%Q as E' by (qbool; assumption).
    assert (0 <= - q)%Q as E'' by lra.
    destruct (fixed_digits_two (- q) E'') as (ip & d1 & d2 & H1 & H2 & H3 & H4).
    exists ip, d1, d2. rewrite H1, H4, Qabs_neg by lra. auto.
Qed.

End ArchiveBuilder.

(* ===================================================================== *)
(** * Soundness of the matcher                                            *)
(* ===================================================================== *)

Section MatcherSoundness.

Context {A : Type} (P : nat -> jsstr -> Prop).

Lemma rmatch_sound (r : regex) :
  groups_sound P r ->
  forall s c (k : jsstr -> captures -> option A) x,
    rmatch r s c k = Some x -> run_sound P r s c k x.
Proof.
  induction r as [|p|r1 IH1 r2 IH2|r1 IH1 r2 IH2|r IH|i r IH];
    intros Hg s c k x H; cbn [rmatch] in H.
  - exists [], s, c. repeat split; auto using matches_eps.
    intros i Hi. apply elem_of_nil in Hi as [].
  - destruct s as [|a s]; [discriminate|].
    destruct (p a) eqn:E; [|discriminate].
    exists [a], s, c. repeat split; auto using matches_chr.
    intros i Hi. apply elem_of_nil in Hi as [].
  - destruct Hg as [Hg1 Hg2].
    destruct (IH1 Hg1 _ _ _ _ H) as (w1 & s1 & c1 & -> & M1 & K1 & D1 & G1 & S1).
    destruct (IH2 Hg2 _ _ _ _ K1) as (w2 & s2 & c2 & -> & M2 & K2 & D2 & G2 & S2).
    exists (w1 ++ w2), s2, c2. rewrite app_assoc.
    repeat split; auto using matches_seq.
    intros i Hi. cbn [defined_groups] in Hi.
    apply elem_of_app in Hi as [Hi|Hi]; auto.
  - destruct Hg as [Hg1 Hg2].
    destruct (rmatch r1 s c k) as [y|] eqn:E.
    + injection H as ->.
      destruct (IH1 Hg1 _ _ _ _ E) as (w & s' & c' & -> & M & K & D & G & S).
      exists w, s', c'. repeat split; auto using matches_alt_l.
      intros i Hi. apply elem_of_nil in Hi as [].
    + destruct (IH2 Hg2 _ _ _ _ H) as (w & s' & c' & -> & M & K & D & G & S).
      exists w, s', c'. repeat split; auto using matches_alt_r.
      intros i Hi. apply elem_of_nil in Hi as [].
  - cbn [groups_sound] in Hg. specialize (IH Hg).
    revert H. generalize (length s) at 1. intros fuel. revert s c.
    induction fuel as [|fuel IHf]; intros s c H.
    + exists [], s, c. repeat split; auto using matches_star_nil.
      intros i Hi. apply elem_of_nil in Hi as [].
    + match type of H with
      | match ?m with _ => _ end = _ => destruct m as [y|] eqn:E
      end.
      * injection H as ->.
        destruct (IH _ _ _ _ E) as (w1 & s1 & c1 & -> & M1 & K1 & D1 & _ & S1).
        destruct (length s1 <? length (w1 ++ s1))%nat; [|discriminate].
        destruct (IHf _ _ K1) as (w2 & s2 & c2 & -> & M2 & K2 & D2 & G2 & S2).
        exists (w1 ++ w2), s2, c2. rewrite app_assoc.
        repeat split; auto using matches_star_cons.
      * exists [], s, c. repeat split; auto using matches_star_nil.
        intros i Hi. apply elem_of_nil in Hi as [].
  - destruct Hg as [Hp Hg].
    destruct (IH Hg _ _ _ _ H) as (w & s' & c' & -> & M & K & D & G & S).
    rewrite length_app, Nat.add_sub, take_app_length in K.
    exists w, s', (<[i:=w]> c'). repeat split; auto using matches_group.
    + intros j Hj. destruct (decide (i = j)) as [->|Hne].
      * rewrite lookup_insert_eq. eauto.
      * rewrite lookup_insert_ne by exact Hne. auto.
    + intros j Hj. cbn [defined_groups] in Hj.
      destruct (decide (i = j)) as [->|Hne].
      * rewrite lookup_insert_eq. eauto.
      * rewrite lookup_insert_ne by exact Hne.
        apply elem_of_cons in Hj as [->|Hj]; [congruence | auto].
    + intros Hc j v. destruct (decide (i = j)) as [->|Hne].
      * rewrite lookup_insert_eq. intros [= <-]. auto.
      * rewrite lookup_insert_ne by exact Hne. apply S, Hc.
Qed.

End MatcherSoundness.

Section ExecSoundness.

(** A successful [exec] matched the whole line, defined the groups of the
    pattern, and every group holds a word of its own language. *)
Lemma exec_sound (P : nat -> jsstr -> Prop) (r : regex) (s : jsstr)
    (m : captures) :
  groups_sound P r -> exec r s = Some m ->
  matches r s
  /\ (forall i, i ∈ defined_groups r -> P i (group m i)).
Proof.
  intros Hg H. unfold exec in H.
  destruct (rmatch_sound P r Hg _ _ _ _ H)
    as (w & s' & c' & -> & M & K & _ & G & S).
  destruct s'; [|discriminate]. injection K as ->.
  rewrite app_nil_r. split; [exact M|].
  intros i Hi. destruct (G i Hi) as [v Hv]. unfold group. rewrite Hv.
  apply (S (fun j u Hu => match lookup_empty_Some _ _ Hu with end) i v Hv).
Qed.

End ExecSoundness.

(* ===================================================================== *)
(** * The languages of the timestamp tokens                               *)
(* ===================================================================== *)

Section Languages.

Lemma matches_eps_inv (w : jsstr) : matches Eps w -> w = [].
Proof. inversion 1. reflexivity. Qed.

Lemma matches_chr_inv (p : N -> bool) (w : jsstr) :
  matches (Chr p) w -> exists c, w = [c] /\ p c = true.
Proof. inversion 1; subst. eauto. Qed.

Lemma matches_seq_inv (r1 r2 : regex) (w : jsstr) :
  matches (Seq r1 r2) w ->
  exists w1 w2, w = w1 ++ w2 /\ matches r1 w1 /\ matches r2 w2.
Proof. inversion 1; subst. eauto. Qed.

Lemma matches_alt_inv (r1 r2 : regex) (w : jsstr) :
  matches (Alt r1 r2) w -> matches r1 w \/ matches r2 w.
Proof. inversion 1; subst; auto. Qed.

Lemma matches_lit_inv (a : ascii) (w : jsstr) :
  matches (lit a) w -> w = [N_of_ascii a].
Proof.
  intros H. apply matches_chr_inv in H as (c & -> & E).
  apply N.eqb_eq in E. subst. reflexivity.
Qed.

Lemma matches_star_chr (p : N -> bool) (w : jsstr) :
  matches (Star (Chr p)) w -> forallb p w = true.
Proof.
  intros H. remember (Star (Chr p)) as r eqn:Hr.
  induction H as [| | | | | |r' w1 w2 H1 _ H2 IH2|]; try discriminate;
    [reflexivity|].
  injection Hr as ->. apply matches_chr_inv in H1 as (c & -> & E).
  cbn. rewrite E. auto.
Qed.

Lemma matches_plus_chr (p : N -> bool) (w : jsstr) :
  matches (plus (Chr p)) w -> w <> [] /\ forallb p w = true.
Proof.
  intros H. apply matches_seq_inv in H as (w1 & w2 & -> & H1 & H2).
  apply matches_chr_inv in H1 as (c & -> & E).
  apply matches_star_chr in H2. split; [discriminate|].
  cbn. rewrite E, H2. reflexivity.
Qed.

Lemma matches_times_chr (n : nat) (p : N -> bool) (w : jsstr) :
  matches (times n (Chr p)) w -> length w = n /\ forallb p w = true.
Proof.
  revert w. induction n as [|n IH]; intros w H; cbn [times] in H.
  - apply matches_eps_inv in H as ->. split; reflexivity.
  - apply matches_seq_inv in H as (w1 & w2 & -> & H1 & H2).
    apply matches_chr_inv in H1 as (c & -> & E).
    destruct (IH _ H2) as [Hl Hf]. cbn. rewrite E, Hl, Hf. split; reflexivity.
Qed.

Lemma matches_upto_chr (n : nat) (p : N -> bool) (w : jsstr) :
  matches (upto n (Chr p)) w -> forallb p w = true.
Proof.
  revert w. induction n as [|n IH]; intros w H; cbn [upto] in H.
  - apply matches_eps_inv in H as ->. reflexivity.
  - apply matches_alt_inv in H as [H|H].
    + apply matches_seq_inv in H as (w1 & w2 & -> & H1 & H2).
      apply matches_chr_inv in H1 as (c & -> & E).
      cbn. rewrite E, (IH _ H2). reflexivity.
    + apply matches_eps_inv in H as ->. reflexivity.
Qed.

Lemma digit_string_times (n : nat) (w : jsstr) :
  matches (times (S n) digit) w -> digit_string w.
Proof.
  intros H. apply matches_times_chr in H as [Hl Hf]. split; [|exact Hf].
  intros ->. discriminate.
Qed.

Lemma digit_string_rep (n m : nat) (w : jsstr) :
  matches (rep (S n) m digit) w -> digit_string w.
Proof.
  intros H. apply matches_seq_inv in H as (w1 & w2 & -> & H1 & H2).
  destruct (digit_string_times _ _ H1) as [Hne Hf].
  apply matches_upto_chr in H2. split.
  - destruct w1; [congruence | discriminate].
  - rewrite forallb_app, Hf, H2. reflexivity.
Qed.

(** Destructs hypotheses on sequences of sub-patterns. *)
Ltac split_seq :=
  repeat match goal with
  | H : matches (Seq _ _) _ |- _ =>
      apply matches_seq_inv in H as (? & ? & -> & ? & ?)
  | H : matches Eps _ |- _ => apply matches_eps_inv in H as ->
  | H : matches (lit _) _ |- _ => apply matches_lit_inv in H as ->
  end.

(** "\d{2}:\d{2}:\d{2}" *)
Lemma hms_language (w : jsstr) :
  matches hms w ->
  exists a b c, w = a ++ [58%N] ++ b ++ [58%N] ++ c
                /\ digit_string a /\ digit_string b /\ digit_string c.
Proof.
  unfold hms, seqs, d2. cbn [foldr]. intros H. split_seq.
  repeat match goal with
  | H : matches (times 2 digit) _ |- _ => apply digit_string_times in H
  end.
  eexists _, _, _. rewrite app_nil_r. split; [reflexivity | auto].
Qed.

(** "\d{2}:\d{2}:\d{2},\d{3}" *)
Lemma hms_ms_language (w : jsstr) :
  matches hms_ms w ->
  exists t ms, w = t ++ [44%N] ++ ms /\ matches hms t /\ digit_string ms.
Proof.
  unfold hms_ms, seqs. cbn [foldr]. intros H. split_seq.
  match goal with
  | H : matches (times 3 digit) _ |- _ => apply digit_string_times in H
  end.
  eexists _, _. rewrite app_nil_r. split; [reflexivity | auto].
Qed.

(** "\d{1,2}:\d{2}" *)
Lemma m_ss_language (w : jsstr) :
  matches m_ss w ->
  exists a b, w = a ++ [58%N] ++ b /\ digit_string a /\ digit_string b.
Proof.
  unfold m_ss, seqs, d2. cbn [foldr]. intros H.
  apply matches_seq_inv in H as (a & w' & -> & Ha & H).
  apply digit_string_rep in Ha. split_seq.
  match goal with
  | H : matches (times 2 digit) _ |- _ => apply digit_string_times in H
  end.
  eexists _, _. rewrite app_nil_r. split; [reflexivity | auto].
Qed.

(** "\d+\.?\d*" *)
Lemma number_language (w : jsstr) :
  matches number w ->
  exists ip pt fp, w = ip ++ pt ++ fp
                   /\ digit_string ip /\ (pt = [] \/ pt = [46%N])
                   /\ forallb is_digit fp = true.
Proof.
  unfold number, seqs. cbn [foldr]. intros H.
  apply matches_seq_inv in H as (ip & w' & -> & Hi & H).
  apply matches_seq_inv in H as (pt & w'' & -> & Hp & H).
  apply matches_seq_inv in H as (fp & e & -> & Hf & He).
  apply matches_eps_inv in He as ->.
  apply matches_plus_chr in Hi. apply matches_star_chr in Hf.
  exists ip, pt, fp. rewrite app_nil_r. repeat split; try tauto.
  apply matches_alt_inv in Hp as [Hp|Hp].
  - apply matches_lit_inv in Hp as ->. right. reflexivity.
  - apply matches_eps_inv in Hp as ->. left. reflexivity.
Qed.

End Languages.

(* ===================================================================== *)
(** * The numeric conversions on well-formed tokens                       *)
(* ===================================================================== *)

Section NumberLiterals.

Lemma digit_not_space (c : N) : is_digit c = true -> is_space c = false.
Proof. unfold is_digit, is_space, in_range. bool_to_prop. lia. Qed.

Lemma digit_is_not (c k : N) :
  is_digit c = true -> (k < 48 \/ 57 < k)%N -> (c =? k)%N = false.
Proof. unfold is_digit, in_range. bool_to_prop. lia. Qed.

Lemma digit_value_nonneg (c : N) : is_digit c = true -> (0 <= digit_value c)%Z.
Proof.
  intros H. unfold digit_value. rewrite H. revert H.
  unfold is_digit, in_range. bool_to_prop. lia.
Qed.

Lemma fold_digits_nonneg (s : jsstr) (acc : Z) :
  forallb is_digit s = true -> (0 <= acc)%Z ->
  (0 <= fold_left (fun a c => a * 10 + digit_value c) s acc)%Z.
Proof.
  revert acc. induction s as [|c s IH]; intros acc Hs Hacc; [exact Hacc|].
  cbn [forallb] in Hs. apply andb_true_iff in Hs as [Hc Hs].
  cbn [fold_left]. apply IH; [exact Hs|].
  pose proof (digit_value_nonneg c Hc). lia.
Qed.

Lemma digits_value_nonneg (s : jsstr) :
  forallb is_digit s = true -> (0 <= digits_value 10 s)%Z.
Proof. intros H. apply fold_digits_nonneg; [exact H | lia]. Qed.

Lemma forallb_last {A} (p : A -> bool) (l : list A) (x : A) :
  last l = Some x -> forallb p l = true -> p x = true.
Proof.
  intros Hl H. apply last_Some in Hl as [l' ->]. rewrite forallb_app in H.
  apply andb_true_iff in H as [_ H]. cbn in H. rewrite andb_true_r in H.
  exact H.
Qed.

Lemma forallb_impl {A} (p q : A -> bool) (l : list A) :
  (forall x, p x = true -> q x = true) ->
  forallb p l = true -> forallb q l = true.
Proof.
  intros Hpq. induction l as [|x l IH]; [reflexivity|]. cbn.
  rewrite !andb_true_iff. intros [Hx Hl]. auto.
Qed.

Lemma trim_id (w : jsstr) :
  (forall c, head w = Some c -> is_space c = false) ->
  (forall c, last w = Some c -> is_space c = false) ->
  trim w = w.
Proof.
  intros Hh Hl. unfold trim, trimStart, trimEnd.
  rewrite (drop_while_id is_space w Hh). apply rstrip_id, Hl.
Qed.

Lemma span_app (p : N -> bool) (a rest : jsstr) :
  forallb p a = true -> (forall c, head rest = Some c -> p c = false) ->
  span p (a ++ rest) = (a, rest).
Proof.
  intros Ha Hr. induction a as [|x a IH].
  - destruct rest as [|c r]; [reflexivity|]. cbn.
    rewrite (Hr c eq_refl). reflexivity.
  - cbn [forallb] in Ha. apply andb_true_iff in Ha as [Hx Ha].
    cbn. rewrite Hx, (IH Ha). reflexivity.
Qed.

Lemma span_all (p : N -> bool) (a : jsstr) :
  forallb p a = true -> span p a = (a, []).
Proof.
  intros H. rewrite <- (app_nil_r a) at 1. apply span_app; [exact H|].
  discriminate.
Qed.

Lemma unsigned_decimal_literal (ip tail : jsstr) :
  digit_string ip -> literal_tail tail ->
  unsigned_decimal (ip ++ tail)
  = Some (Qred (literal_value ip tail * Qpower 10 0)).
Proof.
  intros [Hne Hd] Ht. unfold unsigned_decimal, literal_value.
  rewrite (span_app is_digit ip tail Hd).
  2:{ destruct Ht as [->|(fp & -> & _)]; [discriminate|].
      intros c [= <-]. reflexivity. }
  assert ((match tail with
           | c :: r => if (c =? 46)%N then span is_digit r else ([], tail)
           | [] => ([], tail)
           end) = (drop 1 tail, [])) as ->.
  { destruct Ht as [->|(fp & -> & Hf)]; [reflexivity|].
    rewrite N.eqb_refl, (span_all _ _ Hf). reflexivity. }
  destruct ip as [|c ip]; [congruence|]. reflexivity.
Qed.

Lemma literal_value_nonneg (ip tail : jsstr) :
  digit_string ip -> literal_tail tail -> (0 <= literal_value ip tail)%Q.
Proof.
  intros [_ Hd] Ht. unfold literal_value.
  assert (forallb is_digit (drop 1 tail) = true) as Hf
    by (destruct Ht as [->|(fp & -> & Hf)]; [reflexivity | exact Hf]).
  pose proof (digits_value_nonneg _ Hd) as H1.
  pose proof (digits_value_nonneg _ Hf) as H2.
  rewrite Zle_Qle in H1, H2. change (inject_Z 0) with 0%Q in H1, H2.
  assert (0 <= inject_Z (digits_value 10 (drop 1 tail))
               / inject_Z (10 ^ Z.of_nat (length (drop 1 tail))))%Q.
  { apply Qle_shift_div_l.
    - change 0%Q with (inject_Z 0). rewrite <- Zlt_Qlt.
      apply Z.pow_pos_nonneg; lia.
    - rewrite Qmult_0_l. exact H2. }
  lra.
Qed.

(** [Number] of a captured number token is the value of the numeral. *)
Lemma Number_literal_value (ip tail : jsstr) :
  digit_string ip -> literal_tail tail ->
  Number (ip ++ tail) = Fin (Qred (literal_value ip tail)).
Proof.
  intros Hip Ht.
  pose proof (unsigned_decimal_literal ip tail Hip Ht) as Hq.
  destruct Hip as [Hne Hd]. destruct ip as [|c ip]; [congruence|].
  cbn [forallb] in Hd. apply andb_true_iff in Hd as [Hc Hd].
  unfold Number. rewrite trim_id.
  - cbn [app]. cbn [app] in Hq.
    assert (non_decimal (c :: ip ++ tail) = None) as ->.
    { unfold non_decimal. destruct (ip ++ tail) as [|p ds] eqn:E;
        [reflexivity|].
      destruct (c =? 48)%N; [|reflexivity]. cbn [negb].
      assert (is_digit p = true \/ p = 46%N) as Hp.
      { destruct ip as [|p' ip].
        - destruct Ht as [->|(fp & -> & _)]; [discriminate|].
          injection E as <- _. right. reflexivity.
        - injection E as <- _. cbn [forallb] in Hd.
          apply andb_true_iff in Hd as [Hp _]. left. exact Hp. }
      assert ((p =? 120) || (p =? 88) = false)%N as ->.
      { destruct Hp as [Hp| ->]; [|reflexivity].
        rewrite !(digit_is_not p) by (auto; lia). reflexivity. }
      assert ((p =? 111) || (p =? 79) = false)%N as ->.
      { destruct Hp as [Hp| ->]; [|reflexivity].
        rewrite !(digit_is_not p) by (auto; lia). reflexivity. }
      assert ((p =? 98) || (p =? 66) = false)%N as ->.
      { destruct Hp as [Hp| ->]; [|reflexivity].
        rewrite !(digit_is_not p) by (auto; lia). reflexivity. }
      reflexivity. }
    rewrite !(digit_is_not c) by (auto; lia).
    rewrite bool_decide_eq_false_2.
    + rewrite Hq. f_equal. apply Qred_complete.
      change (Qpower 10 0) with 1%Q. apply Qmult_1_r.
    + intros Heq. injection Heq as -> _. discriminate Hc.
  - cbn [app head]. intros c' [= <-]. apply digit_not_space, Hc.
  - intros c' Hl. apply negb_true_iff.
    apply (forallb_last (fun x => negb (is_space x)) _ _ Hl).
    rewrite forallb_app. apply andb_true_iff. split.
    + apply (forallb_impl is_digit); [|cbn; rewrite Hc, Hd; reflexivity].
      intros x Hx. rewrite (digit_not_space x Hx). reflexivity.
    + destruct Ht as [->|(fp & -> & Hf)]; [reflexivity|].
      cbn [forallb]. apply andb_true_iff. split; [reflexivity|].
      apply (forallb_impl is_digit); [|exact Hf].
      intros x Hx. rewrite (digit_not_space x Hx). reflexivity.
Qed.

(** [Number] of a captured number token is finite and not negative. *)
Lemma Number_literal (ip tail : jsstr) :
  digit_string ip -> literal_tail tail ->
  finite_nonneg (Number (ip ++ tail)).
Proof.
  intros Hip Ht. rewrite (Number_literal_value ip tail Hip Ht).
  eexists. split; [reflexivity|]. rewrite Qred_correct.
  apply literal_value_nonneg; assumption.
Qed.

Lemma Qred_inject_Z (z : Z) : Qred (inject_Z z) = inject_Z z.
Proof.
  unfold Qred, inject_Z. pose proof (Z.ggcd_gcd z 1) as Hg.
  pose proof (Z.ggcd_correct_divisors z 1) as Hd.
  destruct (Z.ggcd z 1) as [g [aa bb]]. cbn [fst snd] in *.
  rewrite Z.gcd_1_r in Hg. subst g. destruct Hd as [H1 H2].
  replace aa with z by lia. replace bb with 1%Z by lia. reflexivity.
Qed.

(** [Number] of a digit string is the integer it denotes. *)
Lemma Number_digits_value (ds : jsstr) :
  digit_string ds -> Number ds = of_Z (digits_value 10 ds).
Proof.
  intros H. rewrite <- (app_nil_r ds) at 1.
  rewrite (Number_literal_value ds []) by (auto; left; reflexivity).
  unfold of_Z. rewrite <- Qred_inject_Z. f_equal. apply Qred_complete.
  unfold literal_value. cbn [drop length digits_value fold_left].
  change (inject_Z 0 / inject_Z (10 ^ Z.of_nat 0))%Q with 0%Q.
  apply Qplus_0_r.
Qed.

Lemma Number_digits (ds : jsstr) :
  digit_string ds -> finite_nonneg (Number ds).
Proof.
  intros H. rewrite <- (app_nil_r ds). apply Number_literal; [exact H|].
  left. reflexivity.
Qed.

End NumberLiterals.

Section TimeTokens.

Lemma split_char_go_none (c : N) (s cur : jsstr) :
  forallb (fun x => negb (x =? c)%N) s = true ->
  split_char_go c s cur = [reverse cur ++ s].
Proof.
  revert cur. induction s as [|x s IH]; intros cur H.
  - cbn. rewrite app_nil_r. reflexivity.
  - cbn [forallb] in H. apply andb_true_iff in H as [Hx Hs].
    apply negb_true_iff in Hx. cbn [split_char_go]. rewrite Hx, (IH _ Hs).
    rewrite reverse_cons, <- app_assoc. reflexivity.
Qed.

Lemma split_char_go_sep (c : N) (a rest cur : jsstr) :
  forallb (fun x => negb (x =? c)%N) a = true ->
  split_char_go c (a ++ [c] ++ rest) cur
  = (reverse cur ++ a) :: split_char_go c rest [].
Proof.
  revert cur. induction a as [|x a IH]; intros cur H.
  - cbn. rewrite N.eqb_refl, app_nil_r. reflexivity.
  - cbn [forallb] in H. apply andb_true_iff in H as [Hx Hs].
    apply negb_true_iff in Hx. cbn [app split_char_go]. rewrite Hx.
    rewrite (IH _ Hs), reverse_cons, <- app_assoc. reflexivity.
Qed.

Lemma split_char_none (c : N) (s : jsstr) :
  forallb (fun x => negb (x =? c)%N) s = true -> split_char c s = [s].
Proof. apply split_char_go_none. Qed.

Lemma split_char_sep (c : N) (a rest : jsstr) :
  forallb (fun x => negb (x =? c)%N) a = true ->
  split_char c (a ++ [c] ++ rest) = a :: split_char c rest.
Proof. apply split_char_go_sep. Qed.

Lemma digits_without (k : N) (ds : jsstr) :
  (k < 48 \/ 57 < k)%N -> forallb is_digit ds = true ->
  forallb (fun x => negb (x =? k)%N) ds = true.
Proof.
  intros Hk. apply forallb_impl. intros x Hx.
  rewrite (digit_is_not x k Hx Hk). reflexivity.
Qed.

End TimeTokens.

Section TimeValues.

Lemma num_add_of_Z (a b : Z) : num_add (of_Z a) (of_Z b) = of_Z (a + b).
Proof.
  unfold of_Z. cbn [num_add]. rewrite <- (Qred_inject_Z (a + b)).
  apply (f_equal Fin), Qred_complete. rewrite inject_Z_plus. reflexivity.
Qed.

Lemma num_mul_of_Z (a b : Z) : num_mul (of_Z a) (of_Z b) = of_Z (a * b).
Proof.
  unfold of_Z. cbn [num_mul]. rewrite <- (Qred_inject_Z (a * b)).
  apply (f_equal Fin), Qred_complete. rewrite inject_Z_mult. reflexivity.
Qed.

(** "HH:MM:SS" is HH*3600 + MM*60 + SS. *)
Lemma hhmmss_value (a b c : jsstr) :
  digit_string a -> digit_string b -> digit_string c ->
  hhmmssToSeconds (a ++ [58%N] ++ b ++ [58%N] ++ c)
  = of_Z (digits_value 10 a * 3600 + digits_value 10 b * 60
          + digits_value 10 c).
Proof.
  intros Ha Hb Hc. unfold hhmmssToSeconds.
  rewrite split_char_sep by (apply digits_without; [lia | apply Ha]).
  rewrite split_char_sep by (apply digits_without; [lia | apply Hb]).
  rewrite split_char_none by (apply digits_without; [lia | apply Hc]).
  cbn [map nth]. rewrite !Number_digits_value by assumption.
  rewrite !num_mul_of_Z, !num_add_of_Z. reflexivity.
Qed.

(** "M:SS" is M*60 + SS. *)
Lemma simple_value (a b : jsstr) :
  digit_string a -> digit_string b ->
  simpleToSeconds (a ++ [58%N] ++ b)
  = of_Z (digits_value 10 a * 60 + digits_value 10 b).
Proof.
  intros Ha Hb. unfold simpleToSeconds.
  rewrite split_char_sep by (apply digits_without; [lia | apply Ha]).
  rewrite split_char_none by (apply digits_without; [lia | apply Hb]).
  cbn [map nth]. rewrite !Number_digits_value by assumption.
  rewrite num_mul_of_Z, num_add_of_Z. reflexivity.
Qed.

End TimeValues.

(* ===================================================================== *)
(** * The file names of extracted clips                                   *)
(* ===================================================================== *)

Section ClipFileNames.

Variable normalize : jsstr -> jsstr.

Lemma clip_filename_index (i : nat) (seg : entry) :
  filename_index (clip_filename normalize i seg) = Z.of_nat (i + 1).
Proof.
  unfold filename_index, clip_filename.
  rewrite drop_app_length' by reflexivity.
  rewrite span_app.
  - cbn [fst]. rewrite padStart0_value, String_of_N_value. lia.
  - apply padStart0_digits, uint_digits_are_digits.
  - intros c [= <-]. reflexivity.
Qed.

Lemma clip_filename_not_manifest (i : nat) (seg : entry) :
  clip_filename normalize i seg <> js "metadata.txt".
Proof. intros H. apply (f_equal head) in H. discriminate H. Qed.

Lemma clips_from_numbered (y : list num) (sr : Z) (segs : list Segment)
    (i : nat) :
  Forall (fun c => (Z.of_nat i < filename_index (filename c))%Z
                   /\ filename c <> js "metadata.txt")
         (clips_from normalize y sr i segs).
Proof.
  revert i. induction segs as [|s segs IH]; intros i; [constructor|].
  cbn [clips_from]. apply Forall_app. split.
  - unfold clips_of. destruct (_ <=? _)%Z; constructor; [|constructor].
    cbn [filename]. rewrite clip_filename_index.
    split; [lia | apply clip_filename_not_manifest].
  - eapply Forall_impl; [apply (IH (S i))|]. cbn beta.
    intros c [H1 H2]. split; [lia | exact H2].
Qed.

(** The clips of a run have pairwise distinct file names, none of which
    is the name of the manifest. *)
Lemma clips_from_distinct (y : list num) (sr : Z) (segs : list Segment)
    (i : nat) :
  NoDup (map filename (clips_from normalize y sr i segs))
  /\ js "metadata.txt" ∉ map filename (clips_from normalize y sr i segs).
Proof.
  split.
  - revert i. induction segs as [|s segs IH]; intros i; [constructor|].
    cbn [clips_from]. rewrite map_app. apply NoDup_app.
    split; [|split; [|apply IH]].
    + unfold clips_of. destruct (_ <=? _)%Z; cbn [map];
        [constructor | apply NoDup_singleton].
    + intros f Hf Hf'. unfold clips_of in Hf.
      destruct (_ <=? _)%Z; cbn [map] in Hf; [inversion Hf|].
      apply list_elem_of_singleton in Hf. subst f.
      apply list_elem_of_In, in_map_iff in Hf' as (c & Hc & Hin).
      pose proof (clips_from_numbered y sr segs (S i)) as Hall.
      rewrite Forall_forall in Hall. apply list_elem_of_In in Hin.
      destruct (Hall c Hin) as [Hlt _]. rewrite Hc in Hlt.
      cbn [filename] in Hlt. rewrite clip_filename_index in Hlt. lia.
  - intros Hin. apply list_elem_of_In, in_map_iff in Hin as (c & Hc & Hin).
    pose proof (clips_from_numbered y sr segs i) as Hall.
    rewrite Forall_forall in Hall. apply list_elem_of_In in Hin.
    destruct (Hall c Hin) as [_ Hne]. exact (Hne Hc).
Qed.

End ClipFileNames.

(** An object without [end] (a later entry of a mixed pass-through
    sequence) is not skipped: its end index is NaN, which compares false,
    and [slice] reads NaN as 0, so it gives a clip with no samples and a
    NaN duration. *)
Lemma clip_of_object_without_end :
  extractSegments nfkd_latin1 [Fin 0; Fin 0; Fin 0; Fin 0] (of_Z 2)
    [mkEntry (of_Z 1) None (js "ab")]
  = Some ([mkClip (js "segment_001_ab.wav") (wav_header 0 (of_Z 2)) (js "ab")
                  (of_Z 1) None NaN], []).
Proof. vm_compute. reflexivity. Qed.

(* ===================================================================== *)
(** * The names [safeFilename] returns                                    *)
(* ===================================================================== *)

Section SanitizedNames.

Lemma tidy_no_double (s : jsstr) (b : bool) (i : nat) :
  tidy b s = true -> s !! i = Some 95%N -> s !! S i = Some 95%N -> False.
Proof.
  revert b i. induction s as [|c s IH]; intros b i Ht Hi Hj; [discriminate|].
  cbn [tidy] in Ht. destruct i as [|i].
  - cbn in Hi, Hj. injection Hi as ->.
    change (is_separator 95) with true in Ht. cbn match in Ht.
    apply andb_true_iff in Ht as [_ Ht].
    destruct s as [|d s]; [discriminate|]. cbn in Hj. injection Hj as ->.
    cbn in Ht. discriminate Ht.
  - cbn in Hi, Hj. destruct (is_separator c).
    + apply andb_true_iff in Ht as [_ Ht]. exact (IH true i Ht Hi Hj).
    + exact (IH false i Ht Hi Hj).
Qed.

(** X1.  Whatever the text and whatever the platform's normalization,
    [safeFilename] returns between 2 and 25 characters, all of them ASCII
    letters, digits, underscores or periods; the name does not begin with
    an underscore or a period and never has two underscores in a row.  In
    particular it holds no path separator, no space and no control
    character. *)
Theorem safeFilename_result (normalize : jsstr -> jsstr) (t : jsstr) :
  let o := safeFilename normalize t in
  (2 <= length o <= 25)%nat
  /\ (forall c, c ∈ o -> is_word c = true \/ c = 46%N)
  /\ (forall c, head o = Some c -> c <> 95%N /\ c <> 46%N)
  /\ (forall i, o !! i = Some 95%N -> o !! S i <> Some 95%N).
Proof.
  cbv zeta. destruct (safeFilename_shape normalize t) as (Hc & Ht & Hh & Hl).
  split; [exact Hl|]. split; [|split].
  - intros c Hin. rewrite forallb_forall in Hc.
    apply list_elem_of_In, Hc in Hin. unfold is_name_char in Hin.
    apply orb_true_iff in Hin as [H|H]; [left; exact H|].
    right. apply N.eqb_eq, H.
  - intros c H. specialize (Hh c H). unfold is_edge in Hh.
    apply orb_false_iff in Hh as [H1 H2].
    split; apply N.eqb_neq; assumption.
  - intros i Hi Hj. exact (tidy_no_double _ false i Ht Hi Hj).
Qed.

End SanitizedNames.

(* ===================================================================== *)
(** * The extraction loop on arbitrary objects                            *)
(* ===================================================================== *)

Section ExtractionLoop.

Variable normalize : jsstr -> jsstr.
Variables (y : list num) (sr : num).

(** A loop invariant [I i out logged] that every iteration keeps holds
    when the loop ends, and the loop always ends normally. *)
Lemma extract_loop_invariant (I : nat -> list clip -> list jsstr -> Prop)
    (all : list entry) (segs : list entry) (i : nat)
    (out : list clip) (logged : list jsstr) :
  drop i all = segs ->
  I i out logged ->
  (forall j seg out logged,
      all !! j = Some seg -> I j out logged ->
      if is_skipped y sr seg
      then I (S j) out (logged ++ [skip_message j])
      else I (S j) (out ++ [pushed_clip normalize y sr j seg]) logged) ->
  exists out' logged',
    extract_loop normalize y sr segs i out logged = Some (out', logged')
    /\ I (length all `max` i) out' logged'.
Proof.
  intros Hd HI Hstep. revert i out logged Hd HI.
  induction segs as [|seg segs IH]; intros i out logged Hd HI.
  - exists out, logged. split; [reflexivity|].
    apply (f_equal length) in Hd. rewrite length_drop in Hd. cbn in Hd.
    replace (length all `max` i)%nat with i by lia. exact HI.
  - assert (all !! i = Some seg) as Hi.
    { rewrite <- (Nat.add_0_r i), <- lookup_drop, Hd. reflexivity. }
    assert (drop (S i) all = segs) as Hd'.
    { rewrite (drop_S _ _ _ Hi) in Hd. congruence. }
    specialize (Hstep i seg out logged Hi HI). cbn [extract_loop].
    unfold is_skipped in Hstep. destruct (num_le _ _).
    + destruct (IH (S i) out _ Hd' Hstep) as (o & l & E & H).
      exists o, l. split; [exact E|].
      apply lookup_lt_Some in Hi.
      replace (length all `max` i)%nat with (length all `max` S i)%nat by lia.
      exact H.
    + rewrite encodeWAV_layout. cbn [mbind option_bind].
      destruct (IH (S i) _ logged Hd' Hstep) as (o & l & E & H).
      exists o, l. split; [exact E|].
      apply lookup_lt_Some in Hi.
      replace (length all `max` i)%nat with (length all `max` S i)%nat by lia.
      exact H.
Qed.

Lemma extractSegments_invariant (I : nat -> list clip -> list jsstr -> Prop)
    (segments : list entry) :
  I 0%nat [] [] ->
  (forall j seg out logged,
      segments !! j = Some seg -> I j out logged ->
      if is_skipped y sr seg
      then I (S j) out (logged ++ [skip_message j])
      else I (S j) (out ++ [pushed_clip normalize y sr j seg]) logged) ->
  exists clips logged,
    extractSegments normalize y sr segments = Some (clips, logged)
    /\ I (length segments) clips logged.
Proof.
  intros H0 Hstep.
  destruct (extract_loop_invariant I segments segments 0 [] []
              eq_refl H0 Hstep) as (o & l & E & H).
  exists o, l. split; [exact E|]. rewrite Nat.max_0_r in H. exact H.
Qed.

(** X2.  Every object handed to [extractSegments] is accounted for exactly
    once, whatever the objects, the buffer and the rate: the number of
    clips returned plus the number of "Skipped invalid timing" lines
    logged is the number of objects. *)
Theorem extractSegments_accounts_for_all (segments : list entry) :
  exists clips logged,
    extractSegments normalize y sr segments = Some (clips, logged)
    /\ (length clips + length logged = length segments)%nat.
Proof.
  apply (extractSegments_invariant
           (fun i out logged => (length out + length logged = i)%nat)).
  - reflexivity.
  - intros j seg out logged _ H. destruct (is_skipped _ _ _);
      rewrite length_app; cbn [length]; lia.
Qed.

Lemma name_chars_app (a b : jsstr) :
  forallb is_name_char (a ++ b)
  = forallb is_name_char a && forallb is_name_char b.
Proof. apply forallb_app. Qed.

Lemma digits_name_chars (w : jsstr) :
  forallb is_digit w = true -> forallb is_name_char w = true.
Proof.
  induction w as [|c w IH]; [reflexivity|]. cbn [forallb].
  rewrite !andb_true_iff. intros [Hc Hw]. split; [|auto].
  unfold is_name_char, is_word. rewrite Hc, !orb_true_r. reflexivity.
Qed.

Lemma clip_filename_chars (i : nat) (seg : entry) :
  forallb is_name_char (clip_filename normalize i seg) = true.
Proof.
  unfold clip_filename, String_of_N. rewrite !name_chars_app.
  destruct (safeFilename_shape normalize (slice0 30 (text seg))) as (Hc & _).
  rewrite Hc, (digits_name_chars _ (padStart0_digits 3 _
                                      (uint_digits_are_digits _))).
  reflexivity.
Qed.

(** X3.  The file names of the clips of one run are pairwise distinct
    and made of ASCII letters, digits, underscores and periods only, and
    none of them is the name of the manifest; this holds for every list of
    objects, every buffer and every rate. *)
Theorem extractSegments_file_names (segments : list entry) :
  exists clips logged,
    extractSegments normalize y sr segments = Some (clips, logged)
    /\ NoDup (map filename clips)
    /\ Forall (fun c => forallb is_name_char (filename c) = true
                        /\ filename c <> js "metadata.txt") clips.
Proof.
  destruct (extractSegments_invariant
              (fun i out _ =>
                 NoDup (map filename out)
                 /\ Forall (fun c =>
                      forallb is_name_char (filename c) = true
                      /\ filename c <> js "metadata.txt"
                      /\ (filename_index (filename c) <= Z.of_nat i)%Z) out)
              segments) as (clips & logged & E & Hn & Hall).
  - split; constructor.
  - intros j seg out logged _ [Hn Hall]. destruct (is_skipped _ _ _).
    + split; [exact Hn|]. eapply Forall_impl; [exact Hall|]. cbn beta.
      intros c (H1 & H2 & H3). repeat split; [exact H1 | exact H2 | lia].
    + split.
      * rewrite map_app. apply NoDup_app. split; [exact Hn|].
        split; [|apply NoDup_singleton].
        intros f Hf Hf'. cbn [map pushed_clip filename] in Hf'.
        apply list_elem_of_singleton in Hf'.
        apply list_elem_of_In, in_map_iff in Hf as (c & Hc & Hin).
        rewrite Forall_forall in Hall. apply list_elem_of_In in Hin.
        destruct (Hall c Hin) as (_ & _ & Hle). rewrite Hc, Hf' in Hle.
        rewrite clip_filename_index in Hle. lia.
      * apply Forall_app. split.
        -- eapply Forall_impl; [exact Hall|]. cbn beta.
           intros c (H1 & H2 & H3). repeat split; [exact H1 | exact H2 | lia].
        -- constructor; [|constructor]. cbn [pushed_clip filename].
           rewrite clip_filename_index.
           repeat split;
             [apply clip_filename_chars | apply clip_filename_not_manifest
             | lia].
  - exists clips, logged. split; [exact E|]. split; [exact Hn|].
    eapply Forall_impl; [exact Hall|]. cbn beta.
    intros c (H1 & H2 & _). split; assumption.
Qed.

End ExtractionLoop.

(* ===================================================================== *)
(** * Objects without an end                                              *)
(* ===================================================================== *)

Section OpenEnded.

Variable normalize : jsstr -> jsstr.
Variables (y : list num) (sr : num).

Lemma end_index_undefined (seg : entry) :
  end_ seg = None -> end_index (length y) sr seg = NaN.
Proof.
  intros E. unfold end_index. rewrite E. cbn [to_num].
  destruct sr; reflexivity.
Qed.

Lemma open_ended_not_skipped (seg : entry) :
  end_ seg = None -> is_skipped y sr seg = false.
Proof.
  intros E. unfold is_skipped. rewrite (end_index_undefined seg E).
  reflexivity.
Qed.

Lemma open_ended_pushed (i : nat) (seg : entry) :
  end_ seg = None ->
  pushed_clip normalize y sr i seg
  = mkClip (clip_filename normalize i seg) (wav_header 0 sr) (text seg)
           (start seg) None NaN.
Proof.
  intros E. unfold pushed_clip. rewrite (end_index_undefined seg E), E.
  unfold slice. cbn [relative_index Nat.sub take length Nat.mul pcm_data
                     flat_map to_num].
  rewrite app_nil_r. f_equal.
Qed.

(** X4.  An object without [end] is never skipped: its end index is NaN,
    which fails the test [end <= start], and [slice] reads NaN as 0.  At
    whatever position it stands, whatever its start, the buffer and the
    rate, it gives a clip whose container is the bare 44-byte header (no
    sample) and whose duration is NaN. *)
Theorem open_ended_object_clip (segments : list entry) (j : nat)
    (seg : entry) :
  segments !! j = Some seg -> end_ seg = None ->
  exists clips logged,
    extractSegments normalize y sr segments = Some (clips, logged)
    /\ mkClip (clip_filename normalize j seg) (wav_header 0 sr) (text seg)
              (start seg) None NaN ∈ clips
    /\ length (wav_header 0 sr) = 44%nat.
Proof.
  intros Hj E.
  destruct (extractSegments_invariant normalize y sr
              (fun i out _ =>
                 (j < i)%nat ->
                 mkClip (clip_filename normalize j seg) (wav_header 0 sr)
                        (text seg) (start seg) None NaN ∈ out)
              segments) as (clips & logged & Hx & H).
  - lia.
  - intros k s out logged Hk IH. destruct (decide (k = j)) as [->|Hne].
    + rewrite Hj in Hk. injection Hk as <-.
      rewrite (open_ended_not_skipped seg E). intros _.
      rewrite (open_ended_pushed j seg E).
      apply elem_of_app. right. apply list_elem_of_singleton. reflexivity.
    + destruct (is_skipped _ _ _); intros Hlt.
      * apply IH. lia.
      * apply elem_of_app. left. apply IH. lia.
  - exists clips, logged. split; [exact Hx|]. split.
    + apply H. eapply lookup_lt_Some, Hj.
    + apply length_wav_header.
Qed.

End OpenEnded.

(** The second line of a transcript whose first line gives a range is
    passed through without an end, and gives an empty clip. *)
Lemma open_ended_object_clip_witness :
  exists clips logged,
    extractSegments nfkd_latin1 (replicate 40 (Fin 0)) (of_Z 2)
      (parseTranscriptFile (line2 "[00:00:01 - 00:00:02] a" "[00:05] b"))
    = Some (clips, logged)
    /\ mkClip (js "segment_002_audio_segment.wav") (wav_header 0 (of_Z 2))
              (js "b") (of_Z 5) None NaN ∈ clips
    /\ length (wav_header 0 (of_Z 2)) = 44%nat.
Proof.
  apply (open_ended_object_clip nfkd_latin1 (replicate 40 (Fin 0)) (of_Z 2)
           (parseTranscriptFile (line2 "[00:00:01 - 00:00:02] a" "[00:05] b"))
           1 (mkEntry (of_Z 5) None (js "b")));
    vm_compute; reflexivity.
Defined.

(* ===================================================================== *)
(** * Archives of clips without an end                                    *)
(* ===================================================================== *)

Section OpenEndedArchive.

Variable toString : Q -> jsstr.

Lemma add_files_throws (files : list clip) (idx : nat)
    (zip : gmap jsstr content) (meta : jsstr) :
  (exists f, f ∈ files /\ end_time f = None) ->
  add_files toString files idx zip meta = None.
Proof.
  revert idx zip meta.
  induction files as [|f files IH]; intros idx zip meta (g & Hin & E).
  - inversion Hin.
  - cbn [add_files]. unfold manifest_entry.
    destruct (end_time f) as [e|] eqn:Ef; [|reflexivity].
    cbn [mbind option_bind]. apply IH. exists g. split; [|exact E].
    apply elem_of_cons in Hin as [->|Hin]; [congruence | exact Hin].
Qed.

(** X5.  [makeZip] gives no archive for a list that holds a clip without
    [end_time]: formatting the manifest entry of that clip reads [toFixed]
    off [undefined] and throws, wherever the clip stands in the list. *)
Theorem makeZip_throws_without_end (files : list clip) (f : clip) :
  f ∈ files -> end_time f = None -> makeZip toString files = None.
Proof.
  intros Hin E. unfold makeZip.
  rewrite add_files_throws by (exists f; split; assumption). reflexivity.
Qed.

End OpenEndedArchive.

(** The clips extracted from a transcript that mixes a range line with a
    start-only line cannot be archived. *)
Lemma makeZip_throws_without_end_witness :
  exists clips logged,
    extractSegments nfkd_latin1 (replicate 40 (Fin 0)) (of_Z 2)
      (parseTranscriptFile (line2 "[00:00:01 - 00:00:02] a" "[00:05] b"))
    = Some (clips, logged)
    /\ makeZip no_exponent clips = None.
Proof.
  eexists _, _. split; [vm_compute; reflexivity|].
  apply (makeZip_throws_without_end no_exponent _
           (mkClip (js "segment_002_audio_segment.wav")
                   (wav_header 0 (of_Z 2)) (js "b") (of_Z 5) None NaN)).
  - vm_compute. apply list_elem_of_In. right. left. reflexivity.
  - reflexivity.
Defined.

(* ===================================================================== *)
(** * What an extracted clip holds                                        *)
(* ===================================================================== *)

Section ClipContents.

Variable normalize : jsstr -> jsstr.
Variables (y : list num) (sr : Z).
Hypothesis rate_positive : (0 < sr)%Z.

Lemma length_sample_range {A} (l : list A) (a b : Z) :
  (0 <= a)%Z -> (a <= b <= Z.of_nat (length l))%Z ->
  Z.of_nat (length (sample_range l a b)) = (b - a)%Z.
Proof.
  intros Ha Hb. unfold sample_range. rewrite length_take, length_drop. lia.
Qed.





End ClipContents.


(* ===================================================================== *)
(** * The archive of an extraction                                        *)
(* ===================================================================== *)

Section ExtractionArchive.

Variable toString : Q -> jsstr.
Variable normalize : jsstr -> jsstr.
Variables (y : list num) (sr : Z).

(** The clips of segments are objects with numeric times. *)
Lemma clips_from_objects (i : nat) (segs : list Segment) :
  exists cs, clips_from normalize y sr i segs = map clip_obj cs.
Proof.
  revert i. induction segs as [|s segs IH]; intros i.
  - exists []. reflexivity.
  - destruct (IH (S i)) as [cs E]. cbn [clips_from]. rewrite E.
    unfold clips_of. destruct (_ <=? _)%Z.
    + exists cs. reflexivity.
    + eexists (mkClipData _ _ _ _ _ _ :: cs). reflexivity.
Qed.

Lemma size_add_clips (clips : list Clip) (zip : gmap jsstr content) :
  NoDup (map c_filename clips) ->
  (forall c, c ∈ clips -> zip !! c_filename c = None) ->
  size (add_clips zip clips) = (size zip + length clips)%nat.
Proof.
  revert zip. induction clips as [|c clips IH]; intros zip Hnd Hnew.
  - cbn. lia.
  - cbn [map] in Hnd. apply NoDup_cons in Hnd as [Hnot Hnd].
    change (add_clips zip (c :: clips))
      with (add_clips (zip_file (c_filename c) (Binary (c_bytes c)) zip)
                      clips).
    rewrite IH; [|exact Hnd|].
    + unfold zip_file. rewrite map_size_insert_None.
      * cbn [length]. lia.
      * apply Hnew. left.
    + intros c' Hin. unfold zip_file. rewrite lookup_insert_ne.
      * apply Hnew. right. exact Hin.
      * intros Heq. apply Hnot. rewrite Heq.
        apply list_elem_of_In, in_map, list_elem_of_In, Hin.
Qed.

(** X8.  Extraction followed by archiving loses nothing: for every list
    of segments, every buffer and every integer rate, [makeZip] succeeds
    on the clips [extractSegments] returns, the archive holds each clip's
    container under the clip's own file name, next to the manifest, and
    it has exactly one file per clip plus the manifest (no clip replaces
    another one or the manifest). *)
Theorem extraction_archive_complete (segs : list Segment) :
  exists clips logged zip,
    extractSegments normalize y (of_Z sr) (map entry_of segs)
    = Some (clips, logged)
    /\ makeZip toString clips = Some zip
    /\ (forall c, c ∈ clips -> zip !! filename c = Some (Binary (blob c)))
    /\ (exists meta, zip !! js "metadata.txt" = Some (Text meta))
    /\ size zip = S (length clips).
Proof.
  destruct (clips_from_objects 0 segs) as [cs E].
  destruct (clips_from_distinct normalize y sr segs 0) as [Hnd Hmeta].
  rewrite E in Hnd, Hmeta.
  assert (map filename (map clip_obj cs) = map c_filename cs) as Hnames
    by (rewrite map_map; reflexivity).
  rewrite Hnames in Hnd, Hmeta.
  eexists _, _, _. split; [apply extractSegments_clips|]. rewrite E.
  unfold makeZip. rewrite add_files_spec. cbn [mbind option_bind].
  split; [reflexivity|]. split; [|split].
  - intros c Hin. apply list_elem_of_In, in_map_iff in Hin as (c0 & <- & Hin).
    apply list_elem_of_In in Hin. cbn [clip_obj filename blob].
    unfold zip_file at 1. rewrite lookup_insert_ne.
    + apply lookup_add_clips; assumption.
    + intros Heq. apply Hmeta. rewrite Heq.
      apply list_elem_of_In, in_map, list_elem_of_In, Hin.
  - eexists. apply lookup_insert_eq.
  - unfold zip_file at 1. rewrite map_size_insert_None.
    + rewrite size_add_clips; [|exact Hnd|intros; apply lookup_empty].
      rewrite map_size_empty, length_map. reflexivity.
    + rewrite lookup_add_clips_other by exact Hmeta.
      apply lookup_empty.
Qed.

End ExtractionArchive.

(* ===================================================================== *)
(** * The header [encodeWAV] writes                                       *)
(* ===================================================================== *)

Section ContainerHeader.

Lemma bytes_at (pre x post : bytes) (off n : nat) :
  length pre = off -> length x = n -> take n (drop off (pre ++ x ++ post)) = x.
Proof.
  intros <- <-. rewrite drop_app_length. apply take_app_length.
Qed.

Lemma ToUint32_nat (n : nat) :
  ToUint32 (of_nat n) = (Z.of_nat n mod 4294967296)%Z.
Proof. unfold ToUint32, to_int_mod, of_nat, of_Z. rewrite Qtrunc_Z. reflexivity. Qed.

Lemma uint32_at (pre post : bytes) (off : nat) (x : num) :
  length pre = off ->
  le_value (take 4 (drop off (pre ++ le_bytes 4 (ToUint32 x) ++ post)))
  = ToUint32 x.
Proof.
  intros H. rewrite (bytes_at pre (le_bytes 4 (ToUint32 x)) post off 4 H eq_refl).
  apply le_value_le_bytes4, ToUint32_range.
Qed.

(** X9.  [encodeWAV] never throws and always returns [44 + 2 n] bytes for
    [n] samples, whatever the samples and the rate (NaN and infinities
    included): the tags RIFF, WAVE, "fmt " and data at offsets 0, 8, 12 and
    36; the little-endian fields chunk size [36 + 2 n] and data size [2 n]
    (both modulo 2^32), format 1, one channel, the rate and the byte rate
    [2 * rate] as ToUint32 makes them integers, block align 2 and 16 bits
    per sample; and from offset 44 on the two bytes of every sample in
    order. *)
Theorem encodeWAV_header (samples : list num) (sampleRate : num) :
  exists b,
    encodeWAV samples sampleRate = Some b
    /\ length b = (44 + 2 * length samples)%nat
    /\ take 4 b = map Z.of_N (js "RIFF")
    /\ le_value (take 4 (drop 4 b))
       = (Z.of_nat (36 + 2 * length samples) mod 4294967296)%Z
    /\ take 8 (drop 8 b) = map Z.of_N (js "WAVEfmt ")
    /\ le_value (take 4 (drop 16 b)) = 16%Z
    /\ le_value (take 2 (drop 20 b)) = 1%Z
    /\ le_value (take 2 (drop 22 b)) = 1%Z
    /\ le_value (take 4 (drop 24 b)) = ToUint32 sampleRate
    /\ le_value (take 4 (drop 28 b)) = ToUint32 (num_mul sampleRate (of_Z 2))
    /\ le_value (take 2 (drop 32 b)) = 2%Z
    /\ le_value (take 2 (drop 34 b)) = 16%Z
    /\ take 4 (drop 36 b) = map Z.of_N (js "data")
    /\ le_value (take 4 (drop 40 b))
       = (Z.of_nat (2 * length samples) mod 4294967296)%Z
    /\ drop 44 b = flat_map (fun x => le_bytes 2 (pcm16 x)) samples.
Proof.
  eexists. split; [apply encodeWAV_layout|].
  replace (length samples * 2)%nat with (2 * length samples)%nat by lia.
  set (n := (2 * length samples)%nat).
  unfold wav_header, header_bytes.
  set (riff := map Z.of_N (js "RIFF")). set (wave := map Z.of_N (js "WAVE")).
  set (fmt := map Z.of_N (js "fmt ")). set (data := map Z.of_N (js "data")).
  set (f1 := le_bytes 4 (ToUint32 (of_nat (36 + n)))).
  set (f2 := le_bytes 4 16). set (f3 := le_bytes 2 1).
  set (f5 := le_bytes 4 (ToUint32 sampleRate)).
  set (f6 := le_bytes 4 (ToUint32 (num_mul sampleRate (of_Z 2)))).
  set (f7 := le_bytes 2 2). set (f8 := le_bytes 2 16).
  set (f9 := le_bytes 4 (ToUint32 (of_nat n))).
  set (pcm := pcm_data samples).
  rewrite <- !app_assoc.
  split.
  { rewrite !length_app. subst pcm. rewrite length_pcm_data.
    subst n. cbn. lia. }
  split; [reflexivity|].
  split.
  { change (take 4 (drop 4 (riff ++ f1 ++ ?t)))
      with (take 4 (drop 4 (riff ++ f1 ++ t))).
    subst f1. rewrite (uint32_at riff _ 4 _ eq_refl). apply ToUint32_nat. }
  split.
  { rewrite (app_assoc riff), (app_assoc wave fmt).
    apply bytes_at; reflexivity. }
  split.
  { rewrite (app_assoc riff), (app_assoc _ wave), (app_assoc _ fmt).
    rewrite (bytes_at _ f2 _ 16 4); reflexivity. }
  split.
  { rewrite (app_assoc riff), (app_assoc _ wave), (app_assoc _ fmt),
      (app_assoc _ f2).
    rewrite (bytes_at _ f3 _ 20 2); reflexivity. }
  split.
  { rewrite (app_assoc riff), (app_assoc _ wave), (app_assoc _ fmt),
      (app_assoc _ f2), (app_assoc _ f3).
    rewrite (bytes_at _ f3 _ 22 2); reflexivity. }
  split.
  { rewrite (app_assoc riff), (app_assoc _ wave), (app_assoc _ fmt),
      (app_assoc _ f2), (app_assoc _ f3), (app_assoc _ f3).
    subst f5. apply uint32_at. reflexivity. }
  split.
  { rewrite (app_assoc riff), (app_assoc _ wave), (app_assoc _ fmt),
      (app_assoc _ f2), (app_assoc _ f3), (app_assoc _ f3), (app_assoc _ f5).
    subst f6. apply uint32_at. reflexivity. }
  split.
  { rewrite (app_assoc riff), (app_assoc _ wave), (app_assoc _ fmt),
      (app_assoc _ f2), (app_assoc _ f3), (app_assoc _ f3), (app_assoc _ f5),
      (app_assoc _ f6).
    rewrite (bytes_at _ f7 _ 32 2); reflexivity. }
  split.
  { rewrite (app_assoc riff), (app_assoc _ wave), (app_assoc _ fmt),
      (app_assoc _ f2), (app_assoc _ f3), (app_assoc _ f3), (app_assoc _ f5),
      (app_assoc _ f6), (app_assoc _ f7).
    rewrite (bytes_at _ f8 _ 34 2); reflexivity. }
  split.
  { rewrite (app_assoc riff), (app_assoc _ wave), (app_assoc _ fmt),
      (app_assoc _ f2), (app_assoc _ f3), (app_assoc _ f3), (app_assoc _ f5),
      (app_assoc _ f6), (app_assoc _ f7), (app_assoc _ f8).
    apply bytes_at; reflexivity. }
  split.
  { rewrite (app_assoc riff), (app_assoc _ wave), (app_assoc _ fmt),
      (app_assoc _ f2), (app_assoc _ f3), (app_assoc _ f3), (app_assoc _ f5),
      (app_assoc _ f6), (app_assoc _ f7), (app_assoc _ f8),
      (app_assoc _ data).
    subst f9. rewrite uint32_at by reflexivity. apply ToUint32_nat. }
  rewrite (app_assoc riff), (app_assoc _ wave), (app_assoc _ fmt),
    (app_assoc _ f2), (app_assoc _ f3), (app_assoc _ f3), (app_assoc _ f5),
    (app_assoc _ f6), (app_assoc _ f7), (app_assoc _ f8),
    (app_assoc _ data), (app_assoc _ f9).
  rewrite drop_app_length' by reflexivity. reflexivity.
Qed.

End ContainerHeader.

(* ===================================================================== *)
(** * The quantizer keeps the order of the samples                        *)
(* ===================================================================== *)

Section QuantizerOrder.

Lemma Qle_bool_false (a b : Q) : Qle_bool a b = false -> (b < a)%Q.
Proof.
  intros H. apply Qnot_le_lt. intros ?%Qle_bool_iff. congruence.
Qed.

Lemma Qtrunc_monotone (x y : Q) : (x <= y)%Q -> (Qtrunc x <= Qtrunc y)%Z.
Proof.
  intros H. rewrite !Qtrunc_floor_ceiling.
  destruct (Qle_bool 0 x) eqn:Ex, (Qle_bool 0 y) eqn:Ey.
  - apply Qfloor_resp_le, H.
  - apply Qle_bool_iff in Ex. apply Qle_bool_false in Ey. lra.
  - apply Qle_bool_false in Ex. apply Qle_bool_iff in Ey.
    transitivity 0%Z.
    + rewrite <- (Qceiling_Z 0). apply Qceiling_resp_le, Qlt_le_weak, Ex.
    + rewrite <- (Qfloor_Z 0). apply Qfloor_resp_le, Ey.
  - apply Qceiling_resp_le, H.
Qed.

Lemma scaled_monotone (p q : Q) :
  (p <= q)%Q -> (Qclamp p * pcm_factor p <= Qclamp q * pcm_factor q)%Q.
Proof.
  intros H. unfold Qclamp, pcm_factor.
  destruct (Qle_bool p (-1)) eqn:P1, (Qle_bool 1 p) eqn:P2,
    (Qle_bool 0 p) eqn:P3, (Qle_bool q (-1)) eqn:Q1, (Qle_bool 1 q) eqn:Q2,
    (Qle_bool 0 q) eqn:Q3;
    repeat match goal with
           | E : Qle_bool _ _ = true |- _ => apply Qle_bool_iff in E
           | E : Qle_bool _ _ = false |- _ => apply Qle_bool_false in E
           end; lra.
Qed.

(** X10.  The 16-bit value stored for a sample never decreases when the
    sample increases, infinities included: quantization keeps the order of
    the samples (and so their sign, zero being stored as 0), with every
    stored value in the 16-bit range. *)
Theorem pcm16_monotone (a b : num) :
  num_le a b = true ->
  (-32768 <= pcm16 a <= pcm16 b)%Z /\ (pcm16 b <= 32767)%Z
  /\ pcm16 (Fin 0) = 0%Z.
Proof.
  intros H. pose proof (pcm16_range a) as Ha. pose proof (pcm16_range b) as Hb.
  split; [|split; [lia | reflexivity]]. split; [lia|].
  destruct a as [p| | |], b as [q| | |]; try discriminate H.
  1: { rewrite !pcm16_Fin. unfold pcm_trunc.
       apply Qtrunc_monotone, scaled_monotone, Qle_bool_iff, H. }
  all: change (pcm16 PInf) with 32767%Z in *;
    change (pcm16 NInf) with (-32768)%Z in *; lia.
Qed.

End QuantizerOrder.

(** A quarter and a half of full scale are stored as 8191 and 16383. *)
Lemma pcm16_monotone_witness :
  (-32768 <= pcm16 (Fin (1 # 4)) <= pcm16 (Fin (1 # 2)))%Z
  /\ (pcm16 (Fin (1 # 2)) <= 32767)%Z /\ pcm16 (Fin 0) = 0%Z.
Proof. exact (pcm16_monotone (Fin (1 # 4)) (Fin (1 # 2)) eq_refl). Defined.

(* ===================================================================== *)
(** * Transcripts without a digit                                         *)
(* ===================================================================== *)

Section NoTimestamp.

Lemma matches_seqs_component (rs : list regex) (r : regex) (w : jsstr) :
  In r rs -> matches (seqs rs) w ->
  exists pre x post, w = pre ++ x ++ post /\ matches r x.
Proof.
  revert w. induction rs as [|r0 rs IH]; intros w Hin H; [destruct Hin|].
  cbn [seqs foldr] in H. apply matches_seq_inv in H as (w1 & w2 & -> & H1 & H2).
  destruct Hin as [-> | Hin].
  - exists [], w1, w2. split; [reflexivity | exact H1].
  - destruct (IH w2 Hin H2) as (pre & x & post & -> & Hx).
    exists (w1 ++ pre), x, post. rewrite <- app_assoc. split; [reflexivity|].
    exact Hx.
Qed.

Lemma matches_group_inv (i : nat) (r : regex) (w : jsstr) :
  matches (Group i r) w -> matches r w.
Proof. inversion 1; subst. assumption. Qed.

Lemma digit_string_has_digit (w : jsstr) :
  digit_string w -> exists c, c ∈ w /\ is_digit c = true.
Proof.
  intros [Hne Hf]. destruct w as [|c w]; [congruence|].
  cbn in Hf. apply andb_true_iff in Hf as [Hc _].
  exists c. split; [left | exact Hc].
Qed.

(** Every time token holds a digit. *)
Lemma token_has_digit (g : regex) (w : jsstr) :
  g = hms \/ g = hms_ms \/ g = m_ss \/ g = number ->
  matches g w -> exists c, c ∈ w /\ is_digit c = true.
Proof.
  intros [-> | [-> | [-> | ->]]] H.
  - apply hms_language in H as (a & b & c & -> & Ha & _).
    destruct (digit_string_has_digit a Ha) as (d & Hd & E).
    exists d. split; [|exact E]. apply elem_of_app. left. exact Hd.
  - apply hms_ms_language in H as (u & ms & -> & _ & Hms).
    destruct (digit_string_has_digit ms Hms) as (d & Hd & E).
    exists d. split; [|exact E].
    apply elem_of_app. right. apply elem_of_app. right. exact Hd.
  - apply m_ss_language in H as (a & b & -> & Ha & _).
    destruct (digit_string_has_digit a Ha) as (d & Hd & E).
    exists d. split; [|exact E]. apply elem_of_app. left. exact Hd.
  - apply number_language in H as (a & b & c & -> & Ha & _).
    destruct (digit_string_has_digit a Ha) as (d & Hd & E).
    exists d. split; [|exact E]. apply elem_of_app. left. exact Hd.
Qed.

Lemma exec_needs_digit (rs : list regex) (g : regex) (line : jsstr) :
  In (Group 1 g) rs ->
  g = hms \/ g = hms_ms \/ g = m_ss \/ g = number ->
  Forall (fun c => is_digit c = false) line ->
  exec (seqs rs) line = None.
Proof.
  intros Hin Hg Hline. destruct (exec (seqs rs) line) as [m|] eqn:E;
    [exfalso | reflexivity].
  destruct (exec_sound (fun _ _ => True) (seqs rs) line m) as [M _];
    [|exact E|].
  - clear. induction rs as [|r rs IH]; [exact I|]. cbn [seqs foldr].
    split; [|exact IH].
    induction r; cbn; auto.
  - destruct (matches_seqs_component rs _ line Hin M)
      as (pre & x & post & -> & Hx).
    apply matches_group_inv in Hx.
    destruct (token_has_digit g x Hg Hx) as (d & Hd & Ed).
    rewrite Forall_forall in Hline.
    rewrite (Hline d) in Ed; [discriminate|].
    apply elem_of_app. right. apply elem_of_app. left. exact Hd.
Qed.

Lemma parse_line_no_digit (line : jsstr) (next_line : option jsstr) :
  Forall (fun c => is_digit c = false) line -> parse_line line next_line = [].
Proof.
  intros H. unfold parse_line. destruct line as [|c0 line0]; [reflexivity|].
  set (line := c0 :: line0) in *. clearbody line.
  unfold re_bracket_range, re_srt, re_simple_range, re_number_range,
    re_bracket_start, re_paren_start, re_simple_start, re_number_start.
  rewrite !(exec_needs_digit _ _ line) by
    (first [exact H | cbn; tauto | eauto]).
  reflexivity.
Qed.

Lemma drop_while_subset {A} (p : A -> bool) (s : list A) (c : A) :
  c ∈ drop_while p s -> c ∈ s.
Proof.
  destruct (drop_while_drop p s) as [n ->]. intros H.
  rewrite <- (take_drop n s). apply elem_of_app. right. exact H.
Qed.

Lemma trim_subset (s : jsstr) (c : N) : c ∈ trim s -> c ∈ s.
Proof.
  unfold trim, trimEnd, trimStart. rewrite elem_of_reverse. intros H.
  apply drop_while_subset in H. rewrite elem_of_reverse in H.
  apply drop_while_subset in H. exact H.
Qed.

Lemma split_lines_go_subset (s cur : jsstr) (line : jsstr) (c : N) :
  line ∈ split_lines_go s cur -> c ∈ line -> c ∈ s \/ c ∈ cur.
Proof.
  revert cur line.
  induction s as [s IH] using (induction_ltof1 _ (@length N)).
  unfold ltof in IH. intros cur line Hl Hc.
  destruct s as [|x s]; cbn [split_lines_go] in Hl.
  - apply list_elem_of_singleton in Hl. subst line.
    rewrite elem_of_reverse in Hc. right. exact Hc.
  - assert (forall s', (length s' < length (x :: s))%nat ->
              line ∈ reverse cur :: split_lines_go s' [] ->
              (forall d, d ∈ s' -> d ∈ x :: s) -> c ∈ x :: s \/ c ∈ cur) as Hbreak.
    { intros s' Hlt Hin Hsub. apply elem_of_cons in Hin as [-> | Hin].
      - rewrite elem_of_reverse in Hc. right. exact Hc.
      - destruct (IH s' Hlt [] line Hin Hc) as [H|H]; [|inversion H].
        left. apply Hsub, H. }
    assert (line ∈ split_lines_go s (x :: cur) -> c ∈ x :: s \/ c ∈ cur)
      as Hgo.
    { intros Hin. destruct (IH s (Nat.lt_succ_diag_r _) (x :: cur) line Hin Hc)
        as [H|H]; [left; right; exact H|].
      apply elem_of_cons in H as [-> | H]; [left; left | right; exact H]. }
    destruct x as [|p]; [exact (Hgo Hl)|].
    do 4 (destruct p as [p|p|]; try exact (Hgo Hl)).
    + (* 13 *)
      destruct s as [|z s']; [exact (Hgo Hl)|].
      destruct z as [|q]; [exact (Hgo Hl)|].
      do 4 (destruct q as [q|q|]; try exact (Hgo Hl)).
      apply (Hbreak s'); [cbn; lia | exact Hl |].
      intros d Hd. right. right. exact Hd.
    + (* 10 *)
      apply (Hbreak s); [cbn; lia | exact Hl |].
      intros d Hd. right. exact Hd.
Qed.

Lemma parse_lines_nothing (lines : list jsstr) (acc : list entry) :
  Forall (fun l => forall nxt, parse_line l nxt = []) lines ->
  parse_lines lines acc = acc.
Proof.
  intros H. revert acc. induction H as [|l lines Hl _ IH]; intros acc.
  - reflexivity.
  - cbn [parse_lines]. rewrite Hl, app_nil_r. apply IH.
Qed.

(** X12.  A text that holds no decimal digit gives no segment at all,
    whatever else it holds: every layout of the cascade needs a digit in
    its first time token. *)
Theorem no_digit_no_segment (t : jsstr) :
  Forall (fun c => is_digit c = false) t -> parseTranscriptFile t = [].
Proof.
  intros H. unfold parseTranscriptFile, parseEntries.
  rewrite parse_lines_nothing; [reflexivity|].
  apply Forall_forall. intros l Hl nxt.
  apply list_elem_of_In, in_map_iff in Hl as (l0 & <- & Hl0).
  apply list_elem_of_In in Hl0.
  apply parse_line_no_digit, Forall_forall. intros c Hc.
  apply trim_subset in Hc.
  destruct (split_lines_go_subset t [] l0 c Hl0 Hc) as [Hin|Hin];
    [|inversion Hin].
  rewrite Forall_forall in H. apply H, Hin.
Qed.

End NoTimestamp.

(** A title and a sentence, on two lines, give no segment. *)
Lemma no_digit_no_segment_witness :
  parseTranscriptFile (line2 "Interview" "[intro] hello - world") = [].
Proof.
  apply no_digit_no_segment. vm_compute.
  repeat constructor.
Defined.

(* ===================================================================== *)
(** * Running the matcher on counted and repeated classes                 *)
(* ===================================================================== *)

Section MatcherRuns.

Context {A : Type}.
Implicit Types (k : jsstr -> captures -> option A) (c : captures).

Lemma rmatch_chr_ok (p : N -> bool) (x : N) (s : jsstr) c k :
  p x = true -> rmatch (Chr p) (x :: s) c k = k s c.
Proof. intros H. cbn. rewrite H. reflexivity. Qed.

Lemma rmatch_lit (a : ascii) (s : jsstr) c k :
  rmatch (lit a) (N_of_ascii a :: s) c k = k s c.
Proof. cbn. rewrite N.eqb_refl. reflexivity. Qed.

Lemma rmatch_lit_other (a : ascii) (x : N) (s : jsstr) c k :
  x <> N_of_ascii a -> rmatch (lit a) (x :: s) c k = None.
Proof.
  intros H. cbn. destruct (N.eqb_spec (N_of_ascii a) x); congruence.
Qed.

(** Exactly [n] characters of a class, when they are there. *)
Lemma rmatch_times (p : N -> bool) (w s : jsstr) c k :
  forallb p w = true ->
  rmatch (times (length w) (Chr p)) (w ++ s) c k = k s c.
Proof.
  induction w as [|x w IH]; intros H; [reflexivity|].
  cbn in H. apply andb_true_iff in H as [Hx Hw].
  cbn [length times rmatch app]. rewrite Hx. apply IH, Hw.
Qed.

(** A successful run of [n] characters of a class consumed them. *)
Lemma rmatch_times_inv (p : N -> bool) (n : nat) (s : jsstr) c k (x : A) :
  rmatch (times n (Chr p)) s c k = Some x ->
  exists w rest, s = w ++ rest /\ length w = n /\ forallb p w = true
                 /\ k rest c = Some x.
Proof.
  revert s. induction n as [|n IH]; intros s H.
  - exists [], s. auto.
  - cbn [times rmatch] in H. destruct s as [|a s]; [discriminate|].
    destruct (p a) eqn:E; [|discriminate].
    destruct (IH s H) as (w & rest & -> & Hl & Hf & Hk).
    exists (a :: w), rest. cbn. rewrite E, Hl, Hf. auto.
Qed.

(** The two equations of a greedy repetition of one class. *)
Lemma rmatch_star_nil (p : N -> bool) c k :
  rmatch (Star (Chr p)) [] c k = k [] c.
Proof. reflexivity. Qed.

Lemma rmatch_star_cons (p : N -> bool) (x : N) (s : jsstr) c k :
  rmatch (Star (Chr p)) (x :: s) c k
  = if p x then
      match rmatch (Star (Chr p)) s c k with
      | Some r => Some r
      | None => k (x :: s) c
      end
    else k (x :: s) c.
Proof.
  cbn [rmatch length]. destruct (p x); [|reflexivity].
  rewrite (proj2 (Nat.ltb_lt _ _) (Nat.lt_succ_diag_r (length s))).
  reflexivity.
Qed.

(** A greedy repetition takes the whole run when what follows succeeds
    right after it. *)
Lemma rmatch_star_run (p : N -> bool) (w s : jsstr) c k (x : A) :
  forallb p w = true -> (forall a, head s = Some a -> p a = false) ->
  k s c = Some x ->
  rmatch (Star (Chr p)) (w ++ s) c k = Some x.
Proof.
  intros Hw Hs Hk. induction w as [|a w IH].
  - cbn [app]. destruct s as [|a s].
    + rewrite rmatch_star_nil. exact Hk.
    + rewrite rmatch_star_cons, (Hs a eq_refl). exact Hk.
  - cbn in Hw. apply andb_true_iff in Hw as [Ha Hw].
    cbn [app]. rewrite rmatch_star_cons, Ha, (IH Hw). reflexivity.
Qed.

Lemma rmatch_group (i : nat) (r : regex) (s : jsstr) c k :
  rmatch (Group i r) s c k
  = rmatch r s c (fun s' c' => k s' (<[i := take (length s - length s') s]> c')).
Proof. reflexivity. Qed.

Lemma rmatch_seq (r1 r2 : regex) (s : jsstr) c k :
  rmatch (Seq r1 r2) s c k = rmatch r1 s c (fun s' c' => rmatch r2 s' c' k).
Proof. reflexivity. Qed.

Lemma rmatch_eps (s : jsstr) c k : rmatch Eps s c k = k s c.
Proof. reflexivity. Qed.

Lemma rmatch_alt (r1 r2 : regex) (s : jsstr) c k :
  rmatch (Alt r1 r2) s c k
  = match rmatch r1 s c k with
    | Some x => Some x
    | None => rmatch r2 s c k
    end.
Proof. reflexivity. Qed.

Lemma take_consumed {B} (w s : list B) :
  take (length (w ++ s) - length s) (w ++ s) = w.
Proof.
  rewrite length_app, Nat.add_sub. apply take_app_length.
Qed.

Lemma take_prefix {B} (w s t : list B) :
  t = w ++ s -> take (length t - length s) t = w.
Proof. intros ->. apply take_consumed. Qed.

End MatcherRuns.

(** Steps the matcher through literals and digits that are there. *)
Ltac run :=
  repeat (cbv beta;
          first [ rewrite rmatch_seq | rewrite rmatch_eps
                | rewrite rmatch_group | rewrite rmatch_lit
                | rewrite (rmatch_chr_ok is_digit) by assumption ]).

(** Splits a conjunction of boolean tests into its tests. *)
Ltac split_tests :=
  repeat match goal with
         | H : _ && _ = true |- _ => apply andb_true_iff in H as [? H]
         end.

(* ===================================================================== *)
(** * Video identifiers ([extract_video_id])                              *)
(* ===================================================================== *)

Section VideoIds.

Implicit Types (url v : pystr).

Lemma search_sound (r : regex) (s : pystr) (m : captures) :
  search r s = Some m ->
  exists pre suf, s = pre ++ suf
                  /\ rmatch r suf ∅ (fun _ c => Some c) = Some m.
Proof.
  induction s as [|x s IH]; cbn [search].
  - destruct (rmatch r [] ∅ _) eqn:E; [|discriminate].
    intros [= <-]. exists [], []. auto.
  - destruct (rmatch r (x :: s) ∅ _) eqn:E.
    + intros [= <-]. exists [], (x :: s). auto.
    + intros H. destruct (IH H) as (pre & suf & -> & Hm).
      exists (x :: pre), suf. auto.
Qed.

Lemma search_finds (r : regex) (pre suf : pystr) (m : captures) :
  rmatch r suf ∅ (fun _ c => Some c) = Some m ->
  exists m', search r (pre ++ suf) = Some m'.
Proof.
  intros H. induction pre as [|x pre IH].
  - exists m. destruct suf; cbn [app search]; rewrite H; reflexivity.
  - cbn [app search]. destruct (rmatch r (x :: pre ++ suf) ∅ _); eauto.
Qed.

Lemma search_step (r : regex) (x : N) (s : pystr) :
  rmatch r (x :: s) ∅ (fun _ c => Some c) = None ->
  search r (x :: s) = search r s.
Proof. intros H. cbn [search]. rewrite H. reflexivity. Qed.

Lemma search_here (r : regex) (s : pystr) (m : captures) :
  rmatch r s ∅ (fun _ c => Some c) = Some m -> search r s = Some m.
Proof. intros H. destruct s; cbn [search]; rewrite H; reflexivity. Qed.

Lemma rmatch_lit_inv {A} (a : ascii) (s : jsstr) (c : captures)
    (k : jsstr -> captures -> option A) (x : A) :
  rmatch (lit a) s c k = Some x ->
  exists s', s = N_of_ascii a :: s' /\ k s' c = Some x.
Proof.
  destruct s as [|b s]; cbn; [discriminate|].
  destruct (N.eqb_spec (N_of_ascii a) b) as [<-|]; [|discriminate].
  eauto.
Qed.

(** Inverts a successful run of a sequence of literals. *)
Ltac lits_inv H :=
  repeat (cbv beta in H; rewrite ?rmatch_seq, ?rmatch_eps in H;
          match type of H with
          | rmatch (lit _) _ _ _ = Some _ =>
              apply rmatch_lit_inv in H as (? & -> & H)
          end);
  cbv beta in H; rewrite ?rmatch_seq, ?rmatch_eps in H.

(** Runs the matcher through a sequence of literals that are there. *)
Ltac lits_run :=
  repeat (cbv beta; rewrite ?rmatch_seq, ?rmatch_eps; rewrite rmatch_lit);
  cbv beta; rewrite ?rmatch_seq, ?rmatch_eps.

(** What a match of the identifier group captures. *)
Lemma id_group_inv (s : pystr) (c m : captures) :
  rmatch (Group 1 (times 11 id_char)) s c (fun _ c' => Some c') = Some m ->
  exists w rest, s = w ++ rest /\ length w = 11%nat
                 /\ forallb is_id_char w = true /\ group m 1 = w.
Proof.
  rewrite rmatch_group. intros H.
  apply rmatch_times_inv in H as (w & rest & -> & Hl & Hf & [= <-]).
  exists w, rest. repeat split; try assumption.
  unfold group. rewrite lookup_insert_eq, take_consumed. reflexivity.
Qed.

Lemma id_group_ok (w rest : pystr) (c : captures) :
  length w = 11%nat -> forallb is_id_char w = true ->
  rmatch (Group 1 (times 11 id_char)) (w ++ rest) c (fun _ c' => Some c')
  = Some (<[1%nat := w]> c).
Proof.
  intros Hl Hf. rewrite rmatch_group, <- Hl.
  rewrite (rmatch_times is_id_char w rest _ _ Hf), take_consumed.
  reflexivity.
Qed.

Lemma re_watch_inv (s : pystr) (m : captures) :
  rmatch re_watch s ∅ (fun _ c => Some c) = Some m ->
  exists sep w rest,
    s = sep ++ w ++ rest /\ (sep = py "v=" \/ sep = py "/")
    /\ length w = 11%nat /\ forallb is_id_char w = true /\ group m 1 = w.
Proof.
  unfold re_watch. rewrite rmatch_seq, rmatch_alt.
  destruct (rmatch (lits "v=") s ∅ _) as [m'|] eqn:E.
  - intros [= <-]. unfold lits in E. cbn [list_ascii_of_string map seqs foldr]
      in E. lits_inv E.
    apply id_group_inv in E as (w & rest & -> & Hl & Hf & Hg).
    exists (py "v="), w, rest. auto.
  - intros H. apply rmatch_lit_inv in H as (s1 & -> & H).
    apply id_group_inv in H as (w & rest & -> & Hl & Hf & Hg).
    exists (py "/"), w, rest. auto.
Qed.

Lemma re_watch_slash (w rest : pystr) :
  length w = 11%nat -> forallb is_id_char w = true ->
  rmatch re_watch (py "/" ++ w ++ rest) ∅ (fun _ c => Some c)
  = Some (<[1%nat := w]> ∅).
Proof.
  intros Hl Hf. unfold re_watch. rewrite rmatch_seq, rmatch_alt.
  change (py "/" ++ w ++ rest) with (N_of_ascii "/" :: w ++ rest).
  unfold lits. cbn [list_ascii_of_string map seqs foldr].
  rewrite rmatch_seq, rmatch_lit_other by discriminate.
  rewrite rmatch_lit. apply id_group_ok; assumption.
Qed.

Lemma re_watch_v (w rest : pystr) :
  length w = 11%nat -> forallb is_id_char w = true ->
  rmatch re_watch (py "v=" ++ w ++ rest) ∅ (fun _ c => Some c)
  = Some (<[1%nat := w]> ∅).
Proof.
  intros Hl Hf. unfold re_watch. rewrite rmatch_seq, rmatch_alt.
  change (py "v=" ++ w ++ rest)
    with (N_of_ascii "v" :: N_of_ascii "=" :: w ++ rest).
  unfold lits. cbn [list_ascii_of_string map seqs foldr].
  lits_run. rewrite id_group_ok by assumption. reflexivity.
Qed.

Lemma re_short_inv (s : pystr) (m : captures) :
  rmatch re_short s ∅ (fun _ c => Some c) = Some m ->
  exists w rest, s = py "youtu.be" ++ py "/" ++ w ++ rest
                 /\ length w = 11%nat /\ forallb is_id_char w = true.
Proof.
  unfold re_short, lits. cbn [list_ascii_of_string map seqs foldr].
  intros H. lits_inv H.
  apply id_group_inv in H as (w & rest & -> & Hl & Hf & _).
  exists w, rest. auto.
Qed.

(** Where the second pattern matches, the first one has matched. *)
Lemma first_match_watch url :
  first_match [re_watch; re_short] url
  = match search re_watch url with
    | Some m => Some (group m 1)
    | None => None
    end.
Proof.
  cbn [first_match].
  destruct (search re_watch url) as [m|] eqn:E1; [reflexivity|].
  destruct (search re_short url) as [m|] eqn:E2; [exfalso | reflexivity].
  apply search_sound in E2 as (pre & suf & -> & H).
  apply re_short_inv in H as (w & rest & -> & Hl & Hf).
  rewrite app_assoc in E1.
  destruct (search_finds re_watch (pre ++ py "youtu.be") _ _
              (re_watch_slash w rest Hl Hf)) as [m' Hm'].
  congruence.
Qed.

(** X13.  The second pattern of [extract_video_id] never decides the
    result: wherever "youtu.be/" and an identifier stand, the first
    pattern matches at the slash or earlier, so the function is the first
    pattern followed by the whole-string test. *)
Theorem short_pattern_unreachable url :
  extract_video_id url
  = match search re_watch url with
    | Some m => Some (group m 1)
    | None =>
        match match_to_end re_bare url with
        | Some _ => Some url
        | None => None
        end
    end.
Proof.
  unfold extract_video_id. rewrite first_match_watch.
  destruct (search re_watch url); reflexivity.
Qed.

(** X14.  A value [extract_video_id] returns is either 11 characters of
    the alphabet [0-9A-Za-z_-] that stand in the URL right after "v=" or
    after a slash, or the URL itself, which is then 11 such characters,
    possibly followed by one line feed.  Nothing else of the URL is
    checked. *)
Theorem extract_video_id_sound url v :
  extract_video_id url = Some v ->
  (length v = 11%nat /\ forallb is_id_char v = true
   /\ exists pre post,
        url = pre ++ py "v=" ++ v ++ post \/ url = pre ++ py "/" ++ v ++ post)
  \/ (v = url
      /\ exists w, length w = 11%nat /\ forallb is_id_char w = true
                   /\ (url = w \/ url = w ++ [10%N])).
Proof.
  unfold extract_video_id. rewrite first_match_watch.
  destruct (search re_watch url) as [m|] eqn:E1.
  - intros [= <-]. left.
    apply search_sound in E1 as (pre & suf & -> & H).
    apply re_watch_inv in H as (sep & w & rest & -> & Hsep & Hl & Hf & ->).
    split; [exact Hl|]. split; [exact Hf|]. exists pre, rest.
    destruct Hsep as [-> | ->]; auto.
  - destruct (match_to_end re_bare url) as [m|] eqn:E2; [|discriminate].
    intros [= <-]. right. split; [reflexivity|].
    unfold match_to_end, re_bare in E2.
    apply rmatch_times_inv in E2 as (w & rest & -> & Hl & Hf & H).
    exists w. split; [exact Hl|]. split; [exact Hf|].
    destruct rest as [|a [|b rest]]; cbn in H.
    + left. apply app_nil_r.
    + destruct (N.eqb_spec a 10) as [->|]; [right; reflexivity | discriminate].
    + discriminate.
Qed.

End VideoIds.

Section CanonicalUrls.

Variables (id rest : pystr).
Hypothesis id_length : length id = 11%nat.
Hypothesis id_chars : forallb is_id_char id = true.

Lemma re_watch_needs_separator (x : N) (s : pystr) :
  is_id_char x = true -> (forall a, head s = Some a -> is_id_char a = true) ->
  rmatch re_watch (x :: s) ∅ (fun _ c => Some c) = None.
Proof.
  intros Hx Hs. unfold re_watch. rewrite rmatch_seq, rmatch_alt.
  unfold lits. cbn [list_ascii_of_string map seqs foldr].
  rewrite rmatch_seq.
  assert (x <> N_of_ascii "/") as Hslash by (intros ->; discriminate Hx).
  destruct (N.eq_dec x (N_of_ascii "v")) as [->|Hv].
  - rewrite rmatch_lit. cbv beta. rewrite rmatch_seq.
    destruct s as [|a s].
    + cbn. reflexivity.
    + rewrite rmatch_lit_other.
      * apply rmatch_lit_other. discriminate.
      * intros ->. discriminate (Hs _ eq_refl).
  - rewrite rmatch_lit_other by exact Hv. apply rmatch_lit_other, Hslash.
Qed.

Lemma search_re_watch_id (w : pystr) :
  forallb is_id_char w = true -> search re_watch w = None.
Proof.
  induction w as [|x w IH]; intros H; [reflexivity|].
  cbn in H. apply andb_true_iff in H as [Hx Hw].
  rewrite search_step; [apply IH, Hw|].
  apply re_watch_needs_separator; [exact Hx|].
  intros a Ha. destruct w as [|b w]; [discriminate|].
  injection Ha as <-. cbn in Hw. apply andb_true_iff in Hw as [Hb _]. exact Hb.
Qed.

(** X15.  The usual ways of naming a video all give its identifier: a
    watch URL (whatever follows the identifier), a short URL, and the
    bare identifier, for every identifier of 11 characters of the
    alphabet. *)
Theorem extract_video_id_canonical :
  extract_video_id (py "https://www.youtube.com/watch?v=" ++ id ++ rest)
  = Some id
  /\ extract_video_id (py "https://youtu.be/" ++ id ++ rest) = Some id
  /\ extract_video_id id = Some id.
Proof.
  split; [|split]; unfold extract_video_id; rewrite first_match_watch.
  - change (py "https://www.youtube.com/watch?v=" ++ id ++ rest)
      with (py "https://www.youtube.com/watch?" ++ py "v=" ++ id ++ rest).
    cbn [py list_ascii_of_string map app].
    rewrite !search_step by reflexivity.
    change (N_of_ascii "v" :: N_of_ascii "=" :: id ++ rest)
      with (py "v=" ++ id ++ rest).
    rewrite (search_here _ _ _ (re_watch_v id rest id_length id_chars)).
    unfold group. rewrite lookup_insert_eq. reflexivity.
  - change (py "https://youtu.be/" ++ id ++ rest)
      with (py "https://youtu.be" ++ py "/" ++ id ++ rest).
    cbn [py list_ascii_of_string map app].
    rewrite !search_step by reflexivity.
    change (N_of_ascii "/" :: id ++ rest) with (py "/" ++ id ++ rest).
    rewrite (search_here _ _ _ (re_watch_slash id rest id_length id_chars)).
    unfold group. rewrite lookup_insert_eq. reflexivity.
  - rewrite (search_re_watch_id id id_chars).
    unfold match_to_end, re_bare. rewrite <- id_length.
    rewrite <- (app_nil_r id) at 2.
    rewrite (rmatch_times is_id_char id [] _ _ id_chars). reflexivity.
Qed.

End CanonicalUrls.

Lemma extract_video_id_canonical_witness :
  extract_video_id
    (py "https://www.youtube.com/watch?v=" ++ py "dQw4w9WgXcQ" ++ py "&t=42s")
  = Some (py "dQw4w9WgXcQ")
  /\ extract_video_id (py "https://youtu.be/" ++ py "dQw4w9WgXcQ" ++ py "&t=42s")
     = Some (py "dQw4w9WgXcQ")
  /\ extract_video_id (py "dQw4w9WgXcQ") = Some (py "dQw4w9WgXcQ").
Proof.
  exact (extract_video_id_canonical (py "dQw4w9WgXcQ") (py "&t=42s")
           eq_refl eq_refl).
Defined.

(** The first eleven characters of a long path segment are taken for an
    identifier. *)
Lemma extract_video_id_sound_witness :
  (length (py "subscriptio") = 11%nat
   /\ forallb is_id_char (py "subscriptio") = true
   /\ exists pre post,
        py "https://www.youtube.com/feed/subscriptions"
        = pre ++ py "v=" ++ py "subscriptio" ++ post
        \/ py "https://www.youtube.com/feed/subscriptions"
           = pre ++ py "/" ++ py "subscriptio" ++ post)
  \/ (py "subscriptio" = py "https://www.youtube.com/feed/subscriptions"
      /\ exists w, length w = 11%nat /\ forallb is_id_char w = true
                   /\ (py "https://www.youtube.com/feed/subscriptions" = w
                       \/ py "https://www.youtube.com/feed/subscriptions"
                          = w ++ [10%N])).
Proof.
  apply (extract_video_id_sound
           (py "https://www.youtube.com/feed/subscriptions")
           (py "subscriptio")).
  vm_compute. reflexivity.
Defined.

(* ===================================================================== *)
(** * API keys ([extract_api_key])                                        *)
(* ===================================================================== *)

Section ApiKeys.

Lemma rmatch_chr_inv {A} (p : N -> bool) (s : jsstr) (c : captures)
    (k : jsstr -> captures -> option A) (x : A) :
  rmatch (Chr p) s c k = Some x ->
  exists a s', s = a :: s' /\ p a = true /\ k s' c = Some x.
Proof.
  destruct s as [|a s]; cbn; [discriminate|].
  destruct (p a) eqn:E; [|discriminate]. eauto.
Qed.

Lemma rmatch_star_inv {A} (p : N -> bool) (s : jsstr) (c : captures)
    (k : jsstr -> captures -> option A) (x : A) :
  rmatch (Star (Chr p)) s c k = Some x ->
  exists w rest, s = w ++ rest /\ forallb p w = true /\ k rest c = Some x.
Proof.
  induction s as [|a s IH].
  - rewrite rmatch_star_nil. intros H. exists [], []. auto.
  - rewrite rmatch_star_cons. destruct (p a) eqn:E.
    + destruct (rmatch (Star (Chr p)) s c k) as [y|] eqn:E'.
      * intros [= <-]. destruct (IH eq_refl) as (w & rest & -> & Hw & Hk).
        exists (a :: w), rest. cbn. rewrite E, Hw. auto.
      * intros H. exists [], (a :: s). auto.
    + intros H. exists [], (a :: s). auto.
Qed.

Lemma rmatch_lits_inv {A} (name : list ascii) (r : regex) (s : jsstr) (c : captures)
    (k : jsstr -> captures -> option A) (x : A) :
  rmatch (foldr Seq r (map lit name)) s c k = Some x ->
  exists s', s = map N_of_ascii name ++ s' /\ rmatch r s' c k = Some x.
Proof.
  revert s. induction name as [|a name IH]; intros s H.
  - exists s. auto.
  - cbn [map foldr] in H. rewrite rmatch_seq in H.
    apply rmatch_lit_inv in H as (s1 & -> & H).
    destruct (IH s1 H) as (s' & -> & H'). exists s'. auto.
Qed.

Lemma seqs_lits (name : string) (r : regex) :
  forall {A} (s : jsstr) (c : captures) (k : jsstr -> captures -> option A),
    rmatch (Seq (lits name) r) s c k
    = rmatch (foldr Seq r (map lit (list_ascii_of_string name))) s c k.
Proof.
  intros A. unfold lits, seqs.
  induction (list_ascii_of_string name) as [|a l IH]; intros s c k.
  - reflexivity.
  - cbn [map foldr]. rewrite !rmatch_seq.
    destruct s as [|b s]; [reflexivity|]. cbn [rmatch lit].
    destruct (N_of_ascii a =? b)%N; [|reflexivity].
    rewrite <- IH. reflexivity.
Qed.

Lemma re_key_inv (name : string) (s : pystr) (m : captures) :
  rmatch (re_key name) s ∅ (fun _ c => Some c) = Some m ->
  exists ws key rest,
    s = [34%N] ++ py name ++ [34%N] ++ py ":" ++ ws ++ [34%N] ++ key
        ++ [34%N] ++ rest
    /\ forallb py_space ws = true
    /\ key <> [] /\ forallb is_id_char key = true /\ group m 1 = key.
Proof.
  unfold re_key, quote. cbn [seqs foldr]. rewrite rmatch_seq. intros H.
  apply rmatch_chr_inv in H as (q1 & s1 & -> & <-%N.eqb_eq & H).
  cbv beta in H. rewrite seqs_lits in H.
  apply rmatch_lits_inv in H as (s2 & -> & H). rewrite rmatch_seq in H.
  apply rmatch_chr_inv in H as (q2 & s3 & -> & <-%N.eqb_eq & H).
  cbv beta in H. rewrite rmatch_seq in H.
  apply rmatch_lit_inv in H as (s4 & -> & H). rewrite rmatch_seq in H.
  apply rmatch_star_inv in H as (ws & s5 & -> & Hws & H).
  rewrite rmatch_seq in H.
  apply rmatch_chr_inv in H as (q3 & s6 & -> & <-%N.eqb_eq & H).
  cbv beta in H. rewrite rmatch_seq, rmatch_group in H.
  unfold plus in H. rewrite rmatch_seq in H.
  apply rmatch_chr_inv in H as (a & s7 & -> & Ha & H).
  apply rmatch_star_inv in H as (w & s8 & -> & Hw & H).
  rewrite rmatch_seq in H.
  apply rmatch_chr_inv in H as (q4 & s9 & -> & <-%N.eqb_eq & H).
  rewrite rmatch_eps in H. injection H as <-.
  exists ws, (a :: w), s9. split; [reflexivity|]. split; [exact Hws|].
  split; [discriminate|]. split; [cbn; rewrite Ha, Hw; reflexivity|].
  unfold group. rewrite lookup_insert_eq.
  cbn [default]. rewrite length_app. cbn [length].
  replace (length w + S (length s9) - length s9)%nat with (S (length w))
    by lia.
  cbn [take]. rewrite take_app_length. reflexivity.
Qed.

(** X16.  A key [extract_api_key] returns is not empty, is made of the
    characters [A-Za-z0-9_-], and stands in the page between double
    quotes, after one of the two quoted names, a colon and nothing but
    white space. *)
Theorem extract_api_key_sound (html key : pystr) :
  extract_api_key html = Some key ->
  key <> [] /\ forallb is_id_char key = true
  /\ exists name pre ws post,
       (name = "INNERTUBE_API_KEY"%string \/ name = "innertubeApiKey"%string)
       /\ forallb py_space ws = true
       /\ html = pre ++ [34%N] ++ py name ++ [34%N] ++ py ":" ++ ws
                 ++ [34%N] ++ key ++ [34%N] ++ post.
Proof.
  unfold extract_api_key. cbn [first_match].
  destruct (search (re_key "INNERTUBE_API_KEY") html) as [m|] eqn:E1.
  - intros [= <-]. apply search_sound in E1 as (pre & suf & -> & H).
    apply re_key_inv in H as (ws & key & rest & -> & Hws & Hne & Hk & ->).
    split; [exact Hne|]. split; [exact Hk|].
    exists "INNERTUBE_API_KEY"%string, pre, ws, rest. auto.
  - destruct (search (re_key "innertubeApiKey") html) as [m|] eqn:E2;
      [|discriminate].
    intros [= <-]. apply search_sound in E2 as (pre & suf & -> & H).
    apply re_key_inv in H as (ws & key & rest & -> & Hws & Hne & Hk & ->).
    split; [exact Hne|]. split; [exact Hk|].
    exists "innertubeApiKey"%string, pre, ws, rest. auto.
Qed.

End ApiKeys.

(** A page that holds the key under the first name, after white space. *)
Lemma extract_api_key_sound_witness :
  py "AIza_Sy-9" <> [] /\ forallb is_id_char (py "AIza_Sy-9") = true
  /\ exists name pre ws post,
       (name = "INNERTUBE_API_KEY"%string \/ name = "innertubeApiKey"%string)
       /\ forallb py_space ws = true
       /\ py "{" ++ [34%N] ++ py "INNERTUBE_API_KEY" ++ [34%N] ++ py ": "
          ++ [34%N] ++ py "AIza_Sy-9" ++ [34%N] ++ py ",}"
          = pre ++ [34%N] ++ py name ++ [34%N] ++ py ":" ++ ws
            ++ [34%N] ++ py "AIza_Sy-9" ++ [34%N] ++ post.
Proof.
  apply (extract_api_key_sound
           (py "{" ++ [34%N] ++ py "INNERTUBE_API_KEY" ++ [34%N] ++ py ": "
            ++ [34%N] ++ py "AIza_Sy-9" ++ [34%N] ++ py ",}")
           (py "AIza_Sy-9")).
  vm_compute. reflexivity.
Defined.

(* ===================================================================== *)
(** * Caption tracks ([select_track])                                     *)
(* ===================================================================== *)

Section CaptionTracks.

Implicit Types (tracks : list track) (langs : list pystr) (t u : track).

Lemma find_elem (f : track -> bool) tracks t :
  List.find f tracks = Some t -> t ∈ tracks /\ f t = true.
Proof.
  intros H. apply find_some in H as [H1 H2]. split; [|exact H2].
  apply list_elem_of_In, H1.
Qed.

Lemma find_none_elem (f : track -> bool) tracks u :
  List.find f tracks = None -> u ∈ tracks -> f u = false.
Proof.
  intros H Hu. apply (find_none f tracks H), list_elem_of_In, Hu.
Qed.

Lemma first_track_some (test : pystr -> track -> bool) langs tracks t :
  first_track test langs tracks = Some t ->
  t ∈ tracks /\ exists code, code ∈ langs /\ test code t = true.
Proof.
  induction langs as [|code langs IH]; [discriminate|]. cbn [first_track].
  destruct (List.find (test code) tracks) as [u|] eqn:E.
  - intros [= <-]. apply find_elem in E as [H1 H2].
    split; [exact H1|]. exists code. split; [left | exact H2].
  - intros H. destruct (IH H) as (H1 & c & Hc & H2).
    split; [exact H1|]. exists c. split; [right; exact Hc | exact H2].
Qed.

Lemma first_track_none (test : pystr -> track -> bool) langs tracks :
  first_track test langs tracks = None ->
  forall code u, code ∈ langs -> u ∈ tracks -> test code u = false.
Proof.
  induction langs as [|code langs IH]; intros H c u Hc Hu;
    [inversion Hc|].
  cbn [first_track] in H.
  destruct (List.find (test code) tracks) as [v|] eqn:E; [discriminate|].
  apply elem_of_cons in Hc as [-> | Hc].
  - exact (find_none_elem _ _ u E Hu).
  - exact (IH H c u Hc Hu).
Qed.

(** X17.  [select_track] returns [None] exactly on an empty list, and
    what it returns is always one of the tracks it was given. *)
Theorem select_track_member tracks langs :
  (select_track tracks langs = None <-> tracks = [])
  /\ (forall t, select_track tracks langs = Some t -> t ∈ tracks).
Proof.
  unfold select_track. destruct tracks as [|t0 tracks'].
  - split; [tauto | discriminate].
  - set (tracks := t0 :: tracks').
    destruct (first_track is_manual langs tracks) as [t|] eqn:E1.
    + split; [split; discriminate|]. intros ? [= <-].
      apply (first_track_some _ _ _ _ E1).
    + destruct (first_track is_asr langs tracks) as [t|] eqn:E2.
      * split; [split; discriminate|]. intros ? [= <-].
        apply (first_track_some _ _ _ _ E2).
      * split; [split; discriminate|]. intros ? [= <-]. left.
Qed.

(** X18.  The order of preference of [select_track]: the track returned
    is a manual one (not "asr") in a requested language whenever the list
    holds such a track; failing that, an automatic one ("asr") in a
    requested language whenever the list holds one; and only when no
    track is in a requested language, the first track of the list, in
    whatever language. *)
Theorem select_track_preference tracks langs t :
  select_track tracks langs = Some t ->
  (exists code, code ∈ langs /\ is_manual code t = true)
  \/ ((forall code u, code ∈ langs -> u ∈ tracks ->
                      is_manual code u = false)
      /\ exists code, code ∈ langs /\ is_asr code t = true)
  \/ ((forall code u, code ∈ langs -> u ∈ tracks ->
                      eq_str (get u "languageCode") code = false)
      /\ head tracks = Some t).
Proof.
  unfold select_track. destruct tracks as [|t0 tracks']; [discriminate|].
  set (tracks := t0 :: tracks').
  destruct (first_track is_manual langs tracks) as [u|] eqn:E1.
  - intros [= <-]. left. apply (first_track_some _ _ _ _ E1).
  - pose proof (first_track_none _ _ _ E1) as Hno.
    destruct (first_track is_asr langs tracks) as [u|] eqn:E2.
    + intros [= <-]. right. left. split; [exact Hno|].
      apply (first_track_some _ _ _ _ E2).
    + intros [= <-]. right. right. split; [|reflexivity].
      intros code u Hc Hu.
      pose proof (Hno code u Hc Hu) as H1.
      pose proof (first_track_none _ _ _ E2 code u Hc Hu) as H2.
      unfold is_manual, is_asr in H1, H2.
      destruct (eq_str (get u "languageCode") code); [|reflexivity].
      destruct (eq_str (get u "kind") (py "asr")); discriminate.
Qed.

End CaptionTracks.

(** An automatic English track before a manual one: the manual one is
    returned. *)
Lemma select_track_preference_witness :
  select_track [asr_track "en"; manual_track "en"] default_langs
  = Some (manual_track "en")
  /\ ((exists code, code ∈ default_langs
                    /\ is_manual code (manual_track "en") = true)
      \/ ((forall code u,
              code ∈ default_langs ->
              u ∈ [asr_track "en"; manual_track "en"] ->
              is_manual code u = false)
          /\ exists code, code ∈ default_langs
                          /\ is_asr code (manual_track "en") = true)
      \/ ((forall code u,
              code ∈ default_langs ->
              u ∈ [asr_track "en"; manual_track "en"] ->
              eq_str (get u "languageCode") code = false)
          /\ head [asr_track "en"; manual_track "en"]
             = Some (manual_track "en"))).
Proof.
  assert (select_track [asr_track "en"; manual_track "en"] default_langs
          = Some (manual_track "en")) as H by (vm_compute; reflexivity).
  split; [exact H|].
  exact (select_track_preference _ _ _ H).
Defined.

(* ===================================================================== *)
(** * The lines of [format_text] under the patterns of the parser         *)
(* ===================================================================== *)

Section BracketLines.

Variables (a b c d : N) (text : jsstr).
Hypotheses (digit_a : is_digit a = true) (digit_b : is_digit b = true)
  (digit_c : is_digit c = true) (digit_d : is_digit d = true).
Hypothesis text_not_empty : text <> [].
Hypothesis text_one_line : forallb is_dot text = true.
Hypothesis text_head : forall x, head text = Some x -> is_space x = false.

Lemma text_group (i : nat) (cs : captures) :
  rmatch (Seq (Group i rest) Eps) text cs
    (fun s' c' => match s' with [] => Some c' | _ => None end)
  = Some (<[i := text]> cs).
Proof.
  destruct text as [|x t] eqn:E; [congruence|].
  cbn [forallb] in text_one_line.
  apply andb_true_iff in text_one_line as [Hx Ht].
  rewrite rmatch_seq, rmatch_group. unfold rest, plus, dot.
  rewrite rmatch_seq, (rmatch_chr_ok is_dot) by exact Hx. cbv beta.
  rewrite <- (app_nil_r t) at 1.
  erewrite (rmatch_star_run is_dot t []); [reflexivity | exact Ht | |].
  - intros ? [=].
  - cbv beta. rewrite rmatch_eps. cbn [length]. rewrite Nat.sub_0_r.
    change (S (length t)) with (length (x :: t)).
    rewrite take_ge by lia. reflexivity.
Qed.

Lemma bracket_start_line :
  exec re_bracket_start (bracket_line a b c d text)
  = Some (<[2%nat := text]>
            (<[1%nat := [a; b; N_of_ascii ":"; c; d]]> ∅)).
Proof.
  unfold exec, re_bracket_start, m_ss, rep, upto, opt, d2, digit, space,
    bracket_line.
  cbn [seqs foldr times Nat.sub]. run.
  rewrite rmatch_alt. run.
  change (N_of_ascii " " :: text) with ([N_of_ascii " "] ++ text).
  erewrite (rmatch_star_run is_space [N_of_ascii " "] text);
    [reflexivity | reflexivity | exact text_head |].
  cbv beta. rewrite text_group. do 2 f_equal.
  change (a :: b :: N_of_ascii ":" :: c :: d :: N_of_ascii "]"
          :: [N_of_ascii " "] ++ text)
    with ([a; b; N_of_ascii ":"; c; d]
          ++ N_of_ascii "]" :: N_of_ascii " " :: text).
  rewrite take_consumed. reflexivity.
Qed.

Lemma bracket_range_line :
  exec re_bracket_range (bracket_line a b c d text) = None.
Proof.
  unfold exec, re_bracket_range, hms, d2, digit, bracket_line.
  cbn [seqs foldr times]. run.
  apply rmatch_lit_other. discriminate.
Qed.

Lemma other_layouts_line :
  exec re_srt (bracket_line a b c d text) = None
  /\ exec re_simple_range (bracket_line a b c d text) = None
  /\ exec re_number_range (bracket_line a b c d text) = None.
Proof. repeat split; reflexivity. Qed.

End BracketLines.

Section FormattedLines.

(** Two decimal digits for a number below 100. *)
Lemma two_digits (n : nat) :
  (n < 100)%nat ->
  exists a b, padStart0 2 (String_of_N (N.of_nat n)) = [a; b]
              /\ is_digit a = true /\ is_digit b = true
              /\ digits_value 10 [a; b] = Z.of_nat n.
Proof.
  intros H.
  do 100 (destruct n as [|n];
          [eexists _, _; repeat split; vm_compute; reflexivity|]).
  lia.
Qed.

Lemma format_02d_two (z : Z) :
  (0 <= z < 100)%Z ->
  exists a b, format_02d z = [a; b]
              /\ is_digit a = true /\ is_digit b = true
              /\ digits_value 10 [a; b] = z.
Proof.
  intros H. unfold format_02d, digits.
  destruct (Z.ltb_spec z 0) as [?|_]; [lia|].
  destruct (two_digits (Z.to_nat z)) as (a & b & E & Ha & Hb & Hv); [lia|].
  exists a, b. rewrite <- Z_N_nat, N2Nat.id in E.
  repeat split; try assumption. lia.
Qed.

Lemma Qtrunc_nonneg (q : Q) :
  (0 <= q)%Q -> Qtrunc q = Qfloor q /\ (0 <= Qfloor q)%Z.
Proof.
  intros H. rewrite Qtrunc_floor_ceiling.
  rewrite (proj2 (Qle_bool_iff 0 q) H). split; [reflexivity|].
  rewrite <- (Qfloor_Z 0). apply Qfloor_resp_le, H.
Qed.

(** The line of a transferable snippet. *)
Lemma format_line_transferable (s : snippet) :
  transferable s ->
  exists a b c d,
    format_line s = Some (bracket_line a b c d (snip_text s))
    /\ is_digit a = true /\ is_digit b = true
    /\ is_digit c = true /\ is_digit d = true
    /\ (digits_value 10 [a; b] * 60 + digits_value 10 [c; d])%Z
       = whole_second s.
Proof.
  intros ((q & Hq & H0 & H1) & _). unfold format_line, whole_second.
  rewrite Hq. cbn [int mbind option_bind].
  destruct (Qtrunc_nonneg q H0) as [-> Hf].
  assert (Qfloor q < 6000)%Z as Hlt.
  { apply Z.lt_nge. intros Hge.
    assert (inject_Z 6000 <= q)%Q as Hq'.
    { eapply Qle_trans; [|apply Qfloor_le]. rewrite <- Zle_Qle. exact Hge. }
    change (inject_Z 6000) with 6000%Q in Hq'. lra. }
  destruct (format_02d_two (Qfloor q / 60)) as (a & b & Ea & Ha & Hb & Va).
  { split; [apply Z.div_pos; lia|]. apply Z.div_lt_upper_bound; lia. }
  destruct (format_02d_two (Qfloor q mod 60)) as (c & d & Ec & Hc & Hd & Vc).
  { pose proof (Z.mod_pos_bound (Qfloor q) 60); lia. }
  exists a, b, c, d. rewrite Ea, Ec. split; [reflexivity|].
  repeat split; try assumption. rewrite Va, Vc.
  rewrite (Z.div_mod (Qfloor q) 60) at 3 by lia. lia.
Qed.

Lemma digit_bmp (x : N) : is_digit x = true -> utf16_char x = [x].
Proof.
  unfold is_digit, in_range, utf16_char. intros H.
  apply andb_true_iff in H as [_ H]. apply N.leb_le in H.
  destruct (N.ltb_spec x 65536); [reflexivity | lia].
Qed.

Lemma utf16_app (u v : pystr) : utf16 (u ++ v) = utf16 u ++ utf16 v.
Proof. apply flat_map_app. Qed.

Lemma utf16_bracket_line (a b c d : N) (text : pystr) :
  is_digit a = true -> is_digit b = true ->
  is_digit c = true -> is_digit d = true ->
  utf16 (bracket_line a b c d text) = bracket_line a b c d (utf16 text).
Proof.
  intros Ha Hb Hc Hd. unfold bracket_line, utf16. cbn [flat_map].
  rewrite (digit_bmp a Ha), (digit_bmp b Hb), (digit_bmp c Hc),
    (digit_bmp d Hd). reflexivity.
Qed.

Lemma utf16_join (lines : list pystr) :
  utf16 (join [10%N] lines) = join [10%N] (map utf16 lines).
Proof.
  induction lines as [|l [|l' lines] IH]; [reflexivity| |].
  - reflexivity.
  - change (join [10%N] (l :: l' :: lines))
      with (l ++ [10%N] ++ join [10%N] (l' :: lines)).
    rewrite !utf16_app, IH. reflexivity.
Qed.

(** Splitting what was joined: lines without a line terminator. *)
Lemma split_lines_go_other (x : N) (s cur : jsstr) :
  x <> 10%N -> x <> 13%N ->
  split_lines_go (x :: s) cur = split_lines_go s (x :: cur).
Proof.
  intros H10 H13. destruct x as [|p]; [reflexivity|].
  do 4 (destruct p as [p|p|]; try reflexivity); congruence.
Qed.

Lemma dot_not_break (x : N) : is_dot x = true -> x <> 10%N /\ x <> 13%N.
Proof.
  unfold is_dot, is_line_terminator. rewrite negb_true_iff. intros H.
  split; intros ->; discriminate H.
Qed.

Lemma split_lines_go_line (l cur : jsstr) :
  forallb is_dot l = true ->
  split_lines_go l cur = [reverse cur ++ l]
  /\ forall r, split_lines_go (l ++ 10%N :: r) cur
               = (reverse cur ++ l) :: split_lines_go r [].
Proof.
  revert cur. induction l as [|x l IH]; intros cur H.
  - rewrite app_nil_r. split; reflexivity.
  - cbn in H. apply andb_true_iff in H as [Hx Hl].
    destruct (dot_not_break x Hx) as [H10 H13].
    destruct (IH (x :: cur) Hl) as [IH1 IH2].
    rewrite reverse_cons, <- app_assoc in IH1, IH2. cbn [app] in IH1, IH2.
    split.
    + rewrite split_lines_go_other by assumption. exact IH1.
    + intros r. cbn [app]. rewrite split_lines_go_other by assumption.
      apply IH2.
Qed.

Lemma split_lines_join (lines : list jsstr) :
  lines <> [] -> Forall (fun l => forallb is_dot l = true) lines ->
  split_lines (join [10%N] lines) = lines.
Proof.
  unfold split_lines. induction lines as [|l [|l' lines] IH]; intros Hne H.
  - congruence.
  - apply Forall_cons in H as [Hl _].
    apply (split_lines_go_line l [] Hl).
  - apply Forall_cons in H as [Hl H].
    change (join [10%N] (l :: l' :: lines))
      with (l ++ 10%N :: join [10%N] (l' :: lines)).
    rewrite (proj2 (split_lines_go_line l [] Hl)). cbn [reverse app].
    rewrite IH by (try discriminate; exact H). reflexivity.
Qed.

End FormattedLines.

Section TranscriptRoundTrip.

Lemma digit_is_dot (x : N) : is_digit x = true -> is_dot x = true.
Proof.
  unfold is_digit, in_range, is_dot, is_line_terminator. intros H.
  bool_to_prop. lia.
Qed.

Lemma last_bracket_line (a b c d : N) (text : jsstr) :
  text <> [] -> last (bracket_line a b c d text) = last text.
Proof.
  intros H. unfold bracket_line. destruct text as [|x t]; [congruence|].
  reflexivity.
Qed.

(** What the parser makes of one line "[mm:ss] text". *)
Lemma parse_bracket_line (a b c d : N) (text : jsstr)
    (next_line : option jsstr) :
  is_digit a = true -> is_digit b = true ->
  is_digit c = true -> is_digit d = true ->
  text <> [] -> forallb is_dot text = true ->
  (forall x, head text = Some x -> is_space x = false) ->
  (forall x, last text = Some x -> is_space x = false) ->
  parse_line (bracket_line a b c d text) next_line
  = [mkEntry (of_Z (digits_value 10 [a; b] * 60 + digits_value 10 [c; d]))
             None text].
Proof.
  intros Ha Hb Hc Hd Hne Hdot Hh Hl. unfold parse_line.
  change (match bracket_line a b c d text with
          | [] => []
          | _ => ?body
          end) with body.
  rewrite (bracket_range_line a b c d text Ha Hb Hc Hd).
  destruct (other_layouts_line a b c d text) as (-> & -> & ->).
  rewrite (bracket_start_line a b c d text Ha Hb Hc Hd Hne Hdot Hh).
  unfold group. rewrite lookup_insert_eq.
  rewrite lookup_insert_ne, lookup_insert_eq by discriminate.
  cbn [default from_option id]. rewrite (trim_id text Hh Hl).
  change [a; b; N_of_ascii ":"; c; d] with ([a; b] ++ [58%N] ++ [c; d]).
  rewrite simple_value; [reflexivity | |]; split; try discriminate;
    cbn [forallb]; rewrite ?Ha, ?Hb, ?Hc, ?Hd; reflexivity.
Qed.

Lemma format_line_read_back (s : snippet) :
  transferable s ->
  exists l, format_line s = Some l /\ read_back s (utf16 l).
Proof.
  intros Ht.
  destruct (format_line_transferable s Ht)
    as (a & b & c & d & E & Ha & Hb & Hc & Hd & Hv).
  destruct Ht as (_ & Hne & Hdot & Hh & Hl).
  assert (utf16 (snip_text s) <> []) as Hne'.
  { destruct (snip_text s) as [|x t]; [congruence|].
    unfold utf16. cbn [flat_map]. unfold utf16_char.
    destruct (x <? 65536)%N; discriminate. }
  exists (bracket_line a b c d (snip_text s)). split; [exact E|].
  rewrite utf16_bracket_line by assumption. split; [|split].
  - apply trim_id.
    + intros x [= <-]. reflexivity.
    + rewrite last_bracket_line by exact Hne'. exact Hl.
  - unfold bracket_line. cbn [forallb].
    rewrite (digit_is_dot a Ha), (digit_is_dot b Hb), (digit_is_dot c Hc),
      (digit_is_dot d Hd), Hdot. reflexivity.
  - intros nxt. rewrite parse_bracket_line by assumption.
    unfold snippet_entry. rewrite Hv. reflexivity.
Qed.

Lemma format_lines_read_back (snippets : list snippet) (acc : list pystr) :
  Forall transferable snippets ->
  exists ls, format_lines snippets acc = Some (acc ++ ls)
             /\ Forall2 read_back snippets (map utf16 ls).
Proof.
  intros H. revert acc. induction H as [|s snippets Hs _ IH]; intros acc.
  - exists []. rewrite app_nil_r. split; [reflexivity | constructor].
  - destruct (format_line_read_back s Hs) as (l & El & Hl).
    destruct (IH (acc ++ [l])) as (ls & E & Hls).
    exists (l :: ls). cbn [format_lines].
    destruct Hs as (_ & Hne & _).
    destruct (snip_text s) as [|x t] eqn:Et; [congruence|].
    rewrite El. cbn [mbind option_bind]. rewrite E, <- app_assoc.
    split; [reflexivity|]. cbn [map]. constructor; assumption.
Qed.

Lemma parse_lines_read_back (snippets : list snippet) (ls : list jsstr)
    (acc : list entry) :
  Forall2 read_back snippets ls ->
  parse_lines (map trim ls) acc = acc ++ map snippet_entry snippets.
Proof.
  intros H. revert acc. induction H as [|s l snippets ls Hl _ IH]; intros acc.
  - cbn. rewrite app_nil_r. reflexivity.
  - destruct Hl as (Ht & _ & Hp). cbn [map parse_lines].
    rewrite Ht, Hp, IH, <- app_assoc. reflexivity.
Qed.

(** The entries the parser reads in the text of [format_text]. *)
Lemma format_text_entries (snippets : list snippet) :
  Forall transferable snippets ->
  exists out,
    format_text snippets = Some out
    /\ parseEntries (utf16 out) = map snippet_entry snippets.
Proof.
  intros H. destruct (format_lines_read_back snippets [] H) as (ls & E & Hls).
  exists (join [10%N] ls). unfold format_text. rewrite E.
  split; [reflexivity|]. unfold parseEntries. rewrite utf16_join.
  destruct snippets as [|s snippets].
  - apply Forall2_nil_inv_l, map_eq_nil in Hls. subst ls. reflexivity.
  - rewrite split_lines_join.
    + apply (parse_lines_read_back _ _ [] Hls).
    + inversion Hls; discriminate.
    + clear -Hls. induction Hls as [|? ? ? ? (_ & Hd & _) _ IH]; constructor;
        assumption.
Qed.

(** Entries without an end get synthesized ends. *)
Lemma synthesize_snippets (snippets : list snippet) :
  synthesize (map snippet_entry snippets)
  = synthesize_ends (map snippet_entry snippets).
Proof. destruct snippets; reflexivity. Qed.

(** X19.  The transcript [format_text] writes is read back by
    [parseTranscriptFile] snippet for snippet: when every snippet starts
    before the hundredth minute and has a text of one line, not empty and
    without white space at its ends, the segments are those of the
    snippets, in order, each starting at the whole second [int(start)] of
    its snippet and ending where the next one starts (three seconds after
    its start for the last), with the snippet's text. *)
Theorem format_text_read_back (snippets : list snippet) :
  Forall transferable snippets ->
  exists out,
    format_text snippets = Some out
    /\ parseTranscriptFile (utf16 out)
       = synthesize_ends (map snippet_entry snippets).
Proof.
  intros H. destruct (format_text_entries snippets H) as (out & E & Hp).
  exists out. split; [exact E|].
  unfold parseTranscriptFile. rewrite Hp. apply synthesize_snippets.
Qed.

End TranscriptRoundTrip.

(** Two snippets, at 5.2 s and at 65 s: the lines "[00:05] hello" and
    "[01:05] world" come back as the segments {5, 65} and {65, 68}. *)
Lemma format_text_read_back_witness :
  exists out,
    format_text [mkSnippet (py "hello") (Fin (52 # 10)) (Fin 2);
                 mkSnippet (py "world") (Fin 65) (Fin 2)] = Some out
    /\ parseTranscriptFile (utf16 out)
       = synthesize_ends
           (map snippet_entry
                [mkSnippet (py "hello") (Fin (52 # 10)) (Fin 2);
                 mkSnippet (py "world") (Fin 65) (Fin 2)]).
Proof.
  apply format_text_read_back.
  repeat constructor; try (eexists; split; [reflexivity|]);
    try discriminate; try reflexivity;
    try (split; [vm_compute; discriminate | vm_compute; reflexivity]);
    intros x [= <-]; reflexivity.
Defined.

(* ===================================================================== *)
(** * Lines the parser drops                                              *)
(* ===================================================================== *)

Section DroppedLines.

Lemma digit_value_le (x : N) : is_digit x = true -> (digit_value x <= 9)%Z.
Proof.
  unfold digit_value. intros H. rewrite H. unfold is_digit, in_range in H.
  bool_to_prop. lia.
Qed.

Lemma fold_digits_lt (w : jsstr) (acc : Z) :
  forallb is_digit w = true -> (0 <= acc)%Z ->
  (fold_left (fun a c => a * 10 + digit_value c) w acc
   < (acc + 1) * 10 ^ Z.of_nat (length w))%Z.
Proof.
  revert acc. induction w as [|x w IH]; intros acc H Hacc.
  - cbn. lia.
  - cbn [forallb] in H. apply andb_true_iff in H as [Hx Hw].
    pose proof (digit_value_le x Hx) as Hle.
    pose proof (digit_value_nonneg x Hx) as Hge.
    cbn [fold_left length]. rewrite Nat2Z.inj_succ, Z.pow_succ_r by lia.
    specialize (IH (acc * 10 + digit_value x)%Z Hw ltac:(lia)).
    assert (0 < 10 ^ Z.of_nat (length w))%Z by (apply Z.pow_pos_nonneg; lia).
    nia.
Qed.

(** A number of 100 or more is written with three digits at least. *)
Lemma format_02d_three (z : Z) :
  (100 <= z)%Z ->
  exists a b c w, format_02d z = a :: b :: c :: w
                  /\ is_digit a = true /\ is_digit b = true
                  /\ is_digit c = true.
Proof.
  intros H. unfold format_02d, digits.
  destruct (Z.ltb_spec z 0) as [?|_]; [lia|].
  pose proof (uint_digits_are_digits (N.to_uint (Z.to_N z))) as Hd.
  pose proof (String_of_N_value (Z.to_N z)) as Hv.
  change (uint_digits (N.to_uint (Z.to_N z))) with (String_of_N (Z.to_N z))
    in Hd.
  pose proof (fold_digits_lt (String_of_N (Z.to_N z)) 0 Hd ltac:(lia)) as Hlt.
  fold (digits_value 10 (String_of_N (Z.to_N z))) in Hlt. rewrite Hv in Hlt.
  destruct (String_of_N (Z.to_N z)) as [|a [|b [|c w]]];
    cbn [length] in Hlt; try (cbn in Hlt; lia).
  exists a, b, c, w. cbn [forallb] in Hd.
  apply andb_true_iff in Hd as [Ha Hd]. apply andb_true_iff in Hd as [Hb Hd].
  apply andb_true_iff in Hd as [Hc _]. auto.
Qed.

(** Trimming stops at a character that is not white space. *)
Lemma drop_while_snoc {A} (p : A -> bool) (u : list A) (x : A) :
  p x = false -> drop_while p (u ++ [x]) = drop_while p u ++ [x].
Proof.
  intros H. induction u as [|y u IH]; cbn [app drop_while].
  - rewrite H. reflexivity.
  - destruct (p y); [exact IH | reflexivity].
Qed.

Lemma trim_cons (x : N) (s : jsstr) :
  is_space x = false -> trim (x :: s) = x :: trimEnd s.
Proof.
  intros H. unfold trim, trimStart, trimEnd. cbn [drop_while]. rewrite H.
  rewrite reverse_cons, drop_while_snoc by exact H.
  rewrite reverse_app. reflexivity.
Qed.

Lemma trimEnd_cons (x : N) (s : jsstr) :
  is_space x = false -> trimEnd (x :: s) = x :: trimEnd s.
Proof.
  intros H. unfold trimEnd.
  rewrite reverse_cons, drop_while_snoc by exact H.
  rewrite reverse_app. reflexivity.
Qed.

Lemma digit_not_colon (x : N) : is_digit x = true -> x <> N_of_ascii ":".
Proof. intros H ->. discriminate H. Qed.

(** No layout takes a line that opens with a bracket and three digits. *)
Lemma parse_line_three_digits (a b c : N) (s : jsstr)
    (next_line : option jsstr) :
  is_digit a = true -> is_digit b = true -> is_digit c = true ->
  parse_line (N_of_ascii "[" :: a :: b :: c :: s) next_line = [].
Proof.
  intros Ha Hb Hc. unfold parse_line.
  assert (exec re_bracket_range (N_of_ascii "[" :: a :: b :: c :: s) = None)
    as ->.
  { unfold exec, re_bracket_range, hms, d2, digit.
    cbn [seqs foldr times]. run.
    apply rmatch_lit_other, digit_not_colon, Hc. }
  assert (exec re_bracket_start (N_of_ascii "[" :: a :: b :: c :: s) = None)
    as E.
  { unfold exec, re_bracket_start, m_ss, rep, upto, opt, d2, digit.
    cbn [seqs foldr times Nat.sub]. run. rewrite rmatch_alt. run.
    rewrite (rmatch_lit_other ":" c) by (apply digit_not_colon, Hc).
    apply rmatch_lit_other, digit_not_colon, Hb. }
  change (exec re_srt (N_of_ascii "[" :: a :: b :: c :: s)) with (@None captures).
  change (exec re_simple_range (N_of_ascii "[" :: a :: b :: c :: s))
    with (@None captures).
  change (exec re_number_range (N_of_ascii "[" :: a :: b :: c :: s))
    with (@None captures).
  rewrite E. reflexivity.
Qed.

(** Nor one that opens with a bracket and a minus sign. *)
Lemma parse_line_minus (s : jsstr) (next_line : option jsstr) :
  parse_line (N_of_ascii "[" :: N_of_ascii "-" :: s) next_line = [].
Proof. reflexivity. Qed.

End DroppedLines.

(* ===================================================================== *)
(** * Subtitle files whose captions hold no digit                         *)
(* ===================================================================== *)

Section SubtitleFiles.

Lemma groups_sound_trivial (r : regex) : groups_sound (fun _ _ => True) r.
Proof. induction r; cbn; auto. Qed.

(** A pattern with a part that needs a character of a class matches no
    line made of characters outside the class. *)
Lemma exec_needs (rs : list regex) (r : regex) (other : N -> bool)
    (line : jsstr) :
  In r rs ->
  (forall x, matches r x -> exists c, c ∈ x /\ other c = false) ->
  forallb other line = true ->
  exec (seqs rs) line = None.
Proof.
  intros Hin Hr Hline. destruct (exec (seqs rs) line) as [m|] eqn:E;
    [exfalso | reflexivity].
  destruct (exec_sound (fun _ _ => True) (seqs rs) line m
              (groups_sound_trivial _) E) as [M _].
  destruct (matches_seqs_component rs r line Hin M)
    as (pre & x & post & -> & Hx).
  destruct (Hr x Hx) as (c & Hc & Ec).
  rewrite forallb_forall in Hline. rewrite Hline in Ec; [discriminate|].
  apply list_elem_of_In, elem_of_app. right.
  apply elem_of_app. left. exact Hc.
Qed.

Lemma lit_not_digit (a : ascii) (x : jsstr) :
  is_digit (N_of_ascii a) = false ->
  matches (lit a) x -> exists c, c ∈ x /\ is_digit c = false.
Proof.
  intros H M. apply matches_lit_inv in M as ->.
  exists (N_of_ascii a). split; [left | exact H].
Qed.

Lemma spaces_not_digit (x : jsstr) :
  matches (plus space) x -> exists c, c ∈ x /\ is_digit c = false.
Proof.
  intros M. apply matches_plus_chr in M as [Hne Hf].
  destruct x as [|c x]; [congruence|]. cbn in Hf.
  apply andb_true_iff in Hf as [Hc _]. exists c. split; [left|].
  destruct (is_digit c) eqn:E; [|reflexivity].
  rewrite (digit_not_space c E) in Hc. discriminate.
Qed.

(** A line of digits (the counter of a block) matches no layout. *)
Lemma parse_line_digits (line : jsstr) (next_line : option jsstr) :
  forallb is_digit line = true -> parse_line line next_line = [].
Proof.
  intros H. unfold parse_line. destruct line as [|c0 line0]; [reflexivity|].
  set (line := c0 :: line0) in *. clearbody line.
  unfold re_bracket_range, re_srt, re_simple_range, re_number_range,
    re_bracket_start, re_paren_start, re_simple_start, re_number_start.
  rewrite (exec_needs _ (lit "[") is_digit line)
    by (first [exact H | cbn; tauto | intros x; apply lit_not_digit; reflexivity]).
  rewrite !(exec_needs _ (lit "-") is_digit line)
    by (first [exact H | cbn; tauto | intros x; apply lit_not_digit; reflexivity]).
  rewrite (exec_needs _ (lit "[") is_digit line)
    by (first [exact H | cbn; tauto | intros x; apply lit_not_digit; reflexivity]).
  rewrite (exec_needs _ (lit "(") is_digit line)
    by (first [exact H | cbn; tauto | intros x; apply lit_not_digit; reflexivity]).
  rewrite !(exec_needs _ (plus space) is_digit line)
    by (first [exact H | cbn; tauto | exact spaces_not_digit]).
  reflexivity.
Qed.

End SubtitleFiles.

Section SubtitleText.

Lemma split_lines_terminated (lines : list jsstr) :
  Forall (fun l => forallb is_dot l = true) lines ->
  split_lines (flat_map (fun l => l ++ [10%N]) lines) = lines ++ [[]].
Proof.
  unfold split_lines. induction 1 as [|l lines Hl _ IH]; [reflexivity|].
  cbn [flat_map]. rewrite <- app_assoc. cbn [app].
  rewrite (proj2 (split_lines_go_line l [] Hl)), IH. reflexivity.
Qed.

Lemma digits_are_dots (l : jsstr) :
  forallb is_digit l = true -> forallb is_dot l = true.
Proof.
  induction l as [|x l IH]; [reflexivity|]. cbn [forallb].
  rewrite !andb_true_iff. intros [Hx Hl].
  split; [apply digit_is_dot, Hx | apply IH, Hl].
Qed.

Lemma stamp_text_dots (t : stamp) :
  stamp_ok t -> forallb is_dot (stamp_text t) = true.
Proof.
  unfold stamp_ok, stamp_text. cbn [forallb]. intros H.
  split_tests.
  repeat match goal with
         | H : is_digit ?x = true |- _ =>
             rewrite (digit_is_dot x H); clear H
         end.
  reflexivity.
Qed.

(** The lines of a well-formed block, as the loop of the parser meets
    them: none has a line terminator and trimming changes none. *)
Lemma block_lines_plain (b : block) :
  well_formed b ->
  Forall (fun l => forallb is_dot l = true /\ trim l = l) (block_lines b).
Proof.
  intros ([Hne Hc] & Ha & Hd & Hcap & Hmore). unfold block_lines.
  cbn [app]. constructor; [|constructor; [|constructor]].
  - split; [apply digits_are_dots, Hc|]. apply trim_id.
    + intros c Hh. destruct (counter b) as [|x l]; [discriminate|].
      injection Hh as <-. cbn in Hc. apply andb_true_iff in Hc as [Hx _].
      apply digit_not_space, Hx.
    + intros c Hl. apply digit_not_space.
      rewrite forallb_forall in Hc. apply Hc, list_elem_of_In.
      eapply last_Some_elem_of, Hl.
  - unfold timing_line. split.
    + rewrite !forallb_app, !stamp_text_dots by assumption. reflexivity.
    + pose proof Ha as Ha'. pose proof Hd as Hd'.
      unfold stamp_ok in Ha', Hd'. cbn [forallb] in Ha', Hd'.
      split_tests.
      apply trim_id.
      * intros c [= <-]. apply digit_not_space. assumption.
      * unfold stamp_text. cbn [js list_ascii_of_string map app].
        intros c [= <-]. apply digit_not_space. assumption.
  - destruct Hcap as (_ & _ & Hdot & Hh & Hl).
    split; [exact Hdot | apply trim_id; assumption].
  - apply Forall_app. split.
    + eapply Forall_impl; [exact Hmore|]. cbn beta.
      intros l (_ & _ & Hdot & Hh & Hl).
      split; [exact Hdot | apply trim_id; assumption].
    + constructor; [|constructor]. split; reflexivity.
Qed.

Lemma map_trim_id (lines : list jsstr) :
  Forall (fun l => trim l = l) lines -> map trim lines = lines.
Proof.
  induction 1 as [|l lines Hl _ IH]; [reflexivity|].
  cbn [map]. rewrite Hl, IH. reflexivity.
Qed.

End SubtitleText.

(* ===================================================================== *)
(** * Transcripts made of ranges                                          *)
(* ===================================================================== *)

Section RangeFiles.

(** One line of ranges under the first layout. *)
Lemma range_line_entry (r : range) (next_line : option jsstr) :
  range_ok r -> parse_line (range_line r) next_line = [range_entry r].
Proof.
  intros (Ha & Hb & Hne & Hdot & Hh & Hl).
  unfold clock_ok in Ha, Hb. cbn [forallb] in Ha, Hb. split_tests.
  unfold range_entry, clock_seconds, parse_line, range_line, clock_text.
  destruct (r_from r) as [a1 a2 a3 a4 a5 a6].
  destruct (r_to r) as [b1 b2 b3 b4 b5 b6].
  cbn [k1 k2 k3 k4 k5 k6 js list_ascii_of_string map app] in *.
  assert (exec re_bracket_range
            (N_of_ascii "[" :: a1 :: a2 :: N_of_ascii ":" :: a3 :: a4
             :: N_of_ascii ":" :: a5 :: a6 :: N_of_ascii " "
             :: N_of_ascii "-" :: N_of_ascii " " :: b1 :: b2
             :: N_of_ascii ":" :: b3 :: b4 :: N_of_ascii ":" :: b5 :: b6
             :: N_of_ascii "]" :: N_of_ascii " " :: r_text r)
          = Some (<[3%nat := r_text r]>
                    (<[2%nat := [b1; b2; N_of_ascii ":"; b3; b4;
                                 N_of_ascii ":"; b5; b6]]>
                       (<[1%nat := [a1; a2; N_of_ascii ":"; a3; a4;
                                    N_of_ascii ":"; a5; a6]]> ∅)))) as ->.
  { unfold exec, re_bracket_range, hms, d2, digit, space.
    cbn [seqs foldr times]. run.
    match goal with
    | |- rmatch (Star (Chr is_space)) (N_of_ascii " " :: ?s) _ _ = _ =>
        change (N_of_ascii " " :: s) with ([N_of_ascii " "] ++ s)
    end.
    erewrite (rmatch_star_run is_space [N_of_ascii " "]);
      [reflexivity | reflexivity | intros ? [= <-]; reflexivity |].
    run.
    match goal with
    | |- rmatch (Star (Chr is_space)) (N_of_ascii " " :: ?s) _ _ = _ =>
        change (N_of_ascii " " :: s) with ([N_of_ascii " "] ++ s)
    end.
    erewrite (rmatch_star_run is_space [N_of_ascii " "]);
      [reflexivity | reflexivity
      | intros ? [= <-]; apply digit_not_space; assumption |].
    run.
    match goal with
    | |- rmatch (Star (Chr is_space)) (N_of_ascii " " :: ?s) _ _ = _ =>
        change (N_of_ascii " " :: s) with ([N_of_ascii " "] ++ s)
    end.
    erewrite (rmatch_star_run is_space [N_of_ascii " "]);
      [reflexivity | reflexivity | exact Hh |].
    cbv beta. rewrite (text_group (r_text r) Hne Hdot Hh).
    rewrite (take_prefix [b1; b2; N_of_ascii ":"; b3; b4; N_of_ascii ":";
                          b5; b6]) by reflexivity.
    rewrite (take_prefix [a1; a2; N_of_ascii ":"; a3; a4; N_of_ascii ":";
                          a5; a6]) by reflexivity.
    reflexivity. }
  unfold group.
  repeat (rewrite lookup_insert_eq || rewrite lookup_insert_ne by discriminate).
  cbn [default from_option id]. rewrite (trim_id (r_text r) Hh Hl).
  change [a1; a2; N_of_ascii ":"; a3; a4; N_of_ascii ":"; a5; a6]
    with ([a1; a2] ++ [58%N] ++ [a3; a4] ++ [58%N] ++ [a5; a6]).
  change [b1; b2; N_of_ascii ":"; b3; b4; N_of_ascii ":"; b5; b6]
    with ([b1; b2] ++ [58%N] ++ [b3; b4] ++ [58%N] ++ [b5; b6]).
  rewrite !hhmmss_value;
    try (split; [discriminate | cbn [forallb];
                 repeat match goal with
                        | H : is_digit _ = true |- _ => rewrite H; clear H
                        end; reflexivity]).
  reflexivity.
Qed.

Lemma range_lines_plain (ranges : list range) :
  Forall range_ok ranges ->
  Forall (fun l => forallb is_dot l = true /\ trim l = l)
         (map range_line ranges).
Proof.
  induction 1 as [|r ranges Hr _ IH]; [constructor|].
  cbn [map]. constructor; [|exact IH].
  destruct Hr as (Ha & Hb & Hne & Hdot & Hh & Hl).
  unfold clock_ok in Ha, Hb. cbn [forallb] in Ha, Hb. split_tests.
  unfold range_line, clock_text.
  cbn [js list_ascii_of_string map app]. split.
  - cbn [forallb].
    repeat match goal with
           | H : is_digit ?x = true |- _ =>
               rewrite (digit_is_dot x H); clear H
           end.
    rewrite Hdot. reflexivity.
  - apply trim_id.
    + intros c [= <-]. reflexivity.
    + intros c Hc. apply Hl. rewrite <- Hc.
      destruct (r_text r) as [|x t]; [congruence|].
      cbn [app]. rewrite !last_cons_cons. reflexivity.
Qed.

Lemma parse_lines_ranges (ranges : list range) (acc : list entry) :
  Forall range_ok ranges ->
  parse_lines (map range_line ranges ++ [[]]) acc
  = acc ++ map range_entry ranges.
Proof.
  intros H. revert acc. induction H as [|r ranges Hr _ IH]; intros acc.
  - cbn. rewrite !app_nil_r. reflexivity.
  - cbn [map app parse_lines]. rewrite (range_line_entry r _ Hr).
    rewrite IH, <- app_assoc. reflexivity.
Qed.

(** X23.  A transcript of lines "[hh:mm:ss - hh:mm:ss] text" is parsed
    line for line, whatever the digits and whatever the texts hold
    (digits included): the segments are one per line, in order, from
    [hh * 3600 + mm * 60 + ss] of the first time to that of the second,
    with the text of the line; minutes and seconds above 59 are taken as
    they are, and neither time is compared with the other. *)
Theorem range_file_parsed (ranges : list range) :
  Forall range_ok ranges ->
  parseTranscriptFile (range_text ranges) = map range_entry ranges.
Proof.
  intros H. unfold parseTranscriptFile, parseEntries, range_text.
  pose proof (range_lines_plain ranges H) as Hlines.
  rewrite split_lines_terminated
    by (eapply Forall_impl; [exact Hlines|]; cbn beta; tauto).
  rewrite map_trim_id.
  - rewrite (parse_lines_ranges ranges [] H). cbn [app].
    destruct ranges as [|r ranges]; reflexivity.
  - apply Forall_app. split.
    + eapply Forall_impl; [exact Hlines|]. cbn beta. tauto.
    + constructor; [reflexivity | constructor].
Qed.

End RangeFiles.

(** Two lines; the second one runs backwards and has 75 seconds. *)
Lemma range_file_parsed_witness :
  parseTranscriptFile
    (range_text
       [mkRange (mkClock 48 48 48 48 48 53) (mkClock 48 48 48 48 48 56)
                (js "hello world");
        mkRange (mkClock 48 48 48 49 55 53) (mkClock 48 48 48 49 48 48)
                (js "take 2")])
  = [mkEntry (of_Z 5) (Some (of_Z 8)) (js "hello world");
     mkEntry (of_Z 135) (Some (of_Z 60)) (js "take 2")].
Proof.
  rewrite range_file_parsed; [vm_compute; reflexivity|].
  repeat constructor; try discriminate; try reflexivity;
    try (intros c [= <-]; reflexivity).
Defined.

(* ===================================================================== *)
(** * Rounding to binary64                                                *)
(* ===================================================================== *)

Section Rounding.

Local Open Scope Q_scope.

Lemma round_half_even_bounds (q : Q) :
  inject_Z (Binary64.round_half_even q) - (1 # 2) <= q
  /\ q <= inject_Z (Binary64.round_half_even q) + (1 # 2).
Proof.
  unfold Binary64.round_half_even.
  pose proof (Qfloor_le q) as H1. pose proof (Qlt_floor q) as H2.
  rewrite inject_Z_plus in H2. change (inject_Z 1) with 1 in H2.
  destruct (Qcompare_spec (q - inject_Z (Qfloor q)) (1 # 2)) as [E|E|E];
    [destruct (Z.even (Qfloor q))| |];
    rewrite ?inject_Z_plus; change (inject_Z 1) with 1; lra.
Qed.

Lemma round_half_even_comp (q q' : Q) :
  q == q' -> Binary64.round_half_even q = Binary64.round_half_even q'.
Proof.
  intros E. unfold Binary64.round_half_even.
  rewrite (Qfloor_comp _ _ E).
  assert (q - inject_Z (Qfloor q') == q' - inject_Z (Qfloor q')) as ->
    by (rewrite E; reflexivity).
  reflexivity.
Qed.

Lemma round_half_even_Z (z : Z) : Binary64.round_half_even (inject_Z z) = z.
Proof.
  unfold Binary64.round_half_even. rewrite Qfloor_Z.
  destruct (Qcompare_spec (inject_Z z - inject_Z z) (1 # 2)) as [E|E|E];
    [exfalso; lra | reflexivity | exfalso; lra].
Qed.

Lemma round_half_even_monotone (x y : Q) :
  x <= y -> (Binary64.round_half_even x <= Binary64.round_half_even y)%Z.
Proof.
  intros H. destruct (Z.le_gt_cases (Binary64.round_half_even x)
                                    (Binary64.round_half_even y)) as [L|G];
    [exact L|].
  destruct (round_half_even_bounds x) as [Hx _].
  destruct (round_half_even_bounds y) as [_ Hy].
  assert (Binary64.round_half_even y + 1 <= Binary64.round_half_even x)%Z
    as G' by lia.
  rewrite Zle_Qle, inject_Z_plus in G'. change (inject_Z 1) with 1 in G'.
  assert (x == y) as E by lra.
  rewrite (round_half_even_comp x y E). lia.
Qed.

(** Powers of two. *)
Lemma pow2_pos (e : Z) : 0 < 2 ^ e.
Proof. apply Qpower_0_lt. reflexivity. Qed.

Lemma pow2_le (a b : Z) : (a <= b)%Z -> 2 ^ a <= 2 ^ b.
Proof. intros H. apply Qpower_le_compat_l; [exact H | discriminate]. Qed.

Lemma pow2_lt (a b : Z) : (a < b)%Z -> 2 ^ a < 2 ^ b.
Proof. intros H. apply Qpower_lt_compat_l; [exact H | reflexivity]. Qed.

Lemma pow2_lt_inv (a b : Z) : 2 ^ a < 2 ^ b -> (a < b)%Z.
Proof. intros H. apply (Qpower_lt_compat_l_inv 2); [exact H | reflexivity]. Qed.

Lemma pow2_plus (a b : Z) : 2 ^ (a + b) == 2 ^ a * 2 ^ b.
Proof. apply Qpower_plus. discriminate. Qed.

Lemma pow2_succ (a : Z) : 2 ^ (a + 1) == 2 * 2 ^ a.
Proof. rewrite pow2_plus. change (2 ^ 1) with 2. ring. Qed.

Lemma pow2_Z (a : Z) : (0 <= a)%Z -> inject_Z (2 ^ a) == 2 ^ a.
Proof. intros H. apply (Zpower_Qpower 2 a H). Qed.

(** The exponent of a positive rational. *)
Lemma ilog2_spec (q : Q) :
  0 < q -> 2 ^ Binary64.ilog2 q <= q /\ q < 2 ^ (Binary64.ilog2 q + 1).
Proof.
  intros Hq. unfold Binary64.ilog2.
  destruct q as [n d]. cbn [Qnum Qden].
  assert (0 < n)%Z as Hn by (unfold Qlt in Hq; cbn in Hq; lia).
  destruct (Z.log2_spec n Hn) as [Hn1 Hn2].
  destruct (Z.log2_spec (Z.pos d) eq_refl) as [Hd1 Hd2].
  pose proof (Z.log2_nonneg n) as Ln.
  pose proof (Z.log2_nonneg (Z.pos d)) as Ld.
  set (ln := Z.log2 n) in *. set (ld := Z.log2 (Z.pos d)) in *.
  rewrite Zle_Qle, pow2_Z in Hn1, Hd1 by assumption.
  rewrite Zlt_Qlt, pow2_Z in Hn2, Hd2 by lia.
  unfold Z.succ in Hn2, Hd2. rewrite pow2_succ in Hn2, Hd2.
  assert (n # d == inject_Z n / inject_Z (Z.pos d)) as Eq
    by (rewrite Qmake_Qdiv; reflexivity).
  assert (0 < inject_Z (Z.pos d)) as Dpos by reflexivity.
  assert (2 ^ (ln - ld) * 2 ^ ld == 2 ^ ln) as Esplit
    by (rewrite <- pow2_plus; replace (ln - ld + ld)%Z with ln by lia;
        reflexivity).
  pose proof (pow2_pos (ln - ld)) as P0. pose proof (pow2_pos ld) as P1.
  assert (n # d < 2 ^ (ln - ld + 1)) as Hup.
  { rewrite Eq, pow2_succ. apply Qlt_shift_div_r; [exact Dpos|]. nra. }
  assert (2 ^ (ln - ld - 1) <= n # d) as Hlow.
  { rewrite Eq. apply Qle_shift_div_l; [exact Dpos|].
    assert (2 ^ (ln - ld - 1) * 2 == 2 ^ (ln - ld)) as E1.
    { rewrite Qmult_comm, <- pow2_succ.
      replace (ln - ld - 1 + 1)%Z with (ln - ld)%Z by lia. reflexivity. }
    nra. }
  destruct (Qle_bool (2 ^ (ln - ld)) (n # d)) eqn:T.
  - apply Qle_bool_iff in T. split; assumption.
  - split; [exact Hlow|].
    replace (ln - ld - 1 + 1)%Z with (ln - ld)%Z by lia.
    destruct (Qlt_le_dec (n # d) (2 ^ (ln - ld))) as [L|G]; [exact L|].
    apply Qle_bool_iff in G. congruence.
Qed.

End Rounding.

Section Exponents.

Local Open Scope Q_scope.

Lemma ilog2_ge (q : Q) (k : Z) :
  0 < q -> 2 ^ k <= q -> (k <= Binary64.ilog2 q)%Z.
Proof.
  intros Hq Hk. destruct (ilog2_spec q Hq) as [_ Hup].
  assert (k < Binary64.ilog2 q + 1)%Z; [|lia].
  apply pow2_lt_inv. lra.
Qed.

Lemma ilog2_lt (q : Q) (k : Z) :
  0 < q -> q < 2 ^ k -> (Binary64.ilog2 q < k)%Z.
Proof.
  intros Hq Hk. destruct (ilog2_spec q Hq) as [Hlow _].
  apply pow2_lt_inv. lra.
Qed.

Lemma ilog2_monotone (x y : Q) :
  0 < x -> x <= y -> (Binary64.ilog2 x <= Binary64.ilog2 y)%Z.
Proof.
  intros Hx Hxy. apply ilog2_ge; [lra|].
  destruct (ilog2_spec x Hx) as [Hlow _]. lra.
Qed.

Lemma ilog2_comp (x y : Q) :
  0 < x -> x == y -> Binary64.ilog2 x = Binary64.ilog2 y.
Proof.
  intros Hx E. apply Z.le_antisymm; apply ilog2_monotone; lra.
Qed.

Lemma ulp_exponent_monotone (x y : Q) :
  0 < x -> x <= y -> (Binary64.ulp_exponent x <= Binary64.ulp_exponent y)%Z.
Proof.
  intros Hx Hxy. unfold Binary64.ulp_exponent.
  pose proof (ilog2_monotone x y Hx Hxy). lia.
Qed.

(** A positive rational lies below 2^53 units in the last place, and a
    normal one at 2^52 units or above. *)
Lemma below_ulp_range (x : Q) :
  0 < x -> x < 2 ^ (Binary64.ulp_exponent x + 53).
Proof.
  intros Hx. destruct (ilog2_spec x Hx) as [_ Hup].
  eapply Qlt_le_trans; [exact Hup|]. apply pow2_le.
  unfold Binary64.ulp_exponent. lia.
Qed.

Lemma above_ulp_range (x : Q) :
  0 < x -> (-1022 <= Binary64.ilog2 x)%Z ->
  2 ^ (Binary64.ulp_exponent x + 52) <= x.
Proof.
  intros Hx Hn. destruct (ilog2_spec x Hx) as [Hlow _].
  unfold Binary64.ulp_exponent.
  replace (Z.max (Binary64.ilog2 x) (-1022) - 52 + 52)%Z
    with (Binary64.ilog2 x) by lia.
  exact Hlow.
Qed.

Lemma scaled_pow2 (e k : Z) : 2 ^ (e + k) / 2 ^ e == 2 ^ k.
Proof.
  rewrite pow2_plus. pose proof (pow2_pos e). field. lra.
Qed.

Lemma div_pow2_le (x y : Q) (e : Z) : x <= y -> x / 2 ^ e <= y / 2 ^ e.
Proof.
  intros H. unfold Qdiv. apply Qmult_le_compat_r; [exact H|].
  apply Qinv_le_0_compat, Qlt_le_weak, pow2_pos.
Qed.

(** The nearest multiple of the unit in the last place. *)
Lemma nearest_error (x : Q) :
  0 < x ->
  x - 2 ^ Binary64.ulp_exponent x / 2 <= Binary64.nearest x
  /\ Binary64.nearest x <= x + 2 ^ Binary64.ulp_exponent x / 2.
Proof.
  intros Hx. unfold Binary64.nearest. cbv zeta.
  set (u := 2 ^ Binary64.ulp_exponent x).
  assert (0 < u) as Hu by apply pow2_pos.
  destruct (round_half_even_bounds (x / u)) as [H1 H2].
  set (m := inject_Z (Binary64.round_half_even (x / u))) in *.
  assert (x == u * (x / u)) as E by (symmetry; apply Qmult_div_r; lra).
  set (t := x / u) in *.
  assert (0 <= u * (t - (m - (1 # 2)))) as P1
    by (apply Qmult_le_0_compat; lra).
  assert (0 <= u * (m + (1 # 2) - t)) as P2
    by (apply Qmult_le_0_compat; lra).
  split; [apply Qle_minus_iff | apply Qle_minus_iff].
  - assert (m * u + - (x - u / 2) == u * (m + (1 # 2) - t)) as ->
      by (rewrite E; field).
    exact P2.
  - assert (x + u / 2 + - (m * u) == u * (t - (m - (1 # 2)))) as ->
      by (rewrite E; field).
    exact P1.
Qed.

Lemma nearest_upper (x : Q) :
  0 < x -> Binary64.nearest x <= 2 ^ (Binary64.ulp_exponent x + 53).
Proof.
  intros Hx. unfold Binary64.nearest. cbv zeta.
  set (e := Binary64.ulp_exponent x).
  assert (Binary64.round_half_even (x / 2 ^ e) <= 2 ^ 53)%Z as H.
  { rewrite <- (round_half_even_Z (2 ^ 53)).
    apply round_half_even_monotone.
    rewrite pow2_Z by lia. rewrite <- (scaled_pow2 e 53).
    apply div_pow2_le, Qlt_le_weak, below_ulp_range, Hx. }
  rewrite Zle_Qle, pow2_Z in H by lia.
  rewrite (Z.add_comm e 53), pow2_plus.
  apply Qmult_le_compat_r; [exact H | apply Qlt_le_weak, pow2_pos].
Qed.

Lemma nearest_lower (x : Q) :
  0 < x -> (-1022 <= Binary64.ilog2 x)%Z ->
  2 ^ (Binary64.ulp_exponent x + 52) <= Binary64.nearest x.
Proof.
  intros Hx Hn. unfold Binary64.nearest. cbv zeta.
  set (e := Binary64.ulp_exponent x).
  assert (2 ^ 52 <= Binary64.round_half_even (x / 2 ^ e))%Z as H.
  { rewrite <- (round_half_even_Z (2 ^ 52)) at 1.
    apply round_half_even_monotone.
    rewrite pow2_Z by lia. rewrite <- (scaled_pow2 e 52).
    apply div_pow2_le, above_ulp_range; assumption. }
  rewrite Zle_Qle, pow2_Z in H by lia.
  rewrite (Z.add_comm e 52), pow2_plus.
  apply Qmult_le_compat_r; [exact H | apply Qlt_le_weak, pow2_pos].
Qed.

Lemma nearest_nonneg (x : Q) : 0 < x -> 0 <= Binary64.nearest x.
Proof.
  intros Hx. unfold Binary64.nearest. cbv zeta.
  apply Qmult_le_0_compat; [|apply Qlt_le_weak, pow2_pos].
  change 0 with (inject_Z 0). rewrite <- Zle_Qle.
  rewrite <- (round_half_even_Z 0). apply round_half_even_monotone.
  apply Qlt_le_weak, Qlt_shift_div_l; [apply pow2_pos|].
  rewrite Qmult_0_l. exact Hx.
Qed.

Lemma nearest_comp (x y : Q) :
  0 < x -> x == y -> Binary64.nearest x = Binary64.nearest y.
Proof.
  intros Hx E. unfold Binary64.nearest, Binary64.ulp_exponent.
  rewrite (ilog2_comp x y Hx E). cbv zeta.
  set (e := (Z.max (Binary64.ilog2 y) (-1022) - 52)%Z).
  rewrite (round_half_even_comp (x / 2 ^ e) (y / 2 ^ e))
    by (rewrite E; reflexivity).
  reflexivity.
Qed.

Lemma nearest_monotone (x y : Q) :
  0 < x -> x <= y -> Binary64.nearest x <= Binary64.nearest y.
Proof.
  intros Hx Hxy. assert (0 < y) as Hy by lra.
  pose proof (ulp_exponent_monotone x y Hx Hxy) as He.
  destruct (Z.eq_dec (Binary64.ulp_exponent x) (Binary64.ulp_exponent y))
    as [Eq|Ne].
  - unfold Binary64.nearest. cbv zeta. rewrite Eq.
    apply Qmult_le_compat_r; [|apply Qlt_le_weak, pow2_pos].
    rewrite <- Zle_Qle. apply round_half_even_monotone, div_pow2_le, Hxy.
  - assert (-1022 <= Binary64.ilog2 y)%Z as Hn
      by (unfold Binary64.ulp_exponent in *; lia).
    eapply Qle_trans; [apply nearest_upper, Hx|].
    eapply Qle_trans; [|apply nearest_lower; assumption].
    apply pow2_le. lia.
Qed.

(** Integers of at most 53 bits are their own nearest value. *)
Lemma nearest_Z (z : Z) :
  (0 < z <= 2 ^ 53)%Z -> Binary64.nearest (inject_Z z) == inject_Z z.
Proof.
  intros [Hz Hle]. assert (0 < inject_Z z) as Hq.
  { change 0 with (inject_Z 0). rewrite <- Zlt_Qlt. exact Hz. }
  destruct (Z.eq_dec z (2 ^ 53)%Z) as [->|Hne]; [vm_compute; reflexivity|].
  assert (0 <= Binary64.ilog2 (inject_Z z) < 53)%Z as [Hl0 Hl1].
  { split.
    - apply ilog2_ge; [exact Hq|]. change (2 ^ 0) with (inject_Z 1).
      rewrite <- Zle_Qle. lia.
    - apply ilog2_lt; [exact Hq|]. rewrite <- pow2_Z by lia.
      rewrite <- Zlt_Qlt. lia. }
  unfold Binary64.nearest, Binary64.ulp_exponent. cbv zeta.
  set (e := (Z.max (Binary64.ilog2 (inject_Z z)) (-1022) - 52)%Z).
  assert (e <= 0)%Z as He by (unfold e; lia).
  assert (2 ^ e * inject_Z (2 ^ (- e)) == 1) as Einv.
  { rewrite pow2_Z by lia. rewrite <- pow2_plus.
    replace (e + - e)%Z with 0%Z by lia. reflexivity. }
  pose proof (pow2_pos e) as Hpe.
  assert (inject_Z z / 2 ^ e == inject_Z (z * 2 ^ (- e))) as Ediv.
  { rewrite inject_Z_mult.
    apply (Qmult_inj_r _ _ (2 ^ e)); [lra|].
    rewrite Qmult_comm, Qmult_div_r by lra.
    rewrite <- Qmult_assoc, (Qmult_comm (inject_Z (2 ^ (- e)))), Einv. ring. }
  rewrite (round_half_even_comp _ _ Ediv), round_half_even_Z.
  rewrite inject_Z_mult, <- Qmult_assoc.
  rewrite (Qmult_comm (inject_Z (2 ^ (- e)))), Einv.
  ring.
Qed.

End Exponents.

Section Round64.

Local Open Scope Q_scope.

Lemma Qsign_pos (q : Q) : 0 < q -> Qsign q = Gt.
Proof.
  unfold Qsign, Qlt. cbn. rewrite Z.mul_1_r. intros H.
  apply Z.compare_gt_iff. exact H.
Qed.

Lemma Qsign_neg (q : Q) : q < 0 -> Qsign q = Lt.
Proof.
  unfold Qsign, Qlt. cbn. rewrite Z.mul_1_r. intros H.
  apply Z.compare_lt_iff. exact H.
Qed.

Lemma Qsign_zero (q : Q) : q == 0 -> Qsign q = Eq.
Proof.
  unfold Qsign, Qeq. cbn. rewrite Z.mul_1_r. intros H.
  apply Z.compare_eq_iff. exact H.
Qed.

(** The two outcomes of rounding a positive rational. *)
Lemma round_pos_cases (x : Q) :
  (Binary64.nearest x < 2 ^ 1024
   /\ Binary64.round_pos x = Fin (Qred (Binary64.nearest x)))
  \/ (2 ^ 1024 <= Binary64.nearest x /\ Binary64.round_pos x = PInf).
Proof.
  unfold Binary64.round_pos. cbv zeta.
  destruct (Qle_bool (2 ^ 1024) (Binary64.nearest x)) eqn:T.
  - right. split; [apply Qle_bool_iff, T | reflexivity].
  - left. split; [|reflexivity].
    destruct (Qlt_le_dec (Binary64.nearest x) (2 ^ 1024)) as [L|G];
      [exact L|].
    apply Qle_bool_iff in G. congruence.
Qed.

Lemma Qle_bool_Qred (a b : Q) : Qle_bool (Qred a) (Qred b) = Qle_bool a b.
Proof.
  destruct (Qle_bool a b) eqn:E.
  - apply Qle_bool_iff. rewrite !Qred_correct. apply Qle_bool_iff, E.
  - destruct (Qle_bool (Qred a) (Qred b)) eqn:E'; [|reflexivity].
    apply Qle_bool_iff in E'. rewrite !Qred_correct in E'.
    apply Qle_bool_iff in E'. congruence.
Qed.

Lemma round_pos_monotone (x y : Q) :
  0 < x -> x <= y ->
  num_le (Binary64.round_pos x) (Binary64.round_pos y) = true.
Proof.
  intros Hx Hxy. pose proof (nearest_monotone x y Hx Hxy) as Hm.
  destruct (round_pos_cases x) as [[Lx ->]|[Gx ->]];
    destruct (round_pos_cases y) as [[Ly ->]|[Gy ->]]; cbn [num_le];
    try reflexivity.
  - rewrite Qle_bool_Qred. apply Qle_bool_iff, Hm.
  - exfalso. lra.
Qed.

Lemma round_pos_nonneg (x : Q) :
  0 < x -> num_le (Fin 0) (Binary64.round_pos x) = true.
Proof.
  intros Hx. destruct (round_pos_cases x) as [[_ ->]|[_ ->]]; cbn [num_le];
    [|reflexivity].
  apply Qle_bool_iff. rewrite Qred_correct. apply nearest_nonneg, Hx.
Qed.

Lemma num_le_neg (a b : num) :
  num_le a b = true -> num_le (num_neg b) (num_neg a) = true.
Proof.
  destruct a as [p| | |], b as [q| | |]; cbn [num_le num_neg];
    try reflexivity; try discriminate.
  intros H. apply Qle_bool_iff in H. rewrite Qle_bool_Qred.
  apply Qle_bool_iff. lra.
Qed.

Lemma num_le_trans (a b c : num) :
  num_le a b = true -> num_le b c = true -> num_le a c = true.
Proof.
  destruct a as [p| | |], b as [q| | |], c as [r| | |]; cbn [num_le];
    try reflexivity; try discriminate.
  intros H1 H2. apply Qle_bool_iff in H1, H2. apply Qle_bool_iff. lra.
Qed.

Lemma round64_pos (x : Q) : 0 < x -> Binary64.round64 x = Binary64.round_pos x.
Proof.
  intros H. unfold Binary64.round64. rewrite (Qsign_pos x H). reflexivity.
Qed.

Lemma round64_neg (x : Q) :
  x < 0 -> Binary64.round64 x = num_neg (Binary64.round_pos (- x)).
Proof.
  intros H. unfold Binary64.round64. rewrite (Qsign_neg x H). reflexivity.
Qed.

Lemma round64_zero (x : Q) : x == 0 -> Binary64.round64 x = Fin 0.
Proof.
  intros H. unfold Binary64.round64. rewrite (Qsign_zero x H). reflexivity.
Qed.

(** Rounding only depends on the value of the rational. *)
Lemma round_pos_comp (x y : Q) :
  0 < x -> x == y -> Binary64.round_pos x = Binary64.round_pos y.
Proof.
  intros Hx E. unfold Binary64.round_pos.
  rewrite (nearest_comp x y Hx E). reflexivity.
Qed.

Lemma round64_comp (x y : Q) :
  x == y -> Binary64.round64 x = Binary64.round64 y.
Proof.
  intros E. destruct (Q_dec x 0) as [[L|G]|Z].
  - rewrite !round64_neg by lra. f_equal. apply round_pos_comp; lra.
  - rewrite !round64_pos by lra. apply round_pos_comp; lra.
  - rewrite !round64_zero by lra. reflexivity.
Qed.

(** Rounding never reverses an order. *)
Lemma round64_monotone (x y : Q) :
  x <= y -> num_le (Binary64.round64 x) (Binary64.round64 y) = true.
Proof.
  intros Hxy.
  assert (forall z, z < 0 -> num_le (Binary64.round64 z) (Fin 0) = true)
    as Hneg.
  { intros z Hz. rewrite round64_neg by exact Hz.
    apply (num_le_neg (Fin 0)), round_pos_nonneg. lra. }
  assert (forall z, 0 < z -> num_le (Fin 0) (Binary64.round64 z) = true)
    as Hpos.
  { intros z Hz. rewrite round64_pos by exact Hz.
    apply round_pos_nonneg, Hz. }
  destruct (Q_dec x 0) as [[Lx|Gx]|Zx]; destruct (Q_dec y 0) as [[Ly|Gy]|Zy];
    try (exfalso; lra).
  - rewrite !round64_neg by assumption.
    apply num_le_neg, round_pos_monotone; lra.
  - eapply num_le_trans; [apply Hneg, Lx | apply Hpos, Gy].
  - rewrite (round64_zero y Zy). apply Hneg, Lx.
  - rewrite !round64_pos by assumption.
    apply round_pos_monotone; assumption.
  - rewrite (round64_zero x Zx). apply Hpos, Gy.
  - rewrite (round64_zero x Zx), (round64_zero y Zy). reflexivity.
Qed.

(** Integers of at most 53 bits are Numbers. *)
Lemma round64_Z (z : Z) :
  (Z.abs z <= 2 ^ 53)%Z -> Binary64.round64 (inject_Z z) = of_Z z.
Proof.
  intros Hz.
  assert (forall p : Z, (0 < p <= 2 ^ 53)%Z ->
                        Binary64.round_pos (inject_Z p) = of_Z p) as Hp.
  { intros p Hp. pose proof (nearest_Z p Hp) as E.
    destruct (round_pos_cases (inject_Z p)) as [[_ ->]|[G _]].
    - unfold of_Z. f_equal.
      etransitivity; [apply Qred_complete, E | apply Qred_inject_Z].
    - exfalso. rewrite E in G. rewrite <- pow2_Z in G by lia.
      rewrite <- Zle_Qle in G.
      assert (2 ^ 53 < 2 ^ 1024)%Z by (apply Z.pow_lt_mono_r; lia). lia. }
  destruct (Z.lt_trichotomy z 0) as [L|[->|G]].
  - rewrite round64_neg
      by (change 0 with (inject_Z 0); rewrite <- Zlt_Qlt; exact L).
    change (- inject_Z z) with (inject_Z (- z)). rewrite Hp by lia.
    unfold of_Z, num_neg. f_equal.
    change (- inject_Z (- z)) with (inject_Z (- - z)).
    rewrite Z.opp_involutive. apply Qred_inject_Z.
  - reflexivity.
  - rewrite round64_pos
      by (change 0 with (inject_Z 0); rewrite <- Zlt_Qlt; exact G).
    apply Hp. lia.
Qed.

(** Below 2^k the rounding error is at most 2^(k - 54). *)
Lemma round64_error (x : Q) (k : Z) :
  0 <= x -> x < 2 ^ k -> (-1021 <= k <= 1023)%Z ->
  exists v, Binary64.round64 x = Fin v
            /\ x - 2 ^ (k - 54) <= v /\ v <= x + 2 ^ (k - 54).
Proof.
  intros H0 Hk Hr. pose proof (pow2_pos (k - 54)) as Hp.
  set (bound := 2 ^ (k - 54)) in *.
  destruct (Qle_lt_or_eq _ _ H0) as [Hx|Hx].
  2:{ exists 0. rewrite round64_zero by (symmetry; exact Hx).
      split; [reflexivity|]. split; lra. }
  rewrite round64_pos by exact Hx.
  pose proof (ilog2_lt x k Hx Hk) as Hl.
  assert (Binary64.ulp_exponent x <= k - 53)%Z as He
    by (unfold Binary64.ulp_exponent; lia).
  destruct (nearest_error x Hx) as [E1 E2].
  pose proof (nearest_upper x Hx) as Hu.
  assert (2 ^ Binary64.ulp_exponent x / 2 <= bound) as Hb.
  { unfold bound. apply Qle_shift_div_r; [reflexivity|].
    rewrite Qmult_comm, <- pow2_succ. apply pow2_le. lia. }
  destruct (round_pos_cases x) as [[_ ->]|[G _]].
  - exists (Qred (Binary64.nearest x)). split; [reflexivity|].
    rewrite Qred_correct. split; lra.
  - exfalso.
    assert (2 ^ (Binary64.ulp_exponent x + 53) < 2 ^ 1024)
      by (apply pow2_lt; lia).
    lra.
Qed.

(** The floor of a rounded value below 2^53 is the floor of the exact
    value, or one more (when the value rounds up to an integer). *)
Lemma round64_floor (x : Q) :
  0 <= x -> x < 2 ^ 53 ->
  exists v, Binary64.round64 x = Fin v
            /\ (Qfloor x <= Qfloor v <= Qfloor x + 1)%Z
            /\ (Qfloor v = Qfloor x + 1 -> v == inject_Z (Qfloor x + 1))%Z.
Proof.
  intros H0 Hk.
  destruct (round64_error x 53 H0 Hk ltac:(lia)) as (v & Ev & _).
  exists v. split; [exact Ev|].
  pose proof (Qfloor_le x) as F1. pose proof (Qlt_floor x) as F2.
  assert (0 <= Qfloor x)%Z as Hf0.
  { rewrite <- (Qfloor_Z 0). apply Qfloor_resp_le, H0. }
  assert (Qfloor x + 1 <= 2 ^ 53)%Z as Hf1.
  { assert (Qfloor x < 2 ^ 53)%Z; [|lia].
    rewrite Zlt_Qlt, pow2_Z by lia. lra. }
  pose proof (round64_monotone _ _ F1) as M1.
  pose proof (round64_monotone _ _ (Qlt_le_weak _ _ F2)) as M2.
  rewrite round64_Z, Ev in M1 by lia. rewrite round64_Z, Ev in M2 by lia.
  unfold of_Z in M1, M2. cbn [num_le] in M1, M2.
  apply Qle_bool_iff in M1, M2.
  assert (Qfloor x <= Qfloor v)%Z as L1.
  { rewrite <- (Qfloor_Z (Qfloor x)) at 1. apply Qfloor_resp_le, M1. }
  assert (Qfloor v <= Qfloor x + 1)%Z as L2.
  { rewrite <- (Qfloor_Z (Qfloor x + 1)). apply Qfloor_resp_le, M2. }
  split; [lia|]. intros E. pose proof (Qfloor_le v) as F3.
  rewrite E in F3. lra.
Qed.

End Round64.

(* ===================================================================== *)
(** * The Segment Extractor on Numbers                                    *)
(* ===================================================================== *)

Section NumberOrder.

Local Open Scope Q_scope.

Lemma round64_not_NaN (q : Q) : Binary64.round64 q <> NaN.
Proof.
  unfold Binary64.round64.
  destruct (Qsign q); [discriminate| |].
  - destruct (round_pos_cases (- q)) as [[_ ->]|[_ ->]]; discriminate.
  - destruct (round_pos_cases q) as [[_ ->]|[_ ->]]; discriminate.
Qed.

(** The product of two finite Numbers. *)
Lemma mul_Fin (a b : Q) :
  Binary64.mul (Fin a) (Fin b) = Binary64.round64 (a * b).
Proof.
  unfold Binary64.mul. cbn [num_mul Binary64.rounded].
  apply round64_comp, Qred_correct.
Qed.

Lemma add_Fin (a b : Q) :
  Binary64.add (Fin a) (Fin b) = Binary64.round64 (a + b).
Proof.
  unfold Binary64.add. cbn [num_add Binary64.rounded].
  apply round64_comp, Qred_correct.
Qed.

Lemma Math_floor_monotone (a b : num) :
  num_le a b = true -> num_le (Math_floor a) (Math_floor b) = true.
Proof.
  destruct a as [p| | |], b as [q| | |]; cbn [num_le Math_floor of_Z];
    try reflexivity; try discriminate.
  intros H. apply Qle_bool_iff in H. apply Qle_bool_iff.
  rewrite <- Zle_Qle. apply Qfloor_resp_le, H.
Qed.

Lemma Math_floor_not_NaN (a : num) : a <> NaN -> Math_floor a <> NaN.
Proof. destruct a; intros H; [discriminate..|congruence]. Qed.

Lemma Math_min_le (a b : num) :
  a <> NaN -> b <> NaN -> num_le (Math_min a b) b = true.
Proof.
  intros Ha Hb. unfold Math_min.
  destruct a as [p| | |], b as [q| | |]; try congruence;
    cbn [num_lt num_le]; try reflexivity.
  - destruct (Qle_bool p q) eqn:E; cbn [negb num_le].
    + exact E.
    + apply Qle_bool_iff. lra.
  - apply Qle_bool_iff. lra.
Qed.

Lemma Math_max_ge (a b : num) :
  a <> NaN -> b <> NaN -> num_le b (Math_max a b) = true.
Proof.
  intros Ha Hb. unfold Math_max.
  destruct a as [p| | |], b as [q| | |]; try congruence;
    cbn [num_lt num_le]; try reflexivity.
  - destruct (Qle_bool q p) eqn:E; cbn [negb num_le].
    + exact E.
    + apply Qle_bool_iff. lra.
  - apply Qle_bool_iff. lra.
Qed.

End NumberOrder.

Section ExtractorOnNumbers.

Variable normalize : jsstr -> jsstr.
Variable y : list num.

Lemma sample_index_not_NaN (t : Q) (sr : Z) :
  SegmentRule.sample_index t sr <> NaN.
Proof.
  unfold SegmentRule.sample_index, of_Z. rewrite mul_Fin.
  apply Math_floor_not_NaN, round64_not_NaN.
Qed.

(** The floor of a product is an integer or an infinity. *)
Lemma sample_index_cases (t : Q) (sr : Z) :
  (exists z, SegmentRule.sample_index t sr = of_Z z)
  \/ SegmentRule.sample_index t sr = PInf
  \/ SegmentRule.sample_index t sr = NInf.
Proof.
  pose proof (sample_index_not_NaN t sr) as H.
  unfold SegmentRule.sample_index in *.
  destruct (Binary64.mul (Fin t) (of_Z sr)) as [v| | |]; cbn [Math_floor] in *;
    [left; eauto | right; left; reflexivity | right; right; reflexivity
    | congruence].
Qed.

Lemma sample_index_monotone (t t' : Q) (sr : Z) :
  (0 <= sr)%Z -> (t <= t')%Q ->
  num_le (SegmentRule.sample_index t sr) (SegmentRule.sample_index t' sr)
  = true.
Proof.
  intros Hsr Ht. unfold SegmentRule.sample_index, of_Z. rewrite !mul_Fin.
  apply Math_floor_monotone, round64_monotone.
  apply Qmult_le_compat_r; [exact Ht|].
  change 0%Q with (inject_Z 0). rewrite <- Zle_Qle. exact Hsr.
Qed.

(** A segment that does not end after it starts has an empty range. *)
Lemma backward_range_empty (sr : Z) (s : Segment) :
  (0 <= sr)%Z -> (seg_end s <= seg_start s)%Q ->
  SegmentRule.is_empty (length y) sr s = true.
Proof.
  intros Hsr Hes.
  unfold SegmentRule.is_empty, SegmentRule.endIndex, SegmentRule.startIndex.
  pose proof (sample_index_not_NaN (seg_end s) sr) as He.
  pose proof (sample_index_not_NaN (seg_start s) sr) as Hs.
  eapply num_le_trans; [apply Math_min_le; [discriminate | exact He]|].
  eapply num_le_trans; [apply sample_index_monotone; eassumption|].
  apply Math_max_ge; [discriminate | exact Hs].
Qed.

(** A range that is not empty lies between two integers within the
    buffer. *)
Lemma range_indices (sr : Z) (s : Segment) :
  SegmentRule.is_empty (length y) sr s = false ->
  exists a b : Z,
    SegmentRule.startIndex sr s = of_Z a
    /\ SegmentRule.endIndex (length y) sr s = of_Z b
    /\ (0 <= a < b)%Z /\ (b <= Z.of_nat (length y))%Z
    /\ (a = 0%Z \/ SegmentRule.sample_index (seg_start s) sr = of_Z a)
    /\ (b = Z.of_nat (length y)
        \/ SegmentRule.sample_index (seg_end s) sr = of_Z b).
Proof.
  unfold SegmentRule.is_empty, SegmentRule.startIndex, SegmentRule.endIndex.
  destruct (sample_index_cases (seg_start s) sr) as [[a ->]|[->| ->]];
    destruct (sample_index_cases (seg_end s) sr) as [[b ->]|[->| ->]];
    unfold of_nat; rewrite ?Math_max_of_Z, ?Math_min_of_Z;
    try (cbn; discriminate).
  - unfold num_le, of_Z. rewrite Qle_bool_inject_Z. intros H.
    apply Z.leb_gt in H. exists (Z.max 0 a), (Z.min (Z.of_nat (length y)) b).
    repeat split; try reflexivity; try lia.
    + destruct (Z.max_spec 0 a) as [[_ ->]|[_ ->]]; auto.
    + destruct (Z.min_spec (Z.of_nat (length y)) b) as [[_ ->]|[_ ->]]; auto.
  - change (Math_min (of_Z (Z.of_nat (length y))) PInf)
      with (of_Z (Z.of_nat (length y))).
    unfold num_le, of_Z. rewrite Qle_bool_inject_Z. intros H.
    apply Z.leb_gt in H. exists (Z.max 0 a), (Z.of_nat (length y)).
    repeat split; try reflexivity; try lia; auto.
    destruct (Z.max_spec 0 a) as [[_ ->]|[_ ->]]; auto.
  - change (Math_max (of_Z 0) NInf) with (of_Z 0).
    unfold num_le, of_Z. rewrite Qle_bool_inject_Z. intros H.
    apply Z.leb_gt in H. exists 0%Z, (Z.min (Z.of_nat (length y)) b).
    repeat split; try reflexivity; try lia; auto.
    destruct (Z.min_spec (Z.of_nat (length y)) b) as [[_ ->]|[_ ->]]; auto.
  - change (Math_max (of_Z 0) NInf) with (of_Z 0).
    change (Math_min (of_Z (Z.of_nat (length y))) PInf)
      with (of_Z (Z.of_nat (length y))).
    unfold num_le, of_Z. rewrite Qle_bool_inject_Z. intros H.
    apply Z.leb_gt in H. exists 0%Z, (Z.of_nat (length y)).
    repeat split; try reflexivity; try lia; auto.
Qed.

(** The loop of [extractSegments] follows the rule segment by segment. *)
Lemma extract_loop_rule (sr : Z) (segs : list Segment) (i : nat)
    (out : list clip) (logged : list jsstr) :
  Binary64.extract_loop normalize y (of_Z sr) (map entry_of segs) i out logged
  = Some (out ++ SegmentRule.clips_from normalize y sr i segs,
          logged ++ SegmentRule.skips_from (length y) sr i segs).
Proof.
  revert i out logged. induction segs as [|s segs IH]; intros i out logged.
  - cbn. rewrite !app_nil_r. reflexivity.
  - cbn [map Binary64.extract_loop SegmentRule.clips_from
         SegmentRule.skips_from].
    unfold SegmentRule.clips_of, SegmentRule.skips_of.
    change (num_le (Binary64.end_index (length y) (of_Z sr) (entry_of s))
                   (Binary64.start_index (of_Z sr) (entry_of s)))
      with (SegmentRule.is_empty (length y) sr s).
    destruct (SegmentRule.is_empty (length y) sr s).
    + rewrite IH. cbn [app]. rewrite <- app_assoc. reflexivity.
    + rewrite encodeWAV_layout. cbn [mbind option_bind].
      rewrite IH. cbn [app]. rewrite <- app_assoc. reflexivity.
Qed.

Lemma extract_loop_returns (sr : num) (segments : list entry) (i : nat)
    (out : list clip) (logged : list jsstr) :
  is_Some (Binary64.extract_loop normalize y sr segments i out logged).
Proof.
  revert i out logged.
  induction segments as [|seg segments IH]; intros i out logged.
  - cbn. eauto.
  - cbn [Binary64.extract_loop]. destruct (num_le _ _); [apply IH|].
    rewrite encodeWAV_layout. cbn [mbind option_bind]. apply IH.
Qed.

Lemma extractSegments_rule (sr : Z) (segs : list Segment) :
  Binary64.extractSegments normalize y (of_Z sr) (map entry_of segs)
  = Some (SegmentRule.clips_from normalize y sr 0 segs,
          SegmentRule.skips_from (length y) sr 0 segs).
Proof. apply (extract_loop_rule sr segs 0 [] []). Qed.

(** C7.  Segment [i] is mapped to [startIndex = max(0, floor(start *
    sampleRate))] and [endIndex = min(bufferLength, floor(end *
    sampleRate))], the products being those of the program (binary64).
    When [endIndex <= startIndex] the segment gives no clip and one log
    line, and the loop goes on with the next segment; this is the case of
    every segment whose end is not after its start, at a rate that is not
    negative.  Otherwise the two indices are integers [a < b] within the
    buffer and the segment gives exactly one clip, whose container holds
    the samples [a, b).  Extraction never throws, whatever objects and
    rate it is given. *)
Theorem extractSegments_spec (sr : Z) (segs : list Segment) :
  Binary64.extractSegments normalize y (of_Z sr) (map entry_of segs)
  = Some (SegmentRule.clips_from normalize y sr 0 segs,
          SegmentRule.skips_from (length y) sr 0 segs)
  /\ (forall (rate : num) (objects : list entry),
         is_Some (Binary64.extractSegments normalize y rate objects))
  /\ (forall (i : nat) (s : Segment),
         (0 <= sr)%Z -> (seg_end s <= seg_start s)%Q ->
         SegmentRule.clips_of normalize y sr i s = []
         /\ SegmentRule.skips_of (length y) sr i s = [skip_message i])
  /\ (forall (i : nat) (s : Segment),
         SegmentRule.is_empty (length y) sr s = false ->
         exists a b : Z,
           SegmentRule.startIndex sr s = of_Z a
           /\ SegmentRule.endIndex (length y) sr s = of_Z b
           /\ (0 <= a < b)%Z /\ (b <= Z.of_nat (length y))%Z
           /\ SegmentRule.clips_of normalize y sr i s
              = [SegmentRule.clip_of normalize sr i s (sample_range y a b)]
           /\ SegmentRule.skips_of (length y) sr i s = []).
Proof.
  split; [apply extractSegments_rule|]. split; [|split].
  - intros rate objects. apply extract_loop_returns.
  - intros i s Hsr Hes. unfold SegmentRule.clips_of, SegmentRule.skips_of.
    rewrite (backward_range_empty sr s Hsr Hes). split; reflexivity.
  - intros i s He.
    destruct (range_indices sr s He) as (a & b & Ea & Eb & Hab & Hb & _).
    exists a, b. unfold SegmentRule.clips_of, SegmentRule.skips_of.
    rewrite He, Ea, Eb, slice_range by lia.
    repeat split; try reflexivity; lia.
Qed.

End ExtractorOnNumbers.

(* ===================================================================== *)
(** * The times of parsed entries and of segments                         *)
(* ===================================================================== *)

Section NumbersNotNegative.

Local Open Scope Q_scope.

Lemma round64_nonneg (q : Q) : 0 <= q -> nonneg_number (Binary64.round64 q).
Proof.
  intros H. pose proof (round64_monotone 0 q H) as M.
  change (Binary64.round64 0) with (Fin 0) in M.
  destruct (Binary64.round64 q) as [v| | |]; try discriminate;
    [|left; reflexivity].
  right. exists v. split; [reflexivity|]. apply Qle_bool_iff, M.
Qed.

Lemma rounded_nonneg (x : num) :
  nonneg_number x -> nonneg_number (Binary64.rounded x).
Proof.
  intros [->|(q & -> & Hq)]; [left; reflexivity|].
  apply round64_nonneg, Hq.
Qed.

Lemma nonneg_add (a b : num) :
  nonneg_number a -> nonneg_number b -> nonneg_number (Binary64.add a b).
Proof.
  intros Ha Hb. apply rounded_nonneg.
  destruct Ha as [->|(x & -> & Hx)], Hb as [->|(y & -> & Hy)];
    try (left; reflexivity).
  right. eexists. split; [reflexivity|]. rewrite Qred_correct. lra.
Qed.

Lemma nonneg_mul (a : num) (k : Z) :
  nonneg_number a -> (0 < k)%Z -> nonneg_number (Binary64.mul a (of_Z k)).
Proof.
  intros Ha Hk. apply rounded_nonneg.
  assert (0 < inject_Z k) as Hq
    by (change 0 with (inject_Z 0); rewrite <- Zlt_Qlt; exact Hk).
  destruct Ha as [->|(x & -> & Hx)].
  - left. unfold of_Z. cbn [num_mul]. rewrite (Qsign_pos _ Hq). reflexivity.
  - right. eexists. split; [reflexivity|]. rewrite Qred_correct.
    apply Qmult_le_0_compat; lra.
Qed.

Lemma nonneg_div_1000 (a : num) :
  nonneg_number a -> nonneg_number (Binary64.div a (of_Z 1000)).
Proof.
  intros Ha. apply rounded_nonneg.
  destruct Ha as [->|(x & -> & Hx)]; [left; reflexivity|].
  right. eexists. split; [reflexivity|].
  rewrite Qred_correct. change (inject_Z 1000) with 1000.
  apply Qle_shift_div_l; [reflexivity | lra].
Qed.

Lemma Number_token (ip tail : jsstr) :
  digit_string ip -> literal_tail tail ->
  nonneg_number (Binary64.Number (ip ++ tail)).
Proof.
  intros Hip Ht. apply rounded_nonneg. right.
  apply Number_literal; assumption.
Qed.

Lemma Number_digit_string (ds : jsstr) :
  digit_string ds -> nonneg_number (Binary64.Number ds).
Proof.
  intros H. apply rounded_nonneg. right. apply Number_digits, H.
Qed.

End NumbersNotNegative.

Section TimeTokensOnNumbers.

(** [hhmmssToSeconds] on "HH:MM:SS". *)
Lemma hhmmss_nonneg (w : jsstr) :
  matches hms w -> nonneg_number (Binary64.hhmmssToSeconds w).
Proof.
  intros H. apply hms_language in H as (a & b & c & -> & Ha & Hb & Hc).
  unfold Binary64.hhmmssToSeconds.
  rewrite split_char_sep by (apply digits_without; [lia | apply Ha]).
  rewrite split_char_sep by (apply digits_without; [lia | apply Hb]).
  rewrite split_char_none by (apply digits_without; [lia | apply Hc]).
  cbn [map nth].
  auto using nonneg_add, nonneg_mul, Number_digit_string with zarith.
Qed.

(** [srtToSeconds] on "HH:MM:SS,mmm". *)
Lemma srt_nonneg (w : jsstr) :
  matches hms_ms w -> nonneg_number (Binary64.srtToSeconds w).
Proof.
  intros H. apply hms_ms_language in H as (t & ms & -> & Ht & Hms).
  pose proof (hhmmss_nonneg t Ht) as Hsec.
  apply hms_language in Ht as (a & b & c & Et & Ha & Hb & Hc).
  unfold Binary64.srtToSeconds. rewrite split_char_sep.
  - rewrite split_char_none by (apply digits_without; [lia | apply Hms]).
    cbn [nth]. auto using nonneg_add, nonneg_div_1000, Number_digit_string.
  - rewrite Et, !forallb_app. cbn [forallb].
    rewrite !digits_without by (first [lia | apply Ha | apply Hb | apply Hc]).
    reflexivity.
Qed.

(** [simpleToSeconds] on "M:SS". *)
Lemma simple_nonneg (w : jsstr) :
  matches m_ss w -> nonneg_number (Binary64.simpleToSeconds w).
Proof.
  intros H. apply m_ss_language in H as (a & b & -> & Ha & Hb).
  unfold Binary64.simpleToSeconds.
  rewrite split_char_sep by (apply digits_without; [lia | apply Ha]).
  rewrite split_char_none by (apply digits_without; [lia | apply Hb]).
  cbn [map nth].
  auto using nonneg_add, nonneg_mul, Number_digit_string with zarith.
Qed.

(** [Number] on a bare number token. *)
Lemma number_nonneg (w : jsstr) :
  matches number w -> nonneg_number (Binary64.Number w).
Proof.
  intros H. apply number_language in H as (ip & pt & fp & -> & Hi & Hp & Hf).
  destruct Hp as [-> | ->].
  - cbn [app]. apply Number_digit_string. destruct Hi as [Hne Hd]. split.
    + destruct ip; [congruence | discriminate].
    + rewrite forallb_app, Hd, Hf. reflexivity.
  - apply Number_token; [exact Hi|]. right. exists fp. split; auto.
Qed.

End TimeTokensOnNumbers.

Section SegmentTimes.

Local Open Scope Q_scope.

(** Proves [groups_sound (time_groups conv n) r] for a pattern of the
    cascade: a time group by the lemma of its token, the text group
    because its number exceeds [n]. *)
Ltac sound_groups :=
  cbn; repeat split;
  try (intros w Hw Hle;
       first [ apply hhmmss_nonneg, Hw | apply srt_nonneg, Hw
             | apply simple_nonneg, Hw | apply number_nonneg, Hw
             | exfalso; lia ]).

Lemma exec_time_groups (conv : jsstr -> num) (n : nat) (r : regex)
    (line : jsstr) (m : captures) (i : nat) :
  groups_sound (time_groups conv n) r -> exec r line = Some m ->
  i ∈ defined_groups r -> (i <= n)%nat -> nonneg_number (conv (group m i)).
Proof.
  intros Hg He Hi Hle.
  destruct (exec_sound _ r line m Hg He) as [_ H]. apply (H i Hi Hle).
Qed.

Lemma parse_line_times (line : jsstr) (next_line : option jsstr) :
  Forall entry_times_ok (Binary64.parse_line line next_line).
Proof.
  unfold Binary64.parse_line. destruct line as [|c0 line0]; [constructor|].
  set (line := c0 :: line0). clearbody line.
  repeat match goal with
  | |- Forall _ (match exec ?r line with _ => _ end) =>
      let E := fresh "E" in destruct (exec r line) as [m|] eqn:E
  end;
  try match goal with
      | |- Forall _ (match ?next with [] => _ | _ => _ end) => destruct next
      end;
  repeat match goal with
         | |- Forall _ _ => constructor
         | |- entry_times_ok _ => split
         end.
  all: try exact I.
  all: cbn [start end_].
  all: match goal with
       | E : exec ?r ?l = Some ?m |- nonneg_number (?conv (group ?m ?i)) =>
           apply (exec_time_groups conv 2 r l m i);
             [solve [sound_groups] | exact E | cbn; set_solver | lia]
       | E : exec ?r ?l = Some ?m |- nonneg_number (?conv (group ?m ?i)) =>
           apply (exec_time_groups conv 1 r l m i);
             [solve [sound_groups] | exact E | cbn; set_solver | lia]
       end.
Qed.

Lemma parse_lines_times (lines : list jsstr) (acc : list entry) :
  Forall entry_times_ok acc ->
  Forall entry_times_ok (Binary64.parse_lines lines acc).
Proof.
  revert acc. induction lines as [|l lines IH]; intros acc H; [exact H|].
  cbn [Binary64.parse_lines]. apply IH, Forall_app. split; [exact H|].
  apply parse_line_times.
Qed.

Lemma parseEntries_times (t : jsstr) :
  Forall entry_times_ok (Binary64.parseEntries t).
Proof. apply parse_lines_times. constructor. Qed.

Lemma nonneg_of_Z (z : Z) : (0 <= z)%Z -> nonneg_number (of_Z z).
Proof.
  intros H. right. exists (inject_Z z). split; [reflexivity|].
  change 0 with (inject_Z 0). rewrite <- Zle_Qle. exact H.
Qed.

Lemma synthesize_ends_times (ts : list entry) :
  Forall entry_times_ok ts ->
  Forall entry_times_ok (Binary64.synthesize_ends ts).
Proof.
  induction 1 as [|e ts [He _] Hts IH]; [constructor|].
  cbn [Binary64.synthesize_ends]. constructor; [|exact IH].
  split; [exact He|]. cbn [end_]. destruct Hts as [|e' ts' [He' _] _].
  - apply nonneg_add; [exact He | apply nonneg_of_Z; lia].
  - exact He'.
Qed.

Lemma synthesize_times (ts : list entry) :
  Forall entry_times_ok ts -> Forall entry_times_ok (Binary64.synthesize ts).
Proof.
  intros H. unfold Binary64.synthesize.
  destruct ts as [|first rest]; [exact H|].
  destruct (end_ first); [exact H | apply synthesize_ends_times, H].
Qed.

Lemma synthesize_ends_last (ts : list entry) (seg : entry) :
  last (Binary64.synthesize_ends ts) = Some seg ->
  exists e, last ts = Some e
            /\ seg = mkEntry (start e)
                             (Some (Binary64.add (start e) (of_Z 3)))
                             (text e).
Proof.
  induction ts as [|e ts IH]; [discriminate|].
  destruct ts as [|e' ts].
  - cbn. intros [= <-]. eauto.
  - cbn [Binary64.synthesize_ends]. cbn [Binary64.synthesize_ends] in IH.
    rewrite !last_cons_cons. exact IH.
Qed.

(** Below 2^55, adding 3.0 gives a larger Number. *)
Lemma three_seconds_later (q : Q) :
  0 <= q -> q < 2 ^ 55 ->
  num_lt (Fin q) (Binary64.add (Fin q) (of_Z 3)) = true.
Proof.
  intros H0 H1. unfold of_Z. rewrite add_Fin. change (inject_Z 3) with 3.
  destruct (Qlt_le_dec (q + 3) (2 ^ 55)) as [L|G].
  - destruct (round64_error (q + 3) 55 ltac:(lra) L ltac:(lia))
      as (v & -> & Hv & _).
    change (2 ^ (55 - 54)) with 2 in Hv. cbn [num_lt].
    apply negb_true_iff. destruct (Qle_bool v q) eqn:E; [|reflexivity].
    apply Qle_bool_iff in E. lra.
  - pose proof (round64_monotone _ _ G) as M.
    assert (Binary64.round64 (2 ^ 55) = Fin (2 ^ 55)) as E
      by (vm_compute; reflexivity).
    rewrite E in M.
    destruct (Binary64.round64 (q + 3)) as [v| | |]; try discriminate;
      [|reflexivity].
    cbn [num_le] in M. apply Qle_bool_iff in M. cbn [num_lt].
    apply negb_true_iff. destruct (Qle_bool v q) eqn:E'; [|reflexivity].
    apply Qle_bool_iff in E'. lra.
Qed.

(** C6, as amended.  Every segment made from a transcript has a start that
    is a Number and is not negative (it may be [+Infinity], never NaN), and
    so is its end when it has one.  That the end exceeds the start is only
    certain for the last segment of a synthesized sequence, and there only
    as long as the start is below 2^55: its end is its start plus 3.0. *)
Theorem segment_times (t : jsstr) :
  Forall entry_times_ok (Binary64.parseTranscriptFile t)
  /\ (forall first rest seg q,
         Binary64.parseEntries t = first :: rest -> end_ first = None ->
         last (Binary64.parseTranscriptFile t) = Some seg ->
         start seg = Fin q -> q < 2 ^ 55 -> segment_ok seg = true).
Proof.
  split.
  - apply synthesize_times, parseEntries_times.
  - intros first rest seg q Hp Hf Hl Hq Hlt.
    unfold Binary64.parseTranscriptFile in Hl.
    pose proof (parseEntries_times t) as Ht. rewrite Hp in Hl, Ht.
    unfold Binary64.synthesize in Hl. rewrite Hf in Hl.
    apply synthesize_ends_last in Hl as (e & He & ->).
    cbn [start] in Hq. apply last_Some_elem_of in He.
    rewrite Forall_forall in Ht. destruct (Ht e He) as [Hs _].
    rewrite Hq in Hs. destruct Hs as [Hs|(q' & Hs & H0)]; [discriminate|].
    injection Hs as <-.
    unfold segment_ok. cbn [start end_]. rewrite Hq.
    rewrite (three_seconds_later q H0 Hlt), andb_true_r.
    cbn [num_le of_Z]. apply Qle_bool_iff, H0.
Qed.

End SegmentTimes.

(** A transcript whose onsets go backwards: the times are not negative,
    and the last segment, {5, 8, b}, has its end after its start (the first
    one, {10, 5, a}, has not). *)
Lemma segment_times_witness :
  Forall entry_times_ok
         (Binary64.parseTranscriptFile (line2 "[0:10] a" "[0:05] b"))
  /\ Binary64.parseTranscriptFile (line2 "[0:10] a" "[0:05] b")
     = [mkEntry (of_Z 10) (Some (of_Z 5)) (js "a");
        mkEntry (of_Z 5) (Some (of_Z 8)) (js "b")]
  /\ segment_ok (mkEntry (of_Z 5) (Some (of_Z 8)) (js "b")) = true.
Proof.
  destruct (segment_times (line2 "[0:10] a" "[0:05] b")) as [H1 H2].
  split; [exact H1|]. split; [vm_compute; reflexivity|].
  apply (H2 (mkEntry (of_Z 10) None (js "a"))
            [mkEntry (of_Z 5) None (js "b")] _ 5%Q);
    vm_compute; reflexivity.
Defined.

(** C6 fails: a range whose end precedes its start is passed through. *)
Lemma segment_invariant_broken :
  Binary64.parseTranscriptFile (js "[00:00:08 - 00:00:05] hello")
  = [mkEntry (of_Z 8) (Some (of_Z 5)) (js "hello")]
  /\ forallb segment_ok
       (Binary64.parseTranscriptFile (js "[00:00:08 - 00:00:05] hello"))
     = false.
Proof. split; vm_compute; reflexivity. Qed.

(** From 2^55 seconds on, the three seconds are lost in the rounding: the
    only segment of "36028797018963968 x" ends where it starts. *)
Lemma trailing_seconds_absorbed :
  Binary64.parseTranscriptFile (js "36028797018963968 x")
  = [mkEntry (of_Z (2 ^ 55)) (Some (of_Z (2 ^ 55))) (js "x")].
Proof. vm_compute. reflexivity. Qed.

(** A bare number beyond the range of the Numbers is read as [Infinity]:
    here 1 followed by 309 zeros. *)
Lemma timestamp_out_of_range :
  Binary64.parseTranscriptFile
    (js "1" ++ replicate 309 48%N ++ js " - 5 x")
  = [mkEntry PInf (Some (of_Z 5)) (js "x")].
Proof. vm_compute. reflexivity. Qed.

(* ===================================================================== *)
(** * The tokens of the layouts under the matcher                         *)
(* ===================================================================== *)

Section TokenRuns.

Context {A : Type}.
Implicit Types (k : jsstr -> captures -> option A) (c : captures).

(** A captured token: the group holds what the token consumed. *)
Lemma run_group (i : nat) (r : regex) (w s : jsstr) c k :
  (forall k', rmatch r (w ++ s) c k' = k' s c) ->
  rmatch (Group i r) (w ++ s) c k = k s (<[i := w]> c).
Proof.
  intros H. rewrite rmatch_group, H, take_consumed. reflexivity.
Qed.

Lemma run_group_some (i : nat) (r : regex) (w s : jsstr) c k (x : A) :
  (forall k', k' s c = Some x -> rmatch r (w ++ s) c k' = Some x) ->
  k s (<[i := w]> c) = Some x ->
  rmatch (Group i r) (w ++ s) c k = Some x.
Proof.
  intros H Hk. rewrite rmatch_group. apply H.
  rewrite take_consumed. exact Hk.
Qed.

(** "hh:mm:ss" *)
Lemma run_clock (t : clock) (s : jsstr) c k :
  clock_ok t -> rmatch hms (clock_text t ++ s) c k = k s c.
Proof.
  unfold clock_ok, clock_text. cbn [forallb]. intros H. split_tests.
  unfold hms, d2, digit. cbn [seqs foldr times app]. run. reflexivity.
Qed.

(** "hh:mm:ss,fff" *)
Lemma run_stamp (t : stamp) (s : jsstr) c k :
  stamp_ok t -> rmatch hms_ms (stamp_text t ++ s) c k = k s c.
Proof.
  unfold stamp_ok, stamp_text. cbn [forallb]. intros H. split_tests.
  unfold hms_ms, hms, d2, digit. cbn [seqs foldr times app]. run.
  reflexivity.
Qed.

(** "m:ss" and "mm:ss" *)
Lemma run_minsec (t : minsec) (s : jsstr) c k :
  minsec_ok t -> rmatch m_ss (minsec_text t ++ s) c k = k s c.
Proof.
  destruct t as [mins x y]. unfold minsec_ok, minsec_text.
  cbn [minutes sec1 sec2]. intros (Hl & Hm & Hx & Hy).
  unfold m_ss, rep, upto, opt, d2, digit.
  cbn [seqs foldr times Nat.sub].
  destruct mins as [|a [|b [|]]]; cbn [length] in Hl; try lia;
    cbn [forallb] in Hm; split_tests; cbn [app].
  - run. rewrite rmatch_alt.
    rewrite rmatch_seq. change (rmatch (Chr is_digit) (N_of_ascii ":" :: _) _ _)
      with (@None A). run. reflexivity.
  - run. rewrite rmatch_alt. run.
    destruct (k s c); [reflexivity|].
    apply rmatch_lit_other. intros ->. discriminate.
Qed.

(** One space before something that is not white space. *)
Lemma run_space (s : jsstr) c k (x : A) :
  (forall a, head s = Some a -> is_space a = false) -> k s c = Some x ->
  rmatch (Star space) (N_of_ascii " " :: s) c k = Some x.
Proof.
  intros Hs Hk. apply (rmatch_star_run is_space [N_of_ascii " "] s);
    [reflexivity | exact Hs | exact Hk].
Qed.

Lemma run_plus_space (s : jsstr) c k (x : A) :
  (forall a, head s = Some a -> is_space a = false) -> k s c = Some x ->
  rmatch (plus space) (N_of_ascii " " :: s) c k = Some x.
Proof.
  intros Hs Hk. unfold plus. rewrite rmatch_seq.
  unfold space at 1. rewrite rmatch_chr_ok by reflexivity.
  apply (rmatch_star_run is_space [] s); [reflexivity | exact Hs | exact Hk].
Qed.

(** A numeral before a character that is neither a digit nor a point. *)
Lemma run_numeral (n : numeral) (s : jsstr) c k (x : A) :
  numeral_ok n ->
  (forall a, head s = Some a ->
             is_digit a = false /\ a <> N_of_ascii ".") ->
  k s c = Some x ->
  rmatch number (numeral_text n ++ s) c k = Some x.
Proof.
  destruct n as [ip tail]. unfold numeral_ok, numeral_text.
  cbn [whole fraction]. intros [[Hne Hd] Ht] Hs Hk.
  destruct ip as [|d ip]; [congruence|].
  cbn [forallb] in Hd. apply andb_true_iff in Hd as [Hd Hip].
  unfold number, plus, opt, digit. cbn [seqs foldr app].
  rewrite !rmatch_seq, rmatch_chr_ok by exact Hd. rewrite <- app_assoc.
  assert (forall fp, forallb is_digit fp = true ->
            rmatch (Seq (Star (Chr is_digit)) Eps) (fp ++ s) c k = Some x)
    as Hfrac.
  { intros fp Hfp. rewrite rmatch_seq.
    apply rmatch_star_run; [exact Hfp | intros a Ha; apply (Hs a Ha) |].
    exact Hk. }
  apply rmatch_star_run; [exact Hip | |].
  - destruct Ht as [->|(fp & -> & _)]; cbn [app head].
    + intros a Ha. apply (Hs a Ha).
    + intros a [= <-]. reflexivity.
  - rewrite rmatch_seq, rmatch_alt.
    destruct Ht as [->|(fp & -> & Hfp)]; cbn [app].
    + assert (rmatch (lit ".") s c
                (fun s' c' => rmatch (Seq (Star (Chr is_digit)) Eps) s' c' k)
              = None) as ->.
      { destruct s as [|a s']; [reflexivity|].
        apply rmatch_lit_other. apply (Hs a eq_refl). }
      rewrite rmatch_eps. apply (Hfrac []). reflexivity.
    + rewrite rmatch_lit. rewrite (Hfrac fp Hfp). reflexivity.
Qed.

End TokenRuns.

Section TextRuns.

(** The text of a line under the last group of a pattern. *)
Lemma run_text (i : nat) (text : jsstr) (cs : captures) :
  clean_text text ->
  rmatch (Seq (Group i rest) Eps) text cs
    (fun s' c' => match s' with [] => Some c' | _ => None end)
  = Some (<[i := text]> cs).
Proof.
  intros (Hne & Hdot & Hh & _). apply text_group; assumption.
Qed.

Lemma clean_head (text : jsstr) :
  clean_text text -> forall a, head text = Some a -> is_space a = false.
Proof. intros (_ & _ & Hh & _). exact Hh. Qed.

End TextRuns.

(* ===================================================================== *)
(** * The Numbers of the time tokens                                      *)
(* ===================================================================== *)

Section TokenNumbers.

(** Integers of at most 53 bits are computed exactly. *)
Lemma rounded_of_Z (z : Z) :
  (Z.abs z <= 2 ^ 53)%Z -> Binary64.rounded (of_Z z) = of_Z z.
Proof. intros H. unfold of_Z. cbn [Binary64.rounded]. apply round64_Z, H. Qed.

Lemma mul_of_Z (a b : Z) :
  (Z.abs (a * b) <= 2 ^ 53)%Z ->
  Binary64.mul (of_Z a) (of_Z b) = of_Z (a * b).
Proof.
  intros H. unfold Binary64.mul. rewrite num_mul_of_Z.
  apply rounded_of_Z, H.
Qed.

Lemma add_of_Z (a b : Z) :
  (Z.abs (a + b) <= 2 ^ 53)%Z ->
  Binary64.add (of_Z a) (of_Z b) = of_Z (a + b).
Proof.
  intros H. unfold Binary64.add. rewrite num_add_of_Z.
  apply rounded_of_Z, H.
Qed.

(** The value of up to three digits. *)
Lemma short_value (ds : jsstr) :
  forallb is_digit ds = true -> (length ds <= 3)%nat ->
  (0 <= digits_value 10 ds < 1000)%Z.
Proof.
  intros Hd Hl. split; [apply digits_value_nonneg, Hd|].
  pose proof (fold_digits_lt ds 0 Hd ltac:(lia)) as H.
  unfold digits_value. eapply Z.lt_le_trans; [exact H|].
  change 1000%Z with (1 * 10 ^ 3)%Z. cbn [Z.add].
  apply Z.mul_le_mono_nonneg_l; [lia|].
  apply Z.pow_le_mono_r; lia.
Qed.

Lemma Number_short (ds : jsstr) :
  digit_string ds -> (length ds <= 3)%nat ->
  Binary64.Number ds = of_Z (digits_value 10 ds).
Proof.
  intros H Hl. unfold Binary64.Number.
  rewrite Number_digits_value by exact H. apply rounded_of_Z.
  pose proof (short_value ds (proj2 H) Hl). lia.
Qed.

(** "hh:mm:ss" is hh*3600 + mm*60 + ss, without a rounding error. *)
Lemma hhmmss_number (a b c : jsstr) :
  digit_string a -> digit_string b -> digit_string c ->
  (length a <= 3)%nat -> (length b <= 3)%nat -> (length c <= 3)%nat ->
  Binary64.hhmmssToSeconds (a ++ [58%N] ++ b ++ [58%N] ++ c)
  = of_Z (digits_value 10 a * 3600 + digits_value 10 b * 60
          + digits_value 10 c).
Proof.
  intros Ha Hb Hc La Lb Lc. unfold Binary64.hhmmssToSeconds.
  rewrite split_char_sep by (apply digits_without; [lia | apply Ha]).
  rewrite split_char_sep by (apply digits_without; [lia | apply Hb]).
  rewrite split_char_none by (apply digits_without; [lia | apply Hc]).
  cbn [map nth]. rewrite !Number_short by assumption.
  pose proof (short_value a (proj2 Ha) La).
  pose proof (short_value b (proj2 Hb) Lb).
  pose proof (short_value c (proj2 Hc) Lc).
  rewrite !mul_of_Z, !add_of_Z by lia. reflexivity.
Qed.

(** "m:ss" is m*60 + ss, without a rounding error. *)
Lemma simple_number (a b : jsstr) :
  digit_string a -> digit_string b ->
  (length a <= 3)%nat -> (length b <= 3)%nat ->
  Binary64.simpleToSeconds (a ++ [58%N] ++ b)
  = of_Z (digits_value 10 a * 60 + digits_value 10 b).
Proof.
  intros Ha Hb La Lb. unfold Binary64.simpleToSeconds.
  rewrite split_char_sep by (apply digits_without; [lia | apply Ha]).
  rewrite split_char_none by (apply digits_without; [lia | apply Hb]).
  cbn [map nth]. rewrite !Number_short by assumption.
  pose proof (short_value a (proj2 Ha) La).
  pose proof (short_value b (proj2 Hb) Lb).
  rewrite mul_of_Z, add_of_Z by lia. reflexivity.
Qed.

Lemma clock_number (t : clock) :
  clock_ok t ->
  Binary64.hhmmssToSeconds (clock_text t) = of_Z (clock_seconds t).
Proof.
  unfold clock_ok, clock_text, clock_seconds. cbn [forallb]. intros H.
  split_tests.
  apply (hhmmss_number [k1 t; k2 t] [k3 t; k4 t] [k5 t; k6 t]);
    try (cbn [length]; lia);
    (split; [discriminate | cbn [forallb]; bool_to_prop; auto]).
Qed.

Lemma minsec_number (t : minsec) :
  minsec_ok t ->
  Binary64.simpleToSeconds (minsec_text t) = of_Z (minsec_seconds t).
Proof.
  unfold minsec_ok, minsec_text, minsec_seconds.
  intros (Hl & Hm & Hx & Hy).
  apply (simple_number (minutes t) [sec1 t; sec2 t]).
  - split; [|exact Hm]. intros E. rewrite E in Hl. cbn in Hl. lia.
  - split; [discriminate|]. cbn [forallb]. rewrite Hx, Hy. reflexivity.
  - lia.
  - cbn [length]. lia.
Qed.

Lemma stamp_srt_number (t : stamp) :
  stamp_ok t -> Binary64.srtToSeconds (stamp_text t) = stamp_number t.
Proof.
  unfold stamp_ok, stamp_text, stamp_number. cbn [forallb]. intros H.
  split_tests. unfold Binary64.srtToSeconds.
  change [h1 t; h2 t; N_of_ascii ":"; m1 t; m2 t; N_of_ascii ":"; s1 t; s2 t;
          N_of_ascii ","; f1 t; f2 t; f3 t]
    with ([h1 t; h2 t; 58%N; m1 t; m2 t; 58%N; s1 t; s2 t] ++ [44%N]
          ++ [f1 t; f2 t; f3 t]).
  rewrite split_char_sep.
  2:{ cbn [forallb].
      rewrite (digit_is_not (h1 t) 44), (digit_is_not (h2 t) 44),
        (digit_is_not (m1 t) 44), (digit_is_not (m2 t) 44),
        (digit_is_not (s1 t) 44), (digit_is_not (s2 t) 44) by (auto; lia).
      reflexivity. }
  rewrite split_char_none
    by (apply digits_without; [lia | cbn [forallb]; bool_to_prop; auto]).
  cbn [nth]. cbv zeta.
  change [h1 t; h2 t; 58%N; m1 t; m2 t; 58%N; s1 t; s2 t]
    with ([h1 t; h2 t] ++ [58%N] ++ [m1 t; m2 t] ++ [58%N] ++ [s1 t; s2 t]).
  rewrite (hhmmss_number [h1 t; h2 t] [m1 t; m2 t] [s1 t; s2 t]);
    try (cbn [length]; lia);
    try (split; [discriminate | cbn [forallb]; bool_to_prop; auto]).
  rewrite Number_short;
    [reflexivity | split; [discriminate | cbn [forallb]; bool_to_prop; auto]
    | cbn [length]; lia].
Qed.

Lemma numeral_Number (n : numeral) :
  numeral_ok n -> Binary64.Number (numeral_text n) = numeral_number n.
Proof.
  intros [Hw Hf]. unfold Binary64.Number, numeral_text, numeral_number.
  rewrite Number_literal_value by assumption. cbn [Binary64.rounded].
  apply round64_comp, Qred_correct.
Qed.

End TokenNumbers.

Section StampError.

Local Open Scope Q_scope.

(** The Number of a subtitle time is within 2^-34 s of the time. *)
Lemma stamp_number_error (t : stamp) :
  stamp_ok t ->
  exists v, stamp_number t = Fin v
            /\ Qabs (v - stamp_seconds t) <= 1 # 10000000000.
Proof.
  unfold stamp_ok, stamp_number, stamp_seconds. cbn [forallb]. intros H.
  split_tests.
  assert (forallb is_digit [h1 t; h2 t] = true) as Dh
    by (cbn [forallb]; bool_to_prop; auto).
  assert (forallb is_digit [m1 t; m2 t] = true) as Dm
    by (cbn [forallb]; bool_to_prop; auto).
  assert (forallb is_digit [s1 t; s2 t] = true) as Ds
    by (cbn [forallb]; bool_to_prop; auto).
  assert (forallb is_digit [f1 t; f2 t; f3 t] = true) as Df
    by (cbn [forallb]; bool_to_prop; auto).
  pose proof (short_value _ Df ltac:(cbn; lia)) as Bf.
  pose proof (fold_digits_lt _ 0 Dh ltac:(lia)) as Bh.
  pose proof (fold_digits_lt _ 0 Dm ltac:(lia)) as Bm.
  pose proof (fold_digits_lt _ 0 Ds ltac:(lia)) as Bs.
  pose proof (digits_value_nonneg _ Dh) as Ph.
  pose proof (digits_value_nonneg _ Dm) as Pm.
  pose proof (digits_value_nonneg _ Ds) as Ps.
  fold (digits_value 10 [h1 t; h2 t]) in Bh.
  fold (digits_value 10 [m1 t; m2 t]) in Bm.
  fold (digits_value 10 [s1 t; s2 t]) in Bs.
  cbn [length Z.of_nat Pos.of_succ_nat Pos.succ Z.add] in Bh, Bm, Bs.
  change (1 * 10 ^ 2)%Z with 100%Z in Bh, Bm, Bs.
  set (whole := (digits_value 10 [h1 t; h2 t] * 3600
                 + digits_value 10 [m1 t; m2 t] * 60
                 + digits_value 10 [s1 t; s2 t])%Z).
  set (ms := digits_value 10 [f1 t; f2 t; f3 t]) in *.
  assert (0 <= whole <= 362439)%Z as Bw by (unfold whole; lia).
  assert (0 <= inject_Z ms /\ inject_Z ms <= 999) as [Qf0 Qf1].
  { split; [change 0 with (inject_Z 0) | change 999 with (inject_Z 999)];
      rewrite <- Zle_Qle; lia. }
  assert (0 <= inject_Z whole /\ inject_Z whole <= 362439) as [Qw0 Qw1].
  { split; [change 0 with (inject_Z 0)
           | change 362439 with (inject_Z 362439)];
      rewrite <- Zle_Qle; lia. }
  unfold Binary64.div, of_Z. cbn [num_div].
  assert (Qeq_bool (inject_Z 1000) 0 = false) as -> by reflexivity.
  cbn [Binary64.rounded].
  set (f := inject_Z ms / inject_Z 1000).
  assert (0 <= f /\ f <= 999 # 1000) as [F0 F1].
  { unfold f. split.
    - apply Qle_shift_div_l; [reflexivity|]. lra.
    - apply Qle_shift_div_r; [reflexivity|].
      change (inject_Z 1000) with 1000. lra. }
  destruct (round64_error (Qred f) 0) as (v1 & E1 & L1 & U1);
    [rewrite Qred_correct; exact F0
    | rewrite Qred_correct; change (2 ^ 0) with 1; lra | lia |].
  rewrite Qred_correct in L1, U1.
  change (2 ^ (0 - 54)) with (1 # 18014398509481984) in L1, U1.
  assert (0 <= v1) as P1.
  { destruct (round64_nonneg (Qred f)) as [Hinf|(v & Ev & Hv)];
      [rewrite Qred_correct; exact F0 | congruence |].
    rewrite E1 in Ev. injection Ev as ->. exact Hv. }
  rewrite E1. unfold Binary64.add. cbn [num_add Binary64.rounded].
  destruct (round64_error (Qred (inject_Z whole + v1)) 19)
    as (v2 & E2 & L2 & U2);
    [rewrite Qred_correct; lra
    | rewrite Qred_correct; change (2 ^ 19) with 524288; lra | lia |].
  rewrite Qred_correct in L2, U2.
  change (2 ^ (19 - 54)) with (1 # 34359738368) in L2, U2.
  exists v2. split; [exact E2|]. rewrite Qred_correct.
  change (inject_Z ms / 1000) with f. apply Qabs_Qle_condition.
  split; lra.
Qed.

End StampError.

(* ===================================================================== *)
(** * The patterns on the lines of the layouts                            *)
(* ===================================================================== *)

Section TokenHeads.

Lemma clock_head (t : clock) (s : jsstr) (x : N) :
  clock_ok t -> head (clock_text t ++ s) = Some x -> is_digit x = true.
Proof.
  unfold clock_ok, clock_text. cbn [forallb app head]. intros H [= <-].
  split_tests. assumption.
Qed.

Lemma stamp_head (t : stamp) (s : jsstr) (x : N) :
  stamp_ok t -> head (stamp_text t ++ s) = Some x -> is_digit x = true.
Proof.
  unfold stamp_ok, stamp_text. cbn [forallb app head]. intros H [= <-].
  split_tests. assumption.
Qed.

Lemma minsec_head (t : minsec) (s : jsstr) (x : N) :
  minsec_ok t -> head (minsec_text t ++ s) = Some x -> is_digit x = true.
Proof.
  destruct t as [mins a b]. unfold minsec_ok, minsec_text.
  cbn [minutes sec1 sec2]. intros (Hl & Hm & _).
  destruct mins as [|c mins]; [cbn in Hl; lia|].
  cbn [forallb] in Hm. apply andb_true_iff in Hm as [Hc _].
  cbn [app head]. intros [= <-]. exact Hc.
Qed.

Lemma numeral_head (n : numeral) (s : jsstr) (x : N) :
  numeral_ok n -> head (numeral_text n ++ s) = Some x -> is_digit x = true.
Proof.
  destruct n as [ip tail]. unfold numeral_ok, numeral_text.
  cbn [whole fraction]. intros [[Hne Hd] _].
  destruct ip as [|c ip]; [congruence|].
  cbn [forallb] in Hd. apply andb_true_iff in Hd as [Hc _].
  cbn [app head]. intros [= <-]. exact Hc.
Qed.

End TokenHeads.

(** Discharges the side conditions on the character after a token. *)
Ltac after_token :=
  first
    [ assumption
    | intros ? [= <-]; first [reflexivity | split; [reflexivity | discriminate]]
    | let x := fresh in let Hx := fresh in
      intros x Hx; apply digit_not_space;
      first [ eapply minsec_head; [|exact Hx]; assumption
            | eapply clock_head; [|exact Hx]; assumption
            | eapply stamp_head; [|exact Hx]; assumption
            | eapply numeral_head; [|exact Hx]; assumption ]
    | apply clean_head; assumption ].

(** Steps the matcher through the tokens, the separators and the text of a
    line. *)
Ltac tokens :=
  repeat (cbv beta;
          first
            [ apply run_text; assumption
            | rewrite rmatch_seq | rewrite rmatch_eps | rewrite rmatch_lit
            | rewrite (run_group _ hms)
                by (intros; apply run_clock; assumption)
            | rewrite (run_group _ hms_ms)
                by (intros; apply run_stamp; assumption)
            | rewrite (run_group _ m_ss)
                by (intros; apply run_minsec; assumption)
            | apply (run_group_some _ number);
                [ intros; apply run_numeral;
                  [assumption | after_token | assumption] | ]
            | apply run_space; [after_token|]
            | apply run_plus_space; [after_token|] ]).

Section LayoutMatches.

Implicit Types (text : jsstr).

Lemma bracket_range_match (a b : clock) text :
  clock_ok a -> clock_ok b -> clean_text text ->
  exec re_bracket_range (range_line (mkRange a b text))
  = Some (<[3%nat := text]>
            (<[2%nat := clock_text b]> (<[1%nat := clock_text a]> ∅))).
Proof.
  intros Ha Hb Ht. unfold exec, re_bracket_range, range_line.
  cbn [r_from r_to r_text seqs foldr js list_ascii_of_string map app].
  tokens.
Qed.

Lemma srt_match (a d : stamp) :
  stamp_ok a -> stamp_ok d ->
  exec re_srt (stamp_text a ++ js " --> " ++ stamp_text d)
  = Some (<[2%nat := stamp_text d]> (<[1%nat := stamp_text a]> ∅)).
Proof.
  intros Ha Hd. unfold exec, re_srt.
  replace (stamp_text d) with (stamp_text d ++ []) at 1 by apply app_nil_r.
  cbn [seqs foldr js list_ascii_of_string map app].
  tokens. reflexivity.
Qed.

Lemma simple_range_match (a b : minsec) text :
  minsec_ok a -> minsec_ok b -> clean_text text ->
  exec re_simple_range (minsec_range_line a b text)
  = Some (<[3%nat := text]>
            (<[2%nat := minsec_text b]> (<[1%nat := minsec_text a]> ∅))).
Proof.
  intros Ha Hb Ht. unfold exec, re_simple_range, minsec_range_line.
  cbn [seqs foldr js list_ascii_of_string map app].
  tokens.
Qed.

Lemma number_range_match (a b : numeral) text :
  numeral_ok a -> numeral_ok b -> clean_text text ->
  exec re_number_range (numeral_range_line a b text)
  = Some (<[3%nat := text]>
            (<[2%nat := numeral_text b]> (<[1%nat := numeral_text a]> ∅))).
Proof.
  intros Ha Hb Ht. unfold exec, re_number_range, numeral_range_line.
  cbn [seqs foldr js list_ascii_of_string map app].
  tokens.
Qed.

Lemma bracket_start_match (a : minsec) text :
  minsec_ok a -> clean_text text ->
  exec re_bracket_start (bracketed_line a text)
  = Some (<[2%nat := text]> (<[1%nat := minsec_text a]> ∅)).
Proof.
  intros Ha Ht. unfold exec, re_bracket_start, bracketed_line.
  cbn [seqs foldr js list_ascii_of_string map app].
  tokens.
Qed.

Lemma paren_start_match (a : minsec) text :
  minsec_ok a -> clean_text text ->
  exec re_paren_start (parenthesized_line a text)
  = Some (<[2%nat := text]> (<[1%nat := minsec_text a]> ∅)).
Proof.
  intros Ha Ht. unfold exec, re_paren_start, parenthesized_line.
  cbn [seqs foldr js list_ascii_of_string map app].
  tokens.
Qed.

Lemma simple_start_match (a : minsec) text :
  minsec_ok a -> clean_text text ->
  exec re_simple_start (minsec_line a text)
  = Some (<[2%nat := text]> (<[1%nat := minsec_text a]> ∅)).
Proof.
  intros Ha Ht. unfold exec, re_simple_start, minsec_line.
  cbn [seqs foldr js list_ascii_of_string map app].
  tokens.
Qed.

Lemma number_start_match (a : numeral) text :
  numeral_ok a -> clean_text text ->
  exec re_number_start (numeral_line a text)
  = Some (<[2%nat := text]> (<[1%nat := numeral_text a]> ∅)).
Proof.
  intros Ha Ht. unfold exec, re_number_start, numeral_line.
  cbn [seqs foldr js list_ascii_of_string map app].
  tokens.
Qed.

End LayoutMatches.

Section LayoutMismatches.

Implicit Types (text : jsstr).


Lemma exec_matches (r : regex) (line : jsstr) (m : captures) :
  exec r line = Some m -> matches r line.
Proof.
  intros H.
  apply (exec_sound (fun _ _ => True) r line m (groups_sound_trivial r) H).
Qed.

(** A pattern that opens with a literal fails on another first
    character. *)
Lemma exec_lit_first (a : ascii) (rs : list regex) (x : N) (s : jsstr) :
  x <> N_of_ascii a -> exec (seqs (lit a :: rs)) (x :: s) = None.
Proof.
  intros H. unfold exec. cbn [seqs foldr]. rewrite rmatch_seq.
  apply rmatch_lit_other, H.
Qed.

(** A pattern that opens with a time token fails on a first character
    that is not a digit. *)
Lemma exec_token_first (r : regex) (x : N) (s : jsstr) :
  In r [re_srt; re_simple_range; re_number_range; re_simple_start;
        re_number_start] ->
  is_digit x = false -> exec r (x :: s) = None.
Proof.
  cbn [In]. intros Hin Hx.
  assert (forall A c (k : jsstr -> captures -> option A),
            rmatch digit (x :: s) c k = None) as Hd
    by (intros; cbn; rewrite Hx; reflexivity).
  decompose [or] Hin; try contradiction; subst r;
    unfold exec, re_srt, re_simple_range, re_number_range, re_simple_start,
      re_number_start, hms_ms, hms, m_ss, number, rep, plus, d2;
    cbn [seqs foldr times];
    rewrite rmatch_seq, rmatch_group, !rmatch_seq; apply Hd.
Qed.

Lemma span_unique (p : N -> bool) (u v u' v' : jsstr) :
  forallb p u = true -> forallb p u' = true ->
  (forall c, head v = Some c -> p c = false) ->
  (forall c, head v' = Some c -> p c = false) ->
  u ++ v = u' ++ v' -> u = u' /\ v = v'.
Proof.
  intros Hu Hu' Hv Hv' E.
  pose proof (span_app p u v Hu Hv) as S1.
  pose proof (span_app p u' v' Hu' Hv') as S2.
  rewrite E in S1. rewrite S1 in S2. injection S2 as -> ->. auto.
Qed.

(** The patterns whose first token is "hh:mm:ss,fff" or "m:ss" need a
    colon after the first digits of the line. *)
Lemma colon_after_digits (r : regex) (line : jsstr) (m : captures) :
  In r [re_srt; re_simple_range; re_simple_start] ->
  exec r line = Some m ->
  exists a tail, digit_string a /\ line = a ++ 58%N :: tail.
Proof.
  cbn [In]. intros Hin H. apply exec_matches in H.
  decompose [or] Hin; try contradiction; subst r;
    unfold re_srt, re_simple_range, re_simple_start in H;
    cbn [seqs foldr] in H;
    apply matches_seq_inv in H as (g & w & -> & Hg & _);
    apply matches_group_inv in Hg.
  - apply hms_ms_language in Hg as (t & ms & -> & Ht & _).
    apply hms_language in Ht as (a & b & c & -> & Ha & _).
    exists a. eexists. split; [exact Ha|].
    rewrite <- !app_assoc. cbn [app]. reflexivity.
  - apply m_ss_language in Hg as (a & b & -> & Ha & _).
    exists a. eexists. split; [exact Ha|].
    rewrite <- !app_assoc. cbn [app]. reflexivity.
  - apply m_ss_language in Hg as (a & b & -> & Ha & _).
    exists a. eexists. split; [exact Ha|].
    rewrite <- !app_assoc. cbn [app]. reflexivity.
Qed.

Lemma no_colon_no_match (r : regex) (ip : jsstr) (x : N) (tail : jsstr) :
  In r [re_srt; re_simple_range; re_simple_start] ->
  forallb is_digit ip = true -> is_digit x = false -> x <> 58%N ->
  exec r (ip ++ x :: tail) = None.
Proof.
  intros Hin Hip Hx Hne.
  destruct (exec r (ip ++ x :: tail)) as [m|] eqn:E; [exfalso|reflexivity].
  destruct (colon_after_digits r _ m Hin E) as (a & tail' & [_ Ha] & El).
  apply (span_unique is_digit) in El as [_ El]; try assumption.
  - congruence.
  - intros c [= <-]. exact Hx.
  - intros c [= <-]. reflexivity.
Qed.

(** After the digits of a numeral that a space follows comes a point or
    the space. *)
Lemma numeral_no_colon (r : regex) (n : numeral) (s : jsstr) :
  In r [re_srt; re_simple_range; re_simple_start] -> numeral_ok n ->
  exec r (numeral_text n ++ N_of_ascii " " :: s) = None.
Proof.
  intros Hin [[_ Hw] Ht]. unfold numeral_text. rewrite <- app_assoc.
  destruct Ht as [->|(fp & -> & _)]; cbn [app];
    apply no_colon_no_match; auto; discriminate.
Qed.

(** "m:ss" is not the beginning of "hh:mm:ss". *)
Lemma hms_not_minsec (t : minsec) (tok w : jsstr) (x : N) (s : jsstr) :
  matches hms tok -> minsec_ok t -> is_digit x = false -> x <> 58%N ->
  tok ++ w <> minsec_text t ++ x :: s.
Proof.
  intros Htok (_ & Hm & H1 & H2) Hx Hne E.
  apply hms_language in Htok as (a & b & c & -> & [_ Ha] & [_ Hb] & _).
  unfold minsec_text in E. rewrite <- !app_assoc in E. cbn [app] in E.
  apply (span_unique is_digit) in E as [_ E]; try assumption;
    try (intros ? [= <-]; reflexivity).
  injection E as E.
  change (sec1 t :: sec2 t :: x :: s) with ([sec1 t; sec2 t] ++ x :: s) in E.
  apply (span_unique is_digit) in E as [_ E]; try assumption.
  - congruence.
  - cbn [forallb]. rewrite H1, H2. reflexivity.
  - intros ? [= <-]. reflexivity.
  - intros ? [= <-]. exact Hx.
Qed.

Lemma srt_not_minsec (t : minsec) (s : jsstr) :
  minsec_ok t -> exec re_srt (minsec_text t ++ N_of_ascii " " :: s) = None.
Proof.
  intros Ht.
  destruct (exec re_srt _) as [m|] eqn:E; [exfalso|reflexivity].
  apply exec_matches in E. unfold re_srt in E. cbn [seqs foldr] in E.
  apply matches_seq_inv in E as (g & w & El & Hg & _).
  apply matches_group_inv, hms_ms_language in Hg as (tok & ms & -> & Hk & _).
  rewrite <- app_assoc in El. symmetry in El.
  apply (hms_not_minsec t tok _ _ s Hk Ht) in El;
    [exact El | reflexivity | discriminate].
Qed.

Lemma bracket_range_not_minsec (t : minsec) (s : jsstr) :
  minsec_ok t ->
  exec re_bracket_range
    (N_of_ascii "[" :: minsec_text t ++ N_of_ascii "]" :: s) = None.
Proof.
  intros Ht.
  destruct (exec re_bracket_range _) as [m|] eqn:E; [exfalso|reflexivity].
  apply exec_matches in E. unfold re_bracket_range in E.
  cbn [seqs foldr] in E.
  apply matches_seq_inv in E as (o & w & El & Ho & E).
  apply matches_lit_inv in Ho as ->.
  apply matches_seq_inv in E as (g & w' & -> & Hg & _).
  apply matches_group_inv in Hg. cbn [app] in El. injection El as El.
  symmetry in El.
  apply (hms_not_minsec t g _ _ s Hg Ht) in El;
    [exact El | reflexivity | discriminate].
Qed.

Lemma digits_tokens (ds : jsstr) :
  forallb is_digit ds = true -> forallb token_char ds = true.
Proof.
  apply forallb_impl. intros c Hc. unfold token_char. rewrite Hc.
  reflexivity.
Qed.

Lemma space_not_token (c : N) : is_space c = true -> token_char c = false.
Proof.
  intros H. unfold token_char. destruct (is_digit c) eqn:D.
  - rewrite (digit_not_space c D) in H. discriminate.
  - destruct (N.eqb_spec c 46) as [->|_]; [discriminate H|].
    destruct (N.eqb_spec c 58) as [->|_]; [discriminate H|]. reflexivity.
Qed.

(** White space and a hyphen are not a space and a text that does not
    open with a hyphen. *)
Lemma gap_then_hyphen (sp tail text : jsstr) :
  forallb is_space sp = true -> clean_text text -> no_hyphen text ->
  sp ++ N_of_ascii "-" :: tail <> N_of_ascii " " :: text.
Proof.
  intros Hsp (_ & _ & Hh & _) Hn E.
  destruct sp as [|c [|c' sp]]; cbn [app] in E.
  - discriminate E.
  - injection E as _ <-. apply Hn. reflexivity.
  - injection E as _ <-. cbn [forallb] in Hsp.
    apply andb_true_iff in Hsp as [_ Hsp].
    apply andb_true_iff in Hsp as [Hc' _].
    rewrite (Hh c' eq_refl) in Hc'. discriminate.
Qed.

(** Without a hyphen after the first token, a line is not a range. *)
Lemma range_needs_hyphen (r : regex) (tok text : jsstr) :
  In r [re_simple_range; re_number_range] ->
  forallb token_char tok = true -> clean_text text -> no_hyphen text ->
  exec r (tok ++ N_of_ascii " " :: text) = None.
Proof.
  cbn [In]. intros Hin Htok Ht Hn.
  destruct (exec r _) as [m|] eqn:E; [exfalso|reflexivity].
  apply exec_matches in E.
  assert (exists g sp w, forallb token_char g = true
                         /\ forallb is_space sp = true
                         /\ tok ++ N_of_ascii " " :: text
                            = g ++ sp ++ N_of_ascii "-" :: w)
    as (g & sp & w & Hg & Hsp & El).
  { decompose [or] Hin; try contradiction; subst r;
      unfold re_simple_range, re_number_range, space in E;
      cbn [seqs foldr] in E;
      apply matches_seq_inv in E as (g & w1 & El & Hg & E);
      apply matches_seq_inv in E as (sp & w2 & -> & Hsp & E);
      apply matches_seq_inv in E as (h & w3 & -> & Hh & _);
      apply matches_lit_inv in Hh as ->;
      apply matches_star_chr in Hsp; apply matches_group_inv in Hg;
      exists g, sp, w3; (split; [|split; [exact Hsp | exact El]]).
    - apply m_ss_language in Hg as (a & b & -> & [_ Ha] & [_ Hb]).
      rewrite !forallb_app. cbn [forallb].
      rewrite (digits_tokens a Ha), (digits_tokens b Hb). reflexivity.
    - apply number_language in Hg as (a & pt & b & -> & [_ Ha] & Hpt & Hb).
      rewrite !forallb_app.
      rewrite (digits_tokens a Ha), (digits_tokens b Hb).
      destruct Hpt as [-> | ->]; reflexivity. }
  apply (span_unique token_char) in El as [_ El]; try assumption.
  - symmetry in El. exact (gap_then_hyphen sp w text Hsp Ht Hn El).
  - intros c [= <-]. reflexivity.
  - destruct sp as [|c sp]; cbn [app head]; intros ? [= <-];
      [reflexivity|].
    cbn [forallb] in Hsp. apply andb_true_iff in Hsp as [Hc _].
    apply space_not_token, Hc.
Qed.

Lemma minsec_chars (t : minsec) :
  minsec_ok t -> forallb token_char (minsec_text t) = true.
Proof.
  intros (_ & Hm & H1 & H2). unfold minsec_text.
  rewrite forallb_app. cbn [forallb]. unfold token_char at 2 3 4.
  rewrite H1, H2, (digits_tokens _ Hm). reflexivity.
Qed.

Lemma numeral_chars (n : numeral) :
  numeral_ok n -> forallb token_char (numeral_text n) = true.
Proof.
  intros [[_ Hw] Ht]. unfold numeral_text. rewrite forallb_app.
  rewrite (digits_tokens _ Hw).
  destruct Ht as [->|(fp & -> & Hfp)]; [reflexivity|].
  cbn [forallb]. rewrite (digits_tokens _ Hfp). reflexivity.
Qed.

End LayoutMismatches.

(* ===================================================================== *)
(** * The entries of the lines of the layouts                             *)
(* ===================================================================== *)

Section LayoutEntries.

Implicit Types (text line : jsstr).

Lemma tokens_are_dots (w : jsstr) :
  forallb token_char w = true -> forallb is_dot w = true.
Proof.
  apply forallb_impl. intros c. unfold token_char.
  destruct (is_digit c) eqn:D; [intros _; apply digit_is_dot, D|].
  destruct (N.eqb_spec c 46) as [->|_]; [reflexivity|].
  destruct (N.eqb_spec c 58) as [->|_]; [reflexivity | discriminate].
Qed.

Lemma clock_text_dots (t : clock) :
  clock_ok t -> forallb is_dot (clock_text t) = true.
Proof.
  unfold clock_ok, clock_text. cbn [forallb]. intros H. split_tests.
  repeat match goal with
         | H : is_digit ?x = true |- _ =>
             rewrite (digit_is_dot x H); clear H
         end.
  reflexivity.
Qed.

(** A line made of tokens and separators before a text holds no line
    terminator, and trimming leaves it as it is. *)
Lemma line_plain line (pre text : jsstr) :
  line = pre ++ text -> forallb is_dot pre = true ->
  (forall c, head line = Some c -> is_space c = false) ->
  clean_text text ->
  forallb is_dot line = true /\ trim line = line.
Proof.
  intros -> Hpre Hh (Hne & Hdot & _ & Hl). split.
  - rewrite forallb_app, Hpre, Hdot. reflexivity.
  - apply trim_id; [exact Hh|]. intros c Hc. rewrite last_app in Hc.
    destruct (last text) as [y|] eqn:L.
    + injection Hc as <-. apply Hl. reflexivity.
    + apply last_None in L. congruence.
Qed.

(** A transcript of one line, and one of two lines. *)
Lemma single_line line :
  forallb is_dot line = true -> trim line = line ->
  Binary64.parseEntries line = Binary64.parse_line line None.
Proof.
  intros Hdot Htrim. unfold Binary64.parseEntries, split_lines.
  destruct (split_lines_go_line line [] Hdot) as [-> _].
  cbn [reverse rev_append app map Binary64.parse_lines head].
  rewrite Htrim. reflexivity.
Qed.

Lemma two_lines (l1 l2 : jsstr) :
  forallb is_dot l1 = true -> trim l1 = l1 ->
  forallb is_dot l2 = true -> trim l2 = l2 ->
  Binary64.parseEntries (l1 ++ 10%N :: l2)
  = Binary64.parse_line l1 (Some l2) ++ Binary64.parse_line l2 None.
Proof.
  intros D1 T1 D2 T2. unfold Binary64.parseEntries, split_lines.
  destruct (split_lines_go_line l1 [] D1) as [_ ->].
  destruct (split_lines_go_line l2 [] D2) as [-> _].
  cbn [reverse rev_append app map Binary64.parse_lines head].
  rewrite T1, T2. reflexivity.
Qed.

(** A line without a digit gives no entry. *)
Lemma plain_line_no_entry line (next_line : option jsstr) :
  Forall (fun c => is_digit c = false) line ->
  Binary64.parse_line line next_line = [].
Proof.
  intros H. unfold Binary64.parse_line.
  destruct line as [|c0 line0]; [reflexivity|].
  set (line := c0 :: line0) in *. clearbody line.
  unfold re_bracket_range, re_srt, re_simple_range, re_number_range,
    re_bracket_start, re_paren_start, re_simple_start, re_number_start.
  rewrite !(exec_needs_digit _ _ line) by
    (first [exact H | cbn; tauto | eauto]).
  reflexivity.
Qed.

End LayoutEntries.

(** Opens the cascade of [parse_line] on a line that is not empty. *)
Ltac open_cascade :=
  unfold Binary64.parse_line;
  match goal with
  | |- match ?line with [] => _ | _ => _ end = _ =>
      let l := fresh "l" in
      let E := fresh "E" in
      remember line as l eqn:E;
      destruct l;
      [ exfalso; apply (f_equal length) in E;
        unfold minsec_range_line, numeral_range_line, bracketed_line,
          parenthesized_line, minsec_line, numeral_line in E;
        rewrite ?length_app in E; cbn in E; lia
      | rewrite E; clear E ]
  end.

(** Reads the groups of a match. *)
Ltac read_groups :=
  unfold group;
  repeat (rewrite lookup_insert_eq || rewrite lookup_insert_ne by discriminate);
  cbn [default from_option id].

(** The first character of a line that opens with a token is a digit. *)
Ltac led_by_token :=
  let x := fresh in
  let Hx := fresh in
  intros x Hx;
  first [ eapply minsec_head; [|exact Hx]; assumption
        | eapply clock_head; [|exact Hx]; assumption
        | eapply stamp_head; [|exact Hx]; assumption
        | eapply numeral_head; [|exact Hx]; assumption ].

(** Rewrites the attempt of pattern [r] on the line at hand to its
    failure, which [tac] proves. *)
Ltac fails r tac :=
  match goal with
  | |- context [exec r ?line] =>
      let H := fresh in
      assert (exec r line = None) as H
        by (unfold minsec_range_line, numeral_range_line, bracketed_line,
              parenthesized_line, minsec_line, numeral_line;
            cbn [js list_ascii_of_string map app]; tac);
      rewrite H; clear H
  end.

Section LayoutLines.

Implicit Types (text : jsstr) (next_line : option jsstr).

Lemma clean_trim text : clean_text text -> trim text = text.
Proof. intros (_ & _ & Hh & Hl). apply trim_id; assumption. Qed.

(** "[hh:mm:ss - hh:mm:ss] text" *)
Lemma bracket_range_entry (a b : clock) text next_line :
  clock_ok a -> clock_ok b -> clean_text text ->
  Binary64.parse_line (range_line (mkRange a b text)) next_line
  = [mkEntry (of_Z (clock_seconds a)) (Some (of_Z (clock_seconds b))) text].
Proof.
  intros Ha Hb Ht. open_cascade.
  rewrite bracket_range_match by assumption. read_groups.
  rewrite !clock_number, clean_trim by assumption. reflexivity.
Qed.

(** "hh:mm:ss,fff --> hh:mm:ss,fff" before a line of text *)
Lemma srt_entry (a d : stamp) text :
  stamp_ok a -> stamp_ok d -> clean_text text ->
  Binary64.parse_line (stamp_text a ++ js " --> " ++ stamp_text d)
    (Some text)
  = [mkEntry (stamp_number a) (Some (stamp_number d)) text].
Proof.
  intros Ha Hd Ht. open_cascade.
  assert (exec re_bracket_range
            (stamp_text a ++ js " --> " ++ stamp_text d) = None) as ->.
  { unfold stamp_text at 1. cbn [app].
    apply (exec_lit_first "["). intros E.
    unfold stamp_ok in Ha. cbn [forallb] in Ha. split_tests.
    rewrite E in *. discriminate. }
  rewrite srt_match by assumption. read_groups.
  rewrite (clean_trim text Ht).
  destruct text as [|c text']; [destruct Ht; congruence|].
  rewrite !stamp_srt_number by assumption. reflexivity.
Qed.

(** The patterns that open with a bracket fail on a line that opens with
    a digit. *)
Lemma digit_led (line : jsstr) :
  (forall x, head line = Some x -> is_digit x = true) ->
  exec re_bracket_range line = None /\ exec re_bracket_start line = None
  /\ exec re_paren_start line = None.
Proof.
  intros H. destruct line as [|x s]; [repeat split; reflexivity|].
  specialize (H x eq_refl).
  repeat split; [apply (exec_lit_first "[") | apply (exec_lit_first "[")
                 | apply (exec_lit_first "(")];
    intros E; rewrite E in H; discriminate.
Qed.

(** "m:ss - m:ss text" *)
Lemma simple_range_entry (a b : minsec) text next_line :
  minsec_ok a -> minsec_ok b -> clean_text text ->
  Binary64.parse_line (minsec_range_line a b text) next_line
  = [mkEntry (of_Z (minsec_seconds a)) (Some (of_Z (minsec_seconds b)))
             text].
Proof.
  intros Ha Hb Ht. open_cascade.
  fails re_bracket_range ltac:(apply digit_led; led_by_token).
  fails re_srt ltac:(apply srt_not_minsec; assumption).
  rewrite simple_range_match by assumption. read_groups.
  rewrite !minsec_number, clean_trim by assumption. reflexivity.
Qed.

(** "number - number text" *)
Lemma number_range_entry (a b : numeral) text next_line :
  numeral_ok a -> numeral_ok b -> clean_text text ->
  Binary64.parse_line (numeral_range_line a b text) next_line
  = [mkEntry (numeral_number a) (Some (numeral_number b)) text].
Proof.
  intros Ha Hb Ht. open_cascade.
  fails re_bracket_range ltac:(apply digit_led; led_by_token).
  fails re_srt ltac:(apply numeral_no_colon; [cbn; tauto | assumption]).
  fails re_simple_range
    ltac:(apply numeral_no_colon; [cbn; tauto | assumption]).
  rewrite number_range_match by assumption. read_groups.
  rewrite !numeral_Number, clean_trim by assumption. reflexivity.
Qed.

(** "[m:ss] text" *)
Lemma bracket_start_entry (a : minsec) text next_line :
  minsec_ok a -> clean_text text ->
  Binary64.parse_line (bracketed_line a text) next_line
  = [mkEntry (of_Z (minsec_seconds a)) None text].
Proof.
  intros Ha Ht. open_cascade.
  fails re_bracket_range ltac:(apply bracket_range_not_minsec; assumption).
  fails re_srt ltac:(apply exec_token_first; [cbn; tauto | reflexivity]).
  fails re_simple_range
    ltac:(apply exec_token_first; [cbn; tauto | reflexivity]).
  fails re_number_range
    ltac:(apply exec_token_first; [cbn; tauto | reflexivity]).
  rewrite bracket_start_match by assumption. read_groups.
  rewrite !minsec_number, clean_trim by assumption. reflexivity.
Qed.

(** "(m:ss) text" *)
Lemma paren_start_entry (a : minsec) text next_line :
  minsec_ok a -> clean_text text ->
  Binary64.parse_line (parenthesized_line a text) next_line
  = [mkEntry (of_Z (minsec_seconds a)) None text].
Proof.
  intros Ha Ht. open_cascade.
  fails re_bracket_range ltac:(apply (exec_lit_first "["); discriminate).
  fails re_srt ltac:(apply exec_token_first; [cbn; tauto | reflexivity]).
  fails re_simple_range
    ltac:(apply exec_token_first; [cbn; tauto | reflexivity]).
  fails re_number_range
    ltac:(apply exec_token_first; [cbn; tauto | reflexivity]).
  fails re_bracket_start ltac:(apply (exec_lit_first "["); discriminate).
  rewrite paren_start_match by assumption. read_groups.
  rewrite !minsec_number, clean_trim by assumption. reflexivity.
Qed.

(** "m:ss text" *)
Lemma simple_start_entry (a : minsec) text next_line :
  minsec_ok a -> clean_text text -> no_hyphen text ->
  Binary64.parse_line (minsec_line a text) next_line
  = [mkEntry (of_Z (minsec_seconds a)) None text].
Proof.
  intros Ha Ht Hn. open_cascade.
  fails re_bracket_range ltac:(apply digit_led; led_by_token).
  fails re_srt ltac:(apply srt_not_minsec; assumption).
  fails re_simple_range
    ltac:(apply range_needs_hyphen;
          [cbn; tauto | apply minsec_chars | |]; assumption).
  fails re_number_range
    ltac:(apply range_needs_hyphen;
          [cbn; tauto | apply minsec_chars | |]; assumption).
  fails re_bracket_start ltac:(apply digit_led; led_by_token).
  fails re_paren_start ltac:(apply digit_led; led_by_token).
  rewrite simple_start_match by assumption. read_groups.
  rewrite !minsec_number, clean_trim by assumption. reflexivity.
Qed.

(** "number text" *)
Lemma number_start_entry (a : numeral) text next_line :
  numeral_ok a -> clean_text text -> no_hyphen text ->
  Binary64.parse_line (numeral_line a text) next_line
  = [mkEntry (numeral_number a) None text].
Proof.
  intros Ha Ht Hn. open_cascade.
  fails re_bracket_range ltac:(apply digit_led; led_by_token).
  fails re_srt ltac:(apply numeral_no_colon; [cbn; tauto | assumption]).
  fails re_simple_range
    ltac:(apply numeral_no_colon; [cbn; tauto | assumption]).
  fails re_number_range
    ltac:(apply range_needs_hyphen;
          [cbn; tauto | apply numeral_chars | |]; assumption).
  fails re_bracket_start ltac:(apply digit_led; led_by_token).
  fails re_paren_start ltac:(apply digit_led; led_by_token).
  fails re_simple_start
    ltac:(apply numeral_no_colon; [cbn; tauto | assumption]).
  rewrite number_start_match by assumption. read_groups.
  rewrite !numeral_Number, clean_trim by assumption. reflexivity.
Qed.

End LayoutLines.

Section LayoutTranscripts.

Implicit Types (text : jsstr).

Lemma minsec_text_dots (t : minsec) :
  minsec_ok t -> forallb is_dot (minsec_text t) = true.
Proof. intros H. apply tokens_are_dots, minsec_chars, H. Qed.

Lemma numeral_text_dots (n : numeral) :
  numeral_ok n -> forallb is_dot (numeral_text n) = true.
Proof. intros H. apply tokens_are_dots, numeral_chars, H. Qed.

Lemma plain_clean text : plain_line text -> clean_text text.
Proof. intros (H1 & _ & H2 & H3 & H4). repeat split; assumption. Qed.

(** The timing line of a subtitle. *)
Lemma stamps_plain (a d : stamp) :
  stamp_ok a -> stamp_ok d ->
  forallb is_dot (stamp_text a ++ js " --> " ++ stamp_text d) = true
  /\ trim (stamp_text a ++ js " --> " ++ stamp_text d)
     = stamp_text a ++ js " --> " ++ stamp_text d.
Proof.
  intros Ha Hd. split.
  - rewrite !forallb_app, !stamp_text_dots by assumption. reflexivity.
  - unfold stamp_ok in Ha, Hd. cbn [forallb] in Ha, Hd. split_tests.
    apply trim_id.
    + intros c [= <-]. apply digit_not_space. assumption.
    + unfold stamp_text. cbn [js list_ascii_of_string map app].
      intros c [= <-]. apply digit_not_space. assumption.
Qed.

End LayoutTranscripts.

(** Proves that a transcript of one line of a layout is that line for the
    loop of the parser; [pre] is what stands before the text. *)
Ltac one_line pre :=
  match goal with
  | Ht : clean_text ?text |- Binary64.parseEntries ?line = _ =>
      let D := fresh "D" in
      let T := fresh "T" in
      destruct (line_plain line pre text) as [D T];
      [ unfold range_line, minsec_range_line, numeral_range_line,
          bracketed_line, parenthesized_line, minsec_line, numeral_line;
        cbn [r_from r_to r_text];
        rewrite <- ?app_assoc; reflexivity
      | rewrite ?forallb_app, ?clock_text_dots, ?minsec_text_dots,
          ?numeral_text_dots by assumption; reflexivity
      | unfold range_line, minsec_range_line, numeral_range_line,
          bracketed_line, parenthesized_line, minsec_line, numeral_line;
        cbn [r_from r_to r_text js list_ascii_of_string map app];
        first [ intros ? [= <-]; reflexivity
              | let x := fresh in
                let Hx := fresh in
                intros x Hx; apply digit_not_space; revert x Hx;
                led_by_token ]
      | exact Ht
      | rewrite (single_line line D T) ]
  end.

Section ParserLayouts.

Local Open Scope Q_scope.

(** C3.  A transcript of one well-formed line of a layout gives exactly
    one entry: "[hh:mm:ss - hh:mm:ss] text", "m:ss - m:ss text" and the
    three spellings "[m:ss] text", "(m:ss) text", "m:ss text" give the
    integer hh*3600 + mm*60 + ss or m*60 + ss, exactly; a subtitle time
    "hh:mm:ss,fff" gives the sum, rounded, of the seconds and of the
    rounded quotient fff/1000, which is within 10^-10 s of the time; a
    number gives the Number nearest to its decimal value.  The entry has
    an end for the four range layouts and none for the others.  The text
    of "m:ss text" and "number text" must not open with a hyphen. *)
Theorem parser_layouts :
  (forall (a b : clock) (text : jsstr),
     clock_ok a -> clock_ok b -> clean_text text ->
     Binary64.parseEntries (range_line (mkRange a b text))
     = [mkEntry (of_Z (clock_seconds a)) (Some (of_Z (clock_seconds b)))
                text])
  /\ (forall (a d : stamp) (text : jsstr),
        stamp_ok a -> stamp_ok d -> plain_line text ->
        Binary64.parseEntries (subtitle_lines a d text)
        = [mkEntry (stamp_number a) (Some (stamp_number d)) text])
  /\ (forall t : stamp,
        stamp_ok t ->
        exists v, stamp_number t = Fin v
                  /\ Qabs (v - stamp_seconds t) <= 1 # 10000000000)
  /\ (forall (a b : minsec) (text : jsstr),
        minsec_ok a -> minsec_ok b -> clean_text text ->
        Binary64.parseEntries (minsec_range_line a b text)
        = [mkEntry (of_Z (minsec_seconds a))
                   (Some (of_Z (minsec_seconds b))) text])
  /\ (forall (a b : numeral) (text : jsstr),
        numeral_ok a -> numeral_ok b -> clean_text text ->
        Binary64.parseEntries (numeral_range_line a b text)
        = [mkEntry (numeral_number a) (Some (numeral_number b)) text])
  /\ (forall (a : minsec) (text : jsstr),
        minsec_ok a -> clean_text text ->
        Binary64.parseEntries (bracketed_line a text)
        = [mkEntry (of_Z (minsec_seconds a)) None text]
        /\ Binary64.parseEntries (parenthesized_line a text)
           = [mkEntry (of_Z (minsec_seconds a)) None text]
        /\ (no_hyphen text ->
            Binary64.parseEntries (minsec_line a text)
            = [mkEntry (of_Z (minsec_seconds a)) None text]))
  /\ (forall (a : numeral) (text : jsstr),
        numeral_ok a -> clean_text text -> no_hyphen text ->
        Binary64.parseEntries (numeral_line a text)
        = [mkEntry (numeral_number a) None text]).
Proof.
  repeat apply conj.
  - intros a b text Ha Hb Ht.
    one_line (js "[" ++ clock_text a ++ js " - " ++ clock_text b ++ js "] ").
    apply bracket_range_entry; assumption.
  - intros a d text Ha Hd Hp. pose proof (plain_clean text Hp) as Ht.
    destruct (stamps_plain a d Ha Hd) as [D T].
    unfold subtitle_lines.
    replace (stamp_text a ++ js " --> " ++ stamp_text d ++ [10%N] ++ text)
      with ((stamp_text a ++ js " --> " ++ stamp_text d) ++ 10%N :: text)
      by (rewrite <- !app_assoc; reflexivity).
    rewrite two_lines;
      [| exact D | exact T | apply Ht | apply clean_trim, Ht].
    rewrite srt_entry by assumption.
    rewrite plain_line_no_entry by apply Hp. reflexivity.
  - apply stamp_number_error.
  - intros a b text Ha Hb Ht.
    one_line (minsec_text a ++ js " - " ++ minsec_text b ++ js " ").
    apply simple_range_entry; assumption.
  - intros a b text Ha Hb Ht.
    one_line (numeral_text a ++ js " - " ++ numeral_text b ++ js " ").
    apply number_range_entry; assumption.
  - intros a text Ha Ht. repeat apply conj.
    + one_line (js "[" ++ minsec_text a ++ js "] ").
      apply bracket_start_entry; assumption.
    + one_line (js "(" ++ minsec_text a ++ js ") ").
      apply paren_start_entry; assumption.
    + intros Hn. one_line (minsec_text a ++ js " ").
      apply simple_start_entry; assumption.
  - intros a text Ha Ht Hn. one_line (numeral_text a ++ js " ").
    apply number_start_entry; assumption.
Qed.

End ParserLayouts.

(** Discharges [clean_text], [plain_line] and [no_hyphen] on a literal
    text. *)
Ltac literal_text :=
  repeat split;
  first [ discriminate | reflexivity
        | left; reflexivity | right; reflexivity
        | right; eexists; split; reflexivity
        | let c := fresh in
          let Hc := fresh in
          intros c Hc; vm_compute in Hc; injection Hc as <-; reflexivity
        | solve [repeat constructor] ].

Lemma parser_layouts_witness :
  Binary64.parseEntries (js "[00:00:05 - 00:00:08] hello world")
  = [mkEntry (of_Z 5) (Some (of_Z 8)) (js "hello world")]
  /\ Binary64.parseEntries
       (js "00:01:02,500 --> 00:01:04,250" ++ 10%N :: js "hello")
     = [mkEntry (Fin (125 # 2)) (Some (Fin (257 # 4))) (js "hello")]
  /\ Binary64.parseEntries (js "1:05 - 12:30 intro")
     = [mkEntry (of_Z 65) (Some (of_Z 750)) (js "intro")]
  /\ Binary64.parseEntries (js "7.25 - 9.5 middle")
     = [mkEntry (Fin (29 # 4)) (Some (Fin (19 # 2))) (js "middle")]
  /\ Binary64.parseEntries (js "[2:03] verse")
     = [mkEntry (of_Z 123) None (js "verse")]
  /\ Binary64.parseEntries (js "(2:03) verse")
     = [mkEntry (of_Z 123) None (js "verse")]
  /\ Binary64.parseEntries (js "2:03 verse")
     = [mkEntry (of_Z 123) None (js "verse")]
  /\ Binary64.parseEntries (js "42 answer")
     = [mkEntry (of_Z 42) None (js "answer")].
Proof.
  destruct parser_layouts as (H1 & H2 & _ & H3 & H4 & H5 & H6).
  repeat apply conj.
  - apply (H1 (mkClock 48 48 48 48 48 53) (mkClock 48 48 48 48 48 56)
              (js "hello world")); literal_text.
  - apply (H2 (mkStamp 48 48 48 49 48 50 53 48 48)
              (mkStamp 48 48 48 49 48 52 50 53 48) (js "hello"));
      literal_text.
  - apply (H3 (mkMinsec [49%N] 48 53) (mkMinsec [49%N; 50%N] 51 48)
              (js "intro")); literal_text.
  - apply (H4 (mkNumeral [55%N] (js ".25")) (mkNumeral [57%N] (js ".5"))
              (js "middle")); literal_text.
  - apply (H5 (mkMinsec [50%N] 48 51) (js "verse")); literal_text.
  - apply (H5 (mkMinsec [50%N] 48 51) (js "verse")); literal_text.
  - apply (H5 (mkMinsec [50%N] 48 51) (js "verse")); literal_text.
  - apply (H6 (mkNumeral [52%N; 50%N] []) (js "answer")); literal_text.
Defined.

(** A subtitle time that the two rounded operations miss: "00:00:01,118"
    gives 1.1179999999999999, which is neither 1.118 nor the Number
    nearest to it. *)
Lemma subtitle_time_inexact :
  Binary64.parseEntries
    (js "00:00:01,118 --> 00:00:02,000" ++ 10%N :: js "hello")
  = [mkEntry (Fin (2517512191700107 # 2251799813685248)) (Some (of_Z 2))
             (js "hello")]
  /\ Binary64.round64 (1118 # 1000)
     = Fin (5035024383400215 # 4503599627370496)
  /\ ~ (2517512191700107 # 2251799813685248 == 1118 # 1000)%Q.
Proof.
  split; [vm_compute; reflexivity|].
  split; [vm_compute; reflexivity|]. intros H. discriminate H.
Qed.

(* ===================================================================== *)
(** * Subtitle files, on the Numbers of the program                       *)
(* ===================================================================== *)

Section SubtitleNumbers.

Local Open Scope Q_scope.

(** The two arithmetics take the same branch of the cascade: a line
    without an entry in one has none in the other. *)
Lemma no_entry_on_numbers (line : jsstr) (next_line : option jsstr) :
  parse_line line next_line = [] ->
  Binary64.parse_line line next_line = [].
Proof.
  unfold parse_line, Binary64.parse_line.
  destruct line as [|c0 line0]; [reflexivity|].
  set (line := c0 :: line0). clearbody line.
  repeat match goal with
         | |- context [match exec ?r line with _ => _ end] =>
             destruct (exec r line)
         end;
    try discriminate; try reflexivity.
  destruct (match next_line with Some l => trim l | None => [] end);
    [reflexivity | discriminate].
Qed.

Lemma no_entries_app (ls rest : list jsstr) (acc : list entry) :
  Forall (fun l => forall nxt, Binary64.parse_line l nxt = []) ls ->
  Binary64.parse_lines (ls ++ rest) acc = Binary64.parse_lines rest acc.
Proof.
  intros H. revert acc. induction H as [|l ls Hl _ IH]; intros acc;
    [reflexivity|].
  cbn [app Binary64.parse_lines]. rewrite Hl, app_nil_r. apply IH.
Qed.

(** The loop of the parser over the lines of one block. *)
Lemma block_parsed (b : block) (rest : list jsstr) (acc : list entry) :
  well_formed b ->
  Binary64.parse_lines (block_lines b ++ rest) acc
  = Binary64.parse_lines rest (acc ++ [block_entry b]).
Proof.
  intros ([Hne Hc] & Ha & Hd & Hcap & Hmore). unfold block_lines.
  cbn [app Binary64.parse_lines head].
  rewrite (no_entry_on_numbers _ _ (parse_line_digits (counter b) _ Hc)),
    app_nil_r.
  unfold timing_line.
  rewrite (srt_entry _ _ (caption b) Ha Hd (plain_clean _ Hcap)).
  rewrite (plain_line_no_entry (caption b)) by apply Hcap.
  rewrite app_nil_r, <- app_assoc, no_entries_app.
  - cbn [app Binary64.parse_lines].
    change (Binary64.parse_line [] (head rest)) with (@nil entry).
    rewrite app_nil_r. reflexivity.
  - eapply Forall_impl; [exact Hmore|]. cbn beta.
    intros l Hl nxt. apply plain_line_no_entry, Hl.
Qed.

Lemma blocks_parsed (blocks : list block) (acc : list entry) :
  Forall well_formed blocks ->
  Binary64.parse_lines (flat_map block_lines blocks ++ [[]]) acc
  = acc ++ map block_entry blocks.
Proof.
  intros H. revert acc. induction H as [|b blocks Hb _ IH]; intros acc.
  - cbn. rewrite !app_nil_r. reflexivity.
  - cbn [flat_map map]. rewrite <- app_assoc, block_parsed by exact Hb.
    rewrite IH, <- app_assoc. reflexivity.
Qed.

(** X22.  A subtitle file is parsed block for block when no caption holds
    a digit: for blocks made of a counter, a timing line
    "hh:mm:ss,fff --> hh:mm:ss,fff", one or more caption lines and a blank
    line, the segments are exactly one per block, in order, with the first
    line of the caption as text; counters, further caption lines and
    blank lines give nothing.  The two times of a segment are the Numbers
    the program computes, the rounded sum of the seconds and of the
    rounded quotient fff/1000, each within 10^-10 s of the time
    written. *)
Theorem subtitle_file_parsed (blocks : list block) :
  Forall well_formed blocks ->
  Binary64.parseTranscriptFile (srt_text blocks) = map block_entry blocks
  /\ Forall (fun b =>
               exists v w,
                 start (block_entry b) = Fin v
                 /\ end_ (block_entry b) = Some (Fin w)
                 /\ Qabs (v - stamp_seconds (appears b)) <= 1 # 10000000000
                 /\ Qabs (w - stamp_seconds (disappears b))
                    <= 1 # 10000000000)
            blocks.
Proof.
  intros H. split.
  - unfold Binary64.parseTranscriptFile, Binary64.parseEntries, srt_text.
    assert (Forall (fun l => forallb is_dot l = true /\ trim l = l)
                   (flat_map block_lines blocks)) as Hlines.
    { induction H as [|b blocks Hb _ IH]; [constructor|].
      cbn [flat_map]. apply Forall_app. split; [|exact IH].
      apply block_lines_plain, Hb. }
    rewrite split_lines_terminated
      by (eapply Forall_impl; [exact Hlines|]; cbn beta; tauto).
    rewrite map_trim_id.
    + rewrite (blocks_parsed blocks [] H). cbn [app].
      destruct blocks as [|b blocks]; reflexivity.
    + apply Forall_app. split.
      * eapply Forall_impl; [exact Hlines|]. cbn beta. tauto.
      * constructor; [reflexivity | constructor].
  - eapply Forall_impl; [exact H|]. cbn beta.
    intros b (_ & Ha & Hd & _).
    destruct (stamp_number_error _ Ha) as (v & Ev & Hv).
    destruct (stamp_number_error _ Hd) as (w & Ew & Hw).
    exists v, w. cbn [block_entry start end_]. rewrite Ev, Ew. auto.
Qed.

End SubtitleNumbers.

(** Two blocks, the second one with a caption of two lines; the first
    time of the first block, 1.118 s, is read as 1.1179999999999999. *)
Lemma subtitle_file_parsed_witness :
  Binary64.parseTranscriptFile
    (srt_text
       [mkBlock (js "1") (mkStamp 48 48 48 48 48 49 49 49 56)
                (mkStamp 48 48 48 48 48 52 48 48 48) (js "Hello there.") [];
        mkBlock (js "2") (mkStamp 48 48 48 49 48 48 48 48 48)
                (mkStamp 48 48 48 49 48 50 50 53 48) (js "- Who is it?")
                [js "- Me."]])
  = [mkEntry (Fin (2517512191700107 # 2251799813685248)) (Some (of_Z 4))
             (js "Hello there.");
     mkEntry (of_Z 60) (Some (Fin (249 # 4))) (js "- Who is it?")].
Proof.
  refine (eq_trans (proj1 (subtitle_file_parsed _ _)) _);
    [|vm_compute; reflexivity].
  repeat constructor; try discriminate; try reflexivity;
    try (intros c [= <-]; reflexivity).
Defined.

(* ===================================================================== *)
(** * Formatted transcripts with lines the parser drops                   *)
(* ===================================================================== *)

Section MixedTranscripts.

Implicit Types (s : snippet) (snippets : list snippet).

Lemma transferable_entries s :
  transferable s -> read_entries s = [snippet_entry s].
Proof.
  intros ((q & Hq & H0 & H1) & _). unfold read_entries. rewrite Hq.
  cbn [int]. destruct (Qtrunc_nonneg q H0) as [-> Hf].
  assert (Qfloor q < 6000)%Z as Hlt.
  { apply Z.lt_nge. intros Hge.
    assert (inject_Z 6000 <= q)%Q as Hq'.
    { eapply Qle_trans; [|apply Qfloor_le]. rewrite <- Zle_Qle. exact Hge. }
    change (inject_Z 6000) with 6000%Q in Hq'. lra. }
  rewrite (proj2 (Z.leb_le _ _) Hf), (proj2 (Z.ltb_lt _ _) Hlt).
  reflexivity.
Qed.

Lemma late_entries s : late s -> read_entries s = [].
Proof.
  intros ((z & Hz & Hr) & _). unfold read_entries. rewrite Hz.
  destruct Hr as [Hr|Hr].
  - rewrite (proj2 (Z.leb_gt _ _) Hr). reflexivity.
  - rewrite (proj2 (Z.ltb_ge _ _) Hr), andb_false_r. reflexivity.
Qed.

(** Digits and signs are the same for the browser, and none is a line
    terminator. *)
Lemma signed_digits_plain (w : pystr) :
  forallb (fun c => is_digit c || (c =? 45)%N) w = true ->
  utf16 w = w /\ forallb is_dot w = true.
Proof.
  induction w as [|c w IH]; [split; reflexivity|].
  cbn [forallb]. intros H. apply andb_true_iff in H as [Hc Hw].
  destruct (IH Hw) as [IH1 IH2].
  change (utf16 (c :: w)) with (utf16_char c ++ utf16 w). rewrite IH1.
  cbn [forallb]. rewrite IH2.
  apply orb_true_iff in Hc as [Hc|Hc].
  - rewrite (digit_bmp c Hc), (digit_is_dot c Hc). split; reflexivity.
  - apply N.eqb_eq in Hc. subst c. split; reflexivity.
Qed.

Lemma format_02d_chars (z : Z) :
  forallb (fun c => is_digit c || (c =? 45)%N) (format_02d z) = true.
Proof.
  assert (forall k n, forallb (fun c => is_digit c || (c =? 45)%N)
                        (padStart0 k (String_of_N n)) = true) as H.
  { intros k n. apply (forallb_impl is_digit).
    - intros c ->. reflexivity.
    - apply padStart0_digits, uint_digits_are_digits. }
  unfold format_02d, digits. destruct (z <? 0)%Z; [|apply H].
  cbn [py list_ascii_of_string map app forallb]. rewrite H. reflexivity.
Qed.

(** The line of a snippet, late or not, is one line for the browser. *)
Lemma format_line_dots s (l : pystr) :
  forallb is_dot (utf16 (snip_text s)) = true ->
  format_line s = Some l -> forallb is_dot (utf16 l) = true.
Proof.
  intros Hdot. unfold format_line.
  destruct (int (snip_start s)) as [z|]; [|discriminate].
  cbn [mbind option_bind]. intros Hl. apply (inj Some) in Hl. subst l.
  destruct (signed_digits_plain _ (format_02d_chars (z / 60))) as [E1 D1].
  destruct (signed_digits_plain _ (format_02d_chars (z mod 60))) as [E2 D2].
  rewrite !utf16_app, E1, E2, !forallb_app, D1, D2, Hdot. reflexivity.
Qed.

(** The line of a late snippet gives no entry. *)
Lemma late_line_no_entry s (z : Z) (next_line : option jsstr) :
  int (snip_start s) = Some z -> (z < 0 \/ 6000 <= z)%Z ->
  exists l, format_line s = Some l
            /\ Binary64.parse_line (trim (utf16 l)) next_line = [].
Proof.
  intros Hz Hr. unfold format_line. rewrite Hz. cbn [mbind option_bind].
  eexists. split; [reflexivity|]. apply no_entry_on_numbers.
  destruct Hr as [Hneg|Hlate].
  - assert (z / 60 < 0)%Z as Hm by (apply Z.div_lt_upper_bound; lia).
    unfold format_02d at 1. rewrite (proj2 (Z.ltb_lt _ _) Hm).
    cbn [py list_ascii_of_string map app utf16 flat_map].
    change (utf16_char (N_of_ascii "[")) with [N_of_ascii "["].
    change (utf16_char (N_of_ascii "-")) with [N_of_ascii "-"].
    cbn [app]. rewrite trim_cons, trimEnd_cons by reflexivity.
    apply parse_line_minus.
  - destruct (format_02d_three (z / 60)) as (a & b & c & w & E & Ha & Hb & Hc).
    { apply Z.div_le_lower_bound; lia. }
    rewrite E. cbn [py list_ascii_of_string map app utf16 flat_map].
    change (utf16_char (N_of_ascii "[")) with [N_of_ascii "["].
    rewrite (digit_bmp a Ha), (digit_bmp b Hb), (digit_bmp c Hc).
    cbn [app].
    rewrite trim_cons, !trimEnd_cons by
      (first [reflexivity | apply digit_not_space; assumption]).
    apply parse_line_three_digits; assumption.
Qed.

(** The line of a snippet, as the loop of the parser meets it. *)
Lemma snippet_line s :
  transferable s \/ late s ->
  exists l, format_line s = Some l /\ snip_text s <> []
            /\ forallb is_dot (utf16 l) = true
            /\ forall next_line,
                 Binary64.parse_line (trim (utf16 l)) next_line
                 = read_entries s.
Proof.
  intros [Ht|Hl].
  - destruct (format_line_transferable s Ht)
      as (a & b & c & d & E & Ha & Hb & Hc & Hd & Hv).
    rewrite (transferable_entries s Ht).
    destruct Ht as (_ & Hne & Hdot & Hh & Hl).
    assert (utf16 (snip_text s) <> []) as Hne'.
    { destruct (snip_text s) as [|x t]; [congruence|].
      unfold utf16. cbn [flat_map]. unfold utf16_char.
      destruct (x <? 65536)%N; discriminate. }
    exists (bracket_line a b c d (snip_text s)).
    split; [exact E|]. split; [exact Hne|]. split.
    + apply (format_line_dots s _ Hdot E).
    + intros nxt. rewrite utf16_bracket_line by assumption.
      rewrite trim_id.
      * change (bracket_line a b c d (utf16 (snip_text s)))
          with (bracketed_line (mkMinsec [a; b] c d) (utf16 (snip_text s))).
        rewrite bracket_start_entry.
        -- unfold snippet_entry, minsec_seconds. cbn [minutes sec1 sec2].
           rewrite Hv. reflexivity.
        -- unfold minsec_ok. cbn [minutes sec1 sec2 length forallb].
           rewrite Ha, Hb. auto.
        -- repeat split; assumption.
      * intros x [= <-]. reflexivity.
      * rewrite last_bracket_line by exact Hne'. exact Hl.
  - rewrite (late_entries s Hl).
    destruct Hl as ((z & Hz & Hr) & Hne & Hdot).
    destruct (late_line_no_entry s z None Hz Hr) as (l & E & _).
    exists l. split; [exact E|]. split; [exact Hne|]. split.
    + apply (format_line_dots s _ Hdot E).
    + intros nxt.
      destruct (late_line_no_entry s z nxt Hz Hr) as (l' & E' & H).
      rewrite E in E'. injection E' as <-. exact H.
Qed.

Lemma format_lines_entries snippets (acc : list pystr) :
  Forall (fun s => transferable s \/ late s) snippets ->
  exists ls, format_lines snippets acc = Some (acc ++ ls)
             /\ length ls = length snippets
             /\ Forall (fun l => forallb is_dot (utf16 l) = true) ls
             /\ forall entries,
                  Binary64.parse_lines (map trim (map utf16 ls)) entries
                  = entries ++ flat_map read_entries snippets.
Proof.
  intros H. revert acc. induction H as [|s snippets Hs _ IH]; intros acc.
  - exists []. rewrite app_nil_r. repeat split; [constructor|].
    intros entries. cbn. rewrite app_nil_r. reflexivity.
  - destruct (snippet_line s Hs) as (l & El & Hne & Hd & Hl).
    destruct (IH (acc ++ [l])) as (ls & E & Hlen & Hdots & Hp).
    exists (l :: ls). cbn [format_lines].
    destruct (snip_text s) as [|x t] eqn:Et; [congruence|].
    rewrite El. cbn [mbind option_bind]. rewrite E, <- app_assoc.
    split; [reflexivity|]. split; [cbn [length]; lia|].
    split; [constructor; assumption|].
    intros entries. cbn [map Binary64.parse_lines flat_map].
    rewrite Hl, Hp, <- app_assoc. reflexivity.
Qed.

(** The entries the parser reads in the text of [format_text]. *)
Lemma formatted_entries snippets :
  Forall (fun s => transferable s \/ late s) snippets ->
  exists out,
    format_text snippets = Some out
    /\ Binary64.parseEntries (utf16 out) = flat_map read_entries snippets.
Proof.
  intros H.
  destruct (format_lines_entries snippets [] H) as (ls & E & Hlen & Hd & Hp).
  exists (join [10%N] ls). unfold format_text. rewrite E.
  split; [reflexivity|]. unfold Binary64.parseEntries. rewrite utf16_join.
  destruct snippets as [|s snippets].
  - destruct ls; [reflexivity | discriminate].
  - rewrite split_lines_join.
    + apply (Hp []).
    + destruct ls; [discriminate|]. discriminate.
    + apply Forall_fmap. exact Hd.
Qed.

Lemma read_entries_open s :
  Forall (fun e => end_ e = None) (read_entries s).
Proof.
  unfold read_entries. destruct (int (snip_start s)) as [z|]; [|constructor].
  destruct (_ && _); repeat constructor.
Qed.

(** Entries without an end get synthesized ends. *)
Lemma synthesize_open (entries : list entry) :
  Forall (fun e => end_ e = None) entries ->
  Binary64.synthesize entries = Binary64.synthesize_ends entries.
Proof.
  intros H. destruct H as [|e entries He _]; [reflexivity|].
  unfold Binary64.synthesize. rewrite He. reflexivity.
Qed.

(** X20.  The snippets that start at the hundredth minute or later (or
    before 0) are lost on the way back: in the text [format_text] writes
    of snippets each of which either is transferable or starts out of the
    first hundred minutes with a text of one line, not empty, the parser
    reads the transferable snippets only.  The segments are those of the
    transferable snippets, in order, each ending where the next
    transferable one starts; the lines "[mmm:ss] text" and "[-m:ss] text"
    of the others match no layout.  When no snippet is transferable
    there is no segment at all. *)
Theorem late_snippet_dropped snippets :
  Forall (fun s => transferable s \/ late s) snippets ->
  exists out,
    format_text snippets = Some out
    /\ Binary64.parseTranscriptFile (utf16 out)
       = Binary64.synthesize_ends (flat_map read_entries snippets)
    /\ flat_map read_entries snippets
       = map snippet_entry
           (filter (fun s => read_entries s <> []) snippets)
    /\ (Forall late snippets ->
        Binary64.parseTranscriptFile (utf16 out) = []).
Proof.
  intros H. destruct (formatted_entries snippets H) as (out & E & Hp).
  exists out. split; [exact E|].
  assert (Binary64.parseTranscriptFile (utf16 out)
          = Binary64.synthesize_ends (flat_map read_entries snippets)) as Hs.
  { unfold Binary64.parseTranscriptFile. rewrite Hp. apply synthesize_open.
    clear. induction snippets as [|s snippets IH]; [constructor|].
    cbn [flat_map]. apply Forall_app. split; [apply read_entries_open|].
    exact IH. }
  split; [exact Hs|]. split.
  - clear. induction snippets as [|s snippets IH]; [reflexivity|].
    cbn [flat_map]. rewrite filter_cons.
    destruct (decide (read_entries s <> [])) as [Hne|He].
    + cbn [map]. rewrite <- IH. unfold read_entries in *.
      destruct (int (snip_start s)) as [z|]; [|congruence].
      destruct (_ && _); [reflexivity | congruence].
    + rewrite <- IH.
      destruct (read_entries s) as [|e l]; [reflexivity|].
      exfalso. apply He. discriminate.
  - intros Hl. rewrite Hs.
    assert (flat_map read_entries snippets = []) as ->; [|reflexivity].
    clear -Hl. induction Hl as [|s snippets Hs _ IH]; [reflexivity|].
    cbn [flat_map]. rewrite (late_entries s Hs), IH. reflexivity.
Qed.

End MixedTranscripts.

(** One snippet at 1 h 40 min between two others: its line
    "[100:00] late" gives no entry, and the first segment ends where the
    third snippet starts. *)
Lemma late_snippet_dropped_witness :
  exists out,
    format_text [mkSnippet (py "hello") (Fin (52 # 10)) (Fin 2);
                 mkSnippet (py "late") (Fin 6000) (Fin 2);
                 mkSnippet (py "world") (Fin 65) (Fin 2)] = Some out
    /\ Binary64.parseTranscriptFile (utf16 out)
       = [mkEntry (of_Z 5) (Some (of_Z 65)) (js "hello");
          mkEntry (of_Z 65) (Some (of_Z 68)) (js "world")].
Proof.
  destruct (late_snippet_dropped
              [mkSnippet (py "hello") (Fin (52 # 10)) (Fin 2);
               mkSnippet (py "late") (Fin 6000) (Fin 2);
               mkSnippet (py "world") (Fin 65) (Fin 2)])
    as (out & E & H & _).
  - constructor; [left|constructor; [right|constructor; [left|constructor]]].
    + repeat split; try (eexists; split; [reflexivity|]);
        try discriminate; try reflexivity;
        try (split; [vm_compute; discriminate | vm_compute; reflexivity]);
        intros x [= <-]; reflexivity.
    + split; [exists 6000%Z; split; [reflexivity | right; lia]|].
      split; [discriminate | reflexivity].
    + repeat split; try (eexists; split; [reflexivity|]);
        try discriminate; try reflexivity;
        try (split; [vm_compute; discriminate | vm_compute; reflexivity]);
        intros x [= <-]; reflexivity.
  - exists out. split; [exact E|]. rewrite H. vm_compute. reflexivity.
Defined.

(* ===================================================================== *)
(** * Snippets that start within the same second                          *)
(* ===================================================================== *)

Section SameSecondOnNumbers.

Variable normalize : jsstr -> jsstr.
Variables (y : list num) (sr : Z).
Hypothesis rate_not_negative : (0 <= sr)%Z.

Lemma synthesized_lookup (ts : list entry) (i : nat) (e e' : entry) :
  ts !! i = Some e -> ts !! S i = Some e' ->
  Binary64.synthesize_ends ts !! i
  = Some (mkEntry (start e) (Some (start e')) (text e)).
Proof.
  revert i. induction ts as [|t ts IH]; intros i Hi Hj; [discriminate|].
  destruct i as [|i].
  - cbn in Hi. injection Hi as ->.
    destruct ts as [|t' ts]; [discriminate|]. cbn in Hj. injection Hj as ->.
    reflexivity.
  - cbn [Binary64.synthesize_ends]. exact (IH i Hi Hj).
Qed.

(** The loop only adds to the log. *)
Lemma extract_loop_log (rate : num) (segments : list entry) (k : nat)
    (out clips : list clip) (logged logged' : list jsstr) :
  Binary64.extract_loop normalize y rate segments k out logged
  = Some (clips, logged') ->
  forall m, m ∈ logged -> m ∈ logged'.
Proof.
  revert k out logged.
  induction segments as [|seg segments IH]; intros k out logged.
  - cbn. intros [= _ <-] m Hm. exact Hm.
  - cbn [Binary64.extract_loop]. destruct (num_le _ _).
    + intros H m Hm. apply (IH _ _ _ H). apply elem_of_app. left. exact Hm.
    + rewrite encodeWAV_layout. cbn [mbind option_bind].
      intros H m Hm. apply (IH _ _ _ H), Hm.
Qed.

(** A segment with an empty range leaves its line in the log. *)
Lemma skipped_logged (rate : num) (segments : list entry) (i : nat)
    (seg : entry) (k : nat) (out : list clip) (logged : list jsstr) :
  segments !! i = Some seg ->
  num_le (Binary64.end_index (length y) rate seg)
         (Binary64.start_index rate seg) = true ->
  exists clips logged',
    Binary64.extract_loop normalize y rate segments k out logged
    = Some (clips, logged')
    /\ skip_message (k + i) ∈ logged'.
Proof.
  revert i k out logged.
  induction segments as [|seg0 segments IH]; intros i k out logged Hi He;
    [discriminate|].
  destruct i as [|i].
  - cbn in Hi. injection Hi as ->. cbn [Binary64.extract_loop]. rewrite He.
    destruct (extract_loop_returns normalize y rate segments (S k) out
                (logged ++ [skip_message k])) as [[clips logged'] E].
    exists clips, logged'. split; [exact E|].
    rewrite Nat.add_0_r. apply (extract_loop_log _ _ _ _ _ _ _ E).
    apply elem_of_app. right. apply list_elem_of_singleton. reflexivity.
  - cbn in Hi. cbn [Binary64.extract_loop].
    replace (k + S i)%nat with (S k + i)%nat by lia.
    destruct (num_le (Binary64.end_index (length y) rate seg0)
                     (Binary64.start_index rate seg0));
      [apply IH; assumption|].
    rewrite encodeWAV_layout. cbn [mbind option_bind].
    apply IH; assumption.
Qed.

Lemma backward_entry_empty (a b : Z) (w : jsstr) :
  (b <= a)%Z ->
  num_le (Binary64.end_index (length y) (of_Z sr)
            (mkEntry (of_Z a) (Some (of_Z b)) w))
         (Binary64.start_index (of_Z sr)
            (mkEntry (of_Z a) (Some (of_Z b)) w)) = true.
Proof.
  intros H.
  change (SegmentRule.is_empty (length y) sr
            (mkSegment (inject_Z a) (inject_Z b) w) = true).
  apply backward_range_empty; [exact rate_not_negative|].
  cbn [seg_start seg_end]. rewrite <- Zle_Qle. exact H.
Qed.

(** X21.  Whole seconds lose snippets: in a formatted transcript whose
    snippets are all transferable, when two consecutive snippets start
    within the same second (or the later one starts in an earlier
    second), the segment read back for the first of them starts at its
    whole second and ends at the whole second of the other, which is not
    after it; extraction at a rate that is not negative skips it, with
    its "Skipped invalid timing" line in the log. *)
Theorem same_second_snippet_skipped (snippets : list snippet) (i : nat)
    (s s' : snippet) :
  Forall transferable snippets ->
  snippets !! i = Some s -> snippets !! S i = Some s' ->
  (whole_second s' <= whole_second s)%Z ->
  exists out seg clips logged,
    format_text snippets = Some out
    /\ Binary64.parseTranscriptFile (utf16 out) !! i = Some seg
    /\ start seg = of_Z (whole_second s)
    /\ end_ seg = Some (of_Z (whole_second s'))
    /\ text seg = utf16 (snip_text s)
    /\ Binary64.extractSegments normalize y (of_Z sr)
         (Binary64.parseTranscriptFile (utf16 out)) = Some (clips, logged)
    /\ skip_message i ∈ logged.
Proof.
  intros Ht Hi Hj Hle.
  destruct (formatted_entries snippets) as (out & E & Hp).
  { eapply Forall_impl; [exact Ht|]. cbn beta. tauto. }
  assert (flat_map read_entries snippets = map snippet_entry snippets)
    as Hall.
  { clear -Ht. induction Ht as [|t snippets Ht _ IH]; [reflexivity|].
    cbn [flat_map map]. rewrite (transferable_entries t Ht), IH.
    reflexivity. }
  assert (Binary64.parseTranscriptFile (utf16 out)
          = Binary64.synthesize_ends (map snippet_entry snippets)) as Hs.
  { unfold Binary64.parseTranscriptFile. rewrite Hp, Hall.
    destruct snippets; reflexivity. }
  assert (Binary64.synthesize_ends (map snippet_entry snippets) !! i
          = Some (mkEntry (of_Z (whole_second s))
                          (Some (of_Z (whole_second s')))
                          (utf16 (snip_text s)))) as Hseg.
  { apply (synthesized_lookup _ i (snippet_entry s) (snippet_entry s'));
      rewrite list_lookup_fmap; [rewrite Hi | rewrite Hj]; reflexivity. }
  destruct (skipped_logged (of_Z sr) _ i _ 0 [] [] Hseg
              (backward_entry_empty _ _ _ Hle))
    as (clips & logged & Hx & Hlog).
  exists out, (mkEntry (of_Z (whole_second s))
                       (Some (of_Z (whole_second s')))
                       (utf16 (snip_text s))), clips, logged.
  rewrite Hs. unfold Binary64.extractSegments.
  repeat split; try assumption; reflexivity.
Qed.

End SameSecondOnNumbers.

(** Two snippets at 5.2 s and 5.9 s, then one at 9 s: the first segment,
    from 5 to 5, is skipped. *)
Lemma same_second_snippet_skipped_witness :
  exists out seg clips logged,
    format_text [mkSnippet (py "one") (Fin (52 # 10)) (Fin 1);
                 mkSnippet (py "two") (Fin (59 # 10)) (Fin 1);
                 mkSnippet (py "three") (Fin 9) (Fin 1)] = Some out
    /\ Binary64.parseTranscriptFile (utf16 out) !! 0%nat = Some seg
    /\ start seg = of_Z 5
    /\ end_ seg = Some (of_Z 5)
    /\ text seg = js "one"
    /\ Binary64.extractSegments nfkd_latin1 (replicate 40 (Fin 0)) (of_Z 2)
         (Binary64.parseTranscriptFile (utf16 out)) = Some (clips, logged)
    /\ skip_message 0 ∈ logged.
Proof.
  apply (same_second_snippet_skipped nfkd_latin1 (replicate 40 (Fin 0)) 2
           ltac:(discriminate)
           [mkSnippet (py "one") (Fin (52 # 10)) (Fin 1);
            mkSnippet (py "two") (Fin (59 # 10)) (Fin 1);
            mkSnippet (py "three") (Fin 9) (Fin 1)] 0
           (mkSnippet (py "one") (Fin (52 # 10)) (Fin 1))
           (mkSnippet (py "two") (Fin (59 # 10)) (Fin 1)));
    [ |reflexivity|reflexivity|vm_compute; discriminate].
  repeat constructor; try (eexists; split; [reflexivity|]);
    try discriminate; try reflexivity;
    try (split; [vm_compute; discriminate | vm_compute; reflexivity]);
    intros x [= <-]; reflexivity.
Defined.

(** The boundary cases of the specification on a buffer of 40 samples at
    2 Hz: the segments {10, 10} and {10, 5} are skipped and logged, and
    the segment {0, 1} that follows them still gives its clip, of two
    samples. *)
Lemma extractSegments_spec_witness :
  Binary64.extractSegments nfkd_latin1 (replicate 40 (Fin 0)) (of_Z 2)
    (map entry_of [mkSegment 10 10 (js "x"); mkSegment 10 5 (js "y");
                   mkSegment 0 1 (js "z")])
  = Some ([mkClip (js "segment_003_audio_segment.wav")
                  (wav_header 4 (of_Z 2) ++ [0; 0; 0; 0]%Z) (js "z")
                  (of_Z 0) (Some (of_Z 1)) (of_Z 1)],
          [js "Skipped invalid timing for segment 1";
           js "Skipped invalid timing for segment 2"])
  /\ SegmentRule.clips_of nfkd_latin1 (replicate 40 (Fin 0)) 2 1
       (mkSegment 10 5 (js "y")) = [].
Proof.
  destruct (extractSegments_spec nfkd_latin1 (replicate 40 (Fin 0)) 2
              [mkSegment 10 10 (js "x"); mkSegment 10 5 (js "y");
               mkSegment 0 1 (js "z")]) as (H1 & _ & H3 & _).
  split.
  - rewrite H1. vm_compute. reflexivity.
  - apply (H3 1%nat (mkSegment 10 5 (js "y")));
      [lia | vm_compute; discriminate].
Defined.

(** The products are those of the program: at 44100 Hz the Numbers 0.35
    and 0.36 give the indices 15434 and 15876, although 0.35 * 44100 is
    15435. *)
Lemma rounded_sample_indices :
  Binary64.round64 (35 # 100) = Fin (3152519739159347 # 9007199254740992)
  /\ Binary64.round64 (36 # 100) = Fin (3242591731706757 # 9007199254740992)
  /\ SegmentRule.sample_index (3152519739159347 # 9007199254740992) 44100
     = of_Z 15434
  /\ SegmentRule.sample_index (3242591731706757 # 9007199254740992) 44100
     = of_Z 15876.
Proof. repeat split; vm_compute; reflexivity. Qed.

(* ===================================================================== *)
(** * The number of samples of a clip                                     *)
(* ===================================================================== *)

Section ClipSamples.

Variable normalize : jsstr -> jsstr.
Variable y : list num.
Variable sr : Z.
Hypothesis rate_positive : (0 < sr)%Z.
Hypothesis buffer_size : (Z.of_nat (length y) < 2 ^ 53)%Z.

Local Open Scope Q_scope.

(** The index of a time within the buffer: the floor of the exact product
    or one more. *)
Lemma sample_index_floor (t : Q) :
  0 <= t -> t * inject_Z sr <= inject_Z (Z.of_nat (length y)) ->
  exists a : Z,
    SegmentRule.sample_index t sr = of_Z a
    /\ (Qfloor (t * inject_Z sr) <= a <= Qfloor (t * inject_Z sr) + 1)%Z
    /\ (0 <= a <= Z.of_nat (length y))%Z.
Proof.
  intros H0 Hlen.
  assert (0 < inject_Z sr) as Hsr
    by (change 0 with (inject_Z 0); rewrite <- Zlt_Qlt; exact rate_positive).
  assert (0 <= t * inject_Z sr) as Hx by (apply Qmult_le_0_compat; lra).
  assert (inject_Z (Z.of_nat (length y)) < 2 ^ 53) as Hb.
  { rewrite <- pow2_Z by lia. rewrite <- Zlt_Qlt. exact buffer_size. }
  destruct (round64_floor (t * inject_Z sr) Hx ltac:(lra))
    as (v & Ev & Hv & _).
  pose proof (round64_monotone _ _ Hlen) as M.
  rewrite round64_Z, Ev in M by lia.
  unfold of_Z in M. cbn [num_le] in M. apply Qle_bool_iff in M.
  exists (Qfloor v). unfold SegmentRule.sample_index, of_Z.
  rewrite mul_Fin, Ev. cbn [Math_floor]. split; [reflexivity|].
  split; [exact Hv|]. split.
  - assert (0 <= Qfloor (t * inject_Z sr))%Z; [|lia].
    rewrite <- (Qfloor_Z 0). apply Qfloor_resp_le, Hx.
  - rewrite <- (Qfloor_Z (Z.of_nat (length y))). apply Qfloor_resp_le, M.
Qed.

(** X7.  The number of samples of a clip is within two samples of its
    duration times the rate: for a segment that starts at or after 0,
    does not end before it starts and ends inside a buffer of fewer than
    2^53 samples, the clip holds [b - a] samples, where [a] and [b] are
    the floors of the products [start * rate] and [end * rate] as the
    program computes them; each is the floor of the exact product or one
    more. *)
Theorem clip_sample_count (s : Segment) (clips : list clip)
    (logged : list jsstr) :
  0 <= seg_start s -> seg_start s <= seg_end s ->
  seg_end s * inject_Z sr <= inject_Z (Z.of_nat (length y)) ->
  Binary64.extractSegments normalize y (of_Z sr) [entry_of s]
  = Some (clips, logged) ->
  Forall (fun c =>
            exists (n : nat) (a b : Z),
              length (blob c) = (44 + 2 * n)%nat
              /\ SegmentRule.sample_index (seg_start s) sr = of_Z a
              /\ SegmentRule.sample_index (seg_end s) sr = of_Z b
              /\ Z.of_nat n = (b - a)%Z
              /\ (Qfloor (seg_start s * inject_Z sr) <= a
                  <= Qfloor (seg_start s * inject_Z sr) + 1)%Z
              /\ (Qfloor (seg_end s * inject_Z sr) <= b
                  <= Qfloor (seg_end s * inject_Z sr) + 1)%Z
              /\ (seg_end s - seg_start s) * inject_Z sr - 2
                 < inject_Z (Z.of_nat n)
              /\ inject_Z (Z.of_nat n)
                 < (seg_end s - seg_start s) * inject_Z sr + 2)
         clips.
Proof.
  intros Hs Hse He. change [entry_of s] with (map entry_of [s]).
  rewrite (extractSegments_rule normalize y sr [s]).
  intros [= <- _]. cbn [SegmentRule.clips_from]. rewrite app_nil_r.
  assert (0 < inject_Z sr) as Hsr
    by (change 0 with (inject_Z 0); rewrite <- Zlt_Qlt; exact rate_positive).
  assert (seg_start s * inject_Z sr <= inject_Z (Z.of_nat (length y)))
    as Hs'.
  { eapply Qle_trans; [|exact He]. apply Qmult_le_compat_r; lra. }
  destruct (sample_index_floor (seg_start s) Hs Hs')
    as (a & Ea & Fa & Ba).
  destruct (sample_index_floor (seg_end s) ltac:(lra) He)
    as (b & Eb & Fb & Bb).
  unfold SegmentRule.clips_of, SegmentRule.is_empty, SegmentRule.startIndex,
    SegmentRule.endIndex.
  rewrite Ea, Eb. unfold of_nat. rewrite Math_max_of_Z, Math_min_of_Z.
  rewrite Z.max_r, Z.min_r by lia.
  unfold num_le, of_Z. rewrite Qle_bool_inject_Z.
  destruct (Z.leb_spec b a) as [E|E]; constructor; [|constructor].
  fold (of_Z a). fold (of_Z b). rewrite slice_range by lia.
  unfold SegmentRule.clip_of. cbn [blob].
  pose proof (length_sample_range y a b ltac:(lia) ltac:(lia)) as Hlen.
  exists (length (sample_range y a b)), a, b.
  split; [rewrite length_app, length_wav_header, length_pcm_data; lia|].
  split; [reflexivity|]. split; [reflexivity|]. split; [exact Hlen|].
  split; [exact Fa|]. split; [exact Fb|].
  rewrite Hlen. unfold Z.sub. rewrite inject_Z_plus, inject_Z_opp.
  pose proof (Qlt_floor (seg_start s * inject_Z sr)) as H1.
  pose proof (Qfloor_le (seg_start s * inject_Z sr)) as H2.
  pose proof (Qlt_floor (seg_end s * inject_Z sr)) as H3.
  pose proof (Qfloor_le (seg_end s * inject_Z sr)) as H4.
  rewrite inject_Z_plus in H1, H3. change (inject_Z 1) with 1 in H1, H3.
  destruct Fa as [Fa1 Fa2]. destruct Fb as [Fb1 Fb2].
  rewrite Zle_Qle in Fa1, Fa2, Fb1, Fb2.
  rewrite inject_Z_plus in Fa2, Fb2. change (inject_Z 1) with 1 in Fa2, Fb2.
  split; lra.
Qed.

End ClipSamples.

(** On a buffer of 16000 samples at 44100 Hz, the segment from 0.35 s to
    0.36 s (the Numbers nearest to them) gives 442 samples, one more than
    the 441 of a hundredth of a second. *)
Lemma clip_sample_count_witness :
  exists c,
    Binary64.extractSegments nfkd_latin1 (replicate (4000 * 4) (Fin 0))
      (of_Z 44100)
      [entry_of (mkSegment (3152519739159347 # 9007199254740992)
                           (3242591731706757 # 9007199254740992) (js "ab"))]
    = Some ([c], [])
    /\ length (blob c) = (44 + 2 * 442)%nat
    /\ Forall (fun c =>
            exists (n : nat) (a b : Z),
              length (blob c) = (44 + 2 * n)%nat
              /\ SegmentRule.sample_index
                   (3152519739159347 # 9007199254740992) 44100 = of_Z a
              /\ SegmentRule.sample_index
                   (3242591731706757 # 9007199254740992) 44100 = of_Z b
              /\ Z.of_nat n = (b - a)%Z
              /\ (Qfloor ((3152519739159347 # 9007199254740992)
                          * inject_Z 44100) <= a
                  <= Qfloor ((3152519739159347 # 9007199254740992)
                             * inject_Z 44100) + 1)%Z
              /\ (Qfloor ((3242591731706757 # 9007199254740992)
                          * inject_Z 44100) <= b
                  <= Qfloor ((3242591731706757 # 9007199254740992)
                             * inject_Z 44100) + 1)%Z
              /\ (((3242591731706757 # 9007199254740992)
                   - (3152519739159347 # 9007199254740992))
                  * inject_Z 44100 - 2 < inject_Z (Z.of_nat n))%Q
              /\ (inject_Z (Z.of_nat n)
                  < ((3242591731706757 # 9007199254740992)
                     - (3152519739159347 # 9007199254740992))
                    * inject_Z 44100 + 2)%Q)
         [c].
Proof.
  eexists. split; [vm_compute; reflexivity|].
  split; [vm_compute; reflexivity|].
  apply (clip_sample_count nfkd_latin1 (replicate (4000 * 4) (Fin 0)) 44100
           eq_refl eq_refl
           (mkSegment (3152519739159347 # 9007199254740992)
                      (3242591731706757 # 9007199254740992) (js "ab")) _ []);
    [vm_compute; discriminate | vm_compute; discriminate
    | vm_compute; discriminate | vm_compute; reflexivity].
Defined.

(* ===================================================================== *)
(** * When the synthesized segments are valid                             *)
(* ===================================================================== *)

Section IncreasingOnsetsOnNumbers.

Local Open Scope Q_scope.

Lemma segment_ok_synthesized (e : entry) (x : num) :
  nonneg_number (start e) ->
  segment_ok (mkEntry (start e) (Some x) (text e)) = num_lt (start e) x.
Proof.
  unfold segment_ok. cbn [start end_].
  intros [->|(q & -> & Hq0)]; [reflexivity|].
  cbn [num_le of_Z]. apply Qle_bool_iff in Hq0.
  change (inject_Z 0) with 0. rewrite Hq0. reflexivity.
Qed.

Lemma synthesize_ends_valid (ts : list entry) :
  Forall entry_times_ok ts ->
  Forall (fun seg => segment_ok seg = true) (Binary64.synthesize_ends ts)
  <-> (forall i a b, ts !! i = Some a -> ts !! S i = Some b ->
                     num_lt (start a) (start b) = true)
      /\ (forall z, last ts = Some z ->
                    num_lt (start z) (Binary64.add (start z) (of_Z 3))
                    = true).
Proof.
  induction 1 as [|e ts [He _] Hts IH].
  - split; [|constructor]. intros _.
    split; [intros i a b Hi; discriminate Hi | intros z Hz; discriminate Hz].
  - cbn [Binary64.synthesize_ends]. rewrite Forall_cons, IH.
    rewrite segment_ok_synthesized by exact He.
    destruct ts as [|e' ts].
    + split.
      * intros [H0 _]. split; [intros [|i] a b Hi Hj; discriminate Hj|].
        intros z [= <-]. exact H0.
      * intros [_ Hz]. split; [apply Hz; reflexivity|].
        split; [intros i a b Hi; discriminate Hi|].
        intros z Hl; discriminate Hl.
    + rewrite last_cons_cons. split.
      * intros (H0 & Hrest & Hlast). split; [|exact Hlast].
        intros [|i] a b Hi Hj.
        -- cbn in Hi, Hj. injection Hi as <-. injection Hj as <-. exact H0.
        -- exact (Hrest i a b Hi Hj).
      * intros [Hall Hlast]. split; [|split; [|exact Hlast]].
        -- exact (Hall 0%nat e e' eq_refl eq_refl).
        -- intros i a b Hi Hj. exact (Hall (S i) a b Hi Hj).
Qed.

(** X11.  When the first timestamped line of a transcript carries no end
    (so that the ends are synthesized), all the segments returned satisfy
    [end > start >= 0] exactly when the starts of consecutive timestamped
    lines strictly increase and the last start plus 3.0 is a larger
    Number than the last start; the latter is so for every last start
    below 2^55. *)
Theorem synthesized_segments_valid (t : jsstr) (first : entry)
    (rest : list entry) :
  Binary64.parseEntries t = first :: rest -> end_ first = None ->
  (Forall (fun seg => segment_ok seg = true) (Binary64.parseTranscriptFile t)
   <-> (forall i a b,
           Binary64.parseEntries t !! i = Some a ->
           Binary64.parseEntries t !! S i = Some b ->
           num_lt (start a) (start b) = true)
       /\ (forall z, last (Binary64.parseEntries t) = Some z ->
                     num_lt (start z) (Binary64.add (start z) (of_Z 3))
                     = true))
  /\ (forall z q, last (Binary64.parseEntries t) = Some z ->
                  start z = Fin q -> q < 2 ^ 55 ->
                  num_lt (start z) (Binary64.add (start z) (of_Z 3)) = true).
Proof.
  intros Hp Hf. pose proof (parseEntries_times t) as Ht. split.
  - unfold Binary64.parseTranscriptFile, Binary64.synthesize.
    rewrite Hp in *. rewrite Hf. apply synthesize_ends_valid, Ht.
  - intros z q Hl Hq Hlt. apply last_Some_elem_of in Hl.
    rewrite Forall_forall in Ht. destruct (Ht z Hl) as [Hs _].
    rewrite Hq in *. destruct Hs as [Hs|(q' & Hs & H0)]; [discriminate|].
    injection Hs as <-. apply three_seconds_later; assumption.
Qed.

End IncreasingOnsetsOnNumbers.

(** Three onsets in order give three valid segments. *)
Lemma synthesized_segments_valid_witness :
  Forall (fun seg => segment_ok seg = true)
         (Binary64.parseTranscriptFile
            (js "[0:05] a" ++ [10%N] ++ js "[0:09] b" ++ [10%N]
             ++ js "[1:00] c")).
Proof.
  destruct (synthesized_segments_valid
              (js "[0:05] a" ++ [10%N] ++ js "[0:09] b" ++ [10%N]
               ++ js "[1:00] c")
              (mkEntry (of_Z 5) None (js "a"))
              [mkEntry (of_Z 9) None (js "b");
               mkEntry (of_Z 60) None (js "c")])
    as [[_ H] _]; [vm_compute; reflexivity | reflexivity |].
  apply H. split.
  - intros i a b Hi Hj.
    destruct i as [|[|[|i]]]; vm_compute in Hi, Hj; try discriminate;
      injection Hi as <-; injection Hj as <-; reflexivity.
  - intros z Hz. vm_compute in Hz. injection Hz as <-.
    vm_compute. reflexivity.
Defined.

(* ===================================================================== *)
(** * The archive of an extraction, on the Numbers of the program         *)
(* ===================================================================== *)

Section ArchiveOfExtraction.

Variable toString : Q -> jsstr.
Variable normalize : jsstr -> jsstr.
Variable y : list num.

Lemma add_files_objects (files : list clip) (idx : nat)
    (zip : gmap jsstr content) (meta : jsstr) :
  Forall (fun f => is_Some (end_time f)) files ->
  add_files toString files idx zip meta
  = Some (add_objects zip files,
          meta ++ object_entries toString (S idx) files).
Proof.
  intros H. revert idx zip meta.
  induction H as [|f files [e He] _ IH]; intros idx zip meta.
  - cbn. rewrite app_nil_r. reflexivity.
  - cbn [add_files object_entries].
    assert (manifest_entry toString idx f
            = Some (object_entry_text toString (S idx) f)) as ->.
    { unfold manifest_entry, object_entry_text. rewrite He, Nat.add_1_r.
      reflexivity. }
    cbn [mbind option_bind]. rewrite IH, <- app_assoc. reflexivity.
Qed.

Lemma lookup_add_objects_other (files : list clip)
    (zip : gmap jsstr content) (name : jsstr) :
  name ∉ map filename files -> add_objects zip files !! name = zip !! name.
Proof.
  revert zip. induction files as [|f files IH]; intros zip H; [reflexivity|].
  cbn [map] in H. apply not_elem_of_cons in H as [Hne Hnot].
  cbn [add_objects foldl]. unfold add_objects in IH.
  rewrite IH by exact Hnot.
  unfold zip_file. rewrite lookup_insert_ne by congruence. reflexivity.
Qed.

Lemma lookup_add_objects (files : list clip) (zip : gmap jsstr content)
    (f : clip) :
  NoDup (map filename files) -> f ∈ files ->
  add_objects zip files !! filename f = Some (Binary (blob f)).
Proof.
  revert zip. induction files as [|f' files IH]; intros zip Hnd Hin.
  - apply elem_of_nil in Hin as [].
  - cbn [map] in Hnd. apply NoDup_cons in Hnd as [Hnot Hnd].
    apply elem_of_cons in Hin as [->|Hin].
    + change (add_objects zip (f' :: files))
        with (add_objects (zip_file (filename f') (Binary (blob f')) zip)
                          files).
      rewrite lookup_add_objects_other by exact Hnot.
      apply lookup_insert_eq.
    + apply IH; assumption.
Qed.

Lemma size_add_objects (files : list clip) (zip : gmap jsstr content) :
  NoDup (map filename files) ->
  (forall f, f ∈ files -> zip !! filename f = None) ->
  size (add_objects zip files) = (size zip + length files)%nat.
Proof.
  revert zip. induction files as [|f files IH]; intros zip Hnd Hnew.
  - cbn. lia.
  - cbn [map] in Hnd. apply NoDup_cons in Hnd as [Hnot Hnd].
    change (add_objects zip (f :: files))
      with (add_objects (zip_file (filename f) (Binary (blob f)) zip) files).
    rewrite IH; [|exact Hnd|].
    + unfold zip_file. rewrite map_size_insert_None.
      * cbn [length]. lia.
      * apply Hnew. left.
    + intros f' Hin. unfold zip_file. rewrite lookup_insert_ne.
      * apply Hnew. right. exact Hin.
      * intros Heq. apply Hnot. rewrite Heq.
        apply list_elem_of_In, in_map, list_elem_of_In, Hin.
Qed.

(** The clips of a run have pairwise distinct file names, none of which
    is the name of the manifest, and each has the end of its segment. *)
Lemma extract_loop_clips (rate : num) (segments : list entry) (k : nat)
    (out clips : list clip) (logged logged' : list jsstr) :
  Binary64.extract_loop normalize y rate segments k out logged
  = Some (clips, logged') ->
  Forall (fun seg => is_Some (end_ seg)) segments ->
  NoDup (map filename out) ->
  Forall (fun c => (filename_index (filename c) <= Z.of_nat k)%Z
                   /\ filename c <> js "metadata.txt"
                   /\ is_Some (end_time c)) out ->
  NoDup (map filename clips)
  /\ Forall (fun c => filename c <> js "metadata.txt"
                      /\ is_Some (end_time c)) clips.
Proof.
  revert k out logged.
  induction segments as [|seg segments IH]; intros k out logged.
  - cbn. intros [= <- _] _ Hnd Hall. split; [exact Hnd|].
    eapply Forall_impl; [exact Hall|]. cbn beta. tauto.
  - cbn [Binary64.extract_loop]. intros Hx Hsegs Hnd Hall.
    apply Forall_cons in Hsegs as [Hend Hsegs].
    assert (Forall (fun c => (filename_index (filename c) <= Z.of_nat (S k))%Z
                             /\ filename c <> js "metadata.txt"
                             /\ is_Some (end_time c)) out) as Hall'.
    { eapply Forall_impl; [exact Hall|]. cbn beta.
      intros c (H1 & H2 & H3). repeat split; [lia | exact H2 | exact H3]. }
    destruct (num_le (Binary64.end_index (length y) rate seg)
                     (Binary64.start_index rate seg)).
    + exact (IH _ _ _ Hx Hsegs Hnd Hall').
    + rewrite encodeWAV_layout in Hx. cbn [mbind option_bind] in Hx.
      apply (IH _ _ _ Hx Hsegs).
      * rewrite map_app. apply NoDup_app. split; [exact Hnd|].
        split; [|apply NoDup_singleton].
        intros name Hin Hnew. cbn [map filename] in Hnew.
        apply list_elem_of_singleton in Hnew. subst name.
        apply list_elem_of_In, in_map_iff in Hin as (c & Hc & Hin).
        rewrite Forall_forall in Hall. apply list_elem_of_In in Hin.
        destruct (Hall c Hin) as (Hle & _).
        rewrite Hc, clip_filename_index in Hle. lia.
      * apply Forall_app. split; [exact Hall'|].
        constructor; [|constructor]. cbn [filename end_time].
        rewrite clip_filename_index.
        repeat split; [lia | apply clip_filename_not_manifest | exact Hend].
Qed.

(** C9, as amended.  For segments that have an end, extraction returns
    clips on which [makeZip] succeeds: the file names are pairwise
    distinct and none is that of the manifest, the archive holds every
    clip's bytes under its file name, one file per clip next to the
    manifest, and the manifest is the title followed by one entry per
    clip, in order, of the stated form.  A time below 10^21 seconds is
    written with two decimals; from 10^21 on it is written as
    Number::toString writes it, and an infinite one as "Infinity". *)
Theorem makeZip_contents (rate : num) (segments : list entry) :
  Forall (fun seg => is_Some (end_ seg)) segments ->
  exists clips logged zip,
    Binary64.extractSegments normalize y rate segments
    = Some (clips, logged)
    /\ makeZip toString clips = Some zip
    /\ zip !! js "metadata.txt"
       = Some (Text (manifest_header ++ object_entries toString 1 clips))
    /\ (forall c, c ∈ clips -> zip !! filename c = Some (Binary (blob c)))
    /\ NoDup (map filename clips)
    /\ (js "metadata.txt" ∉ map filename clips)
    /\ size zip = S (length clips)
    /\ (forall q : Q, (Qabs q < inject_Z (10 ^ 21))%Q ->
                      two_decimals q (toFixed toString 2 (Fin q)))
    /\ (forall q : Q, (inject_Z (10 ^ 21) <= Qabs q)%Q ->
                      toFixed toString 2 (Fin q) = toString q)
    /\ toFixed toString 2 PInf = js "Infinity".
Proof.
  intros Hsegs.
  destruct (extract_loop_returns normalize y rate segments 0 [] [])
    as [[clips logged] Hx].
  destruct (extract_loop_clips _ _ _ _ _ _ _ Hx Hsegs) as [Hnd Hall];
    [constructor | constructor |].
  assert (js "metadata.txt" ∉ map filename clips) as Hmeta.
  { intros Hin. apply list_elem_of_In, in_map_iff in Hin as (c & Hc & Hin).
    rewrite Forall_forall in Hall. apply list_elem_of_In in Hin.
    destruct (Hall c Hin) as [Hne _]. exact (Hne Hc). }
  exists clips, logged. eexists. split; [exact Hx|].
  unfold makeZip. rewrite add_files_objects.
  2:{ eapply Forall_impl; [exact Hall|]. cbn beta. tauto. }
  cbn [mbind option_bind]. split; [reflexivity|].
  split; [apply lookup_insert_eq|].
  split; [|split; [exact Hnd|split; [exact Hmeta|split; [|split; [|split]]]]].
  - intros c Hin. unfold zip_file at 1. rewrite lookup_insert_ne.
    + apply lookup_add_objects; assumption.
    + intros Heq. apply Hmeta. rewrite Heq.
      apply list_elem_of_In, in_map, list_elem_of_In, Hin.
  - unfold zip_file at 1. rewrite map_size_insert_None.
    + rewrite size_add_objects; [|exact Hnd|intros; apply lookup_empty].
      rewrite map_size_empty. reflexivity.
    + rewrite lookup_add_objects_other by exact Hmeta. apply lookup_empty.
  - apply toFixed_two_decimals.
  - intros q Hq. unfold toFixed.
    rewrite (proj2 (Qle_bool_iff _ _) Hq). reflexivity.
  - reflexivity.
Qed.

End ArchiveOfExtraction.

(** Two segments on a buffer of 40 samples at 2 Hz. *)
Lemma makeZip_contents_witness :
  exists clips logged zip,
    Binary64.extractSegments nfkd_latin1 (replicate 40 (Fin 0)) (of_Z 2)
      (map entry_of [mkSegment 0 1 (js "one");
                     mkSegment 1 (5 # 2) (js "two")])
    = Some (clips, logged)
    /\ makeZip no_exponent clips = Some zip
    /\ zip !! js "metadata.txt"
       = Some (Text (manifest_header ++ object_entries no_exponent 1 clips))
    /\ (forall c, c ∈ clips -> zip !! filename c = Some (Binary (blob c)))
    /\ NoDup (map filename clips)
    /\ (js "metadata.txt" ∉ map filename clips)
    /\ size zip = S (length clips)
    /\ (forall q : Q, (Qabs q < inject_Z (10 ^ 21))%Q ->
                      two_decimals q (toFixed no_exponent 2 (Fin q)))
    /\ (forall q : Q, (inject_Z (10 ^ 21) <= Qabs q)%Q ->
                      toFixed no_exponent 2 (Fin q) = no_exponent q)
    /\ toFixed no_exponent 2 PInf = js "Infinity".
Proof.
  apply (makeZip_contents no_exponent nfkd_latin1 (replicate 40 (Fin 0))
           (of_Z 2)
           (map entry_of [mkSegment 0 1 (js "one");
                          mkSegment 1 (5 # 2) (js "two")])).
  repeat constructor; eexists; reflexivity.
Defined.

(** The entries of that manifest. *)
Lemma manifest_of_two_clips :
  exists clips logged,
    Binary64.extractSegments nfkd_latin1 (replicate 40 (Fin 0)) (of_Z 2)
      (map entry_of [mkSegment 0 1 (js "one");
                     mkSegment 1 (5 # 2) (js "two")])
    = Some (clips, logged)
    /\ object_entries no_exponent 1 clips
       = js "Segment 1: segment_001_one.wav" ++ nl
         ++ js "  Text: one" ++ nl
         ++ js "  Start: 0.00s" ++ nl
         ++ js "  End: 1.00s" ++ nl
         ++ js "  Duration: 1.00s" ++ nl ++ nl
         ++ js "Segment 2: segment_002_two.wav" ++ nl
         ++ js "  Text: two" ++ nl
         ++ js "  Start: 1.00s" ++ nl
         ++ js "  End: 2.50s" ++ nl
         ++ js "  Duration: 1.50s" ++ nl ++ nl.
Proof. eexists _, _. split; vm_compute; reflexivity. Qed.

(** C9 fails: a timestamp beyond the range of the Numbers is read as
    [Infinity], and the manifest then says "End: Infinitys" and
    "Duration: Infinitys". *)
Lemma manifest_time_not_decimal :
  exists clips,
    Binary64.extractSegments nfkd_latin1 (replicate 4 (Fin 0)) (of_Z 2)
      (Binary64.parseTranscriptFile
         (js "0 - 1" ++ replicate 309 48%N ++ js " far"))
    = Some (clips, [])
    /\ map end_time clips = [Some PInf]
    /\ object_entries no_exponent 1 clips
       = js "Segment 1: segment_001_far.wav" ++ nl
         ++ js "  Text: far" ++ nl
         ++ js "  Start: 0.00s" ++ nl
         ++ js "  End: Infinitys" ++ nl
         ++ js "  Duration: Infinitys" ++ nl ++ nl
    /\ exists zip,
         makeZip no_exponent clips = Some zip
         /\ zip !! js "metadata.txt"
            = Some (Text (manifest_header
                          ++ object_entries no_exponent 1 clips)).
Proof.
  eexists. split; [vm_compute; reflexivity|].
  split; [reflexivity|]. split; [vm_compute; reflexivity|].
  eexists. split; [reflexivity|]. apply lookup_insert_eq.
Qed.

(* ===================================================================== *)
(** * The names a second pass of [safeFilename] changes                   *)
(* ===================================================================== *)

Section SanitizerFixedPoints.

Variable normalize : jsstr -> jsstr.
Hypothesis normalize_ascii :
  forall s, forallb is_ascii s = true -> normalize s = s.

Lemma safeFilename_cut (t : jsstr) :
  safeFilename normalize t = slice0 25 (untruncated normalize t).
Proof. reflexivity. Qed.

(** The name before the cut does not end in an underscore or a period. *)
Lemma untruncated_ends_clean (t : jsstr) :
  ends_clean (untruncated normalize t) = true.
Proof.
  unfold untruncated, strip_edges. cbv zeta.
  destruct (length _ <? 2)%nat; [reflexivity|].
  unfold ends_clean.
  destruct (last (reverse (drop_while is_edge (reverse _)))) as [c|] eqn:E;
    [|reflexivity].
  apply rstrip_last in E. rewrite E. reflexivity.
Qed.

(** A name that ends in an underscore or a period was cut right after
    it. *)
Lemma unclean_end_cut (t : jsstr) :
  ends_clean (safeFilename normalize t) = false ->
  (25 < length (untruncated normalize t))%nat
  /\ length (safeFilename normalize t) = 25%nat
  /\ exists c, untruncated normalize t !! 24%nat = Some c
               /\ is_edge c = true.
Proof.
  rewrite safeFilename_cut. unfold slice0. intros H.
  destruct (Nat.le_gt_cases (length (untruncated normalize t)) 25)
    as [Hle|Hgt].
  - rewrite take_ge in H by lia.
    rewrite untruncated_ends_clean in H. discriminate.
  - split; [exact Hgt|]. split; [rewrite length_take; lia|].
    unfold ends_clean in H. rewrite last_lookup, length_take in H.
    replace (Init.Nat.pred (25 `min` length (untruncated normalize t)))
      with 24%nat in H by lia.
    rewrite lookup_take_lt in H by lia.
    destruct (untruncated normalize t !! 24%nat) as [c|]; [|discriminate].
    exists c. split; [reflexivity|]. apply negb_false_iff, H.
Qed.

(** The second pass on such a name trims its end, or falls back. *)
Lemma second_pass (o : jsstr) :
  sanitized_shape o ->
  safeFilename normalize o
  = let s := reverse (drop_while is_edge (reverse o)) in
    if (length s <? 2)%nat then js "audio_segment" else s.
Proof.
  intros Hs. rewrite (safeFilename_on_sanitized normalize normalize_ascii o Hs).
  destruct Hs as (_ & _ & _ & Hl). cbv zeta.
  destruct (rstrip_take is_edge o) as [n [Hn ->]].
  destruct (length (take n o) <? 2)%nat; [reflexivity|].
  unfold slice0. apply take_ge. rewrite length_take. lia.
Qed.

(** C10, as amended.  Sanitizing a sanitized name returns it unchanged
    exactly when the name does not end in an underscore or a period.  A
    name ends in one only when the cut at 25 characters falls right after
    it: the name before the cut is longer than 25 characters and has the
    underscore or the period as its 25th.  The second pass then removes
    the underscores and periods at the end, and gives a shorter name, or
    "audio_segment" when fewer than two characters are left. *)
Theorem safeFilename_idempotent_iff (t : jsstr) :
  (safeFilename normalize (safeFilename normalize t)
   = safeFilename normalize t
   <-> ends_clean (safeFilename normalize t) = true)
  /\ safeFilename normalize t = slice0 25 (untruncated normalize t)
  /\ (ends_clean (safeFilename normalize t) = false ->
      (25 < length (untruncated normalize t))%nat
      /\ length (safeFilename normalize t) = 25%nat
      /\ (exists c, untruncated normalize t !! 24%nat = Some c
                    /\ is_edge c = true)
      /\ safeFilename normalize (safeFilename normalize t)
         = (let s := reverse (drop_while is_edge
                                (reverse (safeFilename normalize t))) in
            if (length s <? 2)%nat then js "audio_segment" else s)
      /\ (length (safeFilename normalize (safeFilename normalize t)) < 25)%nat
      /\ ends_clean (safeFilename normalize (safeFilename normalize t))
         = true).
Proof.
  pose proof (safeFilename_shape normalize t) as Hs.
  split; [|split; [reflexivity|]].
  - split.
    + intros Heq. destruct (ends_clean _) eqn:E; [reflexivity|].
      exfalso. exact (safeFilename_moves normalize normalize_ascii _ Hs E Heq).
    + apply safeFilename_fixed; assumption.
  - intros He. destruct (unclean_end_cut t He) as (H1 & H2 & H3).
    split; [exact H1|]. split; [exact H2|]. split; [exact H3|].
    split; [apply second_pass, Hs|]. split.
    + rewrite (second_pass _ Hs). cbv zeta.
      unfold ends_clean in He.
      destruct (last (safeFilename normalize t)) as [c|] eqn:Hl;
        [|discriminate].
      apply negb_false_iff in He.
      pose proof (rstrip_shorter is_edge _ c Hl He) as Hlt.
      destruct (length _ <? 2)%nat; [cbn; lia | lia].
    + rewrite (second_pass _ Hs). cbv zeta.
      destruct (length _ <? 2)%nat; [reflexivity|].
      unfold ends_clean.
      destruct (last (reverse (drop_while is_edge (reverse _)))) as [c|]
        eqn:E; [|reflexivity].
      apply rstrip_last in E. rewrite E. reflexivity.
Qed.

End SanitizerFixedPoints.

(** The criterion at a name that a second pass leaves alone, and the cut
    at one that it changes: "aaaaaaaaaaaaaaaaaaaaaaaa_b" is cut after its
    underscore, the 25th character. *)
Lemma safeFilename_idempotent_iff_witness :
  (safeFilename nfkd_latin1 (safeFilename nfkd_latin1 (js "hello world"))
   = safeFilename nfkd_latin1 (js "hello world")
   <-> ends_clean (safeFilename nfkd_latin1 (js "hello world")) = true)
  /\ ends_clean (safeFilename nfkd_latin1 (js "hello world")) = true
  /\ (25 < length (untruncated nfkd_latin1
                     (js "aaaaaaaaaaaaaaaaaaaaaaaa_b")))%nat
  /\ safeFilename nfkd_latin1
       (safeFilename nfkd_latin1 (js "aaaaaaaaaaaaaaaaaaaaaaaa_b"))
     = js "aaaaaaaaaaaaaaaaaaaaaaaa".
Proof.
  split; [|split; [vm_compute; reflexivity|]].
  - exact (proj1 (safeFilename_idempotent_iff nfkd_latin1 nfkd_latin1_ascii
                    (js "hello world"))).
  - destruct (safeFilename_idempotent_iff nfkd_latin1 nfkd_latin1_ascii
                (js "aaaaaaaaaaaaaaaaaaaaaaaa_b")) as (_ & _ & H).
    destruct (H ltac:(vm_compute; reflexivity)) as (H1 & _ & _ & H4 & _).
    split; [exact H1|]. rewrite H4. vm_compute. reflexivity.
Defined.
